(** * dex-contacts: content blocks, content hashes and the inline
      [%%dex:...%%] annotation

    A shallow embedding of the sync core of the plugin:

    - [src/utils/content-hash.ts]            ([simpleHash])
    - [src/constants.ts]                     (the regular expressions)
    - [src/utils/content-block-detector.ts]  ([detectContentBlock])
    - [src/utils/content-processor.ts]       ([getContentBlock])
    - [src/ui/sync-buttons/codemirror-extension.ts] ([findContentBlockEnd])
    - [main.ts]                              ([countMemos],
                                              [performAutoSync],
                                              [syncCurrentLine],
                                              [syncAllMemos],
                                              [cleanupDexTags])
    - [src/core/memo-manager.ts]             ([syncContactMemo])
    - [src/api/client.ts]                    (the remote client)
    - [src/utils/contact-selection-manager.ts] ([onContactSelected])
    - [src/utils/content-processor.ts]       ([findContactsInLine])
    - [src/core/contact-manager.ts]          (the shared contact list)
    - [src/ui/sync-buttons/codemirror-extension.ts]
                                             ([createSyncButtonDecorations])
    - [src/utils/markdown-converter.ts]      ([processListsToHtml])
    - [src/utils/contact-link-extractor.ts]  ([parseContactName])
    - [src/utils/debug-logger.ts]            (the bounded log)

    JavaScript strings are sequences of UTF-16 code units; regular
    expressions are run by a backtracking matcher that follows the
    ECMAScript semantics for the constructs the plugin uses.  The
    patterns the plugin builds at run time with [new RegExp] are read
    from their source text, into which a contact id is spliced as it
    is, and the replacement strings, into which the ids and the hash
    are spliced, are expanded as [String.prototype.replace] expands
    them. *)

From Stdlib Require Import String Ascii.
From Stdlib Require Import List NArith ZArith Bool Lia Sorted.
Import ListNotations.

Set Implicit Arguments.

(* ================================================================== *)
(** * JavaScript strings *)
(* ================================================================== *)

(** A UTF-16 code unit ([String.prototype.charCodeAt]). *)
Definition char := N.

(** A JavaScript string. *)
Definition str := list char.

(** Embedding of an ASCII literal of the source. *)
Fixpoint js (s : string) : str :=
  match s with
  | EmptyString => []
  | String a s' => N_of_ascii a :: js s'
  end.

Definition str_eqb (a b : str) : bool :=
  if list_eq_dec N.eq_dec a b then true else false.

(** JavaScript truthiness of a string value that may be [undefined] or
    [null]: only a non-empty string is truthy. *)
Definition truthy (o : option str) : bool :=
  match o with
  | Some (_ :: _) => true
  | _ => false
  end.

(** [x || undefined] on such a value. *)
Definition or_undefined (o : option str) : option str :=
  if truthy o then o else None.

(** ECMAScript [WhiteSpace] and [LineTerminator] code units: the set
    matched by [\s] and removed by [String.prototype.trim]. *)
Definition is_ws (c : char) : bool :=
  ((9 <=? c) && (c <=? 13) || (c =? 32) || (c =? 160) || (c =? 5760)
   || ((8192 <=? c) && (c <=? 8202)) || (c =? 8232) || (c =? 8233)
   || (c =? 8239) || (c =? 8287) || (c =? 12288) || (c =? 65279))%N.

(** ECMAScript [LineTerminator] code units. *)
Definition is_line_terminator (c : char) : bool :=
  ((c =? 10) || (c =? 13) || (c =? 8232) || (c =? 8233))%N.

Definition is_digit (c : char) : bool := ((48 <=? c) && (c <=? 57))%N.

Fixpoint trimStart (s : str) : str :=
  match s with
  | c :: s' => if is_ws c then trimStart s' else s
  | [] => []
  end.

Definition trimEnd (s : str) : str := rev (trimStart (rev s)).

(** [String.prototype.trim]. *)
Definition trim (s : str) : str := trimEnd (trimStart s).

(** [String.prototype.startsWith]. *)
Fixpoint startsWith (s p : str) : bool :=
  match p, s with
  | [], _ => true
  | a :: p', b :: s' => (a =? b)%N && startsWith s' p'
  | _ :: _, [] => false
  end.

(** [Array.prototype.join] with a separator. *)
Fixpoint join (sep : str) (l : list str) : str :=
  match l with
  | [] => []
  | [x] => x
  | x :: l' => x ++ sep ++ join sep l'
  end.

Definition newline : str := [10%N].

(* ================================================================== *)
(** * Regular expressions *)
(* ================================================================== *)

(** The fragment of ECMAScript patterns used by the plugin.  Quantifiers
    are greedy; [Grp n r] is the n-th capturing group.  No pattern of the
    plugin puts a capturing group under a quantifier that iterates, so
    the per-iteration reset of captures never shows. *)
Inductive regex : Type :=
| Eps : regex
| Chr (p : char -> bool) : regex
| Seq (r1 r2 : regex) : regex
| Alt (r1 r2 : regex) : regex
| Star (r : regex) : regex
| Grp (n : nat) (r : regex) : regex.

Definition caps := nat -> option str.

Definition no_caps : caps := fun _ => None.

Definition set_cap (n : nat) (v : str) (c : caps) : caps :=
  fun i => if Nat.eqb i n then Some v else c i.

(** A match state is the rest of the input together with the captures;
    a continuation either completes the match or fails, which makes the
    caller backtrack. *)
Definition mstate : Type := (str * caps)%type.
Definition cont := str -> caps -> option mstate.

Definition accept : cont := fun s c => Some (s, c).

(** Greedy iteration: try one more round of the body first, and only if
    the rest of the pattern then fails continue without it.  A round that
    consumes nothing is rejected, as in the RepeatMatcher of ECMA-262. *)
Fixpoint star_loop (body : str -> caps -> cont -> option mstate)
    (fuel : nat) (s : str) (c : caps) (k : cont) : option mstate :=
  match fuel with
  | O => k s c
  | S fuel' =>
      match body s c (fun s' c' =>
                        if Nat.ltb (length s') (length s)
                        then star_loop body fuel' s' c' k
                        else None) with
      | Some x => Some x
      | None => k s c
      end
  end.

Fixpoint rmatch (r : regex) (s : str) (c : caps) (k : cont) {struct r}
  : option mstate :=
  match r with
  | Eps => k s c
  | Chr p =>
      match s with
      | x :: s' => if p x then k s' c else None
      | [] => None
      end
  | Seq r1 r2 => rmatch r1 s c (fun s' c' => rmatch r2 s' c' k)
  | Alt r1 r2 =>
      match rmatch r1 s c k with
      | Some x => Some x
      | None => rmatch r2 s c k
      end
  | Star r' => star_loop (rmatch r') (length s) s c k
  | Grp n r' =>
      rmatch r' s c
        (fun s' c' => k s' (set_cap n (firstn (length s - length s') s) c'))
  end.

(** Derived forms. *)
Definition Plus (r : regex) : regex := Seq r (Star r).
Definition Opt (r : regex) : regex := Alt r Eps.

Fixpoint AtMost (n : nat) (r : regex) : regex :=
  match n with
  | O => Eps
  | S n' => Opt (Seq r (AtMost n' r))
  end.

(** [r{1,n}]. *)
Definition Between1 (n : nat) (r : regex) : regex := Seq r (AtMost (n - 1) r).

Definition eqc (a : char) : char -> bool := N.eqb a.
Definition none_of (l : list char) : char -> bool :=
  fun x => negb (existsb (N.eqb x) l).

(** A literal run of characters. *)
Fixpoint Lit (l : str) : regex :=
  match l with
  | [] => Eps
  | a :: l' => Seq (Chr (eqc a)) (Lit l')
  end.

(** Canonicalize of ECMA-262 (flag [i], no flag [u]) restricted to the
    ASCII pattern characters the plugin writes: upper-casing never maps a
    code unit of 128 or more onto an ASCII one, so an ASCII pattern
    character matches exactly its two ASCII cases. *)
Definition upper (c : char) : char :=
  if ((97 <=? c) && (c <=? 122))%N then (c - 32)%N else c.

Definition eqc_i (a : char) : char -> bool := fun x => N.eqb (upper a) (upper x).

(** A literal run under flag [i]. *)
Fixpoint LitI (l : str) : regex :=
  match l with
  | [] => Eps
  | a :: l' => Seq (Chr (eqc_i a)) (LitI l')
  end.

(** Whether the pattern can match the empty string. *)
Fixpoint nullable (r : regex) : bool :=
  match r with
  | Eps => true
  | Chr _ => false
  | Seq r1 r2 => nullable r1 && nullable r2
  | Alt r1 r2 => nullable r1 || nullable r2
  | Star _ => true
  | Grp _ r' => nullable r'
  end.

(** Whether the pattern holds a capturing group. *)
Fixpoint has_group (r : regex) : bool :=
  match r with
  | Eps | Chr _ => false
  | Seq r1 r2 | Alt r1 r2 => has_group r1 || has_group r2
  | Star r' => has_group r'
  | Grp _ _ => true
  end.

(** ** Searching: [RegExp.prototype.exec] without flag [g] *)

(** The result of a successful search: the text before the match, the
    text after it and the captures. *)
Record found : Type := Found {
  before : str;
  after : str;
  groups : caps
}.

(** Try the pattern at every index from the left, index [length s]
    included. *)
Fixpoint exec (r : regex) (s : str) : option found :=
  match rmatch r s no_caps accept with
  | Some (rest, c) => Some (Found [] rest c)
  | None =>
      match s with
      | [] => None
      | x :: s' =>
          match exec r s' with
          | Some f => Some (Found (x :: before f) (after f) (groups f))
          | None => None
          end
      end
  end.

(** [RegExp.prototype.test] (no flag [g]). *)
Definition test (r : regex) (s : str) : bool :=
  match exec r s with Some _ => true | None => false end.

(** [test] for a pattern that starts with [^] (no flag [m]): the
    assertion fails at every index but 0, so only the first iteration of
    the search can succeed. *)
Definition test_anchored (r : regex) (s : str) : bool :=
  match rmatch r s no_caps accept with Some _ => true | None => false end.

(** [String.prototype.search]: index of the first match, or -1. *)
Definition search (r : regex) (s : str) : Z :=
  match exec r s with
  | Some f => Z.of_nat (length (before f))
  | None => (-1)%Z
  end.

(** [String.prototype.replace] with a pattern without flag [g]: the
    first match is replaced by the expansion of the template, given here
    as a function of the captures ([$1], [$2]). *)
Definition replace (r : regex) (template : caps -> str) (s : str) : str :=
  match exec r s with
  | Some f => before f ++ template (groups f) ++ after f
  | None => s
  end.

(** [s.replace(r, '')] with a pattern with flag [g]: every match is
    removed, scanning on from the end of the previous match; after an
    empty match the scan advances by one code unit. *)
Fixpoint removeAll_fuel (fuel : nat) (r : regex) (s : str) : str :=
  match fuel with
  | O => s
  | S fuel' =>
      match exec r s with
      | None => s
      | Some f =>
          if Nat.ltb (length (before f) + length (after f)) (length s)
          then before f ++ removeAll_fuel fuel' r (after f)
          else match after f with
               | [] => before f
               | x :: rest => before f ++ x :: removeAll_fuel fuel' r rest
               end
      end
  end.

Definition removeAll (r : regex) (s : str) : str :=
  removeAll_fuel (S (length s)) r s.

(** The text of a capture, [''] when the group did not take part. *)
Definition cap_text (c : caps) (n : nat) : str :=
  match c n with Some v => v | None => [] end.

(** ** Replacement templates *)

Definition digitValue (c : char) : nat := N.to_nat (c - 48).

(** GetSubstitution of ECMA-262 for a pattern with [m] capturing groups,
    none of them named: in the template [$$] stands for a dollar sign,
    [$&] for the matched text, [$`] and [$'] for the text before and
    after it, [$n] and [$nn] for a capture; a two-digit reference beyond
    [m] is read as a one-digit reference followed by a digit, a
    reference that names no group stays as it is written, and so does
    any other dollar sign. *)
Fixpoint getSubstitution (matched preceding following : str)
    (captures : caps) (m : nat) (template : str) {struct template} : str :=
  match template with
  | [] => []
  | x :: t =>
      if negb (x =? 36)%N
      then x :: getSubstitution matched preceding following captures m t
      else
        match t with
        | [] => [x]
        | y :: t' =>
            if (y =? 36)%N
            then y :: getSubstitution matched preceding following captures m t'
            else if (y =? 96)%N
            then preceding
                 ++ getSubstitution matched preceding following captures m t'
            else if (y =? 38)%N
            then matched
                 ++ getSubstitution matched preceding following captures m t'
            else if (y =? 39)%N
            then following
                 ++ getSubstitution matched preceding following captures m t'
            else if is_digit y
            then
              let one := digitValue y in
              let oneDigit :=
                if Nat.leb 1 one && Nat.leb one m
                then cap_text captures one
                     ++ getSubstitution matched preceding following captures
                          m t'
                else x :: y
                     :: getSubstitution matched preceding following captures
                          m t' in
              match t' with
              | z :: t'' =>
                  if is_digit z
                  then
                    let two := 10 * one + digitValue z in
                    if Nat.leb two m
                    then
                      if Nat.leb 1 two
                      then cap_text captures two
                           ++ getSubstitution matched preceding following
                                captures m t''
                      else x :: y :: z
                           :: getSubstitution matched preceding following
                                captures m t''
                    else oneDigit
                  else oneDigit
              | [] => oneDigit
              end
            else x :: getSubstitution matched preceding following captures m t
        end
  end.

(** [String.prototype.replace] with a pattern without flag [g] that has
    [m] capturing groups, and a string template. *)
Definition replaceWith (r : regex) (m : nat) (template : str) (s : str)
  : str :=
  match exec r s with
  | Some f =>
      let matched :=
        firstn (length s - length (before f) - length (after f))
          (skipn (length (before f)) s) in
      before f
      ++ getSubstitution matched (before f) (after f) (groups f) m template
      ++ after f
  | None => s
  end.

Infix "##" := Seq (at level 60, right associativity).

(* ================================================================== *)
(** * The patterns of [src/constants.ts] and of the detector *)
(* ================================================================== *)

(** The class "[^,%)]". *)
Definition field_char : char -> bool := none_of (js ",%)").

(** "/%%dex:(?:contact-id=([^,%)]+))?(?:,memo-id=([^,%)]+))?(?:,hash=([^,%)]+))?%%/" *)
Definition MEMO_ID_PATTERN : regex :=
  Lit (js "%%dex:")
  ## Opt (Lit (js "contact-id=") ## Grp 1 (Plus (Chr field_char)))
  ## Opt (Lit (js ",memo-id=") ## Grp 2 (Plus (Chr field_char)))
  ## Opt (Lit (js ",hash=") ## Grp 3 (Plus (Chr field_char)))
  ## Lit (js "%%").

(** "/%%dex:[^%]*%%/g" *)
Definition MEMO_ID_CLEANUP_PATTERN : regex :=
  Lit (js "%%dex:") ## Star (Chr (none_of (js "%"))) ## Lit (js "%%").

(** "/\S/" *)
Definition NON_SPACE : regex := Chr (fun c => negb (is_ws c)).

(** "/^(\*|-|\+|\d+\.|\d+\))\s/", to be run with [test_anchored]. *)
Definition LIST_ITEM : regex :=
  Grp 1 (Alt (Lit (js "*"))
        (Alt (Lit (js "-"))
        (Alt (Lit (js "+"))
        (Alt (Plus (Chr is_digit) ## Lit (js "."))
             (Plus (Chr is_digit) ## Lit (js ")"))))))
  ## Chr is_ws.

(** "/^>\s/", to be run with [test_anchored]. *)
Definition BLOCKQUOTE : regex := Lit (js ">") ## Chr is_ws.

(** "/^#{1,6}\s/", to be run with [test_anchored]. *)
Definition HEADER : regex := Between1 6 (Lit (js "#")) ## Chr is_ws.

(** The link pattern of [countMemos], its tokens spaced out:
    "\[ ( [^\]]* ) \] \( https:\/\/getdex\.com\/appv3\/contacts\/details\/ ( [^)]+ ) \)" *)
Definition HAS_DEX_URL_LINK : regex :=
  Lit (js "[") ## Grp 1 (Star (Chr (none_of (js "]"))))
  ## Lit (js "](https://getdex.com/appv3/contacts/details/")
  ## Grp 2 (Plus (Chr (none_of (js ")")))) ## Lit (js ")").

(** The pattern "/\[\[([^\]|]+)(?:\|([^\]]+))?\]\]/" of [countMemos]. *)
Definition HAS_VAULT_LINK : regex :=
  Lit (js "[[") ## Grp 1 (Plus (Chr (none_of (js "]|"))))
  ## Opt (Lit (js "|") ## Grp 2 (Plus (Chr (none_of (js "]")))))
  ## Lit (js "]]").

(* ================================================================== *)
(** * [src/utils/content-hash.ts] *)
(* ================================================================== *)

(** ToInt32 of ECMA-262. *)
Definition toInt32 (z : Z) : Z :=
  ((z + 2147483648) mod 4294967296 - 2147483648)%Z.

(** One round of the loop of [simpleHash]:
    [hash = ((hash << 5) - hash) + char; hash = hash & hash]. *)
Definition hash_step (hash : Z) (c : char) : Z :=
  toInt32 (toInt32 (Z.shiftl hash 5) - hash + Z.of_N c)%Z.

Definition digit36 (d : Z) : char :=
  if (d <? 10)%Z then Z.to_N (48 + d) else Z.to_N (87 + d).

(** [Number.prototype.toString(36)] on a non-negative integer below
    [36 ^ fuel]. *)
Fixpoint digits36 (fuel : nat) (n : Z) : str :=
  match fuel with
  | O => []
  | S fuel' =>
      if (n <? 36)%Z then [digit36 n]
      else digits36 fuel' (n / 36)%Z ++ [digit36 (n mod 36)%Z]
  end.

(** [Math.abs(hash).toString(36)]: the absolute value of an int32 is at
    most [2^31 < 36^7]. *)
Definition toString36 (n : Z) : str := digits36 7 n.

Definition simpleHash (s : str) : str :=
  toString36 (Z.abs (fold_left hash_step s 0%Z)).

Definition cleanContentForHashing (content : str) : str :=
  trim (removeAll MEMO_ID_CLEANUP_PATTERN content).

(* ================================================================== *)
(** * [src/utils/content-block-detector.ts] *)
(* ================================================================== *)

Record ContentBlockResult : Type := {
  endLine : nat;
  contentLines : list str;
  hasExistingMemo : bool;
  memoId : option str;
  storedHash : option str
}.

Definition isEmpty (s : str) : bool :=
  match s with [] => true | _ => false end.

Inductive step : Type := Break | Include.

(** The body of the [for] loop of [detectContentBlock] up to its effect:
    [Break] for each of its [break]s, [Include] for the two branches that
    set [endLine = i] and push the cleaned line. *)
Definition walk_step (startIsListItem : bool) (startIndent : Z)
    (currentLine : str) : step :=
  if isEmpty (trim currentLine) then Break
  else
    let currentIndent := search NON_SPACE currentLine in
    let trimmedLine := trim currentLine in
    let isListItem := test_anchored LIST_ITEM trimmedLine in
    let isBlockquote := test_anchored BLOCKQUOTE trimmedLine in
    let isHeader := test_anchored HEADER trimmedLine in
    if startIsListItem && isListItem && (currentIndent =? startIndent)%Z
    then Break
    else if isHeader && (currentIndent <=? startIndent)%Z
    then Break
    else
      let isIndented := (currentIndent >? startIndent)%Z in
      if isIndented || (isBlockquote && (currentIndent >=? startIndent)%Z)
      then Include
      else if (currentIndent =? startIndent)%Z && negb isListItem
              && negb isHeader
      then Include
      else Break.

(** [for (let i = startLineNum + 1; i < totalLines; i++)]. *)
Fixpoint walk (getLine : nat -> str) (totalLines : nat)
    (startIsListItem : bool) (startIndent : Z)
    (fuel i endLine : nat) (contentLines : list str) : nat * list str :=
  match fuel with
  | O => (endLine, contentLines)
  | S fuel' =>
      if negb (i <? totalLines)%nat then (endLine, contentLines)
      else
        match walk_step startIsListItem startIndent (getLine i) with
        | Break => (endLine, contentLines)
        | Include =>
            walk getLine totalLines startIsListItem startIndent fuel' (S i) i
              (contentLines
                 ++ [removeAll MEMO_ID_CLEANUP_PATTERN (getLine i)])
        end
  end.

(** [while (contentLines.length > 1 && !last.trim()) contentLines.pop()],
    on the reversed array. *)
Fixpoint popBlank (reversed : list str) : list str :=
  match reversed with
  | x :: (_ :: _) as rest => if isEmpty (trim x) then popBlank rest else reversed
  | _ => reversed
  end.

Definition detectContentBlock (getLine : nat -> str) (totalLines : nat)
    (startLineNum : nat) : ContentBlockResult :=
  let startLine := getLine startLineNum in
  let startText := trim startLine in
  let startIndent := search NON_SPACE startLine in
  let startIsListItem := test_anchored LIST_ITEM startText in
  let memoMatch := exec MEMO_ID_PATTERN startLine in
  let hasExistingMemo :=
    match memoMatch with
    | Some f => truthy (groups f 2%nat)
    | None => false
    end in
  let memoId :=
    match memoMatch with
    | Some f => or_undefined (groups f 2%nat)
    | None => None
    end in
  let storedHash :=
    match memoMatch with
    | Some f => or_undefined (groups f 3%nat)
    | None => None
    end in
  let cleanStartLine := trim (removeAll MEMO_ID_CLEANUP_PATTERN startLine) in
  let '(endLine, contentLines) :=
    walk getLine totalLines startIsListItem startIndent
      (totalLines - S startLineNum) (S startLineNum) startLineNum
      [cleanStartLine] in
  {| endLine := endLine;
     contentLines := rev (popBlank (rev contentLines));
     hasExistingMemo := hasExistingMemo;
     memoId := memoId;
     storedHash := storedHash |}.

(* ================================================================== *)
(** * The editor and [ContentProcessor.getContentBlock] *)
(* ================================================================== *)

(** The document held by the editor, one entry per line.  [getLine] is
    only called below with a line number the document has. *)
Definition Editor := list str.

Definition getLine (editor : Editor) (n : nat) : str := nth n editor [].
Definition lineCount (editor : Editor) : nat := length editor.

(** [Editor.setLine]. *)
Fixpoint setLine (editor : Editor) (n : nat) (text : str) : Editor :=
  match editor, n with
  | [], _ => []
  | _ :: rest, O => text :: rest
  | l :: rest, S n' => l :: setLine rest n' text
  end.

Record ContentBlock : Type := {
  cb_content : str;
  cb_endLine : nat;
  cb_hasExistingMemo : bool;
  cb_memoId : option str
}.

Definition getContentBlock (editor : Editor) (startLineNumber : nat)
  : ContentBlock :=
  let totalLines := lineCount editor in
  let result := detectContentBlock (getLine editor) totalLines startLineNumber in
  {| cb_content := join newline (contentLines result);
     cb_endLine := endLine result;
     cb_hasExistingMemo := hasExistingMemo result;
     cb_memoId := or_undefined (memoId result) |}.

(* ================================================================== *)
(** * Sync status *)
(* ================================================================== *)

Inductive SyncStatus : Type := NotSynced | Synced | NeedsResync.

(** The [if] chain of [findContentBlockEnd]. *)
Definition syncStatusOf (hasExistingMemo : bool) (storedHash : option str)
    (contentHash : str) : SyncStatus :=
  if negb hasExistingMemo then NotSynced
  else if negb (truthy storedHash) then NeedsResync
  else if str_eqb (cap_text (fun _ => storedHash) 0) contentHash then Synced
  else NeedsResync.

Record BlockEnd : Type := {
  be_endLine : nat;
  be_hasExistingMemo : bool;
  be_syncStatus : SyncStatus;
  be_contentHash : str
}.

(** [findContentBlockEnd] of the sync-button extension; [doc] is the
    CodeMirror text, whose lines are numbered from 1. *)
Definition findContentBlockEnd (doc : list str) (startLineNum : nat)
  : BlockEnd :=
  let result :=
    detectContentBlock (fun lineNum => nth (lineNum + 1 - 1) doc [])
      (length doc) (startLineNum - 1) in
  let blockContent := join newline (contentLines result) in
  let contentHash := simpleHash (trim blockContent) in
  {| be_endLine := endLine result + 1;
     be_hasExistingMemo := hasExistingMemo result;
     be_syncStatus :=
       syncStatusOf (hasExistingMemo result) (storedHash result) contentHash;
     be_contentHash := contentHash |}.

(** Lines 762-779 of [countMemos]: whether the block that starts at
    line [i] adds one to [syncedCount]. *)
Definition countsAsSynced (editor : Editor) (i : nat)
    (contentBlock : ContentBlock) : bool :=
  if cb_hasExistingMemo contentBlock then
    let startLineText := getLine editor i in
    match exec MEMO_ID_PATTERN startLineText with
    | Some memoMatch =>
        let storedHash := cap_text (groups memoMatch) 3 in
        let contentForHash :=
          trim (removeAll MEMO_ID_CLEANUP_PATTERN (cb_content contentBlock)) in
        let currentHash := simpleHash contentForHash in
        isEmpty storedHash || str_eqb storedHash currentHash
    | None => false
    end
  else false.

(** The status-bar counter of [main.ts], for an active markdown editor:
    [(syncedCount, totalCount)]. *)
Fixpoint countMemos_loop (editor : Editor) (fuel i : nat)
    (syncedCount totalCount : nat) : nat * nat :=
  match fuel with
  | O => (syncedCount, totalCount)
  | S fuel' =>
      if negb (i <? lineCount editor)%nat then (syncedCount, totalCount)
      else
        let line := getLine editor i in
        let hasDexComment := test MEMO_ID_PATTERN line in
        let hasDexUrlLink := test HAS_DEX_URL_LINK line in
        let hasVaultLink := test HAS_VAULT_LINK line in
        if hasDexComment && (hasDexUrlLink || hasVaultLink) then
          let contentBlock := getContentBlock editor i in
          let totalCount := S totalCount in
          let syncedCount :=
            if countsAsSynced editor i contentBlock then S syncedCount
            else syncedCount in
          countMemos_loop editor fuel' (S (cb_endLine contentBlock))
            syncedCount totalCount
        else countMemos_loop editor fuel' (S i) syncedCount totalCount
  end.

Definition countMemos (editor : Editor) : nat * nat :=
  countMemos_loop editor (lineCount editor) 0 0 0.

(* ================================================================== *)
(** * [new RegExp(source, 'i')] *)
(* ================================================================== *)

(** The outcome of reading a pattern source: a pattern, a source the
    constructor rejects with a SyntaxError, or a source that uses a
    construct outside the fragment read here. *)
Inductive parse (A : Type) : Type :=
| Parsed (a : A)
| Malformed
| Beyond.

Arguments Parsed {A} a.
Arguments Malformed {A}.
Arguments Beyond {A}.

(** SyntaxCharacter of ECMA-262. *)
Definition is_syntax_char (c : char) : bool :=
  existsb (N.eqb c) (js "^$\.*+?()[]{}|").

(** The pattern characters read here: printable ASCII that is not a
    syntax character.  Under flag [i] such a character matches its two
    cases. *)
Definition is_pattern_char (c : char) : bool :=
  ((32 <=? c) && (c <=? 126))%N && negb (is_syntax_char c).

(** The identity escapes read here: a backslash before a syntax
    character or a slash. *)
Definition is_escapable (c : char) : bool :=
  is_syntax_char c || (c =? 47)%N.

(** A character class under flag [i]: some member has the same
    canonical form as the character. *)
Definition class_of (negated : bool) (members : list char) : char -> bool :=
  fun x => xorb negated (existsb (fun a => eqc_i a x) members).

(** ** Reading a pattern source

    The source is read from left to right.  The reader keeps the group
    it is in: whether it captures, the alternatives it has finished and
    the terms of the alternative it is reading, each list with its last
    element first; below it the groups that are still open. *)
Record frame : Type := {
  f_capture : option nat;
  f_alternatives : list regex;
  f_terms : list regex
}.

(** What the reader has just read: nothing a quantifier could apply to,
    an atom, or an atom with its quantifier. *)
Inductive lastTerm : Type := NoTerm | Atom | Quantified.

Inductive mode : Type :=
| Ready (last : lastTerm)
| Escaped
| Opened
| OpenedQuestion
| ClassStart
| InClass (negated : bool) (members : list char)
| InClassEscaped (negated : bool) (members : list char)
| Stopped (malformed : bool).

Record reader : Type := {
  r_mode : mode;
  r_frame : frame;
  r_stack : list frame;
  r_next : nat
}.

Definition sequence (terms : list regex) : regex :=
  fold_left (fun acc t => Seq t acc) terms Eps.

Definition disjunction (f : frame) : regex :=
  fold_left (fun acc a => Alt a acc) (f_alternatives f)
    (sequence (f_terms f)).

Definition withMode (m : mode) (rd : reader) : reader :=
  {| r_mode := m; r_frame := r_frame rd; r_stack := r_stack rd;
     r_next := r_next rd |}.

(** [stop true]: the constructor throws; [stop false]: the source leaves
    the fragment. *)
Definition stop (malformed : bool) (rd : reader) : reader :=
  withMode (Stopped malformed) rd.

Definition withTerms (last : lastTerm) (terms : list regex) (rd : reader)
  : reader :=
  {| r_mode := Ready last;
     r_frame := {| f_capture := f_capture (r_frame rd);
                   f_alternatives := f_alternatives (r_frame rd);
                   f_terms := terms |};
     r_stack := r_stack rd;
     r_next := r_next rd |}.

Definition pushTerm (t : regex) (rd : reader) : reader :=
  withTerms Atom (t :: f_terms (r_frame rd)) rd.

Definition openGroup (capturing : bool) (rd : reader) : reader :=
  {| r_mode := Ready NoTerm;
     r_frame := {| f_capture := if capturing then Some (r_next rd) else None;
                   f_alternatives := [];
                   f_terms := [] |};
     r_stack := r_frame rd :: r_stack rd;
     r_next := if capturing then S (r_next rd) else r_next rd |}.

Definition closeGroup (rd : reader) : reader :=
  match r_stack rd with
  | [] => stop true rd
  | parent :: stack =>
      let inner := disjunction (r_frame rd) in
      let t := match f_capture (r_frame rd) with
               | Some i => Grp i inner
               | None => inner
               end in
      {| r_mode := Ready Atom;
         r_frame := {| f_capture := f_capture parent;
                       f_alternatives := f_alternatives parent;
                       f_terms := t :: f_terms parent |};
         r_stack := stack;
         r_next := r_next rd |}
  end.

Definition nextAlternative (rd : reader) : reader :=
  {| r_mode := Ready NoTerm;
     r_frame := {| f_capture := f_capture (r_frame rd);
                   f_alternatives :=
                     sequence (f_terms (r_frame rd))
                     :: f_alternatives (r_frame rd);
                   f_terms := [] |};
     r_stack := r_stack rd;
     r_next := r_next rd |}.

Definition is_quantifier (c : char) : bool :=
  ((c =? 42) || (c =? 43) || (c =? 63))%N.

(** A quantifier character.  The constructor throws when there is
    nothing to repeat.  Outside the fragment: a lazy quantifier, a
    quantifier over capturing groups (their captures are reset in each
    round) and [?] over a term that can match the empty text. *)
Definition quantify (q : char) (last : lastTerm) (rd : reader) : reader :=
  match last with
  | NoTerm => stop true rd
  | Quantified => if (q =? 63)%N then stop false rd else stop true rd
  | Atom =>
      match f_terms (r_frame rd) with
      | t :: terms =>
          if has_group t then stop false rd
          else if (q =? 42)%N then withTerms Quantified (Star t :: terms) rd
          else if (q =? 43)%N then withTerms Quantified (Plus t :: terms) rd
          else if nullable t then stop false rd
          else withTerms Quantified (Opt t :: terms) rd
      | [] => stop false rd
      end
  end.

Definition readyStep (last : lastTerm) (rd : reader) (x : char) : reader :=
  if (x =? 40)%N then withMode Opened rd
  else if (x =? 41)%N then closeGroup rd
  else if (x =? 124)%N then nextAlternative rd
  else if (x =? 91)%N then withMode ClassStart rd
  else if (x =? 92)%N then withMode Escaped rd
  else if (x =? 46)%N
  then pushTerm (Chr (fun c => negb (is_line_terminator c))) rd
  else if is_quantifier x then quantify x last rd
  else if is_pattern_char x then pushTerm (Chr (eqc_i x)) rd
  else stop false rd.

(** Inside a class.  Ranges and class escapes other than identity
    escapes are outside the fragment. *)
Definition classStep (negated : bool) (members : list char) (rd : reader)
    (x : char) : reader :=
  if (x =? 93)%N then pushTerm (Chr (class_of negated members)) rd
  else if (x =? 92)%N then withMode (InClassEscaped negated members) rd
  else if (x =? 45)%N then stop false rd
  else if ((32 <=? x) && (x <=? 126))%N
  then withMode (InClass negated (members ++ [x])) rd
  else stop false rd.

Definition readChar (rd : reader) (x : char) : reader :=
  match r_mode rd with
  | Stopped _ => rd
  | Ready last => readyStep last rd x
  | Escaped =>
      if is_escapable x then pushTerm (Chr (eqc_i x)) rd
      else if (x =? 115)%N then pushTerm (Chr is_ws) rd
      else stop false rd
  | Opened =>
      if (x =? 63)%N then withMode OpenedQuestion rd
      else readyStep NoTerm (openGroup true rd) x
  | OpenedQuestion =>
      if (x =? 58)%N then openGroup false rd else stop false rd
  | ClassStart =>
      if (x =? 94)%N then withMode (InClass true []) rd
      else classStep false [] rd x
  | InClass negated members => classStep negated members rd x
  | InClassEscaped negated members =>
      if is_escapable x then withMode (InClass negated (members ++ [x])) rd
      else stop false rd
  end.

Definition startReader : reader :=
  {| r_mode := Ready NoTerm;
     r_frame := {| f_capture := None; f_alternatives := []; f_terms := [] |};
     r_stack := [];
     r_next := 1 |}.

(** The pattern of a source and the number of its capturing groups.  A
    source that ends inside a group, a class or an escape is rejected by
    the constructor. *)
Definition parsePattern (source : str) : parse (regex * nat) :=
  let rd := fold_left readChar source startReader in
  match r_mode rd with
  | Ready _ =>
      match r_stack rd with
      | [] => Parsed (disjunction (r_frame rd), r_next rd - 1)
      | _ :: _ => Malformed
      end
  | Stopped true => Malformed
  | Stopped false => Beyond
  | OpenedQuestion => Beyond
  | Escaped | Opened | ClassStart | InClass _ _ | InClassEscaped _ _ =>
      Malformed
  end.

(* ================================================================== *)
(** * [MemoManager.syncContactMemo] *)
(* ================================================================== *)

Record ProcessedContact : Type := {
  contact_id : str;
  contact_name : str
}.

(** What [createNote] and [updateNote] resolve to. *)
Record NoteResult : Type := {
  note_id : str;
  note_success : bool;
  note_wasUpdated : bool
}.

Inductive error : Type :=
| ApiClientNotInitialized
| RemoteError (message : str)
| SyntaxError (source : str).

(** The remote memo store: each call either rejects or resolves. *)
Record DexApiClient : Type := {
  createNote : str -> str -> error + NoteResult;
  updateNote : str -> str -> str -> error + NoteResult
}.

(** What [new RegExp(source, 'i')] gives the orchestrator: a pattern to
    [test] a line with and to [replace] in it by a template. *)
Record RegExp : Type := {
  re_test : str -> bool;
  re_replace : str -> str -> str
}.

(** The pattern object of a pattern with [m] capturing groups. *)
Definition regExpOf (r : regex) (m : nat) : RegExp :=
  {| re_test := test r;
     re_replace := fun s template => replaceWith r m template s |}.

(** The part of the plugin context, and of the host, the orchestrator
    reads.  [renderMemo] stands for the substitution of the memo
    template (date, title, HTML of the block, back-link), which depends
    on the clock, on the active file and on the settings.  [hostRegExp]
    stands for the RegExp constructor on the pattern sources that
    [parsePattern] does not read: [None] where it throws, and else the
    pattern object it makes. *)
Record PluginContext : Type := {
  apiClient : option DexApiClient;
  renderMemo : str -> str;
  hostRegExp : str -> option RegExp
}.

Inductive event : Type :=
| CreateNoteCall (contactId content : str) (outcome : error + NoteResult)
| UpdateNoteCall (noteId contactId content : str)
    (outcome : error + NoteResult)
| NoticeCreated (name : str)
| NoticeUpdated (name : str).

(** What a run can change: the document and the outside world, the
    latter recorded as the list of remote calls and notices, oldest
    first. *)
Record World : Type := {
  w_editor : Editor;
  w_events : list event
}.

(** State that survives a thrown error. *)
Definition M (A : Type) : Type := World -> (error + A) * World.

Definition ret {A} (a : A) : M A := fun w => (inr a, w).

Definition bind {A B} (m : M A) (f : A -> M B) : M B :=
  fun w =>
    match m w with
    | (inl e, w') => (inl e, w')
    | (inr a, w') => f a w'
    end.

Definition throw {A} (e : error) : M A := fun w => (inl e, w).

Notation "x <- c1 ;; c2" := (bind c1 (fun x => c2))
  (at level 61, c1 at next level, right associativity).
Notation "c1 ;;; c2" := (bind c1 (fun _ => c2))
  (at level 61, right associativity).

(** A computation that may have thrown. *)
Definition raise {A} (x : error + A) : M A := fun w => (x, w).

Definition readEditor : M Editor := fun w => (inr (w_editor w), w).

Definition editorSetLine (n : nat) (text : str) : M unit :=
  fun w => (inr tt, {| w_editor := setLine (w_editor w) n text;
                       w_events := w_events w |}).

Definition emit (e : event) : M unit :=
  fun w => (inr tt, {| w_editor := w_editor w;
                       w_events := w_events w ++ [e] |}).

(** [await apiClient.createNote(...)]: the call is recorded with its
    outcome; a rejection is rethrown. *)
Definition callCreateNote (api : DexApiClient) (contactId content : str)
  : M NoteResult :=
  let outcome := createNote api contactId content in
  emit (CreateNoteCall contactId content outcome) ;;;
  match outcome with
  | inl e => throw e
  | inr r => ret r
  end.

Definition callUpdateNote (api : DexApiClient) (noteId contactId content : str)
  : M NoteResult :=
  let outcome := updateNote api noteId contactId content in
  emit (UpdateNoteCall noteId contactId content outcome) ;;;
  match outcome with
  | inl e => throw e
  | inr r => ret r
  end.

Definition quote : str := [34%N].

(** The pattern that [syncContactMemo] runs on the last line of the
    block: the text [data-hash=], a double quote, a captured run of
    characters other than a double quote, a double quote. *)
Definition DATA_HASH : regex :=
  Lit (js "data-hash=" ++ quote) ## Grp 1 (Star (Chr (none_of quote)))
  ## Lit quote.

(** [new RegExp(source, 'i')]: the pattern object, or the SyntaxError
    the constructor throws. *)
Definition RegExp_new (context : PluginContext) (source : str)
  : error + RegExp :=
  match parsePattern source with
  | Parsed (r, m) => inr (regExpOf r m)
  | Malformed => inl (SyntaxError source)
  | Beyond =>
      match hostRegExp context source with
      | Some re => inr re
      | None => inl (SyntaxError source)
      end
  end.

(** The sources of the four patterns [syncContactMemo] builds; the
    contact id is spliced into three of them as it is. *)
Definition dexUrlWithCommentSource (contactId : str) : str :=
  js "(\[[^\]]*\]\(https:\/\/getdex\.com\/appv3\/contacts\/details\/"
  ++ contactId ++ js "\))\s*%%dex:[^%]*%%(\s*)".

Definition vaultLinkWithCommentSource (contactId : str) : str :=
  js "(\[\[[^\]]+\]\])\s*%%dex:contact-id=" ++ contactId
  ++ js "(?:,[^%]*)?%%(\s*)".

Definition dexUrlPatternSource (contactId : str) : str :=
  js "(\[[^\]]*\]\(https:\/\/getdex\.com\/appv3\/contacts\/details\/"
  ++ contactId ++ js "\))".

Definition vaultLinkPatternSource : str := js "(\[\[[^\]]+\]\])".

(** [%%dex:contact-id=X,memo-id=Y,hash=Z%%] *)
Definition dexComment (contactId memoId hash : str) : str :=
  js "%%dex:contact-id=" ++ contactId ++ js ",memo-id=" ++ memoId
  ++ js ",hash=" ++ hash ++ js "%%".

(** The replacement templates: the ids and the hash are spliced into
    them as they are. *)
Definition replaceTemplate (contactId memoId contentHash : str) : str :=
  js "$1" ++ dexComment contactId memoId contentHash ++ js "$2".

Definition insertTemplate (contactId memoId contentHash : str) : str :=
  js "$1" ++ dexComment contactId memoId contentHash ++ js " ".

Definition andThen {A B} (x : error + A) (f : A -> error + B) : error + B :=
  match x with
  | inl e => inl e
  | inr a => f a
  end.

(** Lines 388-431: the start line with the comment of this contact
    replaced or added, or the SyntaxError of a pattern that the
    constructor rejects. *)
Definition updateStartLine (context : PluginContext)
    (contactId memoId contentHash : str) (startLine : str) : error + str :=
  let updatedLine := startLine in
  andThen (RegExp_new context (dexUrlWithCommentSource contactId))
    (fun dexUrlWithComment =>
  andThen (RegExp_new context (vaultLinkWithCommentSource contactId))
    (fun vaultLinkWithComment =>
  if re_test dexUrlWithComment updatedLine then
    inr (re_replace dexUrlWithComment updatedLine
           (replaceTemplate contactId memoId contentHash))
  else if re_test vaultLinkWithComment updatedLine then
    inr (re_replace vaultLinkWithComment updatedLine
           (replaceTemplate contactId memoId contentHash))
  else
    andThen (RegExp_new context (dexUrlPatternSource contactId))
      (fun dexUrlPattern =>
    andThen (RegExp_new context vaultLinkPatternSource)
      (fun vaultLinkPattern =>
    if re_test dexUrlPattern updatedLine then
      inr (re_replace dexUrlPattern updatedLine
             (insertTemplate contactId memoId contentHash))
    else if re_test vaultLinkPattern updatedLine then
      inr (re_replace vaultLinkPattern updatedLine
             (insertTemplate contactId memoId contentHash))
    else inr updatedLine)))).

(** Lines 315-334: [Some existingMemoId] when the function returns early
    because the content is unchanged. *)
Definition skipUnchanged (editor : Editor) (contentBlock : ContentBlock)
  : option str :=
  let fullContent := cb_content contentBlock in
  let existingMemoId := cb_memoId contentBlock in
  if cb_hasExistingMemo contentBlock && truthy existingMemoId then
    let lastLine := getLine editor (cb_endLine contentBlock) in
    let hashMatch := exec DATA_HASH lastLine in
    let storedHash :=
      match hashMatch with
      | Some f => groups f 1%nat
      | None => None
      end in
    let contentForHash :=
      trim (removeAll MEMO_ID_CLEANUP_PATTERN fullContent) in
    let currentHash := simpleHash contentForHash in
    if truthy storedHash && str_eqb (cap_text (fun _ => storedHash) 0) currentHash
    then existingMemoId
    else None
  else None.

Definition syncContactMemo (context : PluginContext)
    (contact : ProcessedContact) (lineNumber : nat) (silent : bool) : M str :=
  match apiClient context with
  | None => throw ApiClientNotInitialized
  | Some api =>
      editor <- readEditor ;;
      let contentBlock := getContentBlock editor lineNumber in
      let fullContent := cb_content contentBlock in
      let existingMemoId := cb_memoId contentBlock in
      match skipUnchanged editor contentBlock with
      | Some unchangedId => ret unchangedId
      | None =>
          let isFakeMemoId :=
            truthy existingMemoId
            && startsWith (cap_text (fun _ => existingMemoId) 0) (js "memo_") in
          let memoContent := renderMemo context fullContent in
          result <-
            (if truthy existingMemoId && negb isFakeMemoId
             then callUpdateNote api (cap_text (fun _ => existingMemoId) 0)
                    (contact_id contact) memoContent
             else callCreateNote api (contact_id contact) memoContent) ;;
          let contentForHash :=
            trim (removeAll MEMO_ID_CLEANUP_PATTERN fullContent) in
          let contentHash := simpleHash contentForHash in
          editor' <- readEditor ;;
          let startLine := getLine editor' lineNumber in
          updatedLine <-
            raise (updateStartLine context (contact_id contact)
                     (note_id result) contentHash startLine) ;;
          (if str_eqb updatedLine startLine then ret tt
           else editorSetLine lineNumber updatedLine) ;;;
          (if silent then ret tt
           else
             let wasCreated :=
               negb (truthy existingMemoId) || isFakeMemoId
               || (truthy existingMemoId && negb (note_wasUpdated result)) in
             if wasCreated then emit (NoticeCreated (contact_name contact))
             else emit (NoticeUpdated (contact_name contact))) ;;;
          ret (note_id result)
      end
  end.

(* ================================================================== *)
(** * The patterns of a plain contact id *)
(* ================================================================== *)

(** Letters, digits, hyphen and underscore: the characters of an id that
    is neither special in a pattern source nor in a replacement
    template. *)
Definition id_char (c : char) : bool :=
  (is_digit c || ((97 <=? c) && (c <=? 122)) || ((65 <=? c) && (c <=? 90))
   || (c =? 45) || (c =? 95))%N.

Definition plain_id (s : str) : Prop :=
  s <> [] /\ forallb id_char s = true.

(** Free of dollar signs, the one character that is special in a
    replacement template. *)
Definition dollar_free (s : str) : bool :=
  forallb (fun c => negb (c =? 36)%N) s.

(** For a contact id made of letters, digits, hyphens and underscores
    the sources above are read as the following patterns, in which the
    id stands as a literal. *)
Definition plainDexUrlLink (contactId : str) : regex :=
  LitI (js "[") ## Star (Chr (none_of (js "]")))
  ## LitI (js "](https://getdex.com/appv3/contacts/details/")
  ## LitI contactId ## LitI (js ")").

Definition vaultLink : regex :=
  LitI (js "[[") ## Plus (Chr (none_of (js "]"))) ## LitI (js "]]").

Definition plainDexUrlWithComment (contactId : str) : regex :=
  Grp 1 (plainDexUrlLink contactId)
  ## Star (Chr is_ws)
  ## LitI (js "%%dex:") ## Star (Chr (none_of (js "%"))) ## LitI (js "%%")
  ## Grp 2 (Star (Chr is_ws)).

Definition plainVaultLinkWithComment (contactId : str) : regex :=
  Grp 1 vaultLink
  ## Star (Chr is_ws)
  ## LitI (js "%%dex:contact-id=") ## LitI contactId
  ## Opt (LitI (js ",") ## Star (Chr (none_of (js "%"))))
  ## LitI (js "%%")
  ## Grp 2 (Star (Chr is_ws)).

Definition plainDexUrlPattern (contactId : str) : regex :=
  Grp 1 (plainDexUrlLink contactId).

Definition vaultLinkPattern : regex := Grp 1 vaultLink.

(** What lines 388-431 make of the start line with these patterns, when
    the ids and the hash hold no dollar sign, so that the templates put
    them into the line as they are. *)
Definition plainStartLine (contactId memoId contentHash : str)
    (startLine : str) : str :=
  let updatedLine := startLine in
  if test (plainDexUrlWithComment contactId) updatedLine then
    replace (plainDexUrlWithComment contactId)
      (fun c => cap_text c 1 ++ dexComment contactId memoId contentHash
                ++ cap_text c 2)
      updatedLine
  else if test (plainVaultLinkWithComment contactId) updatedLine then
    replace (plainVaultLinkWithComment contactId)
      (fun c => cap_text c 1 ++ dexComment contactId memoId contentHash
                ++ cap_text c 2)
      updatedLine
  else if test (plainDexUrlPattern contactId) updatedLine then
    replace (plainDexUrlPattern contactId)
      (fun c => cap_text c 1 ++ dexComment contactId memoId contentHash
                ++ js " ")
      updatedLine
  else if test vaultLinkPattern updatedLine then
    replace vaultLinkPattern
      (fun c => cap_text c 1 ++ dexComment contactId memoId contentHash
                ++ js " ")
      updatedLine
  else updatedLine.

(* ================================================================== *)
(** * Block boundaries *)
(* ================================================================== *)

Section Boundary.

(** The features of a line the detector looks at. *)
Definition blank (l : str) : bool := isEmpty (trim l).
Definition indentOf (l : str) : Z := search NON_SPACE l.
Definition listItem (l : str) : bool := test_anchored LIST_ITEM (trim l).
Definition blockquote (l : str) : bool := test_anchored BLOCKQUOTE (trim l).
Definition header (l : str) : bool := test_anchored HEADER (trim l).

(** A blockquote marker is neither a list marker nor a header marker. *)
Lemma blockquote_plain (t : str) :
  test_anchored BLOCKQUOTE t = true ->
  test_anchored LIST_ITEM t = false /\ test_anchored HEADER t = false.
Proof.
  destruct t as [|a t]; [discriminate|].
  unfold test_anchored at 1. cbn -[N.eqb].
  unfold eqc. destruct (N.eqb_spec 62 a) as [<-|]; [|discriminate].
  intros _. split; reflexivity.
Qed.

Lemma Z_cmp_cases (i s : Z) :
  ((i < s)%Z /\ (i =? s)%Z = false /\ (i <=? s)%Z = true
   /\ (i >? s)%Z = false /\ (i >=? s)%Z = false)
  \/ (i = s /\ (i =? s)%Z = true /\ (i <=? s)%Z = true
      /\ (i >? s)%Z = false /\ (i >=? s)%Z = true)
  \/ ((i > s)%Z /\ (i =? s)%Z = false /\ (i <=? s)%Z = false
      /\ (i >? s)%Z = true /\ (i >=? s)%Z = true).
Proof.
  rewrite Z.gtb_ltb, Z.geb_leb.
  destruct (Z.eqb_spec i s), (Z.leb_spec i s), (Z.ltb_spec s i),
    (Z.leb_spec s i); lia.
Qed.

Variable startIsListItem : bool.
Variable startIndent : Z.

(** What the loop body decides, in terms of the features of the line. *)
Lemma walk_step_include (l : str) :
  walk_step startIsListItem startIndent l = Include <->
  blank l = false
  /\ ((indentOf l > startIndent)%Z
      \/ (indentOf l = startIndent /\ listItem l = false
          /\ header l = false)).
Proof.
  unfold walk_step, blank, indentOf, listItem, header.
  destruct (isEmpty (trim l));
    [split; [discriminate|intros [Hf _]; discriminate]|].
  pose proof (blockquote_plain (trim l)) as Hbq.
  destruct (Z_cmp_cases (search NON_SPACE l) startIndent)
    as [(Hc & -> & -> & -> & ->)|[(Hc & -> & -> & -> & ->)
                                 |(Hc & -> & -> & -> & ->)]];
    destruct (test_anchored BLOCKQUOTE (trim l));
    try (destruct (Hbq eq_refl) as [-> ->]); clear Hbq;
    destruct startIsListItem;
    try destruct (test_anchored LIST_ITEM (trim l));
    try destruct (test_anchored HEADER (trim l)); cbn;
    intuition (try discriminate; try lia; try congruence).
Qed.

Lemma walk_step_break (l : str) :
  walk_step startIsListItem startIndent l = Break <->
  blank l = true
  \/ (startIsListItem = true /\ listItem l = true
      /\ indentOf l = startIndent)
  \/ (header l = true /\ (indentOf l <= startIndent)%Z)
  \/ ((indentOf l <= startIndent)%Z
      /\ ~ (indentOf l = startIndent /\ listItem l = false
            /\ header l = false)).
Proof.
  pose proof (walk_step_include l) as Hinc.
  destruct (walk_step startIsListItem startIndent l).
  - split; [intros _|reflexivity].
    destruct (blank l); [left; reflexivity|right; right; right].
    assert (Hn : ~ (false = false /\
                    ((indentOf l > startIndent)%Z \/
                     indentOf l = startIndent /\ listItem l = false /\
                     header l = false))).
    { intros H. apply Hinc in H. discriminate. }
    split; [|tauto].
    destruct (Z.leb_spec (indentOf l) startIndent); [assumption|].
    exfalso. apply Hn. split; [reflexivity|left; lia].
  - destruct Hinc as [Hinc _]. destruct (Hinc eq_refl) as [Hb Hi].
    split; [discriminate|]. intros H. exfalso.
    destruct H as [H|[(Hs & Hl & He)|[(Hh & Hle)|(Hle & Hn)]]].
    + congruence.
    + destruct Hi as [Hi|(_ & Hl' & _)]; [lia|congruence].
    + destruct Hi as [Hi|(_ & _ & Hh')]; [lia|congruence].
    + destruct Hi as [Hi|Hi]; [lia|tauto].
Qed.

End Boundary.

Section Walk.

Variable getLine : nat -> str.
Variable totalLines : nat.
Variable startIsListItem : bool.
Variable startIndent : Z.

Let stepOf (i : nat) : step := walk_step startIsListItem startIndent (getLine i).

Lemma walk_boundary (fuel e : nat) (cl : list str) :
  totalLines - S e <= fuel ->
  let e' := fst (walk getLine totalLines startIsListItem startIndent
                   fuel (S e) e cl) in
  e <= e'
  /\ (forall j, e < j <= e' -> j < totalLines /\ stepOf j = Include)
  /\ (S e' < totalLines -> stepOf (S e') = Break).
Proof.
  revert e cl. induction fuel as [|fuel IH]; intros e cl Hfuel; cbn [walk].
  - cbn [fst]. split; [lia|]. split; [intros j Hj; lia|intros Hlt; lia].
  - destruct (Nat.ltb_spec (S e) totalLines) as [Hlt|Hge]; cbn [negb].
    + destruct (walk_step startIsListItem startIndent (getLine (S e))) eqn:Hs.
      * cbn. split; [lia|]. split; [intros j Hj; lia|intros _; exact Hs].
      * specialize (IH (S e) (cl ++ [removeAll MEMO_ID_CLEANUP_PATTERN
                                        (getLine (S e))])).
        cbn zeta in IH. destruct IH as (H1 & H2 & H3); [lia|].
        split; [lia|]. split; [|exact H3].
        intros j Hj. destruct (Nat.eq_dec j (S e)) as [->|Hne].
        -- split; [lia|exact Hs].
        -- apply H2. lia.
    + cbn [fst]. split; [lia|]. split; [intros j Hj; lia|intros Hlt; lia].
Qed.

End Walk.

Definition siblingDoc : Editor :=
  [js "- contact mention"; js "  indented note"; js "- sibling item"].

Definition headerDoc : Editor :=
  [js "mention text"; js "# Header"; js "more text"].

(** C4. The forward walk of [detectContentBlock] from [startLine + 1]
    ends the block at the line before the first line that stops it (or
    at the last line of the document): every line of the block after the
    start is one the loop includes, and the line after the block, if
    there is one, is one the loop breaks on.  A line is included exactly
    when it is not blank and is either more indented than the start or at
    the same indentation and neither a list item nor a header; the loop
    breaks exactly on a blank line, on a list item at the indentation of
    a list-item start line, on a header at the same or a lesser
    indentation, or on any other line at the same or a lesser indentation
    that is not such a continuation.  On the two documents of the claim
    the blocks are lines 0-1 and line 0. *)
Theorem detect_block_boundary :
  forall (lineAt : nat -> str) (totalLines startLineNum : nat),
    let startLine := lineAt startLineNum in
    let startIsListItem := listItem startLine in
    let startIndent := indentOf startLine in
    let e := endLine (detectContentBlock lineAt totalLines startLineNum) in
    (startLineNum <= e
     /\ (forall j, startLineNum < j <= e ->
                   j < totalLines
                   /\ walk_step startIsListItem startIndent (lineAt j) = Include)
     /\ (S e < totalLines ->
         walk_step startIsListItem startIndent (lineAt (S e)) = Break))
    /\ (forall l,
          walk_step startIsListItem startIndent l = Include <->
          blank l = false
          /\ ((indentOf l > startIndent)%Z
              \/ (indentOf l = startIndent /\ listItem l = false
                  /\ header l = false)))
    /\ (forall l,
          walk_step startIsListItem startIndent l = Break <->
          blank l = true
          \/ (startIsListItem = true /\ listItem l = true
              /\ indentOf l = startIndent)
          \/ (header l = true /\ (indentOf l <= startIndent)%Z)
          \/ ((indentOf l <= startIndent)%Z
              /\ ~ (indentOf l = startIndent /\ listItem l = false
                    /\ header l = false)))
    /\ endLine (detectContentBlock (getLine siblingDoc) 3 0) = 1
    /\ endLine (detectContentBlock (getLine headerDoc) 3 0) = 0.
Proof.
  intros lineAt totalLines startLineNum startLine startIsListItem
    startIndent e.
  split; [|split; [|split; [|split]]].
  - subst e. unfold detectContentBlock.
    pose proof (@walk_boundary lineAt totalLines startIsListItem startIndent
                  (totalLines - S startLineNum) startLineNum
                  [trim (removeAll MEMO_ID_CLEANUP_PATTERN
                           (lineAt startLineNum))] (Nat.le_refl _)) as H.
    cbn zeta in H. fold startLine.
    change (test_anchored LIST_ITEM (trim startLine)) with startIsListItem.
    change (search NON_SPACE startLine) with startIndent.
    destruct (walk lineAt totalLines startIsListItem startIndent
                (totalLines - S startLineNum) (S startLineNum) startLineNum
                [trim (removeAll MEMO_ID_CLEANUP_PATTERN startLine)])
      as [e' cl] eqn:Hw.
    subst startLine. rewrite Hw in H. cbn [endLine fst] in *. exact H.
  - exact (walk_step_include startIsListItem startIndent).
  - exact (walk_step_break startIsListItem startIndent).
  - vm_compute. reflexivity.
  - vm_compute. reflexivity.
Qed.

(* ================================================================== *)
(** * Sync-state classification *)
(* ================================================================== *)

(** The classifier as the specification words it: no memo id, not
    synced; a memo id without a stored hash, needs resync; a stored hash
    equal to the current one, synced; otherwise needs resync. *)
Definition classify (hasAnnotation : bool) (memoId storedHash : option str)
    (currentHash : str) : SyncStatus :=
  if negb hasAnnotation || negb (truthy memoId) then NotSynced
  else
    match or_undefined storedHash with
    | None => NeedsResync
    | Some h => if str_eqb h currentHash then Synced else NeedsResync
    end.

Lemma walk_ext (f g : nat -> str) (totalLines : nat) (sl : bool) (si : Z) :
  (forall n, f n = g n) ->
  forall fuel i e cl,
    walk f totalLines sl si fuel i e cl = walk g totalLines sl si fuel i e cl.
Proof.
  intros Hfg. induction fuel as [|fuel IH]; intros i e cl; cbn [walk].
  - reflexivity.
  - rewrite Hfg, IH. reflexivity.
Qed.

Lemma detectContentBlock_ext (f g : nat -> str) (totalLines start : nat) :
  (forall n, f n = g n) ->
  detectContentBlock f totalLines start = detectContentBlock g totalLines start.
Proof.
  intros Hfg. unfold detectContentBlock.
  rewrite (walk_ext f g totalLines _ _ Hfg), Hfg. reflexivity.
Qed.

Lemma truthy_cap_text (o : option str) :
  truthy o = negb (isEmpty (cap_text (fun _ => o) 0)).
Proof. destruct o as [[|]|]; reflexivity. Qed.

Lemma or_undefined_truthy (o : option str) :
  truthy (or_undefined o) = truthy o.
Proof. destruct o as [[|]|]; reflexivity. Qed.

(** A document with a link and a comment that has a memo id but no
    hash. *)
Definition legacyDoc : Editor :=
  [js "[Jane](https://getdex.com/appv3/contacts/details/c1)%%dex:contact-id=c1,memo-id=m1%% hello"].

(** C3, as stated, fails for the status-bar counter: on [legacyDoc] the
    block has a memo id and no stored hash, which the four rules (and the
    inline classifier) call needs-resync, while [countMemos] counts it as
    synced (1 of 1). *)
Lemma counter_counts_legacy_as_synced :
  let r := detectContentBlock (getLine legacyDoc) (lineCount legacyDoc) 0 in
  classify (hasExistingMemo r) (memoId r) (storedHash r)
    (simpleHash (trim (join newline (contentLines r)))) = NeedsResync
  /\ be_syncStatus (findContentBlockEnd legacyDoc 1) = NeedsResync
  /\ countMemos legacyDoc = (1, 1).
Proof. vm_compute. repeat split. Qed.

(** C3, amended.  The inline sync-button classifier follows the four
    ordered rules: for the block that starts at (0-based) line [i] its
    status is [classify] of the detector's fields and the current hash.
    The status-bar counter follows a different rule: it counts the block
    as synced exactly when a memo id is present and the stored hash is
    either absent or equal to the current hash. *)
Theorem sync_status_decision_points :
  forall (editor : Editor) (i : nat),
    let r := detectContentBlock (getLine editor) (lineCount editor) i in
    let content := join newline (contentLines r) in
    be_syncStatus (findContentBlockEnd editor (S i))
    = classify (hasExistingMemo r) (memoId r) (storedHash r)
        (simpleHash (trim content))
    /\ countsAsSynced editor i (getContentBlock editor i)
       = hasExistingMemo r
         && (negb (truthy (storedHash r))
             || str_eqb (cap_text (fun _ => storedHash r) 0)
                  (simpleHash (cleanContentForHashing content))).
Proof.
  intros editor i r content. split.
  - unfold findContentBlockEnd. cbn [be_syncStatus].
    replace (S i - 1) with i by lia.
    rewrite (detectContentBlock_ext
               (fun lineNum => nth (lineNum + 1 - 1) editor []) (getLine editor)).
    2:{ intros n. unfold getLine. f_equal. lia. }
    fold (lineCount editor). fold r. fold content.
    unfold syncStatusOf, classify.
    assert (Hm : truthy (memoId r) = hasExistingMemo r).
    { subst r. unfold detectContentBlock.
      destruct (walk _ _ _ _ _ _ _ _) as [e cl]. cbn [memoId hasExistingMemo].
      destruct (exec MEMO_ID_PATTERN (getLine editor i)) as [f|];
        [apply or_undefined_truthy|reflexivity]. }
    rewrite Hm. destruct (hasExistingMemo r); cbn [negb orb]; [|reflexivity].
    destruct (storedHash r) as [[|a h]|]; reflexivity.
  - unfold countsAsSynced, getContentBlock. cbn [cb_hasExistingMemo cb_content].
    fold r. fold content. unfold cleanContentForHashing.
    subst content r. unfold detectContentBlock.
    destruct (walk _ _ _ _ _ _ _ _) as [e cl].
    cbn [hasExistingMemo storedHash contentLines].
    destruct (exec MEMO_ID_PATTERN (getLine editor i)) as [f|]; [|reflexivity].
    destruct (groups f 2) as [[|a m]|]; cbn [truthy]; try reflexivity.
    unfold cap_text. destruct (groups f 3) as [[|b h]|]; reflexivity.
Qed.

(* ================================================================== *)
(** * Properties of the matcher *)
(* ================================================================== *)

Section Matcher.

(** [s'] is what is left of [s] after some prefix. *)
Definition suffix_of (s' s : str) : Prop := exists u, s = u ++ s'.

Lemma suffix_of_refl (s : str) : suffix_of s s.
Proof. exists []. reflexivity. Qed.

Lemma suffix_of_trans (a b c : str) :
  suffix_of a b -> suffix_of b c -> suffix_of a c.
Proof.
  intros [u ->] [v ->]. exists (v ++ u). rewrite app_assoc. reflexivity.
Qed.

Lemma suffix_of_cons (x : char) (a b : str) :
  suffix_of a b -> suffix_of a (x :: b).
Proof. intros [u ->]. exists (x :: u). reflexivity. Qed.


(** A successful match ends in a successful call of the continuation, on
    a suffix of the input. *)
Lemma star_loop_cont (body : str -> caps -> cont -> option mstate) :
  (forall s c k st, body s c k = Some st ->
     exists s' c', k s' c' = Some st /\ suffix_of s' s) ->
  forall fuel s c k st,
    star_loop body fuel s c k = Some st ->
    exists s' c', k s' c' = Some st /\ suffix_of s' s.
Proof.
  intros Hbody. induction fuel as [|fuel IH]; intros s c k st H; cbn [star_loop] in H.
  - exists s, c. split; [assumption|apply suffix_of_refl].
  - destruct (body s c _) as [x|] eqn:Hb.
    + injection H as ->. apply Hbody in Hb. destruct Hb as (s1 & c1 & Hk & Hs).
      destruct (Nat.ltb _ _); [|discriminate].
      apply IH in Hk. destruct Hk as (s2 & c2 & Hk & Hs2).
      exists s2, c2. split; [assumption|eapply suffix_of_trans; eassumption].
    + exists s, c. split; [assumption|apply suffix_of_refl].
Qed.

Lemma rmatch_cont (r : regex) :
  forall s c k st,
    rmatch r s c k = Some st ->
    exists s' c', k s' c' = Some st /\ suffix_of s' s.
Proof.
  induction r as [|p|r1 IH1 r2 IH2|r1 IH1 r2 IH2|r IH|n r IH];
    intros s c k st H; cbn [rmatch] in H.
  - exists s, c. split; [assumption|apply suffix_of_refl].
  - destruct s as [|x s]; [discriminate|]. destruct (p x); [|discriminate].
    exists s, c. split; [assumption|apply suffix_of_cons, suffix_of_refl].
  - apply IH1 in H. destruct H as (s1 & c1 & H & Hs1).
    apply IH2 in H. destruct H as (s2 & c2 & H & Hs2).
    exists s2, c2. split; [assumption|eapply suffix_of_trans; eassumption].
  - destruct (rmatch r1 s c k) as [x|] eqn:H1.
    + injection H as ->. apply IH1 in H1. exact H1.
    + apply IH2 in H. exact H.
  - eapply star_loop_cont; [|exact H]. exact IH.
  - apply IH in H. destruct H as (s1 & c1 & H & Hs1).
    eexists _, _. split; [exact H|exact Hs1].
Qed.


(** Whether a match succeeds does not depend on the captures, and a
    continuation that succeeds more often keeps the match. *)
Definition succeeds_more (k k' : cont) : Prop :=
  forall s c c', k s c <> None -> k' s c' <> None.

Lemma star_loop_mono (body : str -> caps -> cont -> option mstate) :
  (forall s c c' k k', succeeds_more k k' ->
     body s c k <> None -> body s c' k' <> None) ->
  forall fuel s c c' k k',
    succeeds_more k k' ->
    star_loop body fuel s c k <> None -> star_loop body fuel s c' k' <> None.
Proof.
  intros Hbody. induction fuel as [|fuel IH]; intros s c c' k k' Hk H; cbn [star_loop] in *.
  - eapply Hk, H.
  - destruct (body s c' _) as [y|] eqn:Hb'; [discriminate|].
    destruct (body s c _) as [x|] eqn:Hb.
    + exfalso.
      assert (Hne : body s c' (fun s' c'0 =>
                if Nat.ltb (length s') (length s)
                then star_loop body fuel s' c'0 k' else None) <> None).
      { eapply Hbody; [|rewrite Hb; discriminate].
        intros s1 c1 c1'. destruct (Nat.ltb _ _); [|congruence].
        apply IH, Hk. }
      congruence.
    + eapply Hk, H.
Qed.

Lemma rmatch_mono (r : regex) :
  forall s c c' k k',
    succeeds_more k k' ->
    rmatch r s c k <> None -> rmatch r s c' k' <> None.
Proof.
  induction r as [|p|r1 IH1 r2 IH2|r1 IH1 r2 IH2|r IH|n r IH];
    intros s c c' k k' Hk H; cbn [rmatch] in *.
  - eapply Hk, H.
  - destruct s as [|x s]; [congruence|]. destruct (p x); [|congruence].
    eapply Hk, H.
  - eapply IH1; [|exact H]. intros s1 c1 c1'. apply IH2, Hk.
  - destruct (rmatch r1 s c' k') as [y|] eqn:H1'; [discriminate|].
    destruct (rmatch r1 s c k) as [x|] eqn:H1.
    + exfalso. eapply (IH1 s c c' k k' Hk); [rewrite H1; discriminate|exact H1'].
    + eapply IH2; eassumption.
  - eapply star_loop_mono; [|exact Hk|exact H]. exact IH.
  - eapply IH; [|exact H]. intros s1 c1 c1'. apply Hk.
Qed.

(** ** Searching *)

Definition shift (u : str) (o : option found) : option found :=
  match o with
  | Some f => Some (Found (u ++ before f) (after f) (groups f))
  | None => None
  end.

Lemma exec_here (r : regex) (s rest : str) (c : caps) :
  rmatch r s no_caps accept = Some (rest, c) ->
  exec r s = Some (Found [] rest c).
Proof. intros H. destruct s; cbn [exec]; rewrite H; reflexivity. Qed.

Lemma exec_cons_miss (r : regex) (x : char) (s : str) :
  rmatch r (x :: s) no_caps accept = None ->
  exec r (x :: s) = shift [x] (exec r s).
Proof. intros H. cbn [exec]. rewrite H. destruct (exec r s); reflexivity. Qed.

(** No match starts inside [u]. *)
Definition no_match_in (r : regex) (u s : str) : Prop :=
  forall u1 x u2, u = u1 ++ x :: u2 ->
    rmatch r (x :: u2 ++ s) no_caps accept = None.

Lemma exec_skip (r : regex) (u s : str) :
  no_match_in r u s -> exec r (u ++ s) = shift u (exec r s).
Proof.
  induction u as [|x u IH]; intros H.
  - cbn. destruct (exec r s) as [[]|]; reflexivity.
  - cbn [app]. rewrite exec_cons_miss by (apply (H [] x u); reflexivity).
    rewrite IH.
    + destruct (exec r s); reflexivity.
    + intros u1 y u2 ->. apply (H (x :: u1) y u2). reflexivity.
Qed.

Lemma no_match_in_app (r : regex) (u v s : str) :
  no_match_in r u (v ++ s) -> no_match_in r v s -> no_match_in r (u ++ v) s.
Proof.
  intros Hu Hv u1 x u2 E.
  assert (Hcase : (exists w, u = u1 ++ x :: w /\ u2 = w ++ v)
                  \/ (exists w, u1 = u ++ w /\ v = w ++ x :: u2)).
  { clear - E. revert u1 E. induction u as [|a u IH]; intros u1 E.
    - right. exists u1. split; [reflexivity|exact E].
    - destruct u1 as [|b u1]; cbn in E; injection E as -> E.
      + left. exists u. split; [reflexivity|symmetry; exact E].
      + destruct (IH u1 E) as [(w & -> & ->)|(w & -> & ->)].
        * left. exists w. split; reflexivity.
        * right. exists w. split; reflexivity. }
  destruct Hcase as [(w & -> & ->)|(w & -> & ->)].
  - rewrite <- app_assoc. apply (Hu u1 x w). reflexivity.
  - apply (Hv w x u2). reflexivity.
Qed.



(** ** [removeAll] has fuel to spare *)




(** ** Literals and greedy runs of one character class *)

Lemma rmatch_Seq (r1 r2 : regex) (s : str) (c : caps) (k : cont) :
  rmatch (r1 ## r2) s c k = rmatch r1 s c (fun s' c' => rmatch r2 s' c' k).
Proof. reflexivity. Qed.

Lemma rmatch_Grp (n : nat) (r : regex) (s : str) (c : caps) (k : cont) :
  rmatch (Grp n r) s c k
  = rmatch r s c
      (fun s' c' => k s' (set_cap n (firstn (length s - length s') s) c')).
Proof. reflexivity. Qed.

Lemma rmatch_Chr_cons (p : char -> bool) (x : char) (s : str) (c : caps)
    (k : cont) :
  rmatch (Chr p) (x :: s) c k = if p x then k s c else None.
Proof. reflexivity. Qed.

Lemma rmatch_Chr_nil (p : char -> bool) (c : caps) (k : cont) :
  rmatch (Chr p) [] c k = None.
Proof. reflexivity. Qed.

Lemma rmatch_Star (r : regex) (s : str) (c : caps) (k : cont) :
  rmatch (Star r) s c k = star_loop (rmatch r) (length s) s c k.
Proof. reflexivity. Qed.

Lemma rmatch_Lit (l s : str) (c : caps) (k : cont) :
  rmatch (Lit l) (l ++ s) c k = k s c.
Proof.
  induction l as [|a l IH]; cbn [Lit rmatch app]; [reflexivity|].
  unfold eqc at 1. rewrite N.eqb_refl. exact IH.
Qed.

Lemma rmatch_LitI (l s : str) (c : caps) (k : cont) :
  rmatch (LitI l) (l ++ s) c k = k s c.
Proof.
  induction l as [|a l IH]; cbn [LitI rmatch app]; [reflexivity|].
  unfold eqc_i at 1. rewrite N.eqb_refl. exact IH.
Qed.

(** The input does not go on with a character of the class. *)
Definition stops (p : char -> bool) (s : str) : Prop :=
  match s with
  | [] => True
  | x :: _ => p x = false
  end.

Lemma star_loop_chr_some (p : char -> bool) (l : str) :
  forall fuel s c k st,
    forallb p l = true -> stops p s -> length (l ++ s) <= fuel ->
    k s c = Some st ->
    star_loop (rmatch (Chr p)) fuel (l ++ s) c k = Some st.
Proof.
  induction l as [|x l IH]; intros fuel s c k st Hl Hs Hfuel Hk.
  - cbn [app]. destruct fuel as [|fuel]; cbn [star_loop]; [exact Hk|].
    destruct s as [|y s].
    + rewrite rmatch_Chr_nil. exact Hk.
    + rewrite rmatch_Chr_cons. cbn in Hs. rewrite Hs. exact Hk.
  - cbn [forallb] in Hl. apply andb_prop in Hl. destruct Hl as [Hx Hl].
    cbn [app length] in *. destruct fuel as [|fuel]; [lia|].
    cbn [star_loop]. rewrite rmatch_Chr_cons, Hx.
    assert (Hlt : Nat.ltb (length (l ++ s)) (length (x :: l ++ s)) = true)
      by (apply Nat.ltb_lt; cbn [length]; lia).
    rewrite Hlt.
    rewrite (IH fuel s c k st Hl Hs); [reflexivity|lia|exact Hk].
Qed.

Lemma rmatch_star_some (p : char -> bool) (l s : str) (c : caps) (k : cont)
    (st : mstate) :
  forallb p l = true -> stops p s -> k s c = Some st ->
  rmatch (Star (Chr p)) (l ++ s) c k = Some st.
Proof.
  intros Hl Hs Hk. rewrite rmatch_Star. apply star_loop_chr_some; auto.
Qed.

Lemma star_loop_chr_none (p : char -> bool) (l : str) :
  forall fuel s c k,
    forallb p l = true -> stops p s ->
    (forall l1 l2, l = l1 ++ l2 -> k (l2 ++ s) c = None) ->
    star_loop (rmatch (Chr p)) fuel (l ++ s) c k = None.
Proof.
  induction l as [|x l IH]; intros fuel s c k Hl Hs Hk.
  - pose proof (Hk [] [] eq_refl) as Hk0. cbn [app] in *.
    destruct fuel as [|fuel]; cbn [star_loop]; [exact Hk0|].
    destruct s as [|y s].
    + rewrite rmatch_Chr_nil. exact Hk0.
    + rewrite rmatch_Chr_cons. cbn in Hs. rewrite Hs. exact Hk0.
  - cbn [forallb] in Hl. apply andb_prop in Hl. destruct Hl as [Hx Hl].
    pose proof (Hk [] (x :: l) eq_refl) as Hk0. cbn [app] in *.
    destruct fuel as [|fuel]; cbn [star_loop]; [exact Hk0|].
    rewrite rmatch_Chr_cons, Hx.
    destruct (Nat.ltb _ _).
    + rewrite (IH fuel s c k Hl Hs); [exact Hk0|].
      intros l1 l2 ->. apply (Hk (x :: l1) l2). reflexivity.
    + exact Hk0.
Qed.

Lemma rmatch_star_none (p : char -> bool) (l s : str) (c : caps) (k : cont) :
  forallb p l = true -> stops p s ->
  (forall l1 l2, l = l1 ++ l2 -> k (l2 ++ s) c = None) ->
  rmatch (Star (Chr p)) (l ++ s) c k = None.
Proof. intros. rewrite rmatch_Star. apply star_loop_chr_none; auto. Qed.

Lemma rmatch_plus_some (p : char -> bool) (x : char) (l s : str) (c : caps)
    (k : cont) (st : mstate) :
  forallb p (x :: l) = true -> stops p s -> k s c = Some st ->
  rmatch (Plus (Chr p)) ((x :: l) ++ s) c k = Some st.
Proof.
  intros Hl Hs Hk. cbn [forallb] in Hl. apply andb_prop in Hl.
  destruct Hl as [Hx Hl]. unfold Plus. rewrite rmatch_Seq. cbn [app].
  rewrite rmatch_Chr_cons, Hx. apply rmatch_star_some; assumption.
Qed.

(** The longest prefix in a class, and what follows it. *)
Fixpoint take_while (p : char -> bool) (s : str) : str :=
  match s with
  | x :: s' => if p x then x :: take_while p s' else []
  | [] => []
  end.

Fixpoint drop_while (p : char -> bool) (s : str) : str :=
  match s with
  | x :: s' => if p x then drop_while p s' else s
  | [] => []
  end.

Lemma take_drop_while (p : char -> bool) (s : str) :
  take_while p s ++ drop_while p s = s.
Proof.
  induction s as [|x s IH]; cbn; [reflexivity|].
  destruct (p x); cbn; [rewrite IH|]; reflexivity.
Qed.

Lemma take_while_all (p : char -> bool) (s : str) :
  forallb p (take_while p s) = true.
Proof.
  induction s as [|x s IH]; cbn; [reflexivity|].
  destruct (p x) eqn:Hx; cbn; [rewrite Hx, IH|]; reflexivity.
Qed.

Lemma drop_while_stops (p : char -> bool) (s : str) :
  stops p (drop_while p s).
Proof.
  induction s as [|x s IH]; cbn; [exact I|].
  destruct (p x) eqn:Hx; [exact IH|exact Hx].
Qed.

Lemma firstn_prefix (u v : str) :
  firstn (length (u ++ v) - length v) (u ++ v) = u.
Proof.
  rewrite length_app. replace (length u + length v - length v) with (length u)
    by lia.
  rewrite firstn_app, Nat.sub_diag, firstn_all. cbn. apply app_nil_r.
Qed.

(** A greedy run that closes a pattern takes the longest prefix. *)
Lemma rmatch_star_accept (p : char -> bool) (s : str) (c : caps) :
  rmatch (Star (Chr p)) s c accept = Some (drop_while p s, c).
Proof.
  rewrite <- (take_drop_while p s) at 1.
  apply rmatch_star_some;
    [apply take_while_all|apply drop_while_stops|reflexivity].
Qed.

End Matcher.

(* ================================================================== *)
(** * The sources of a plain contact id *)
(* ================================================================== *)

Arguments class_of : simpl never.

Section Sources.

(** ** Patterns that match alike *)

Definition req (r1 r2 : regex) : Prop :=
  forall s c k, rmatch r1 s c k = rmatch r2 s c k.

Lemma star_loop_ext (body1 body2 : str -> caps -> cont -> option mstate) :
  (forall s c k1 k2, (forall s' c', k1 s' c' = k2 s' c') ->
     body1 s c k1 = body2 s c k2) ->
  forall fuel s c k1 k2,
    (forall s' c', k1 s' c' = k2 s' c') ->
    star_loop body1 fuel s c k1 = star_loop body2 fuel s c k2.
Proof.
  intros Hbody. induction fuel as [|fuel IH]; intros s c k1 k2 Hk;
    cbn [star_loop]; [apply Hk|].
  rewrite (Hbody s c _ (fun s' c' =>
                          if Nat.ltb (length s') (length s)
                          then star_loop body2 fuel s' c' k2 else None)).
  - rewrite (Hk s c). reflexivity.
  - intros s' c'. destruct (Nat.ltb _ _); [apply IH, Hk|reflexivity].
Qed.

Lemma rmatch_ext (r : regex) :
  forall s c k1 k2,
    (forall s' c', k1 s' c' = k2 s' c') ->
    rmatch r s c k1 = rmatch r s c k2.
Proof.
  induction r as [|p|r1 IH1 r2 IH2|r1 IH1 r2 IH2|r IH|n r IH];
    intros s c k1 k2 Hk; cbn [rmatch].
  - apply Hk.
  - destruct s as [|x s]; [reflexivity|]. destruct (p x); [apply Hk|reflexivity].
  - apply IH1. intros s' c'. apply IH2, Hk.
  - rewrite (IH1 s c k1 k2 Hk), (IH2 s c k1 k2 Hk). reflexivity.
  - apply star_loop_ext; [|exact Hk]. exact IH.
  - apply IH. intros s' c'. apply Hk.
Qed.

Lemma req_refl (r : regex) : req r r.
Proof. intros s c k. reflexivity. Qed.

Lemma req_trans (r1 r2 r3 : regex) : req r1 r2 -> req r2 r3 -> req r1 r3.
Proof. intros H1 H2 s c k. rewrite H1. apply H2. Qed.

Lemma req_Seq (a a' b b' : regex) :
  req a a' -> req b b' -> req (a ## b) (a' ## b').
Proof.
  intros Ha Hb s c k. cbn [rmatch]. rewrite Ha. apply rmatch_ext.
  intros s' c'. apply Hb.
Qed.

Lemma req_Alt (a a' b b' : regex) :
  req a a' -> req b b' -> req (Alt a b) (Alt a' b').
Proof. intros Ha Hb s c k. cbn [rmatch]. rewrite Ha, Hb. reflexivity. Qed.

Lemma req_Grp (n : nat) (a a' : regex) : req a a' -> req (Grp n a) (Grp n a').
Proof. intros Ha s c k. cbn [rmatch]. apply Ha. Qed.

Lemma req_Star (a a' : regex) : req a a' -> req (Star a) (Star a').
Proof.
  intros Ha s c k. cbn [rmatch]. apply star_loop_ext; [|reflexivity].
  intros s0 c0 k1 k2 Hk. rewrite Ha. apply rmatch_ext, Hk.
Qed.

Lemma req_Chr (p q : char -> bool) :
  (forall x, p x = q x) -> req (Chr p) (Chr q).
Proof.
  intros Hpq s c k. cbn [rmatch]. destruct s as [|x s]; [reflexivity|].
  rewrite Hpq. reflexivity.
Qed.

Lemma req_Seq_Eps (a a' : regex) : req a a' -> req (a ## Eps) a'.
Proof. intros Ha s c k. cbn [rmatch]. apply Ha. Qed.

(** ** Literal runs *)

(** The pattern of a run of literal characters followed by [r], as the
    reader builds it. *)
Definition litSeq (l : str) (r : regex) : regex :=
  fold_right (fun a r' => Chr (eqc_i a) ## r') r l.

Lemma req_litSeq (l : str) (r r' : regex) :
  req r r' -> req (litSeq l r) (LitI l ## r').
Proof.
  intros Hr. induction l as [|a l IH]; cbn [litSeq fold_right LitI].
  - intros s c k. cbn [rmatch]. apply Hr.
  - intros s c k. cbn [rmatch]. destruct s as [|x s]; [reflexivity|].
    destruct (eqc_i a x); [|reflexivity]. apply (IH s c k).
Qed.

Lemma req_litSeq_end (l : str) : req (litSeq l Eps) (LitI l).
Proof.
  induction l as [|a l IH]; cbn [litSeq fold_right LitI];
    [apply req_refl|].
  apply req_Seq; [apply req_refl|exact IH].
Qed.

Lemma class_of_none_of (a : char) (x : char) :
  ((a <? 65) || (90 <? a))%N = true ->
  ((a <? 97) || (122 <? a))%N = true ->
  class_of true [a] x = none_of [a] x.
Proof.
  intros H1 H2. unfold class_of, none_of. cbn [existsb xorb].
  rewrite !orb_false_r. f_equal.
  unfold eqc_i, upper.
  assert (H1' : (a < 65 \/ 90 < a)%N).
  { apply orb_true_iff in H1. rewrite !N.ltb_lt in H1. exact H1. }
  assert (H2' : (a < 97 \/ 122 < a)%N).
  { apply orb_true_iff in H2. rewrite !N.ltb_lt in H2. exact H2. }
  clear H1 H2.
  destruct (N.leb_spec 97 a), (N.leb_spec a 122), (N.leb_spec 97 x),
    (N.leb_spec x 122); cbn [andb]; try lia;
    destruct (N.eqb_spec a (x - 32)), (N.eqb_spec a x), (N.eqb_spec x a);
    try reflexivity; lia.
Qed.

(** ** What the reader makes of an id *)

Lemma id_char_ready (x : char) (last : lastTerm) (rd : reader) :
  id_char x = true ->
  readyStep last rd x = pushTerm (Chr (eqc_i x)) rd.
Proof.
  unfold readyStep, id_char, is_digit, is_quantifier, is_pattern_char,
    is_syntax_char.
  cbn -[N.eqb N.leb]. intros H.
  destruct (N.leb_spec 48 x), (N.leb_spec x 57), (N.leb_spec 97 x),
    (N.leb_spec x 122), (N.leb_spec 65 x), (N.leb_spec x 90),
    (N.eqb_spec x 45), (N.eqb_spec x 95); cbn in H; try discriminate;
    repeat match goal with
           | |- context [N.eqb ?a ?b] => destruct (N.eqb_spec a b); try lia
           | |- context [N.leb ?a ?b] => destruct (N.leb_spec a b); try lia
           end; reflexivity.
Qed.

Lemma id_char_dollar_free (s : str) :
  forallb id_char s = true -> dollar_free s = true.
Proof.
  induction s as [|x s IH]; [reflexivity|]. cbn [forallb dollar_free].
  intros H. apply andb_prop in H. destruct H as [Hx Hs].
  fold (dollar_free s). rewrite (IH Hs).
  destruct (N.eqb_spec x 36) as [->|]; [discriminate|reflexivity].
Qed.

(** The terms a run of literal characters adds, the last one first. *)
Definition literals (l : str) : list regex :=
  rev (map (fun x => Chr (eqc_i x)) l).

Lemma read_id (id : str) :
  forallb id_char id = true ->
  forall (last : lastTerm) (terms : list regex) (rd : reader),
    fold_left readChar id (withTerms last terms rd)
    = withTerms (match id with [] => last | _ :: _ => Atom end)
        (literals id ++ terms) rd.
Proof.
  induction id as [|x id IH]; intros Hid last terms rd; [reflexivity|].
  cbn [forallb] in Hid. apply andb_prop in Hid. destruct Hid as [Hx Hid].
  cbn [fold_left]. unfold readChar at 2. cbn [r_mode withTerms].
  rewrite (@id_char_ready x _ _ Hx). unfold pushTerm.
  cbn [withTerms r_frame f_terms f_capture f_alternatives r_stack r_next].
  change {| r_mode := Ready Atom;
            r_frame := {| f_capture := f_capture (r_frame rd);
                          f_alternatives := f_alternatives (r_frame rd);
                          f_terms := Chr (eqc_i x) :: terms |};
            r_stack := r_stack rd; r_next := r_next rd |}
    with (withTerms Atom (Chr (eqc_i x) :: terms) rd).
  rewrite (IH Hid). unfold literals. cbn [map rev].
  rewrite <- app_assoc. cbn [app].
  destruct id; reflexivity.
Qed.

Lemma sequence_literals (l : str) (terms : list regex) (acc : regex) :
  fold_left (fun acc t => t ## acc) (literals l ++ terms) acc
  = fold_left (fun acc t => t ## acc) terms (litSeq l acc).
Proof.
  rewrite fold_left_app. f_equal. unfold literals.
  rewrite <- fold_left_rev_right. rewrite rev_involutive.
  induction l as [|x l IH]; [reflexivity|]. cbn. rewrite IH. reflexivity.
Qed.

Lemma withTerms_eta (rd : reader) (last : lastTerm) :
  r_mode rd = Ready last ->
  rd = withTerms last (f_terms (r_frame rd)) rd.
Proof.
  destruct rd as [m [c a t] s n]. cbn. intros ->. reflexivity.
Qed.

(** The source is read up to the id, then the id, then the rest. *)
Ltac read_source id Hid last :=
  unfold parsePattern; rewrite <- ?app_assoc; rewrite !fold_left_app;
  match goal with
  | |- context [fold_left readChar id ?rd] =>
      let rd' := eval lazy beta iota zeta delta
                   -[eqc_i class_of is_ws is_line_terminator] in rd in
      change rd with rd';
      rewrite (@withTerms_eta rd' last eq_refl)
  end;
  rewrite (@read_id id Hid);
  lazy beta iota zeta delta
    -[eqc_i class_of is_ws is_line_terminator literals app litSeq];
  rewrite ?sequence_literals.

Definition readDexUrlLink (contactId : str) : regex :=
  litSeq (js "[")
    (Star (Chr (class_of true (js "]")))
     ## litSeq (js "](https://getdex.com/appv3/contacts/details/")
          (litSeq contactId (litSeq (js ")") Eps))).

Definition readClose : regex :=
  litSeq (js "%%") (Grp 2 (Star (Chr is_ws) ## Eps) ## Eps).

Definition readDexUrlWithComment (contactId : str) : regex :=
  Grp 1 (readDexUrlLink contactId)
  ## Star (Chr is_ws)
  ## litSeq (js "%%dex:") (Star (Chr (class_of true (js "%"))) ## readClose).

Definition readVaultLink : regex :=
  litSeq (js "[[")
    (Plus (Chr (class_of true (js "]"))) ## litSeq (js "]]") Eps).

Definition readVaultLinkWithComment (contactId : str) : regex :=
  Grp 1 readVaultLink
  ## Star (Chr is_ws)
  ## litSeq (js "%%dex:contact-id=")
       (litSeq contactId
          (Opt (litSeq (js ",")
                  (Star (Chr (class_of true (js "%"))) ## Eps))
           ## readClose)).

Lemma parsePattern_dexUrlWithComment (contactId : str) :
  forallb id_char contactId = true ->
  parsePattern (dexUrlWithCommentSource contactId)
  = Parsed (readDexUrlWithComment contactId, 2).
Proof.
  intros Hid. unfold dexUrlWithCommentSource.
  read_source contactId Hid Atom. reflexivity.
Qed.

Lemma parsePattern_vaultLinkWithComment (contactId : str) :
  forallb id_char contactId = true ->
  parsePattern (vaultLinkWithCommentSource contactId)
  = Parsed (readVaultLinkWithComment contactId, 2).
Proof.
  intros Hid. unfold vaultLinkWithCommentSource.
  read_source contactId Hid Atom. reflexivity.
Qed.

Lemma parsePattern_dexUrlPattern (contactId : str) :
  forallb id_char contactId = true ->
  parsePattern (dexUrlPatternSource contactId)
  = Parsed (Grp 1 (readDexUrlLink contactId) ## Eps, 1).
Proof.
  intros Hid. unfold dexUrlPatternSource.
  read_source contactId Hid Atom. reflexivity.
Qed.

Lemma parsePattern_vaultLinkPattern :
  parsePattern vaultLinkPatternSource = Parsed (Grp 1 readVaultLink ## Eps, 1).
Proof. vm_compute. reflexivity. Qed.

Lemma req_class (a : char) :
  ((a <? 65) || (90 <? a))%N = true ->
  ((a <? 97) || (122 <? a))%N = true ->
  req (Star (Chr (class_of true [a]))) (Star (Chr (none_of [a]))).
Proof.
  intros H1 H2. apply req_Star, req_Chr. intros x.
  apply class_of_none_of; assumption.
Qed.

Lemma req_dexUrlLink (contactId : str) :
  req (readDexUrlLink contactId) (plainDexUrlLink contactId).
Proof.
  unfold readDexUrlLink, plainDexUrlLink.
  apply req_litSeq, req_Seq; [apply req_class; reflexivity|].
  apply req_litSeq, req_litSeq, req_litSeq_end.
Qed.

Lemma req_close :
  req readClose (LitI (js "%%") ## Grp 2 (Star (Chr is_ws))).
Proof.
  unfold readClose. apply req_litSeq, req_Seq_Eps, req_Grp, req_Seq_Eps,
    req_refl.
Qed.

Lemma req_dexUrlWithComment (contactId : str) :
  req (readDexUrlWithComment contactId) (plainDexUrlWithComment contactId).
Proof.
  unfold readDexUrlWithComment, plainDexUrlWithComment.
  apply req_Seq; [apply req_Grp, req_dexUrlLink|].
  apply req_Seq; [apply req_refl|].
  apply req_litSeq, req_Seq; [apply req_class; reflexivity|apply req_close].
Qed.

Lemma req_vaultLink : req readVaultLink vaultLink.
Proof.
  unfold readVaultLink, vaultLink.
  apply req_litSeq, req_Seq; [|apply req_litSeq_end].
  unfold Plus. apply req_Seq; [|apply req_class; reflexivity].
  apply req_Chr. intros x. apply class_of_none_of; reflexivity.
Qed.

Lemma req_vaultLinkWithComment (contactId : str) :
  req (readVaultLinkWithComment contactId)
    (plainVaultLinkWithComment contactId).
Proof.
  unfold readVaultLinkWithComment, plainVaultLinkWithComment.
  apply req_Seq; [apply req_Grp, req_vaultLink|].
  apply req_Seq; [apply req_refl|].
  apply req_litSeq, req_litSeq, req_Seq; [|apply req_close].
  unfold Opt. apply req_Alt; [|apply req_refl].
  apply req_litSeq, req_Seq_Eps, req_class; reflexivity.
Qed.

(** ** Searching with patterns that match alike *)

Lemma exec_req (r1 r2 : regex) :
  req r1 r2 -> forall s, exec r1 s = exec r2 s.
Proof.
  intros H. induction s as [|x s IH]; cbn [exec]; rewrite H; [reflexivity|].
  rewrite IH. reflexivity.
Qed.

Lemma test_req (r1 r2 : regex) :
  req r1 r2 -> forall s, test r1 s = test r2 s.
Proof. intros H s. unfold test. rewrite (exec_req H). reflexivity. Qed.

(** ** The templates *)

Lemma getSubstitution_plain (matched preceding following : str)
    (captures : caps) (m : nat) (u v : str) :
  dollar_free u = true ->
  getSubstitution matched preceding following captures m (u ++ v)
  = u ++ getSubstitution matched preceding following captures m v.
Proof.
  induction u as [|x u IH]; intros H; [reflexivity|].
  cbn [dollar_free forallb] in H. apply andb_prop in H. destruct H as [Hx Hu].
  cbn [app getSubstitution]. rewrite Hx. rewrite (IH Hu). reflexivity.
Qed.

Lemma dollar_free_app (u v : str) :
  dollar_free (u ++ v) = dollar_free u && dollar_free v.
Proof. apply forallb_app. Qed.

Lemma dollar_free_dexComment (contactId memoId hash : str) :
  dollar_free contactId = true -> dollar_free memoId = true ->
  dollar_free hash = true ->
  dollar_free (dexComment contactId memoId hash) = true.
Proof.
  intros H1 H2 H3. unfold dexComment. rewrite !dollar_free_app, H1, H2, H3.
  reflexivity.
Qed.

Lemma dexComment_head (contactId memoId hash : str) :
  exists t : str, dexComment contactId memoId hash = @cons char 37%N t.
Proof. eexists. unfold dexComment. cbn [js app N_of_ascii]. reflexivity. Qed.

(** [$1] in front of a percent sign is the first capture. *)
Lemma getSubstitution_first (matched preceding following : str)
    (captures : caps) (m : nat) (v : str) :
  getSubstitution matched preceding following captures (S m)
    (js "$1" ++ @cons char 37%N v)
  = cap_text captures 1
    ++ @cons char 37%N
         (getSubstitution matched preceding following captures (S m) v).
Proof. reflexivity. Qed.

Lemma getSubstitution_replaceTemplate (matched preceding following : str)
    (captures : caps) (contactId memoId hash : str) :
  dollar_free contactId = true -> dollar_free memoId = true ->
  dollar_free hash = true ->
  getSubstitution matched preceding following captures 2
    (replaceTemplate contactId memoId hash)
  = cap_text captures 1 ++ dexComment contactId memoId hash
    ++ cap_text captures 2.
Proof.
  intros H1 H2 H3. unfold replaceTemplate.
  pose proof (dollar_free_dexComment _ _ _ H1 H2 H3) as Hc.
  destruct (dexComment_head contactId memoId hash) as [t Ht].
  rewrite Ht in *. change (dollar_free t = true) in Hc.
  change ((@cons char 37%N t) ++ js "$2")
    with (@cons char 37%N (t ++ js "$2")).
  rewrite getSubstitution_first, (getSubstitution_plain _ _ _ _ _ _ _ Hc).
  cbn. rewrite app_nil_r. reflexivity.
Qed.

Lemma getSubstitution_insertTemplate (matched preceding following : str)
    (captures : caps) (contactId memoId hash : str) :
  dollar_free contactId = true -> dollar_free memoId = true ->
  dollar_free hash = true ->
  getSubstitution matched preceding following captures 1
    (insertTemplate contactId memoId hash)
  = cap_text captures 1 ++ dexComment contactId memoId hash ++ js " ".
Proof.
  intros H1 H2 H3. unfold insertTemplate.
  pose proof (dollar_free_dexComment _ _ _ H1 H2 H3) as Hc.
  destruct (dexComment_head contactId memoId hash) as [t Ht].
  rewrite Ht in *. change (dollar_free t = true) in Hc.
  change ((@cons char 37%N t) ++ js " ")
    with (@cons char 37%N (t ++ js " ")).
  rewrite getSubstitution_first, (getSubstitution_plain _ _ _ _ _ _ _ Hc).
  reflexivity.
Qed.

Lemma replaceWith_replace (r r' : regex) (m : nat) (template : str)
    (expansion : caps -> str) (s : str) :
  req r r' ->
  (forall matched preceding following captures,
     getSubstitution matched preceding following captures m template
     = expansion captures) ->
  replaceWith r m template s = replace r' expansion s.
Proof.
  intros Hr Ht. unfold replaceWith, replace. rewrite (exec_req Hr).
  destruct (exec r' s) as [f|]; [|reflexivity]. rewrite Ht. reflexivity.
Qed.

(** ** The start line *)

(** For a contact id made of id characters, and a memo id and a hash
    without dollar signs, lines 388-431 never throw and leave the line
    [plainStartLine] describes, whatever the host does with the sources
    that are not read here. *)
Lemma updateStartLine_plain (context : PluginContext)
    (contactId memoId hash line : str) :
  forallb id_char contactId = true ->
  dollar_free memoId = true -> dollar_free hash = true ->
  updateStartLine context contactId memoId hash line
  = inr (plainStartLine contactId memoId hash line).
Proof.
  intros Hid Hm Hh. pose proof (id_char_dollar_free _ Hid) as Hc.
  unfold updateStartLine, plainStartLine, RegExp_new.
  rewrite (parsePattern_dexUrlWithComment _ Hid).
  rewrite (parsePattern_vaultLinkWithComment _ Hid).
  rewrite (parsePattern_dexUrlPattern _ Hid).
  rewrite parsePattern_vaultLinkPattern.
  cbn [andThen regExpOf re_test re_replace].
  rewrite (test_req (req_dexUrlWithComment contactId)).
  rewrite (test_req (req_vaultLinkWithComment contactId)).
  rewrite (test_req (req_Seq_Eps (req_Grp 1 (req_dexUrlLink contactId)))).
  rewrite (test_req (req_Seq_Eps (req_Grp 1 req_vaultLink))).
  fold (plainDexUrlPattern contactId). fold vaultLinkPattern.
  rewrite (@replaceWith_replace _ _ 2 _
             (fun c => cap_text c 1 ++ dexComment contactId memoId hash
                       ++ cap_text c 2) line
             (req_dexUrlWithComment contactId))
    by (intros; apply getSubstitution_replaceTemplate; assumption).
  rewrite (@replaceWith_replace _ _ 2 _
             (fun c => cap_text c 1 ++ dexComment contactId memoId hash
                       ++ cap_text c 2) line
             (req_vaultLinkWithComment contactId))
    by (intros; apply getSubstitution_replaceTemplate; assumption).
  rewrite (@replaceWith_replace _ (plainDexUrlPattern contactId) 1 _
             (fun c => cap_text c 1 ++ dexComment contactId memoId hash
                       ++ js " ") line
             (req_Seq_Eps (req_Grp 1 (req_dexUrlLink contactId))))
    by (intros; apply getSubstitution_insertTemplate; assumption).
  rewrite (@replaceWith_replace _ vaultLinkPattern 1 _
             (fun c => cap_text c 1 ++ dexComment contactId memoId hash
                       ++ js " ") line
             (req_Seq_Eps (req_Grp 1 req_vaultLink)))
    by (intros; apply getSubstitution_insertTemplate; assumption).
  repeat match goal with
         | |- context [if ?b then _ else _] => destruct b
         end; reflexivity.
Qed.

End Sources.

(* ================================================================== *)
(** * The orchestrator: remote calls and the document *)
(* ================================================================== *)

(** The events a run added to the world. *)
Definition newEvents {A} (w : World) (out : (error + A) * World) : list event :=
  skipn (length (w_events w)) (w_events (snd out)).

(** The error of a remote call that was rejected. *)
Definition failedWith (ev : event) : option error :=
  match ev with
  | CreateNoteCall _ _ (inl e) => Some e
  | UpdateNoteCall _ _ _ (inl e) => Some e
  | _ => None
  end.

Definition isRemoteCall (ev : event) : bool :=
  match ev with
  | CreateNoteCall _ _ _ | UpdateNoteCall _ _ _ _ => true
  | _ => false
  end.

Definition remoteCalls (evs : list event) : list event :=
  filter isRemoteCall evs.

(** Lines 365-382: what the remote call of a run that gets that far
    resolves or rejects to. *)
Definition remoteOutcome (api : DexApiClient) (memoContent : str)
    (contact : ProcessedContact) (contentBlock : ContentBlock)
  : error + NoteResult :=
  let existingMemoId := cb_memoId contentBlock in
  let isFakeMemoId :=
    truthy existingMemoId
    && startsWith (cap_text (fun _ => existingMemoId) 0) (js "memo_") in
  if truthy existingMemoId && negb isFakeMemoId
  then updateNote api (cap_text (fun _ => existingMemoId) 0)
         (contact_id contact) memoContent
  else createNote api (contact_id contact) memoContent.

Lemma skipn_length_app {A} (l1 l2 : list A) :
  skipn (length l1) (l1 ++ l2) = l2.
Proof. induction l1; cbn; auto. Qed.

Lemma skipn_length_app2 {A} (l1 l2 l3 : list A) :
  skipn (length l1) ((l1 ++ l2) ++ l3) = l2 ++ l3.
Proof. rewrite <- app_assoc. apply skipn_length_app. Qed.

Lemma skipn_all_nil {A} (l : list A) : skipn (length l) l = [].
Proof. induction l; cbn; auto. Qed.

Lemma setLine_same (editor : Editor) (n : nat) :
  setLine editor n (getLine editor n) = editor.
Proof.
  revert n. induction editor as [|l editor IH]; intros [|n]; cbn; try reflexivity.
  unfold getLine in IH. rewrite IH. reflexivity.
Qed.

Lemma str_eqb_eq (a b : str) : str_eqb a b = true <-> a = b.
Proof.
  unfold str_eqb. destruct (list_eq_dec N.eq_dec a b); split; congruence.
Qed.

Ltac run_sync :=
  unfold syncContactMemo, callCreateNote, callUpdateNote, newEvents;
  unfold bind, ret, throw, raise, readEditor, editorSetLine, emit;
  cbn [fst snd w_editor w_events apiClient renderMemo].

(** C5. If the remote create or update call of a run of
    [syncContactMemo] is rejected with an error, the run ends with that
    error and the document is the one the run started with. *)
Theorem remote_failure_leaves_document :
  forall (context : PluginContext) (contact : ProcessedContact)
         (lineNumber : nat) (silent : bool) (w : World) (ev : event)
         (e : error),
    let out := syncContactMemo context contact lineNumber silent w in
    In ev (newEvents w out) ->
    failedWith ev = Some e ->
    fst out = inl e /\ w_editor (snd out) = w_editor w.
Proof.
  intros context contact lineNumber silent w ev e out Hin Hfail.
  subst out. revert Hin. run_sync.
  destruct (apiClient context) as [api|]; cbn [fst snd w_events w_editor].
  2:{ rewrite skipn_all_nil. intros []. }
  destruct (skipUnchanged (w_editor w) (getContentBlock (w_editor w) lineNumber));
    cbn [fst snd w_events w_editor].
  1:{ rewrite skipn_all_nil. intros []. }
  set (cb := getContentBlock (w_editor w) lineNumber).
  destruct (truthy (cb_memoId cb) &&
            negb (truthy (cb_memoId cb) &&
                  startsWith (cap_text (fun _ => cb_memoId cb) 0) (js "memo_"))).
  - destruct (updateNote api _ _ _) as [err|res] eqn:Hcall;
      cbn [fst snd w_events w_editor].
    + rewrite skipn_length_app. intros [<-|[]]. cbn in Hfail.
      split; congruence.
    + destruct (updateStartLine _ _ _ _ _) as [rejected|updatedLine];
        cbn [fst snd w_events w_editor];
        [|destruct (str_eqb _ _), silent; cbn [fst snd w_events w_editor];
          try destruct (_ || _); cbn [fst snd w_events w_editor]];
        rewrite ?skipn_length_app, ?skipn_length_app2;
        cbn [In app]; intros Hin; exfalso;
        repeat (destruct Hin as [<-|Hin]; [cbn in Hfail; discriminate|]);
        exact Hin.
  - destruct (createNote api _ _) as [err|res] eqn:Hcall;
      cbn [fst snd w_events w_editor].
    + rewrite skipn_length_app. intros [<-|[]]. cbn in Hfail.
      split; congruence.
    + destruct (updateStartLine _ _ _ _ _) as [rejected|updatedLine];
        cbn [fst snd w_events w_editor];
        [|destruct (str_eqb _ _), silent; cbn [fst snd w_events w_editor];
          try destruct (_ || _); cbn [fst snd w_events w_editor]];
        rewrite ?skipn_length_app, ?skipn_length_app2;
        cbn [In app]; intros Hin; exfalso;
        repeat (destruct Hin as [<-|Hin]; [cbn in Hfail; discriminate|]);
        exact Hin.
Qed.

(** A remote store that rejects every call. *)
Definition downApi : DexApiClient :=
  {| createNote := fun _ _ => inl (RemoteError (js "503"));
     updateNote := fun _ _ _ => inl (RemoteError (js "503")) |}.

(** A remote store that creates memo [new1] and updates in place. *)
Definition okApi : DexApiClient :=
  {| createNote := fun _ _ =>
       inr {| note_id := js "new1"; note_success := true;
              note_wasUpdated := false |};
     updateNote := fun noteId _ _ =>
       inr {| note_id := noteId; note_success := true;
              note_wasUpdated := true |} |}.

(** A context for the examples: the memo is the block as it is, and the
    host rejects every source that is not read here. *)
Definition contextWith (api : DexApiClient) : PluginContext :=
  {| apiClient := Some api; renderMemo := fun content => content;
     hostRegExp := fun _ => None |}.

Definition jane : ProcessedContact :=
  {| contact_id := js "c1"; contact_name := js "Jane" |}.

Definition worldOf (editor : Editor) : World :=
  {| w_editor := editor; w_events := [] |}.

(** A mention with its first comment, followed by an indented note. *)
Definition freshDoc : Editor :=
  [js "[Jane](https://getdex.com/appv3/contacts/details/c1)%%dex:contact-id=c1%% hello";
   js "  note"].

Lemma remote_failure_leaves_document_witness :
  fst (syncContactMemo (contextWith downApi) jane 0 true (worldOf freshDoc))
  = inl (RemoteError (js "503"))
  /\ w_editor (snd (syncContactMemo (contextWith downApi) jane 0 true
                      (worldOf freshDoc)))
     = w_editor (worldOf freshDoc).
Proof.
  apply (@remote_failure_leaves_document (contextWith downApi) jane 0 true
           (worldOf freshDoc)
           (CreateNoteCall (js "c1")
              (js "[Jane](https://getdex.com/appv3/contacts/details/c1) hello"
               ++ newline ++ js "  note")
              (inl (RemoteError (js "503"))))
           (RemoteError (js "503"))).
  - vm_compute. left. reflexivity.
  - reflexivity.
Defined.

(** The remote call of lines 365-382, as the event it leaves. *)
Definition remoteCall (api : DexApiClient) (memoContent : str)
    (contact : ProcessedContact) (contentBlock : ContentBlock) : event :=
  let existingMemoId := cb_memoId contentBlock in
  let isFakeMemoId :=
    truthy existingMemoId
    && startsWith (cap_text (fun _ => existingMemoId) 0) (js "memo_") in
  if truthy existingMemoId && negb isFakeMemoId
  then UpdateNoteCall (cap_text (fun _ => existingMemoId) 0)
         (contact_id contact) memoContent
         (updateNote api (cap_text (fun _ => existingMemoId) 0)
            (contact_id contact) memoContent)
  else CreateNoteCall (contact_id contact) memoContent
         (createNote api (contact_id contact) memoContent).

(** A run that is not skipped, whose remote call resolves and whose
    patterns are accepted: what it returns, what it leaves in the
    document and which remote calls it made. *)
Lemma sync_resolved_run (api : DexApiClient) (render : str -> str)
    (host : str -> option RegExp)
    (contact : ProcessedContact) (lineNumber : nat) (silent : bool)
    (w : World) (res : NoteResult) (updatedLine : str) :
  let context := {| apiClient := Some api; renderMemo := render;
                    hostRegExp := host |} in
  let cb := getContentBlock (w_editor w) lineNumber in
  skipUnchanged (w_editor w) cb = None ->
  remoteOutcome api (render (cb_content cb)) contact cb = inr res ->
  updateStartLine context (contact_id contact) (note_id res)
    (simpleHash (cleanContentForHashing (cb_content cb)))
    (getLine (w_editor w) lineNumber) = inr updatedLine ->
  let out := syncContactMemo context contact lineNumber silent w in
  fst out = inr (note_id res)
  /\ w_editor (snd out) = setLine (w_editor w) lineNumber updatedLine
  /\ remoteCalls (newEvents w out)
     = [remoteCall api (render (cb_content cb)) contact cb].
Proof.
  intros context cb Hskip Hres Hline out. subst out context.
  unfold remoteOutcome in Hres. unfold remoteCall. run_sync.
  fold cb. rewrite Hskip. unfold cleanContentForHashing in Hline.
  destruct (truthy (cb_memoId cb) &&
            negb (truthy (cb_memoId cb) &&
                  startsWith (cap_text (fun _ => cb_memoId cb) 0) (js "memo_")));
    rewrite Hres; cbn [fst snd w_events w_editor];
    rewrite Hline; cbn [fst snd w_events w_editor];
    (destruct (str_eqb _ _) eqn:Heq;
     [apply str_eqb_eq in Heq; rewrite Heq, setLine_same|]);
    destruct silent; cbn [fst snd w_events w_editor];
    try destruct (_ || _); cbn [fst snd w_events w_editor];
    rewrite ?skipn_length_app, ?skipn_length_app2;
    repeat split; reflexivity.
Qed.


(** [freshDoc] after its first sync. *)
Definition syncedDoc : Editor :=
  [js "[Jane](https://getdex.com/appv3/contacts/details/c1)%%dex:contact-id=c1,memo-id=new1,hash=w8fdv5%% hello";
   js "  note"].

(** C1, the code at the failing input.  The first sync of [freshDoc]
    writes [syncedDoc], whose block the classifier calls synced: its
    comment carries memo id [new1] and a hash equal to the hash of the
    stripped block.  A second [syncContactMemo] on that unchanged
    document is not skipped: it calls the remote UPDATE endpoint once
    more, because the check that should skip it looks for a
    [data-hash] attribute on the last line of the block, not for the
    hash of the comment. *)
Theorem second_sync_calls_update :
  w_editor (snd (syncContactMemo (contextWith okApi) jane 0 true
                   (worldOf freshDoc))) = syncedDoc
  /\ be_syncStatus (findContentBlockEnd syncedDoc 1) = Synced
  /\ skipUnchanged syncedDoc (getContentBlock syncedDoc 0) = None
  /\ fst (syncContactMemo (contextWith okApi) jane 0 true (worldOf syncedDoc))
     = inr (js "new1")
  /\ w_editor (snd (syncContactMemo (contextWith okApi) jane 0 true
                      (worldOf syncedDoc))) = syncedDoc
  /\ w_events (snd (syncContactMemo (contextWith okApi) jane 0 true
                      (worldOf syncedDoc)))
     = [UpdateNoteCall (js "new1") (js "c1")
          (js "[Jane](https://getdex.com/appv3/contacts/details/c1) hello"
           ++ newline ++ js "  note")
          (inr {| note_id := js "new1"; note_success := true;
                  note_wasUpdated := true |})].
Proof. vm_compute. repeat split. Qed.

(* ================================================================== *)
(** * What a pattern can start with *)
(* ================================================================== *)

Section First.

(** Whether a non-empty match of the pattern can start with [x]. *)
Fixpoint first (r : regex) (x : char) : bool :=
  match r with
  | Eps => false
  | Chr p => p x
  | Seq r1 r2 => first r1 x || (nullable r1 && first r2 x)
  | Alt r1 r2 => first r1 x || first r2 x
  | Star r' => first r' x
  | Grp _ r' => first r' x
  end.

(** A pattern that cannot start with the next character fails, unless it
    can match the empty string and the rest of the pattern succeeds
    right here. *)
Lemma rmatch_first_gen (r : regex) :
  forall x t c k,
    first r x = false ->
    nullable r = false \/ (forall c', k (x :: t) c' = None) ->
    rmatch r (x :: t) c k = None.
Proof.
  induction r as [|p|r1 IH1 r2 IH2|r1 IH1 r2 IH2|r IH|n r IH];
    intros x t c k Hf Hk; cbn [first nullable] in *.
  - destruct Hk as [Hk|Hk]; [discriminate|]. apply Hk.
  - rewrite rmatch_Chr_cons, Hf. reflexivity.
  - rewrite rmatch_Seq. apply orb_false_elim in Hf. destruct Hf as [Hf1 Hf2].
    apply IH1; [exact Hf1|].
    destruct (nullable r1); [right|left; reflexivity].
    cbn [andb] in *. intros c'. apply IH2; [exact Hf2|exact Hk].
  - apply orb_false_elim in Hf. destruct Hf as [Hf1 Hf2].
    cbn [rmatch]. rewrite IH1, IH2; try assumption; try reflexivity.
    + destruct Hk as [Hk|Hk]; [|right; exact Hk].
      apply orb_false_elim in Hk. left. apply Hk.
    + destruct Hk as [Hk|Hk]; [|right; exact Hk].
      apply orb_false_elim in Hk. left. apply Hk.
  - destruct Hk as [Hk|Hk]; [discriminate|].
    rewrite rmatch_Star. cbn [length star_loop].
    rewrite IH; [apply Hk|exact Hf|].
    right. intros c'. rewrite Nat.ltb_irrefl. reflexivity.
  - rewrite rmatch_Grp. apply IH; [exact Hf|].
    destruct Hk as [Hk|Hk]; [left; exact Hk|right].
    intros c'. apply Hk.
Qed.

Lemma rmatch_first (r : regex) (x : char) (t : str) (c : caps) (k : cont) :
  nullable r = false -> first r x = false -> rmatch r (x :: t) c k = None.
Proof. intros Hn Hf. apply rmatch_first_gen; [exact Hf|left; exact Hn]. Qed.

Lemma rmatch_nil (r : regex) :
  forall c k, nullable r = false -> rmatch r [] c k = None.
Proof.
  induction r as [|p|r1 IH1 r2 IH2|r1 IH1 r2 IH2|r IH|n r IH];
    intros c k Hn; cbn [nullable] in Hn; try discriminate.
  - reflexivity.
  - rewrite rmatch_Seq. destruct (nullable r1) eqn:Hn1.
    + cbn [andb] in Hn.
      destruct (rmatch r1 [] c (fun s' c' => rmatch r2 s' c' k)) eqn:Hm;
        [|reflexivity].
      apply rmatch_cont in Hm. destruct Hm as (s' & c' & Hm & [u Hu]).
      destruct u; [|discriminate]. cbn in Hu. subst s'.
      rewrite IH2 in Hm by exact Hn. discriminate.
    + apply IH1. reflexivity.
  - apply orb_false_elim in Hn. cbn [rmatch]. rewrite IH1, IH2; tauto.
  - rewrite rmatch_Grp. apply IH. exact Hn.
Qed.

(** A greedy run of one class, followed by a pattern that cannot start
    with a character of the class and cannot be empty: the run takes the
    whole stretch and leaves no choice. *)
Lemma rmatch_star_next (p : char -> bool) (rest : regex) (l s : str)
    (c : caps) (k : cont) :
  forallb p l = true -> stops p s ->
  nullable rest = false ->
  (forall x, p x = true -> first rest x = false) ->
  rmatch (Star (Chr p) ## rest) (l ++ s) c k = rmatch rest s c k.
Proof.
  intros Hl Hs Hn Hfirst. rewrite rmatch_Seq.
  destruct (rmatch rest s c k) as [st|] eqn:Hk.
  - apply rmatch_star_some; assumption.
  - apply rmatch_star_none; try assumption.
    intros l1 [|x l2] ->.
    + exact Hk.
    + cbn [app]. apply rmatch_first; [exact Hn|]. apply Hfirst.
      rewrite forallb_app in Hl. apply andb_prop in Hl. destruct Hl as [_ Hl].
      cbn [forallb] in Hl. apply andb_prop in Hl. apply Hl.
Qed.

Lemma rmatch_plus_next (p : char -> bool) (rest : regex) (x : char)
    (l s : str) (c : caps) (k : cont) :
  forallb p (x :: l) = true -> stops p s ->
  nullable rest = false ->
  (forall y, p y = true -> first rest y = false) ->
  rmatch (Plus (Chr p) ## rest) ((x :: l) ++ s) c k = rmatch rest s c k.
Proof.
  intros Hl Hs Hn Hfirst. cbn [forallb] in Hl. apply andb_prop in Hl.
  destruct Hl as [Hx Hl]. unfold Plus. rewrite !rmatch_Seq. cbn [app].
  rewrite rmatch_Chr_cons, Hx.
  change (rmatch (Star (Chr p)) (l ++ s) c (fun s' c' => rmatch rest s' c' k))
    with (rmatch (Star (Chr p) ## rest) (l ++ s) c k).
  apply rmatch_star_next; assumption.
Qed.

(** No match starts on a stretch of characters the pattern cannot start
    with. *)
Lemma no_match_in_first (r : regex) (u s : str) :
  nullable r = false ->
  forallb (fun x => negb (first r x)) u = true ->
  no_match_in r u s.
Proof.
  intros Hn Hu u1 x u2 ->. apply rmatch_first; [exact Hn|].
  rewrite forallb_app in Hu. apply andb_prop in Hu. destruct Hu as [_ Hu].
  cbn [forallb] in Hu. apply andb_prop in Hu. destruct Hu as [Hx _].
  apply negb_true_iff. exact Hx.
Qed.

Lemma exec_nil_none (r : regex) : nullable r = false -> exec r [] = None.
Proof. intros Hn. cbn [exec]. rewrite rmatch_nil by exact Hn. reflexivity. Qed.

End First.

(* ================================================================== *)
(** * Reading a comment *)
(* ================================================================== *)

Arguments eqc : simpl never.
Arguments eqc_i : simpl never.
Arguments none_of : simpl never.
Arguments is_ws : simpl never.
Arguments is_digit : simpl never.

Section Parsing.

Lemma forallb_impl (p q : char -> bool) (l : str) :
  (forall x, p x = true -> q x = true) ->
  forallb p l = true -> forallb q l = true.
Proof.
  intros Hpq. induction l as [|x l IH]; cbn; [reflexivity|].
  intros H. apply andb_prop in H. destruct H as [Hx Hl].
  rewrite (Hpq x Hx), (IH Hl). reflexivity.
Qed.

Lemma rmatch_Lit_miss (l : str) (r : regex) :
  forall s c k, startsWith s l = false -> rmatch (Lit l ## r) s c k = None.
Proof.
  induction l as [|a l IH]; intros s c k H;
    [destruct s; discriminate|].
  destruct s as [|x s]; cbn [Lit]; rewrite !rmatch_Seq;
    [reflexivity|].
  rewrite rmatch_Chr_cons. cbn [startsWith] in H. unfold eqc.
  destruct (N.eqb a x); [|reflexivity]. cbn [andb] in H.
  specialize (IH s c k H). rewrite rmatch_Seq in IH. exact IH.
Qed.

(** A comment as the pattern reads it: each field that is present comes
    with its marker, [contact-id=], [,memo-id=] and [,hash=], the comma
    being part of the marker. *)
Definition fieldText (marker : str) (value : option str) : str :=
  match value with
  | Some v => marker ++ v
  | None => []
  end.

Definition commentText (contactId memoId hash : option str) : str :=
  js "%%dex:"
  ++ fieldText (js "contact-id=") contactId
  ++ fieldText (js ",memo-id=") memoId
  ++ fieldText (js ",hash=") hash
  ++ js "%%".

(** A value the pattern can capture: not empty, and free of comma,
    percent sign and closing parenthesis. *)
Definition field_ok (value : option str) : Prop :=
  match value with
  | Some v => v <> [] /\ forallb field_char v = true
  | None => True
  end.

Definition fieldPattern (marker : str) (n : nat) : regex :=
  Opt (Lit marker ## Grp n (Plus (Chr field_char))).

Lemma rmatch_Alt (r1 r2 : regex) (s : str) (c : caps) (k : cont) :
  rmatch (Alt r1 r2) s c k
  = match rmatch r1 s c k with
    | Some x => Some x
    | None => rmatch r2 s c k
    end.
Proof. reflexivity. Qed.

Lemma rmatch_Eps (s : str) (c : caps) (k : cont) : rmatch Eps s c k = k s c.
Proof. reflexivity. Qed.

Lemma rmatch_Opt_some (r rest : regex) (s : str) (c : caps) (k : cont)
    (st : mstate) :
  rmatch (r ## rest) s c k = Some st ->
  rmatch (Opt r ## rest) s c k = Some st.
Proof.
  intros H. unfold Opt. rewrite rmatch_Seq, rmatch_Alt.
  rewrite rmatch_Seq in H. rewrite H. reflexivity.
Qed.

Lemma rmatch_Opt_none (r rest : regex) (s : str) (c : caps) (k : cont) :
  rmatch (r ## rest) s c k = None ->
  rmatch (Opt r ## rest) s c k = rmatch rest s c k.
Proof.
  intros H. unfold Opt. rewrite rmatch_Seq, rmatch_Alt.
  rewrite rmatch_Seq in H. rewrite H. reflexivity.
Qed.

Lemma fieldPattern_present (marker : str) (n : nat) (rest : regex)
    (v s : str) (c : caps) (k : cont) (st : mstate) :
  v <> [] -> forallb field_char v = true -> stops field_char s ->
  rmatch rest s (set_cap n v c) k = Some st ->
  rmatch (fieldPattern marker n ## rest) (marker ++ v ++ s) c k = Some st.
Proof.
  intros Hne Hv Hs Hk. destruct v as [|x l]; [congruence|].
  unfold fieldPattern. apply rmatch_Opt_some.
  rewrite !rmatch_Seq, rmatch_Lit, rmatch_Grp.
  apply rmatch_plus_some; [exact Hv|exact Hs|].
  rewrite firstn_prefix. exact Hk.
Qed.

Lemma fieldPattern_absent (marker : str) (n : nat) (rest : regex)
    (s : str) (c : caps) (k : cont) :
  startsWith s marker = false ->
  rmatch (fieldPattern marker n ## rest) s c k = rmatch rest s c k.
Proof.
  intros Hs. unfold fieldPattern. apply rmatch_Opt_none.
  rewrite rmatch_Seq. apply rmatch_Lit_miss. exact Hs.
Qed.

Lemma MEMO_ID_PATTERN_fields :
  MEMO_ID_PATTERN
  = Lit (js "%%dex:")
    ## fieldPattern (js "contact-id=") 1
    ## fieldPattern (js ",memo-id=") 2
    ## fieldPattern (js ",hash=") 3
    ## Lit (js "%%").
Proof. reflexivity. Qed.

Lemma percent_first (x : char) :
  none_of (js "%") x = true -> first MEMO_ID_PATTERN x = false.
Proof.
  cbn. unfold none_of, eqc. cbn -[N.eqb]. rewrite (N.eqb_sym 37 x).
  destruct (N.eqb x 37); [discriminate|reflexivity].
Qed.

(** The comment at the first percent sign of a line is read field by
    field. *)
Lemma exec_commentText (pre post : str) (contactId memoId hash : option str) :
  forallb (none_of (js "%")) pre = true ->
  field_ok contactId -> field_ok memoId -> field_ok hash ->
  exists c,
    exec MEMO_ID_PATTERN (pre ++ commentText contactId memoId hash ++ post)
    = Some (Found pre post c)
    /\ c 1 = contactId /\ c 2 = memoId /\ c 3 = hash.
Proof.
  intros Hpre Hc Hm Hh.
  assert (Hmatch : exists c',
             rmatch MEMO_ID_PATTERN (commentText contactId memoId hash ++ post)
               no_caps accept = Some (post, c')
             /\ c' 1 = contactId /\ c' 2 = memoId /\ c' 3 = hash).
  { rewrite MEMO_ID_PATTERN_fields. unfold commentText.
    rewrite <- !app_assoc. rewrite rmatch_Seq, rmatch_Lit.
    destruct contactId as [cv|], memoId as [mv|], hash as [hv|];
      cbn [fieldText field_ok app] in *; rewrite <- ?app_assoc;
      (eexists; split;
       [ repeat
           (first
              [ apply fieldPattern_present;
                [tauto | tauto | cbn; reflexivity | ]
              | rewrite fieldPattern_absent by reflexivity ]);
         rewrite rmatch_Lit; reflexivity
       | repeat split; reflexivity ]). }
  destruct Hmatch as (c' & Hmatch & H1 & H2 & H3).
  exists c'. split; [|repeat split; assumption].
  rewrite exec_skip.
  - rewrite (exec_here _ _ Hmatch). cbn. rewrite app_nil_r. reflexivity.
  - apply no_match_in_first; [reflexivity|].
    eapply forallb_impl; [|exact Hpre].
    intros x Hx. rewrite (percent_first _ Hx). reflexivity.
Qed.

End Parsing.

(* ================================================================== *)
(** * Writing a comment *)
(* ================================================================== *)

Section Links.

(** ** Characters *)

Lemma upper_eq_nonletter (a x : char) :
  ((a <? 65) || (90 <? a))%N = true ->
  ((a <? 97) || (122 <? a))%N = true ->
  eqc_i a x = N.eqb a x.
Proof.
  unfold eqc_i, upper. intros H1 H2.
  assert (H1' : (a < 65 \/ 90 < a)%N).
  { apply orb_true_iff in H1. rewrite !N.ltb_lt in H1. exact H1. }
  assert (H2' : (a < 97 \/ 122 < a)%N).
  { apply orb_true_iff in H2. rewrite !N.ltb_lt in H2. exact H2. }
  clear H1 H2.
  destruct (N.leb_spec 97 a), (N.leb_spec a 122), (N.leb_spec 97 x),
    (N.leb_spec x 122); cbn [andb]; try lia;
    destruct (N.eqb_spec a (x - 32)), (N.eqb_spec a x); try reflexivity; lia.
Qed.

Lemma none_of_one (a x : char) : none_of [a] x = negb (N.eqb x a).
Proof. unfold none_of. cbn. rewrite orb_false_r. reflexivity. Qed.

(** A character outside a class that excludes [a] is not [a], with or
    without flag [i], when [a] is not a letter. *)
Lemma none_of_eqc_i (a x : char) (l : list char) :
  ((a <? 65) || (90 <? a))%N = true ->
  ((a <? 97) || (122 <? a))%N = true ->
  In a l -> none_of l x = true -> eqc_i a x = false.
Proof.
  intros H1 H2 Hin Hx. rewrite upper_eq_nonletter by assumption.
  unfold none_of in Hx. apply negb_true_iff in Hx.
  destruct (N.eqb_spec a x) as [<-|]; [|reflexivity].
  assert (Hex : existsb (N.eqb a) l = true).
  { apply existsb_exists. exists a. split; [exact Hin|apply N.eqb_refl]. }
  congruence.
Qed.

Lemma none_of_eqc (a x : char) (l : list char) :
  In a l -> none_of l x = true -> eqc a x = false.
Proof.
  intros Hin Hx. unfold none_of in Hx. apply negb_true_iff in Hx.
  unfold eqc. destruct (N.eqb_spec a x) as [<-|]; [|reflexivity].
  assert (Hex : existsb (N.eqb a) l = true).
  { apply existsb_exists. exists a. split; [exact Hin|apply N.eqb_refl]. }
  congruence.
Qed.

Lemma ws_not_percent (x : char) : is_ws x = true -> eqc_i 37%N x = false.
Proof.
  intros Hx. rewrite upper_eq_nonletter by reflexivity.
  destruct (N.eqb_spec 37%N x) as [<-|]; [discriminate|reflexivity].
Qed.

Lemma none_of_weaken (l l' : list char) (x : char) :
  incl l' l -> none_of l x = true -> none_of l' x = true.
Proof.
  unfold none_of. intros Hincl Hx. apply negb_true_iff in Hx.
  apply negb_true_iff. destruct (existsb (N.eqb x) l') eqn:He; [|reflexivity].
  apply existsb_exists in He. destruct He as (a & Ha & Hxa).
  rewrite <- Hx. symmetry. apply existsb_exists. exists a.
  split; [apply Hincl, Ha|exact Hxa].
Qed.

(** ** Link texts *)

Definition detailsUrl : str :=
  js "](https://getdex.com/appv3/contacts/details/".

(** [[display](https://getdex.com/appv3/contacts/details/<id>)] *)
Definition dexLinkText (display contactId : str) : str :=
  js "[" ++ display ++ detailsUrl ++ contactId ++ js ")".

(** [[[path]]] *)
Definition vaultLinkText (path : str) : str := js "[[" ++ path ++ js "]]".

(** On the text of a Dex URL link of the contact the link pattern has
    one way to match: it takes the whole link. *)
Lemma rmatch_dexUrlLink (display contactId rest : str) (c : caps) (k : cont) :
  forallb (none_of (js "]")) display = true ->
  rmatch (plainDexUrlLink contactId) (dexLinkText display contactId ++ rest) c k
  = k rest c.
Proof.
  intros Hd. unfold plainDexUrlLink, dexLinkText. rewrite <- !app_assoc.
  rewrite rmatch_Seq, rmatch_LitI.
  rewrite rmatch_star_next; [|exact Hd|reflexivity|reflexivity|].
  - fold detailsUrl.
    rewrite rmatch_Seq, rmatch_LitI, rmatch_Seq, rmatch_LitI, rmatch_LitI.
    reflexivity.
  - intros x Hx. cbn.
    rewrite (@none_of_eqc_i 93%N x (js "]")); auto; cbn; auto.
Qed.

Lemma rmatch_vaultLink (path rest : str) (c : caps) (k : cont) :
  path <> [] -> forallb (none_of (js "]")) path = true ->
  rmatch vaultLink (vaultLinkText path ++ rest) c k = k rest c.
Proof.
  intros Hne Hp. destruct path as [|x p]; [congruence|].
  unfold vaultLink, vaultLinkText. rewrite <- !app_assoc.
  rewrite rmatch_Seq, rmatch_LitI.
  rewrite rmatch_plus_next; [|exact Hp|reflexivity|reflexivity|].
  - rewrite rmatch_LitI. reflexivity.
  - intros y Hy. cbn.
    rewrite (@none_of_eqc_i 93%N y (js "]")); auto; cbn; auto.
Qed.


(** ** Mentions *)

Inductive linkKind : Type :=
| DexUrl (display : str)
| Vault (path : str).

Definition linkText (l : linkKind) (contactId : str) : str :=
  match l with
  | DexUrl display => dexLinkText display contactId
  | Vault path => vaultLinkText path
  end.

(** Free of brackets and percent signs. *)
Definition plain (s : str) : bool := forallb (none_of (js "[]%")) s.

Definition link_ok (l : linkKind) : Prop :=
  match l with
  | DexUrl display => plain display = true
  | Vault path => path <> [] /\ plain path = true
  end.

(** A mention with its comment: the link, the white space between the
    link and the comment, and the comment [%%dex:contact-id=<id><more>%%]
    where [more] is empty or starts with a comma. *)
Record mention : Type := Mention {
  m_link : linkKind;
  m_id : str;
  m_gap : str;
  m_more : str
}.

Definition mentionComment (m : mention) : str :=
  js "%%dex:contact-id=" ++ m_id m ++ m_more m ++ js "%%".

Definition mentionText (m : mention) : str :=
  linkText (m_link m) (m_id m) ++ m_gap m ++ mentionComment m.

Definition more_ok (more : str) : Prop :=
  (more = [] \/ exists b, more = js "," ++ b) /\ plain more = true.

Definition mention_ok (m : mention) : Prop :=
  link_ok (m_link m) /\ plain_id (m_id m)
  /\ forallb is_ws (m_gap m) = true /\ more_ok (m_more m).

Lemma plain_none_of (l : list char) (s : str) :
  incl l (js "[]%") -> plain s = true -> forallb (none_of l) s = true.
Proof.
  intros Hincl. apply forallb_impl. intros x. apply none_of_weaken, Hincl.
Qed.

Lemma id_char_none_of (x : char) :
  id_char x = true -> none_of (js "[]%,)") x = true.
Proof.
  unfold id_char, is_digit, none_of. cbn -[N.eqb N.leb]. intros H.
  destruct (N.eqb_spec x 91), (N.eqb_spec x 93), (N.eqb_spec x 37),
    (N.eqb_spec x 44), (N.eqb_spec x 41); subst; try discriminate; reflexivity.
Qed.

Lemma id_none_of (l : list char) (s : str) :
  incl l (js "[]%,)") -> forallb id_char s = true ->
  forallb (none_of l) s = true.
Proof.
  intros Hincl. apply forallb_impl. intros x Hx.
  eapply none_of_weaken; [exact Hincl|]. apply id_char_none_of, Hx.
Qed.

Lemma ws_none_of (x : char) : is_ws x = true -> none_of (js "[]%") x = true.
Proof.
  unfold none_of. cbn -[N.eqb]. intros H.
  destruct (N.eqb_spec x 91), (N.eqb_spec x 93), (N.eqb_spec x 37);
    subst; try discriminate; reflexivity.
Qed.

Lemma ws_forall_none_of (l : list char) (s : str) :
  incl l (js "[]%") -> forallb is_ws s = true ->
  forallb (none_of l) s = true.
Proof.
  intros Hincl. apply forallb_impl. intros x Hx.
  eapply none_of_weaken; [exact Hincl|]. apply ws_none_of, Hx.
Qed.

Ltac incl_js := cbn; intros ? ?; cbn in *; tauto.

(** The close of a comment and the white space after it. *)
Lemma rmatch_close (tail : str) (c : caps) :
  rmatch (LitI (js "%%") ## Grp 2 (Star (Chr is_ws))) (js "%%" ++ tail) c accept
  = Some (drop_while is_ws tail, set_cap 2 (take_while is_ws tail) c).
Proof.
  rewrite rmatch_Seq, rmatch_LitI, rmatch_Grp.
  pose proof (take_drop_while is_ws tail) as E.
  pose proof (take_while_all is_ws tail) as Hw.
  pose proof (drop_while_stops is_ws tail) as Hd.
  set (w := take_while is_ws tail) in *.
  set (d := drop_while is_ws tail) in *.
  clearbody w d. subst tail.
  apply rmatch_star_some; [exact Hw|exact Hd|].
  rewrite firstn_prefix. reflexivity.
Qed.

(** The comment pattern of a Dex URL link on the mention of the
    contact. *)
Lemma rmatch_dexUrlWithComment (display contactId gap more tail : str) :
  forallb (none_of (js "]")) display = true ->
  forallb id_char contactId = true ->
  forallb is_ws gap = true ->
  plain more = true ->
  rmatch (plainDexUrlWithComment contactId)
    (mentionText (Mention (DexUrl display) contactId gap more) ++ tail)
    no_caps accept
  = Some (drop_while is_ws tail,
          set_cap 2 (take_while is_ws tail)
            (set_cap 1 (dexLinkText display contactId) no_caps)).
Proof.
  intros Hd Hid Hgap Hmore.
  unfold plainDexUrlWithComment, mentionText, mentionComment.
  cbn [m_link m_id m_gap m_more linkText]. rewrite <- !app_assoc.
  rewrite rmatch_Seq, rmatch_Grp, rmatch_dexUrlLink by exact Hd.
  rewrite firstn_prefix.
  change (js "%%dex:contact-id=") with (js "%%dex:" ++ js "contact-id=").
  rewrite <- !app_assoc.
  rewrite rmatch_star_next;
    [|exact Hgap|reflexivity|reflexivity|intros x Hx; cbn;
      rewrite (ws_not_percent _ Hx); reflexivity].
  rewrite rmatch_Seq, rmatch_LitI.
  rewrite (app_assoc (js "contact-id=")), (app_assoc _ more).
  rewrite rmatch_star_next;
    [apply rmatch_close| |reflexivity|reflexivity|].
  - rewrite !forallb_app.
    rewrite (@plain_none_of (js "%") more) by (first [exact Hmore|incl_js]).
    rewrite (@id_none_of (js "%") contactId) by (first [exact Hid|incl_js]).
    reflexivity.
  - intros x Hx. cbn.
    rewrite (@none_of_eqc_i 37%N x (js "%")); auto; cbn; auto.
Qed.

(** The comment pattern of a vault link on the mention of the contact. *)
Lemma rmatch_vaultLinkWithComment (path contactId gap more tail : str) :
  path <> [] -> forallb (none_of (js "]")) path = true ->
  forallb is_ws gap = true ->
  more_ok more ->
  rmatch (plainVaultLinkWithComment contactId)
    (mentionText (Mention (Vault path) contactId gap more) ++ tail)
    no_caps accept
  = Some (drop_while is_ws tail,
          set_cap 2 (take_while is_ws tail)
            (set_cap 1 (vaultLinkText path) no_caps)).
Proof.
  intros Hne Hp Hgap [Hshape Hmore].
  unfold plainVaultLinkWithComment, mentionText, mentionComment.
  cbn [m_link m_id m_gap m_more linkText]. rewrite <- !app_assoc.
  rewrite rmatch_Seq, rmatch_Grp, rmatch_vaultLink by assumption.
  rewrite firstn_prefix.
  rewrite rmatch_star_next;
    [|exact Hgap|reflexivity|reflexivity|intros x Hx; cbn;
      rewrite (ws_not_percent _ Hx); reflexivity].
  rewrite rmatch_Seq, rmatch_LitI, rmatch_Seq, rmatch_LitI.
  destruct Hshape as [->|[b ->]].
  - cbn [app]. rewrite rmatch_Opt_none; [apply rmatch_close|].
    change (js "%%" ++ tail) with (37%N :: 37%N :: tail).
    apply rmatch_first; reflexivity.
  - apply rmatch_Opt_some. rewrite <- !app_assoc.
    rewrite !rmatch_Seq, rmatch_LitI.
    apply rmatch_star_some; [|cbn; reflexivity|apply rmatch_close].
    unfold plain in Hmore. rewrite forallb_app in Hmore.
    apply andb_prop in Hmore. destruct Hmore as [_ Hb].
    eapply forallb_impl; [|exact Hb]. intros x.
    apply none_of_weaken. incl_js.
Qed.

(** ** Other contacts *)





(** Flag [i] version of [startsWith]. *)
Fixpoint startsWithI (s p : str) : bool :=
  match p, s with
  | [], _ => true
  | a :: p', b :: s' => eqc_i a b && startsWithI s' p'
  | _ :: _, [] => false
  end.

Lemma rmatch_LitI_miss (l : str) (r : regex) :
  forall s c k, startsWithI s l = false -> rmatch (LitI l ## r) s c k = None.
Proof.
  induction l as [|a l IH]; intros s c k H;
    [destruct s; discriminate|].
  destruct s as [|x s]; cbn [LitI]; rewrite !rmatch_Seq;
    [reflexivity|].
  rewrite rmatch_Chr_cons. cbn [startsWithI] in H.
  destruct (eqc_i a x); [|reflexivity]. cbn [andb] in H.
  specialize (IH s c k H). rewrite rmatch_Seq in IH. exact IH.
Qed.


Lemma plainDexUrlLink_on_vault (a l rest : str) (c : caps) (k : cont) :
  forallb (none_of (js "]")) l = true ->
  rmatch (plainDexUrlLink a) (js "[" ++ l ++ js "]]" ++ rest) c k = None.
Proof.
  intros Hl. unfold plainDexUrlLink.
  rewrite rmatch_Seq, rmatch_LitI.
  rewrite rmatch_star_next; [|exact Hl|reflexivity|reflexivity|].
  - apply rmatch_LitI_miss. reflexivity.
  - intros x Hx. cbn.
    rewrite (@none_of_eqc_i 93%N x (js "]")); auto; cbn; auto.
Qed.



(** ** Text in which no pattern of a contact matches *)

Lemma no_match_in_cons (r : regex) (x : char) (u s : str) :
  rmatch r (x :: u ++ s) no_caps accept = None ->
  no_match_in r u s -> no_match_in r (x :: u) s.
Proof.
  intros Hx Hu [|y u1] z u2 E; cbn [app] in E; injection E as -> ->.
  - exact Hx.
  - apply (Hu u1 z u2). reflexivity.
Qed.

Lemma rmatch_Seq_none (r1 r2 : regex) (t : str) :
  rmatch r1 t no_caps accept = None ->
  rmatch (r1 ## r2) t no_caps accept = None.
Proof.
  intros H. destruct (rmatch (r1 ## r2) t no_caps accept) eqn:Hm;
    [|reflexivity].
  exfalso. rewrite rmatch_Seq in Hm.
  refine (@rmatch_mono r1 t no_caps no_caps _ accept _ _ H).
  - intros s c c' _. discriminate.
  - rewrite Hm. discriminate.
Qed.

Lemma no_match_in_Seq (r1 r2 : regex) (u s : str) :
  no_match_in r1 u s -> no_match_in (r1 ## r2) u s.
Proof. intros H u1 x u2 E. apply rmatch_Seq_none, (H u1 x u2 E). Qed.

(** No comment pattern of the contact, of either link kind, matches from
    inside [u], whatever follows. *)
Definition quiet (contactId : str) (u : str) : Prop :=
  forall s, no_match_in (Grp 1 (plainDexUrlLink contactId)) u s
            /\ no_match_in (plainVaultLinkWithComment contactId) u s.


Lemma bracket_first (a x : char) (l : list char) :
  In 91%N l -> none_of l x = true -> eqc_i 91%N x = false.
Proof. intros. eapply none_of_eqc_i; eauto. Qed.




Lemma quiet_plain (a u : str) :
  forallb (none_of (js "[")) u = true -> quiet a u.
Proof.
  intros Hu s. split; apply no_match_in_first; try reflexivity;
    (eapply forallb_impl; [|exact Hu]); intros x Hx; cbn;
    rewrite (@bracket_first 91%N x (js "[")); auto; cbn; auto.
Qed.

Lemma mention_tail_plain (m : mention) :
  mention_ok m ->
  forallb (none_of (js "[")) (m_gap m ++ mentionComment m) = true.
Proof.
  intros (_ & [_ Hid] & Hgap & [_ Hmore]). unfold mentionComment.
  rewrite !forallb_app.
  rewrite (@ws_forall_none_of (js "[") (m_gap m)) by (first [exact Hgap|incl_js]).
  rewrite (@id_none_of (js "[") (m_id m)) by (first [exact Hid|incl_js]).
  rewrite (@plain_none_of (js "[") (m_more m)) by (first [exact Hmore|incl_js]).
  reflexivity.
Qed.

(** The Dex URL pattern of any contact finds nothing on a vault link and
    its comment. *)
Lemma vault_mention_no_dexUrl (a : str) (m : mention) (path : str) :
  m_link m = Vault path -> mention_ok m ->
  forall s, no_match_in (Grp 1 (plainDexUrlLink a)) (mentionText m) s.
Proof.
  intros Hlink Hok s. pose proof (mention_tail_plain Hok) as Htail.
  destruct Hok as (Hl & _). unfold mentionText in *.
  rewrite Hlink in *. cbn [linkText link_ok] in *. destruct Hl as [Hne Hp].
  pose proof (@plain_none_of (js "]") path ltac:(incl_js) Hp) as Hp1.
  pose proof (@plain_none_of (js "[") path ltac:(incl_js) Hp) as Hp2.
  unfold vaultLinkText. rewrite <- !app_assoc.
  change (js "[[" ++ path ++ js "]]" ++ m_gap m ++ mentionComment m)
    with (91%N :: 91%N :: path ++ js "]]" ++ m_gap m ++ mentionComment m).
  apply no_match_in_cons; [|apply no_match_in_cons].
  - rewrite rmatch_Grp.
    change (91%N :: (91%N :: path ++ js "]]" ++ m_gap m ++ mentionComment m)
                    ++ s)
      with (js "[" ++ ((91%N :: path)
                       ++ js "]]" ++ m_gap m ++ mentionComment m) ++ s).
    rewrite <- !app_assoc. apply plainDexUrlLink_on_vault.
    cbn [forallb]. rewrite Hp1. reflexivity.
  - rewrite rmatch_Grp.
    change (91%N :: (path ++ js "]]" ++ m_gap m ++ mentionComment m) ++ s)
      with (js "[" ++ (path ++ js "]]" ++ m_gap m ++ mentionComment m) ++ s).
    rewrite <- !app_assoc. apply plainDexUrlLink_on_vault. exact Hp1.
  - apply no_match_in_first; [reflexivity|].
    rewrite forallb_app, forallb_app.
    apply andb_true_intro. split; [|apply andb_true_intro; split].
    + eapply forallb_impl; [|exact Hp2]. intros x Hx. cbn.
      rewrite (@bracket_first 91%N x (js "[")); auto; cbn; auto.
    + reflexivity.
    + eapply forallb_impl; [|exact Htail]. intros x Hx. cbn.
      rewrite (@bracket_first 91%N x (js "[")); auto; cbn; auto.
Qed.


(** ** Rewriting the comment of a mention *)

Lemma test_of_exec (r : regex) (s : str) (f : found) :
  exec r s = Some f -> test r s = true.
Proof. unfold test. intros ->. reflexivity. Qed.

Lemma test_of_exec_none (r : regex) (s : str) :
  exec r s = None -> test r s = false.
Proof. unfold test. intros ->. reflexivity. Qed.

Lemma replace_of_exec (r : regex) (template : caps -> str) (s : str)
    (f : found) :
  exec r s = Some f ->
  replace r template s = before f ++ template (groups f) ++ after f.
Proof. unfold replace. intros ->. reflexivity. Qed.

(** On a line where no pattern of the contact matches outside its own
    mention, [plainStartLine] replaces the white space between the link
    and the comment, and the comment, by the new comment, and nothing
    else. *)
Lemma plainStartLine_mention (m : mention) (pre post memoId hash : str) :
  mention_ok m -> quiet (m_id m) pre -> quiet (m_id m) post ->
  plainStartLine (m_id m) memoId hash (pre ++ mentionText m ++ post)
  = pre ++ linkText (m_link m) (m_id m)
    ++ dexComment (m_id m) memoId hash ++ post.
Proof.
  intros Hok Hpre Hpost. pose proof Hok as (Hl & [_ Hid] & Hgap & Hmore).
  unfold plainStartLine.
  destruct m as [[display|path] contactId gap more];
    cbn [m_link m_id m_gap m_more linkText link_ok] in *.
  - (* Dex URL link *)
    assert (Hexec :
      exec (plainDexUrlWithComment contactId)
        (pre ++ mentionText (Mention (DexUrl display) contactId gap more)
             ++ post)
      = Some (Found pre (drop_while is_ws post)
                (set_cap 2 (take_while is_ws post)
                   (set_cap 1 (dexLinkText display contactId) no_caps)))).
    { rewrite exec_skip by (apply no_match_in_Seq, Hpre).
      rewrite (@exec_here _ _ _ _
                 (@rmatch_dexUrlWithComment display contactId gap more post
                    (@plain_none_of (js "]") display ltac:(incl_js) Hl)
                    Hid Hgap (proj2 Hmore))).
      cbn. rewrite app_nil_r. reflexivity. }
    rewrite (test_of_exec _ _ Hexec), (replace_of_exec _ _ _ Hexec).
    cbn [before after groups]. unfold cap_text, set_cap. cbn [Nat.eqb].
    rewrite <- !app_assoc. rewrite take_drop_while. reflexivity.
  - (* vault link *)
    destruct Hl as [Hne Hp].
    assert (Hnone :
      exec (plainDexUrlWithComment contactId)
        (pre ++ mentionText (Mention (Vault path) contactId gap more) ++ post)
      = None).
    { rewrite <- (app_nil_r post) at 1. rewrite !app_assoc.
      rewrite exec_skip; [rewrite exec_nil_none; reflexivity|].
      apply no_match_in_Seq. rewrite <- app_assoc.
      apply no_match_in_app; [apply Hpre|].
      apply no_match_in_app; [|apply Hpost].
      apply (@vault_mention_no_dexUrl contactId
               (Mention (Vault path) contactId gap more) path eq_refl Hok). }
    assert (Hexec :
      exec (plainVaultLinkWithComment contactId)
        (pre ++ mentionText (Mention (Vault path) contactId gap more) ++ post)
      = Some (Found pre (drop_while is_ws post)
                (set_cap 2 (take_while is_ws post)
                   (set_cap 1 (vaultLinkText path) no_caps)))).
    { rewrite exec_skip by apply Hpre.
      rewrite (@exec_here _ _ _ _
                 (@rmatch_vaultLinkWithComment path contactId gap more post
                    Hne (@plain_none_of (js "]") path ltac:(incl_js) Hp)
                    Hgap Hmore)).
      cbn. rewrite app_nil_r. reflexivity. }
    rewrite (test_of_exec_none _ _ Hnone).
    rewrite (test_of_exec _ _ Hexec), (replace_of_exec _ _ _ Hexec).
    cbn [before after groups]. unfold cap_text, set_cap. cbn [Nat.eqb].
    rewrite <- !app_assoc. rewrite take_drop_while. reflexivity.
Qed.

(** ** Adding the comment after a bare link *)






End Links.

(* ================================================================== *)
(** * The hash token *)
(* ================================================================== *)

Lemma field_char_spec (x : char) :
  field_char x = negb ((x =? 44) || ((x =? 37) || (x =? 41)))%N.
Proof.
  unfold field_char, none_of. cbn -[N.eqb]. rewrite orb_false_r.
  reflexivity.
Qed.

Lemma digit36_field_char (d : Z) :
  (0 <= d < 36)%Z -> field_char (digit36 d) = true.
Proof.
  intros Hd. rewrite field_char_spec. unfold digit36.
  destruct (Z.ltb_spec d 10);
    repeat match goal with
           | |- context [N.eqb ?a ?b] => destruct (N.eqb_spec a b); try lia
           end; reflexivity.
Qed.

Lemma digits36_field_ok (fuel : nat) :
  forall n, (0 <= n)%Z ->
    digits36 (S fuel) n <> []
    /\ forallb field_char (digits36 (S fuel) n) = true.
Proof.
  induction fuel as [|fuel IH]; intros n Hn; cbn [digits36].
  - destruct (Z.ltb_spec n 36).
    + split; [discriminate|]. cbn [forallb].
      rewrite digit36_field_char by lia. reflexivity.
    + split; [discriminate|]. cbn [app forallb].
      rewrite digit36_field_char; [reflexivity|].
      apply Z.mod_pos_bound. lia.
  - destruct (Z.ltb_spec n 36).
    + split; [discriminate|]. cbn [forallb].
      rewrite digit36_field_char by lia. reflexivity.
    + destruct (IH (n / 36)%Z) as [_ Hall];
        [apply Z.div_pos; lia|].
      split.
      * intros E. apply (f_equal (@length char)) in E.
        rewrite length_app in E. cbn [length] in E. lia.
      * rewrite forallb_app. cbn [digits36] in Hall. rewrite Hall.
        cbn [forallb]. rewrite digit36_field_char; [reflexivity|].
        apply Z.mod_pos_bound. lia.
Qed.


(** A hash token holds no dollar sign. *)
Lemma digit36_not_dollar (d : Z) :
  (0 <= d < 36)%Z -> negb (digit36 d =? 36)%N = true.
Proof.
  intros Hd. unfold digit36.
  destruct (Z.ltb_spec d 10);
    match goal with
    | |- context [N.eqb ?a ?b] => destruct (N.eqb_spec a b); try lia
    end; reflexivity.
Qed.

Lemma digits36_dollar_free (fuel : nat) :
  forall n, (0 <= n)%Z -> dollar_free (digits36 fuel n) = true.
Proof.
  induction fuel as [|fuel IH]; intros n Hn; cbn [digits36]; [reflexivity|].
  destruct (Z.ltb_spec n 36).
  - cbn [dollar_free forallb]. rewrite digit36_not_dollar by lia. reflexivity.
  - unfold dollar_free. rewrite forallb_app. fold (dollar_free (digits36 fuel (n / 36))).
    rewrite IH by (apply Z.div_pos; lia). cbn [forallb].
    rewrite digit36_not_dollar; [reflexivity|]. apply Z.mod_pos_bound. lia.
Qed.

Lemma simpleHash_dollar_free (s : str) : dollar_free (simpleHash s) = true.
Proof.
  unfold simpleHash, toString36. apply digits36_dollar_free, Z.abs_nonneg.
Qed.

(* ================================================================== *)
(** * The rewritten start line *)
(* ================================================================== *)

(** On a line where no pattern of the contact matches outside its own
    mention, lines 388-431 replace the white space between the link and
    the comment, and the comment, by the new comment, and nothing
    else. *)
Lemma updateStartLine_mention (context : PluginContext) (m : mention)
    (pre post memoId hash : str) :
  mention_ok m -> quiet (m_id m) pre -> quiet (m_id m) post ->
  dollar_free memoId = true -> dollar_free hash = true ->
  updateStartLine context (m_id m) memoId hash (pre ++ mentionText m ++ post)
  = inr (pre ++ linkText (m_link m) (m_id m)
         ++ dexComment (m_id m) memoId hash ++ post).
Proof.
  intros Hok Hpre Hpost Hm Hh.
  rewrite updateStartLine_plain; [|apply Hok|exact Hm|exact Hh].
  rewrite plainStartLine_mention by assumption. reflexivity.
Qed.




(* ================================================================== *)
(** * Two mentions on one line *)
(* ================================================================== *)










(* ================================================================== *)
(** * Round trips *)
(* ================================================================== *)

(** [line.match(MEMO_ID_PATTERN)] read as the three fields. *)
Definition parseComment (line : str)
  : option (option str * option str * option str) :=
  match exec MEMO_ID_PATTERN line with
  | Some f => Some (groups f 1, groups f 2, groups f 3)
  | None => None
  end.

(** ** What a match of the comment pattern looks like *)

Lemma exec_inv (r : regex) (s : str) (f : found) :
  exec r s = Some f ->
  exists t, s = before f ++ t
            /\ rmatch r t no_caps accept = Some (after f, groups f).
Proof.
  revert f. induction s as [|x s IH]; intros f H; cbn [exec] in H.
  - destruct (rmatch r [] no_caps accept) as [[rest c]|] eqn:Hm;
      [|discriminate].
    injection H as <-. exists []. split; [reflexivity|exact Hm].
  - destruct (rmatch r (x :: s) no_caps accept) as [[rest c]|] eqn:Hm.
    + injection H as <-. exists (x :: s). split; [reflexivity|exact Hm].
    + destruct (exec r s) as [g|]; [|discriminate]. injection H as <-.
      destruct (IH g eq_refl) as (t & -> & Ht).
      exists t. split; [reflexivity|exact Ht].
Qed.

Lemma startsWith_inv (l : str) : forall s,
  startsWith s l = true -> exists t, s = l ++ t.
Proof.
  induction l as [|a l IH]; intros s H; [exists s; reflexivity|].
  destruct s as [|x s]; [discriminate|]. cbn [startsWith] in H.
  apply andb_prop in H. destruct H as [Hx Hs]. apply N.eqb_eq in Hx.
  subst x. destruct (IH s Hs) as [t ->]. exists t. reflexivity.
Qed.

Lemma rmatch_Lit_inv (l : str) (R : regex) (s : str) (c : caps) (k : cont)
    (st : mstate) :
  rmatch (Lit l ## R) s c k = Some st ->
  exists t, s = l ++ t /\ rmatch R t c k = Some st.
Proof.
  intros H. destruct (startsWith s l) eqn:Hs.
  - destruct (startsWith_inv _ _ Hs) as [t ->]. exists t.
    split; [reflexivity|]. rewrite rmatch_Seq, rmatch_Lit in H. exact H.
  - rewrite rmatch_Lit_miss in H by exact Hs. discriminate.
Qed.

Lemma rmatch_Lit_accept_inv (l s rest : str) (c g : caps) :
  rmatch (Lit l) s c accept = Some (rest, g) -> s = l ++ rest /\ g = c.
Proof.
  intros H.
  assert (H' : rmatch (Lit l ## Eps) s c accept = Some (rest, g))
    by (rewrite rmatch_Seq; exact H).
  apply rmatch_Lit_inv in H'. destruct H' as (t & -> & Ht).
  cbn in Ht. injection Ht as -> ->. split; reflexivity.
Qed.

Lemma star_loop_chr_inv (p : char -> bool) :
  forall fuel s c k st,
    star_loop (rmatch (Chr p)) fuel s c k = Some st ->
    exists v t, forallb p v = true /\ s = v ++ t /\ k t c = Some st.
Proof.
  induction fuel as [|fuel IH]; intros s c k st H; cbn [star_loop] in H.
  - exists [], s. auto.
  - destruct (rmatch (Chr p) s c
                (fun s' c' => if Nat.ltb (length s') (length s)
                              then star_loop (rmatch (Chr p)) fuel s' c' k
                              else None)) as [y|] eqn:Hbody.
    + injection H as ->. destruct s as [|x s]; [discriminate|].
      cbn [rmatch] in Hbody. destruct (p x) eqn:Hx; [|discriminate].
      destruct (Nat.ltb (length s) (length (x :: s))); [|discriminate].
      apply IH in Hbody. destruct Hbody as (v & t & Hv & -> & Hk).
      exists (x :: v), t. cbn [forallb]. rewrite Hx, Hv. auto.
    + exists [], s. auto.
Qed.

Lemma rmatch_plus_chr_inv (p : char -> bool) (s : str) (c : caps) (k : cont)
    (st : mstate) :
  rmatch (Plus (Chr p)) s c k = Some st ->
  exists v t, v <> [] /\ forallb p v = true /\ s = v ++ t
              /\ k t c = Some st.
Proof.
  unfold Plus. rewrite rmatch_Seq. intros H.
  destruct s as [|x s]; [discriminate|]. rewrite rmatch_Chr_cons in H.
  destruct (p x) eqn:Hx; [|discriminate]. rewrite rmatch_Star in H.
  apply star_loop_chr_inv in H. destruct H as (v & t & Hv & -> & Hk).
  exists (x :: v), t. cbn [forallb]. rewrite Hx, Hv.
  repeat split; [discriminate|exact Hk].
Qed.

(** The captures after a field that may be absent. *)
Definition with_field (n : nat) (value : option str) (c : caps) : caps :=
  match value with
  | Some v => set_cap n v c
  | None => c
  end.

Lemma fieldPattern_inv (marker : str) (n : nat) (R : regex) (s : str)
    (c : caps) (k : cont) (st : mstate) :
  rmatch (fieldPattern marker n ## R) s c k = Some st ->
  exists value t,
    field_ok value /\ s = fieldText marker value ++ t
    /\ rmatch R t (with_field n value c) k = Some st.
Proof.
  unfold fieldPattern, Opt. rewrite rmatch_Seq, rmatch_Alt. intros H.
  destruct (rmatch (Lit marker ## Grp n (Plus (Chr field_char))) s c
              (fun s' c' => rmatch R s' c' k)) as [y|] eqn:Hfield.
  - injection H as ->. apply rmatch_Lit_inv in Hfield.
    destruct Hfield as (t & -> & Ht). rewrite rmatch_Grp in Ht.
    apply rmatch_plus_chr_inv in Ht.
    destruct Ht as (v & t' & Hne & Hv & -> & Hk).
    rewrite firstn_prefix in Hk.
    exists (Some v), t'. cbn [field_ok fieldText with_field].
    rewrite <- app_assoc. auto.
  - exists None, s. cbn [field_ok fieldText with_field app].
    rewrite rmatch_Eps in H. auto.
Qed.

Lemma with_field_read (o1 o2 o3 : option str) :
  let c := with_field 3 o3 (with_field 2 o2 (with_field 1 o1 no_caps)) in
  c 1 = o1 /\ c 2 = o2 /\ c 3 = o3.
Proof. destruct o1, o2, o3; cbn; repeat split; reflexivity. Qed.

(** A line that is read holds a comment of the shape the pattern
    describes, with the fields that are read. *)
Lemma parseComment_inv (line : str) (contactId memoId hash : option str) :
  parseComment line = Some (contactId, memoId, hash) ->
  field_ok contactId /\ field_ok memoId /\ field_ok hash
  /\ exists pre post,
       line = pre ++ commentText contactId memoId hash ++ post.
Proof.
  unfold parseComment. intros H.
  destruct (exec MEMO_ID_PATTERN line) as [f|] eqn:Hexec; [|discriminate].
  injection H as H1 H2 H3.
  apply exec_inv in Hexec. destruct Hexec as (t & -> & Hm).
  rewrite MEMO_ID_PATTERN_fields in Hm.
  apply rmatch_Lit_inv in Hm. destruct Hm as (t0 & -> & Hm).
  apply fieldPattern_inv in Hm. destruct Hm as (o1 & t1 & Ho1 & -> & Hm).
  apply fieldPattern_inv in Hm. destruct Hm as (o2 & t2 & Ho2 & -> & Hm).
  apply fieldPattern_inv in Hm. destruct Hm as (o3 & t3 & Ho3 & -> & Hm).
  apply rmatch_Lit_accept_inv in Hm. destruct Hm as [-> Hg].
  destruct (with_field_read o1 o2 o3) as (G1 & G2 & G3).
  rewrite Hg in H1, H2, H3. rewrite G1 in H1. rewrite G2 in H2.
  rewrite G3 in H3. subst o1 o2 o3.
  repeat split; try assumption.
  exists (before f), (after f). unfold commentText.
  rewrite <- !app_assoc. reflexivity.
Qed.

(** C8, as stated, fails: a comment that holds only a memo id, written
    without the comma that the pattern makes part of the marker, is not
    read at all, and an empty value anywhere makes the whole comment
    unread, the well-formed fields included. *)
Lemma memo_id_alone_is_not_read :
  parseComment (js "%%dex:memo-id=m1%%") = None
  /\ parseComment (js "%%dex:contact-id=c1,memo-id=,hash=zz%%") = None
  /\ memoId (detectContentBlock
               (getLine [js "[[Jane]]%%dex:memo-id=m1%%"]) 1 0) = None.
Proof. vm_compute. repeat split. Qed.

(** C8, amended.  Reading a line never fails: it gives three fields,
    each present or absent, or nothing.  A comment made of any subset of
    the three fields in the written order, where the markers are
    [contact-id=], [,memo-id=] and [,hash=] (the comma belongs to the
    marker, also when the fields before it are absent) and every value
    present is a non-empty run free of comma, percent sign and closing
    parenthesis, is read as exactly the fields it holds, when it stands
    at the first percent sign of the line.  Conversely, whenever a line
    is read, it holds a comment of that shape made of exactly the fields
    that are read; a comment of another shape is read only where such a
    text is part of the line. *)
Theorem comment_fields_are_read :
  forall (pre post line : str) (contactId memoId hash : option str),
    (forallb (none_of (js "%")) pre = true ->
     field_ok contactId -> field_ok memoId -> field_ok hash ->
     parseComment (pre ++ commentText contactId memoId hash ++ post)
     = Some (contactId, memoId, hash))
    /\ (parseComment line = Some (contactId, memoId, hash) ->
        field_ok contactId /\ field_ok memoId /\ field_ok hash
        /\ exists before after,
             line = before ++ commentText contactId memoId hash ++ after).
Proof.
  intros pre post line contactId memoId hash. split.
  - intros Hpre Hc Hm Hh.
    destruct (@exec_commentText pre post contactId memoId hash Hpre Hc Hm Hh)
      as (c & Hexec & H1 & H2 & H3).
    unfold parseComment. rewrite Hexec. cbn [groups].
    rewrite H1, H2, H3. reflexivity.
  - apply parseComment_inv.
Qed.

Lemma comment_fields_are_read_witness :
  parseComment (js "see " ++ commentText None (Some (js "m1")) (Some (js "zz"))
                ++ js " there")
  = Some (None, Some (js "m1"), Some (js "zz"))
  /\ exists before after,
       js "%%dex:x%%dex:,memo-id=m1,hash=zz%%"
       = before ++ commentText None (Some (js "m1")) (Some (js "zz"))
         ++ after.
Proof.
  destruct (@comment_fields_are_read (js "see ") (js " there")
              (js "%%dex:x%%dex:,memo-id=m1,hash=zz%%") None
              (Some (js "m1")) (Some (js "zz"))) as [Hread Hshape].
  split.
  - apply Hread.
    + reflexivity.
    + exact I.
    + split; [discriminate|reflexivity].
    + split; [discriminate|reflexivity].
  - apply Hshape. vm_compute. reflexivity.
Defined.












(* ================================================================== *)
(** * A stored fallback id *)
(* ================================================================== *)









(* ================================================================== *)
(** * A start line without a link *)
(* ================================================================== *)








(* ================================================================== *)
(** * What a match does not look at *)
(* ================================================================== *)

Section Frame.










End Frame.

(* ================================================================== *)
(** * The start line before and after the rewrite *)
(* ================================================================== *)

Section StartLine.

Lemma trimStart_app (u v : str) (x : char) :
  is_ws x = false -> trimStart (u ++ x :: v) = trimStart u ++ x :: v.
Proof.
  intros Hx. induction u as [|y u IH]; cbn [app trimStart].
  - rewrite Hx. reflexivity.
  - destruct (is_ws y); [exact IH|reflexivity].
Qed.

Lemma trimEnd_app (u v : str) (x : char) :
  is_ws x = false -> trimEnd (u ++ x :: v) = u ++ x :: trimEnd v.
Proof.
  intros Hx. unfold trimEnd.
  replace (rev (u ++ x :: v)) with (rev v ++ x :: rev u)
    by (rewrite rev_app_distr; cbn [rev]; rewrite <- app_assoc; reflexivity).
  rewrite trimStart_app by exact Hx.
  rewrite rev_app_distr. cbn [rev]. rewrite rev_involutive.
  rewrite <- app_assoc. reflexivity.
Qed.

Lemma trim_app (u v : str) (x : char) :
  is_ws x = false -> trim (u ++ x :: v) = trimStart u ++ x :: trimEnd v.
Proof.
  intros Hx. unfold trim. rewrite trimStart_app by exact Hx.
  apply trimEnd_app, Hx.
Qed.









(** ** The detector on two documents that differ in the start line *)

Lemma walk_ext_from (f g : nat -> str) (totalLines : nat) (sl : bool)
    (si : Z) :
  forall fuel i e cl,
    (forall n, i <= n -> f n = g n) ->
    walk f totalLines sl si fuel i e cl = walk g totalLines sl si fuel i e cl.
Proof.
  induction fuel as [|fuel IH]; intros i e cl Hfg; cbn [walk];
    [reflexivity|].
  rewrite (Hfg i (Nat.le_refl i)).
  rewrite IH; [reflexivity|]. intros n Hn. apply Hfg. lia.
Qed.


Lemma getLine_setLine (editor : Editor) (n i : nat) (text : str) :
  getLine (setLine editor n text) i
  = if Nat.eqb i n then (if Nat.ltb n (length editor) then text
                         else getLine editor i)
    else getLine editor i.
Proof.
  unfold getLine. revert n i.
  induction editor as [|l editor IH]; intros [|n] [|i]; cbn [setLine nth];
    try reflexivity.
  - destruct (Nat.eqb _ _); reflexivity.
  - rewrite IH. cbn [Nat.eqb length].
    change (Nat.ltb (S n) (S (length editor)))
      with (Nat.ltb n (length editor)). reflexivity.
Qed.

Lemma length_setLine (editor : Editor) (n : nat) (text : str) :
  length (setLine editor n text) = length editor.
Proof.
  revert n. induction editor as [|l editor IH]; intros [|n]; cbn;
    try reflexivity. rewrite IH. reflexivity.
Qed.

End StartLine.

(* ================================================================== *)
(** * After a sync *)
(* ================================================================== *)

Lemma detect_memo_fields (f : nat -> str) (totalLines start : nat) :
  hasExistingMemo (detectContentBlock f totalLines start)
  = match exec MEMO_ID_PATTERN (f start) with
    | Some m => truthy (groups m 2)
    | None => false
    end
  /\ storedHash (detectContentBlock f totalLines start)
     = match exec MEMO_ID_PATTERN (f start) with
       | Some m => or_undefined (groups m 3)
       | None => None
       end.
Proof.
  unfold detectContentBlock.
  destruct (walk f totalLines _ _ _ _ _ _) as [e cl]. split; reflexivity.
Qed.



Lemma str_eqb_refl (a : str) : str_eqb a a = true.
Proof. apply str_eqb_eq. reflexivity. Qed.





(** ** Lines that keep their stripped text *)













(* ================================================================== *)
(** * The lines of a block *)
(* ================================================================== *)

Section BlockLines.

Variable lineAt : nat -> str.
Variable totalLines : nat.

(** The cleaned text of a line after the start line. *)
Definition cleanLine (j : nat) : str :=
  removeAll MEMO_ID_CLEANUP_PATTERN (lineAt j).

Lemma walk_fst_ge (sl : bool) (si : Z) :
  forall fuel e cl,
    e <= fst (walk lineAt totalLines sl si fuel (S e) e cl).
Proof.
  induction fuel as [|fuel IH]; intros e cl; cbn [walk]; [cbn; lia|].
  destruct (negb (S e <? totalLines)); [cbn; lia|].
  destruct (walk_step sl si (lineAt (S e))); [cbn; lia|].
  specialize (IH (S e)
    (cl ++ [removeAll MEMO_ID_CLEANUP_PATTERN (lineAt (S e))])).
  lia.
Qed.

Lemma walk_lines (sl : bool) (si : Z) :
  forall fuel e cl,
    let out := walk lineAt totalLines sl si fuel (S e) e cl in
    snd out = cl ++ map cleanLine (seq (S e) (fst out - e)).
Proof.
  induction fuel as [|fuel IH]; intros e cl; cbn [walk].
  - cbn [fst snd]. rewrite Nat.sub_diag. cbn. rewrite app_nil_r. reflexivity.
  - destruct (Nat.ltb_spec (S e) totalLines) as [Hlt|Hge]; cbn [negb].
    + destruct (walk_step sl si (lineAt (S e))) eqn:Hs.
      * cbn [fst snd]. rewrite Nat.sub_diag. cbn. rewrite app_nil_r.
        reflexivity.
      * specialize (IH (S e) (cl ++ [cleanLine (S e)])). cbn zeta in IH.
        unfold cleanLine at 1 in IH. rewrite IH.
        pose proof (walk_fst_ge sl si fuel (S e)
                      (cl ++ [removeAll MEMO_ID_CLEANUP_PATTERN
                                (lineAt (S e))])) as Hle.
        set (e' := fst (walk lineAt totalLines sl si fuel (S (S e)) (S e)
                          (cl ++ [removeAll MEMO_ID_CLEANUP_PATTERN
                                    (lineAt (S e))]))) in *.
        replace (e' - e) with (S (e' - S e)) by lia.
        cbn [seq map]. rewrite <- app_assoc. reflexivity.
    + cbn [fst snd]. rewrite Nat.sub_diag. cbn. rewrite app_nil_r.
      reflexivity.
Qed.

(** What the loop that pops trailing blank lines leaves. *)
Lemma popBlank_spec (l : list str) :
  l <> [] ->
  exists k,
    S k <= length l
    /\ rev (popBlank (rev l)) = firstn (S k) l
    /\ Forall (fun x => blank x = true) (skipn (S k) l)
    /\ (0 < k -> blank (nth k l []) = false).
Proof.
  induction l as [|x l IH] using rev_ind; [congruence|]. intros _.
  rewrite rev_app_distr. cbn [rev app popBlank].
  destruct (rev l) as [|y r] eqn:Hr.
  - assert (l = []) by (apply (f_equal (@rev str)) in Hr;
                        rewrite rev_involutive in Hr; exact Hr).
    subst l. exists 0. cbn. repeat split; try lia. constructor.
  - assert (Hl : l <> []) by (intros ->; discriminate).
    unfold blank at 1 2.
    destruct (isEmpty (trim x)) eqn:Hx.
    + destruct (IH Hl) as (k & Hk & Hpop & Hall & Hlast).
      exists k. rewrite length_app. cbn [length].
      split; [lia|]. split; [|split].
      * rewrite Hpop. rewrite firstn_app.
        replace (S k - length l) with 0 by lia. cbn [firstn].
        rewrite app_nil_r. reflexivity.
      * rewrite skipn_app. replace (S k - length l) with 0 by lia.
        cbn [skipn]. apply Forall_app. split; [exact Hall|].
        constructor; [exact Hx|constructor].
      * intros Hpos. rewrite app_nth1 by lia. apply Hlast, Hpos.
    + exists (length l). rewrite length_app. cbn [length].
      split; [lia|]. split; [|split].
      * rewrite <- Hr. cbn [rev]. rewrite rev_involutive.
        replace (S (length l)) with (length (l ++ [x]))
          by (rewrite length_app; cbn; lia).
        rewrite firstn_all. reflexivity.
      * replace (S (length l)) with (length (l ++ [x]))
          by (rewrite length_app; cbn; lia).
        rewrite skipn_all. constructor.
      * intros _. rewrite app_nth2 by lia. rewrite Nat.sub_diag. exact Hx.
Qed.

End BlockLines.

Lemma detect_endLine_bounds (lineAt : nat -> str)
    (totalLines startLineNum : nat) :
  startLineNum <= endLine (detectContentBlock lineAt totalLines startLineNum)
  /\ endLine (detectContentBlock lineAt totalLines startLineNum)
     <= Nat.max startLineNum (totalLines - 1).
Proof.
  unfold detectContentBlock.
  set (sl := test_anchored LIST_ITEM (trim (lineAt startLineNum))).
  set (si := search NON_SPACE (lineAt startLineNum)).
  set (c0 := trim (removeAll MEMO_ID_CLEANUP_PATTERN (lineAt startLineNum))).
  pose proof (@walk_boundary lineAt totalLines sl si
                (totalLines - S startLineNum) startLineNum [c0]
                (Nat.le_refl _)) as Hb.
  cbn zeta in Hb.
  destruct (walk lineAt totalLines sl si (totalLines - S startLineNum)
              (S startLineNum) startLineNum [c0]) as [e cl].
  cbn [fst endLine] in *. destruct Hb as (Hle & Hin & _).
  split; [exact Hle|].
  destruct (Nat.eq_dec e startLineNum) as [->|Hne]; [lia|].
  destruct (Hin e) as [Hlt _]; lia.
Qed.

(** X1. [detectContentBlock] returns the cleaned lines of the block it
    found, minus the blank ones at its end: the first content line is the
    start line with its comments removed and trimmed, each further one is
    a following line with its comments removed, in order; only lines that
    are blank once cleaned are dropped, only from the end, and never the
    first line. *)
Theorem content_lines_of_block :
  forall (lineAt : nat -> str) (totalLines startLineNum : nat),
    let r := detectContentBlock lineAt totalLines startLineNum in
    let cleaned :=
      trim (removeAll MEMO_ID_CLEANUP_PATTERN (lineAt startLineNum))
      :: map (cleanLine lineAt)
           (seq (S startLineNum) (endLine r - startLineNum)) in
    exists k,
      k <= endLine r - startLineNum
      /\ contentLines r = firstn (S k) cleaned
      /\ Forall (fun x => blank x = true) (skipn (S k) cleaned)
      /\ (0 < k -> blank (nth k cleaned []) = false).
Proof.
  intros lineAt totalLines startLineNum r cleaned.
  subst r cleaned. unfold detectContentBlock.
  set (sl := test_anchored LIST_ITEM (trim (lineAt startLineNum))).
  set (si := search NON_SPACE (lineAt startLineNum)).
  set (c0 := trim (removeAll MEMO_ID_CLEANUP_PATTERN (lineAt startLineNum))).
  pose proof (@walk_lines lineAt totalLines sl si
                (totalLines - S startLineNum) startLineNum [c0]) as Hl.
  cbn zeta in Hl.
  destruct (walk lineAt totalLines sl si (totalLines - S startLineNum)
              (S startLineNum) startLineNum [c0]) as [e cl].
  cbn [fst snd endLine contentLines] in *.
  subst cl. cbn [app].
  destruct (@popBlank_spec
              (c0 :: map (cleanLine lineAt)
                       (seq (S startLineNum) (e - startLineNum))))
    as (k & Hk & Hpop & Hall & Hlast); [discriminate|].
  exists k. cbn [length] in Hk. rewrite length_map, length_seq in Hk.
  split; [lia|]. split; [exact Hpop|]. split; [exact Hall|exact Hlast].
Qed.

(* ================================================================== *)
(** * The status-bar counter *)
(* ================================================================== *)

Lemma getContentBlock_endLine (editor : Editor) (i : nat) :
  i <= cb_endLine (getContentBlock editor i).
Proof.
  unfold getContentBlock. cbn [cb_endLine].
  apply detect_endLine_bounds.
Qed.

Lemma countMemos_loop_bounds (editor : Editor) :
  forall fuel i syncedCount totalCount,
    let out := countMemos_loop editor fuel i syncedCount totalCount in
    syncedCount <= fst out
    /\ totalCount <= snd out
    /\ fst out - syncedCount <= snd out - totalCount
    /\ snd out - totalCount <= lineCount editor - i.
Proof.
  induction fuel as [|fuel IH]; intros i s t; cbn [countMemos_loop].
  - cbn. lia.
  - destruct (Nat.ltb_spec i (lineCount editor)) as [Hlt|Hge]; cbn [negb];
      [|cbn; lia].
    cbn zeta.
    destruct (test MEMO_ID_PATTERN (getLine editor i)
              && (test HAS_DEX_URL_LINK (getLine editor i)
                  || test HAS_VAULT_LINK (getLine editor i))).
    + pose proof (getContentBlock_endLine editor i) as He.
      match goal with
      | |- context [countMemos_loop editor fuel ?i' ?s' ?t'] =>
          specialize (IH i' s' t')
      end.
      cbn zeta in IH.
      destruct (countsAsSynced editor i (getContentBlock editor i)); lia.
    + specialize (IH (S i) s t). cbn zeta in IH. lia.
Qed.

(** X2. The two numbers of the status bar: the count of synced memos
    never exceeds the count of tracked memos, and the latter never
    exceeds the number of lines of the document. *)
Theorem countMemos_bounds :
  forall editor : Editor,
    fst (countMemos editor) <= snd (countMemos editor)
    /\ snd (countMemos editor) <= lineCount editor.
Proof.
  intros editor. unfold countMemos.
  pose proof (@countMemos_loop_bounds editor (lineCount editor) 0 0 0) as H.
  cbn zeta in H. lia.
Qed.


(* ================================================================== *)
(** * The hash token and the 32-bit hash *)
(* ================================================================== *)

(** The value of [hash] when the loop of [simpleHash] ends. *)
Definition hash32 (s : str) : Z := fold_left hash_step s 0%Z.

Lemma toInt32_range (z : Z) : (-2147483648 <= toInt32 z < 2147483648)%Z.
Proof.
  unfold toInt32.
  pose proof (Z.mod_pos_bound (z + 2147483648) 4294967296 eq_refl). lia.
Qed.

Lemma hash32_range (s : str) : (-2147483648 <= hash32 s < 2147483648)%Z.
Proof.
  unfold hash32.
  assert (H : forall h, (-2147483648 <= h < 2147483648)%Z ->
                        (-2147483648 <= fold_left hash_step s h < 2147483648)%Z).
  { induction s as [|c s IH]; intros h Hh; cbn [fold_left]; [exact Hh|].
    apply IH. unfold hash_step. apply toInt32_range. }
  apply H. lia.
Qed.

Lemma digits36_S (fuel : nat) (n : Z) :
  digits36 (S fuel) n
  = if (n <? 36)%Z then [digit36 n]
    else digits36 fuel (n / 36)%Z ++ [digit36 (n mod 36)%Z].
Proof. reflexivity. Qed.

Lemma digits36_length (fuel : nat) :
  forall k n, (0 <= n < 36 ^ Z.of_nat (S k))%Z ->
    length (digits36 (S fuel) n) <= S k.
Proof.
  induction fuel as [|fuel IH]; intros k n Hn; rewrite digits36_S.
  - destruct (n <? 36)%Z; cbn; lia.
  - destruct (Z.ltb_spec n 36); [cbn; lia|].
    rewrite length_app. cbn [length].
    destruct k as [|k]; [cbn in Hn; lia|].
    specialize (IH k (n / 36)%Z).
    assert (0 <= n / 36 < 36 ^ Z.of_nat (S k))%Z.
    { split; [apply Z.div_pos; lia|].
      apply Z.div_lt_upper_bound; [lia|].
      replace (Z.of_nat (S (S k))) with (Z.succ (Z.of_nat (S k))) in Hn by lia.
      rewrite Z.pow_succ_r in Hn by lia. lia. }
    specialize (IH H0). lia.
Qed.

(** The digit a character of a token stands for. *)
Definition digitVal (c : char) : Z :=
  if (c <? 58)%N then Z.of_N c - 48 else Z.of_N c - 87.

Definition valueOf (s : str) : Z :=
  fold_left (fun acc c => acc * 36 + digitVal c)%Z s 0%Z.

Lemma digitVal_digit36 (d : Z) : (0 <= d < 36)%Z -> digitVal (digit36 d) = d.
Proof.
  intros Hd. unfold digitVal, digit36.
  destruct (Z.ltb_spec d 10).
  - destruct (N.ltb_spec (Z.to_N (48 + d)) 58); lia.
  - destruct (N.ltb_spec (Z.to_N (87 + d)) 58); lia.
Qed.

Lemma valueOf_digits36 (fuel : nat) :
  forall n, (0 <= n < 36 ^ Z.of_nat fuel)%Z -> valueOf (digits36 fuel n) = n.
Proof.
  unfold valueOf.
  induction fuel as [|fuel IH]; intros n Hn; [|rewrite digits36_S].
  - cbn in Hn. assert (n = 0%Z) by lia. subst n. reflexivity.
  - destruct (Z.ltb_spec n 36).
    + cbn [fold_left]. rewrite digitVal_digit36 by lia. lia.
    + rewrite fold_left_app. cbn [fold_left].
      rewrite IH.
      * rewrite digitVal_digit36 by (apply Z.mod_pos_bound; lia).
        pose proof (Z.div_mod n 36). lia.
      * split; [apply Z.div_pos; lia|].
        apply Z.div_lt_upper_bound; [lia|].
        replace (Z.of_nat (S fuel)) with (Z.succ (Z.of_nat fuel)) in Hn by lia.
        rewrite Z.pow_succ_r in Hn by lia. lia.
Qed.

Definition lower_alnum (c : char) : bool :=
  (is_digit c || ((97 <=? c) && (c <=? 122)))%N.

Lemma digit36_lower_alnum (d : Z) :
  (0 <= d < 36)%Z -> lower_alnum (digit36 d) = true.
Proof.
  intros Hd. unfold lower_alnum, is_digit, digit36.
  destruct (Z.ltb_spec d 10).
  - replace (48 <=? Z.to_N (48 + d))%N with true
      by (symmetry; apply N.leb_le; lia).
    replace (Z.to_N (48 + d) <=? 57)%N with true
      by (symmetry; apply N.leb_le; lia).
    reflexivity.
  - replace (97 <=? Z.to_N (87 + d))%N with true
      by (symmetry; apply N.leb_le; lia).
    replace (Z.to_N (87 + d) <=? 122)%N with true
      by (symmetry; apply N.leb_le; lia).
    apply orb_true_r.
Qed.

Lemma digits36_lower_alnum (fuel : nat) :
  forall n, (0 <= n)%Z -> forallb lower_alnum (digits36 fuel n) = true.
Proof.
  induction fuel as [|fuel IH]; intros n Hn; [reflexivity|].
  rewrite digits36_S. destruct (Z.ltb_spec n 36).
  - cbn [forallb]. rewrite digit36_lower_alnum by lia. reflexivity.
  - rewrite forallb_app, IH by (apply Z.div_pos; lia). cbn [forallb].
    rewrite digit36_lower_alnum by (apply Z.mod_pos_bound; lia). reflexivity.
Qed.

(** X3. The token [simpleHash] returns is one to six characters long and
    made of digits and lower-case letters, and it stands for the absolute
    value of the 32-bit hash of the text: two texts get the same token
    exactly when their 32-bit hashes are equal up to sign. *)
Theorem simpleHash_token :
  forall a b : str,
    1 <= length (simpleHash a) <= 6
    /\ forallb lower_alnum (simpleHash a) = true
    /\ (simpleHash a = simpleHash b <-> Z.abs (hash32 a) = Z.abs (hash32 b)).
Proof.
  intros a b. unfold simpleHash, toString36. fold (hash32 a) (hash32 b).
  pose proof (hash32_range a) as Ha. pose proof (hash32_range b) as Hb.
  split; [|split].
  - split.
    + destruct (@digits36_field_ok 6 (Z.abs (hash32 a)) (Z.abs_nonneg _))
        as [Hne _].
      destruct (digits36 7 (Z.abs (hash32 a))); [congruence|cbn; lia].
    + apply (@digits36_length 6 5). cbn. lia.
  - apply digits36_lower_alnum. apply Z.abs_nonneg.
  - split; [|intros ->; reflexivity].
    intros E. apply (f_equal valueOf) in E.
    rewrite !valueOf_digits36 in E by (cbn; lia). exact E.
Qed.

(* ================================================================== *)
(** * What a sync leaves alone *)
(* ================================================================== *)

(** X4. Whatever its outcome, [syncContactMemo] changes no line of the
    document but the start line, and never the number of lines. *)
Theorem sync_touches_start_line_only :
  forall (context : PluginContext) (contact : ProcessedContact)
         (lineNumber : nat) (silent : bool) (w : World),
    let out := syncContactMemo context contact lineNumber silent w in
    lineCount (w_editor (snd out)) = lineCount (w_editor w)
    /\ forall n, n <> lineNumber ->
         getLine (w_editor (snd out)) n = getLine (w_editor w) n.
Proof.
  intros context contact lineNumber silent w out. subst out.
  assert (Hset : forall text,
            lineCount (setLine (w_editor w) lineNumber text)
            = lineCount (w_editor w)
            /\ forall n, n <> lineNumber ->
                 getLine (setLine (w_editor w) lineNumber text) n
                 = getLine (w_editor w) n).
  { intros text. split; [apply length_setLine|].
    intros n Hn. rewrite getLine_setLine.
    destruct (Nat.eqb_spec n lineNumber); [contradiction|reflexivity]. }
  run_sync.
  destruct (apiClient context) as [api|]; cbn [fst snd w_events w_editor];
    [|split; reflexivity].
  destruct (skipUnchanged (w_editor w) (getContentBlock (w_editor w) lineNumber));
    cbn [fst snd w_events w_editor]; [split; reflexivity|].
  set (cb := getContentBlock (w_editor w) lineNumber).
  destruct (truthy (cb_memoId cb) &&
            negb (truthy (cb_memoId cb) &&
                  startsWith (cap_text (fun _ => cb_memoId cb) 0) (js "memo_")));
    [destruct (updateNote api _ _ _) as [err|res]
    |destruct (createNote api _ _) as [err|res]];
    cbn [fst snd w_events w_editor]; try (split; reflexivity);
    (destruct (updateStartLine _ _ _ _ _) as [rejected|updatedLine];
     cbn [fst snd w_events w_editor]; [split; reflexivity|]);
    destruct (str_eqb _ _), silent; cbn [fst snd w_events w_editor];
    try destruct (_ || _); cbn [fst snd w_events w_editor];
    first [split; reflexivity|apply Hset].
Qed.

(** The notices of a run. *)
Definition isNotice (ev : event) : bool := negb (isRemoteCall ev).

Definition resolvedCall (ev : event) : option NoteResult :=
  match ev with
  | CreateNoteCall _ _ (inr r) => Some r
  | UpdateNoteCall _ _ _ (inr r) => Some r
  | _ => None
  end.

Definition isUpdateCall (ev : event) : bool :=
  match ev with
  | UpdateNoteCall _ _ _ _ => true
  | _ => false
  end.

Lemma RegExp_new_rejected (context : PluginContext) (source : str)
    (rejected : error) :
  RegExp_new context source = inl rejected -> rejected = SyntaxError source.
Proof.
  unfold RegExp_new.
  destruct (parsePattern source) as [[r m]| |]; try discriminate.
  - intros E. injection E as <-. reflexivity.
  - destruct (hostRegExp context source); [discriminate|].
    intros E. injection E as <-. reflexivity.
Qed.

(** The one error lines 388-431 can end with is the SyntaxError of a
    pattern source. *)
Lemma updateStartLine_rejected (context : PluginContext)
    (contactId memoId contentHash startLine : str) (rejected : error) :
  updateStartLine context contactId memoId contentHash startLine
  = inl rejected ->
  exists source, rejected = SyntaxError source.
Proof.
  unfold updateStartLine.
  destruct (RegExp_new context (dexUrlWithCommentSource contactId))
    as [e1|r1] eqn:E1; cbn [andThen].
  { intros E. injection E as <-. eexists.
    apply (RegExp_new_rejected _ _ E1). }
  destruct (RegExp_new context (vaultLinkWithCommentSource contactId))
    as [e2|r2] eqn:E2; cbn [andThen].
  { intros E. injection E as <-. eexists.
    apply (RegExp_new_rejected _ _ E2). }
  destruct (re_test r1 startLine); [discriminate|].
  destruct (re_test r2 startLine); [discriminate|].
  destruct (RegExp_new context (dexUrlPatternSource contactId))
    as [e3|r3] eqn:E3; cbn [andThen].
  { intros E. injection E as <-. eexists.
    apply (RegExp_new_rejected _ _ E3). }
  destruct (RegExp_new context vaultLinkPatternSource)
    as [e4|r4] eqn:E4; cbn [andThen].
  { intros E. injection E as <-. eexists.
    apply (RegExp_new_rejected _ _ E4). }
  destruct (re_test r3 startLine); [discriminate|].
  destruct (re_test r4 startLine); discriminate.
Qed.

(** X5. What one run of [syncContactMemo] tells the outside world: at
    most one remote call, and at most one notice, which comes after a
    remote call that resolved and only when the run is not silent and
    returns; the notice says "updated" only for an UPDATE call that
    resolved with [wasUpdated], and "created" otherwise.  A run whose
    one event is a remote call that resolved is either silent or ended
    with the SyntaxError of a pattern source that was rejected after the
    call. *)
Theorem sync_calls_and_notices :
  forall (context : PluginContext) (contact : ProcessedContact)
         (lineNumber : nat) (silent : bool) (w : World),
    let out := syncContactMemo context contact lineNumber silent w in
    let evs := newEvents w out in
    (evs = []
     \/ (exists call, evs = [call] /\ isRemoteCall call = true
                      /\ (resolvedCall call = None
                          \/ (exists res, resolvedCall call = Some res
                                          /\ silent = true
                                          /\ fst out = inr (note_id res))
                          \/ (exists res source,
                                resolvedCall call = Some res
                                /\ fst out = inl (SyntaxError source)
                                /\ w_editor (snd out) = w_editor w)))
     \/ (exists call res,
           silent = false
           /\ resolvedCall call = Some res
           /\ fst out = inr (note_id res)
           /\ evs = [call;
                     if isUpdateCall call && note_wasUpdated res
                     then NoticeUpdated (contact_name contact)
                     else NoticeCreated (contact_name contact)])).
Proof.
  intros context contact lineNumber silent w out evs. subst evs out.
  run_sync.
  destruct (apiClient context) as [api|]; cbn [fst snd w_events w_editor];
    [|left; apply skipn_all_nil].
  destruct (skipUnchanged (w_editor w) (getContentBlock (w_editor w) lineNumber));
    cbn [fst snd w_events w_editor]; [left; apply skipn_all_nil|].
  set (cb := getContentBlock (w_editor w) lineNumber).
  destruct (truthy (cb_memoId cb)) eqn:Hid; cbn [andb negb orb].
  - destruct (startsWith (cap_text (fun _ => cb_memoId cb) 0) (js "memo_"));
      cbn [andb negb orb].
    + destruct (createNote api _ _) as [err|res] eqn:Hcall;
        cbn [fst snd w_events w_editor].
      * right; left. eexists. rewrite skipn_length_app.
        split; [reflexivity|]. split; [reflexivity|].
        left. cbn. try rewrite Hcall. reflexivity.
      * destruct (updateStartLine _ _ _ _ _) as [rejected|updatedLine] eqn:Hline;
          cbn [fst snd w_events w_editor].
        { destruct (updateStartLine_rejected _ _ _ _ _ Hline) as [source ->].
          right; left. eexists. rewrite skipn_length_app.
          split; [reflexivity|]. split; [reflexivity|].
          right; right. exists res, source. repeat split; reflexivity. }
        destruct (str_eqb _ _), silent; cbn [fst snd w_events w_editor];
          rewrite ?skipn_length_app, ?skipn_length_app2; cbn [app];
          first
            [ right; left; eexists; split; [reflexivity|];
              split; [reflexivity|];
              right; left; exists res; repeat split; reflexivity
            | lazymatch goal with
              | |- (?c :: _) = [] \/ _ => right; right; exists c, res
              end;
              split; [reflexivity|]; split; [|split; reflexivity];
              reflexivity ].
    + destruct (updateNote api _ _ _) as [err|res] eqn:Hcall;
        cbn [fst snd w_events w_editor].
      * right; left. eexists. rewrite skipn_length_app.
        split; [reflexivity|]. split; [reflexivity|].
        left. cbn. try rewrite Hcall. reflexivity.
      * destruct (updateStartLine _ _ _ _ _) as [rejected|updatedLine] eqn:Hline;
          cbn [fst snd w_events w_editor].
        { destruct (updateStartLine_rejected _ _ _ _ _ Hline) as [source ->].
          right; left. eexists. rewrite skipn_length_app.
          split; [reflexivity|]. split; [reflexivity|].
          right; right. exists res, source. repeat split; reflexivity. }
        destruct (str_eqb _ _), silent, (note_wasUpdated res) eqn:Hupd;
          cbn [fst snd w_events w_editor andb negb orb];
          rewrite ?skipn_length_app, ?skipn_length_app2; cbn [app];
          first
            [ right; left; eexists; split; [reflexivity|];
              split; [reflexivity|];
              right; left; exists res; repeat split; reflexivity
            | lazymatch goal with
              | |- (?c :: _) = [] \/ _ => right; right; exists c, res
              end;
              split; [reflexivity|]; split; [|split; [reflexivity|]];
              [|cbn [isUpdateCall andb]; rewrite Hupd; reflexivity];
              reflexivity ].
  - destruct (createNote api _ _) as [err|res] eqn:Hcall;
      cbn [fst snd w_events w_editor].
    + right; left. eexists. rewrite skipn_length_app.
      split; [reflexivity|]. split; [reflexivity|].
      left. cbn. try rewrite Hcall. reflexivity.
    + destruct (updateStartLine _ _ _ _ _) as [rejected|updatedLine] eqn:Hline;
        cbn [fst snd w_events w_editor].
      { destruct (updateStartLine_rejected _ _ _ _ _ Hline) as [source ->].
        right; left. eexists. rewrite skipn_length_app.
        split; [reflexivity|]. split; [reflexivity|].
        right; right. exists res, source. repeat split; reflexivity. }
      destruct (str_eqb _ _), silent; cbn [fst snd w_events w_editor];
        rewrite ?skipn_length_app, ?skipn_length_app2; cbn [app];
        first
          [ right; left; eexists; split; [reflexivity|];
            split; [reflexivity|];
            right; left; exists res; repeat split; reflexivity
          | lazymatch goal with
              | |- (?c :: _) = [] \/ _ => right; right; exists c, res
              end;
            split; [reflexivity|]; split; [|split; reflexivity];
            reflexivity ].
Qed.

(* ================================================================== *)
(** * [src/api/client.ts] *)
(* ================================================================== *)

(** [String(n)] for a non-negative integer. *)
Fixpoint decimal_fuel (fuel n : nat) : str :=
  match fuel with
  | O => []
  | S fuel' =>
      if (n <? 10)%nat then [N.of_nat (48 + n)]
      else decimal_fuel fuel' (n / 10) ++ [N.of_nat (48 + n mod 10)]
  end.

Definition decimal (n : nat) : str := decimal_fuel (S n) n.

(** The object a request body is the [JSON.stringify] of. *)
Inductive payload : Type :=
| TimelineItem (note event_time contact_id : str)
| TimelineUpdate (note event_time timeline_item_id contact_id : str).

Record DexRequestParams : Type := {
  p_url : str;
  p_method : str;
  p_headers : list (str * str);
  p_body : option payload
}.

Record DexResponse : Type := {
  r_statusCode : nat;
  r_body : str
}.

(** What a call of the client can throw. *)
Inductive apiError : Type :=
| FetchRejected (message : str)
| DexApiError (request : DexRequestParams) (response : DexResponse)
| JsonSyntaxError
| ResponseStructureChanged.

(** The fields of a [DexContact] that the client reads. *)
Record DexContact : Type := {
  dc_id : str;
  dc_first_name : option str;
  dc_last_name : option str;
  dc_job_title : option str;
  dc_company : option str;
  dc_image_url : option str
}.

(** What the client has done so far: the requests it sent, oldest first,
    and the number of times it read the clock. *)
Record Net : Type := {
  n_requests : list DexRequestParams;
  n_clock : nat
}.

Definition Api (A : Type) : Type := Net -> (apiError + A) * Net.

Definition aret {A} (a : A) : Api A := fun n => (inr a, n).

Definition abind {A B} (m : Api A) (f : A -> Api B) : Api B :=
  fun n =>
    match m n with
    | (inl e, n') => (inl e, n')
    | (inr a, n') => f a n'
    end.

Definition athrow {A} (e : apiError) : Api A := fun n => (inl e, n).

(** [try { m } catch (error) { handler }]. *)
Definition acatch {A} (m : Api A) (handler : apiError -> Api A) : Api A :=
  fun n =>
    match m n with
    | (inl e, n') => handler e n'
    | (inr a, n') => (inr a, n')
    end.

Notation "x <~ c1 ;; c2" := (abind c1 (fun x => c2))
  (at level 61, c1 at next level, right associativity).

Definition CONTACTS_PAGE_SIZE : nat := 100.

Section ApiClient.

(** The outside of the client.  [respond k request] is what the fetcher
    does with the request sent after [k] earlier ones: it rejects with a
    message or resolves with a response.  [clock k] is the ISO text of
    the clock at its reading number [k].  [JSON_parse] is [None] where
    [JSON.parse] throws; [contactsOf] and [createdId] are the two reads
    the client makes of parsed data, [response.contacts] at the declared
    type [DexContactsResponse] and
    [response?.insert_timeline_items_one?.id]. *)
Variable apiKey : str.
Variable respond : nat -> DexRequestParams -> str + DexResponse.
Variable clock : nat -> str.
Variable json : Type.
Variable JSON_parse : str -> option json.
Variable contactsOf : json -> list DexContact.
Variable createdId : json -> option str.

Definition baseUrl : str := js "https://api.getdex.com/api/rest".

Definition getHeaders : list (str * str) :=
  let headers :=
    [(js "Accept", js "application/json");
     (js "Content-Type", js "application/json");
     (js "User-Agent", js "Obsidian-Dex-Plugin/1.0.0")] in
  if truthy (Some apiKey) && truthy (Some (trim apiKey))
  then headers ++ [(js "x-hasura-dex-api-key", trim apiKey)]
  else headers.

(** [new Date().toISOString()]. *)
Definition now : Api str :=
  fun n => (inr (clock (n_clock n)),
            {| n_requests := n_requests n; n_clock := S (n_clock n) |}).

(** [await this.fetcher.fetch(params)]. *)
Definition fetch (params : DexRequestParams) : Api DexResponse :=
  fun n =>
    let n' := {| n_requests := n_requests n ++ [params];
                 n_clock := n_clock n |} in
    match respond (length (n_requests n)) params with
    | inl message => (inl (FetchRejected message), n')
    | inr response => (inr response, n')
    end.

(** [makeRequest]; its [catch] logs and rethrows. *)
Definition makeRequest (endpoint method : str) (body : option payload)
  : Api json :=
  let params := {| p_url := baseUrl ++ endpoint; p_method := method;
                   p_headers := getHeaders; p_body := body |} in
  response <~ fetch params ;;
  if (400 <=? r_statusCode response)%nat
  then athrow (DexApiError params response)
  else
    match JSON_parse (r_body response) with
    | Some data => aret data
    | None => athrow JsonSyntaxError
    end.

Definition fetchContacts (limit offset : nat) : Api (list DexContact) :=
  response <~ makeRequest
                (js "/contacts?limit=" ++ decimal limit
                 ++ js "&offset=" ++ decimal offset)
                (js "GET") None ;;
  aret (contactsOf response).

(** The [while (hasMore)] loop of [fetchAllContacts]; [None] when the
    loop is still running after [fuel] pages. *)
Fixpoint fetchAll_loop (fuel offset : nat) (allContacts : list DexContact)
  : Api (option (list DexContact)) :=
  match fuel with
  | O => aret None
  | S fuel' =>
      contacts <~ fetchContacts CONTACTS_PAGE_SIZE offset ;;
      let allContacts := allContacts ++ contacts in
      let hasMore := Nat.eqb (length contacts) CONTACTS_PAGE_SIZE in
      if hasMore
      then fetchAll_loop fuel' (offset + CONTACTS_PAGE_SIZE) allContacts
      else aret (Some allContacts)
  end.

Definition fetchAllContacts (fuel : nat) : Api (option (list DexContact)) :=
  fetchAll_loop fuel 0 [].

Definition apiCreateNote (contactId noteContent : str) : Api NoteResult :=
  event_time <~ now ;;
  response <~ makeRequest (js "/timeline_items") (js "POST")
                (Some (TimelineItem noteContent event_time contactId)) ;;
  let timelineItemId := createdId response in
  if truthy timelineItemId
  then aret {| note_id := cap_text (fun _ => timelineItemId) 0;
               note_success := true; note_wasUpdated := false |}
  else athrow ResponseStructureChanged.

Definition apiUpdateNote (noteId contactId noteContent : str)
  : Api NoteResult :=
  event_time <~ now ;;
  acatch
    (response <~ makeRequest (js "/timeline_items/" ++ noteId) (js "PUT")
                   (Some (TimelineUpdate noteContent event_time noteId
                            contactId)) ;;
     aret {| note_id := noteId; note_success := true;
             note_wasUpdated := true |})
    (fun _ =>
       newResult <~ apiCreateNote contactId noteContent ;;
       aret {| note_id := note_id newResult;
               note_success := note_success newResult;
               note_wasUpdated := false |}).


(** ** What the client sends and what it resolves to *)

Definition postRequest (contactId noteContent : str) (n : Net)
  : DexRequestParams :=
  {| p_url := baseUrl ++ js "/timeline_items"; p_method := js "POST";
     p_headers := getHeaders;
     p_body := Some (TimelineItem noteContent (clock (n_clock n)) contactId) |}.

Definition putRequest (noteId contactId noteContent : str) (n : Net)
  : DexRequestParams :=
  {| p_url := baseUrl ++ js "/timeline_items/" ++ noteId;
     p_method := js "PUT";
     p_headers := getHeaders;
     p_body := Some (TimelineUpdate noteContent (clock (n_clock n)) noteId
                       contactId) |}.

(** The request is answered below 400 with a body that parses. *)
Definition answered (k : nat) (request : DexRequestParams) (data : json)
  : Prop :=
  exists response,
    respond k request = inr response
    /\ r_statusCode response < 400
    /\ JSON_parse (r_body response) = Some data.

Lemma makeRequest_run (endpoint method : str) (body : option payload)
    (n : Net) :
  let params := {| p_url := baseUrl ++ endpoint; p_method := method;
                   p_headers := getHeaders; p_body := body |} in
  let n' := {| n_requests := n_requests n ++ [params];
               n_clock := n_clock n |} in
  snd (makeRequest endpoint method body n) = n'
  /\ (forall data,
        fst (makeRequest endpoint method body n) = inr data
        <-> answered (length (n_requests n)) params data)
  /\ (forall rq rs,
        fst (makeRequest endpoint method body n) = inl (DexApiError rq rs)
        -> rq = params).
Proof.
  intros params n'. unfold makeRequest, fetch, abind, aret, athrow, answered.
  fold params.
  destruct (respond (length (n_requests n)) params) as [msg|response];
    cbn [fst snd].
  - split; [reflexivity|]. split.
    + intros data. split; [discriminate|].
      intros (r & Hr & _). discriminate.
    + intros rq rs H. discriminate.
  - destruct (Nat.leb_spec 400 (r_statusCode response)) as [Hge|Hlt];
      cbn [fst snd].
    + split; [reflexivity|]. split.
      * intros data. split; [discriminate|].
        intros (r & Hr & Hs & _). injection Hr as <-. lia.
      * intros rq rs H. injection H as <- _. reflexivity.
    + destruct (JSON_parse (r_body response)) as [d|] eqn:Hp; cbn [fst snd].
      * split; [reflexivity|]. split.
        -- intros data. split.
           ++ intros H. injection H as <-. exists response. auto.
           ++ intros (r & Hr & _ & Hd). injection Hr as <-. congruence.
        -- intros rq rs H. discriminate.
      * split; [reflexivity|]. split.
        -- intros data. split; [discriminate|].
           intros (r & Hr & _ & Hd). injection Hr as <-. congruence.
        -- intros rq rs H. discriminate.
Qed.

Lemma createNote_run (contactId noteContent : str) (n : Net) :
  let request := postRequest contactId noteContent n in
  let out := apiCreateNote contactId noteContent n in
  snd out = {| n_requests := n_requests n ++ [request];
               n_clock := S (n_clock n) |}
  /\ (forall res,
        fst out = inr res
        <-> exists data,
              answered (length (n_requests n)) request data
              /\ createdId data = Some (note_id res)
              /\ note_id res <> []
              /\ note_success res = true /\ note_wasUpdated res = false)
  /\ (forall rq rs, fst out = inl (DexApiError rq rs) -> rq = request).
Proof.
  intros request out. subst out. unfold apiCreateNote, now.
  unfold abind at 1. cbn [fst snd n_requests n_clock].
  pose proof (@makeRequest_run (js "/timeline_items") (js "POST")
                (Some (TimelineItem noteContent (clock (n_clock n)) contactId))
                {| n_requests := n_requests n; n_clock := S (n_clock n) |})
    as H.
  cbn zeta in H. cbn [n_requests n_clock] in H.
  fold (postRequest contactId noteContent n) in H. fold request in H.
  destruct H as (Hn & Hok & Herr).
  unfold abind.
  destruct (makeRequest _ _ _ _) as [[e|data] n1]; cbn [fst snd] in *.
  - split; [exact Hn|]. split.
    + intros res. split; [discriminate|].
      intros (d & Hd & _). apply Hok in Hd. discriminate.
    + intros rq rs H. injection H as ->. apply (Herr rq rs). reflexivity.
  - pose proof (proj1 (Hok data) eq_refl) as Hans.
    assert (Huniq : forall d, answered (length (n_requests n)) request d ->
                              d = data).
    { intros d Hd. apply Hok in Hd. congruence. }
    destruct (createdId data) as [[|x id]|] eqn:Hid;
      unfold aret, athrow; cbn [truthy fst snd cap_text].
    + split; [exact Hn|]. split; [|discriminate].
      intros res. split; [discriminate|].
      intros (d & Hd & Hc & Hne & _). apply Huniq in Hd. subst d.
      congruence.
    + split; [exact Hn|]. split; [|discriminate].
      intros res. split.
      * intros H. injection H as <-. exists data. cbn.
        repeat split; try assumption; try reflexivity. discriminate.
      * intros (d & Hd & Hc & Hne & Hs & Hu). apply Huniq in Hd. subst d.
        destruct res as [i sc u]. cbn in *. congruence.
    + split; [exact Hn|]. split; [|discriminate].
      intros res. split; [discriminate|].
      intros (d & Hd & Hc & _). apply Huniq in Hd. subst d. congruence.
Qed.

(** X6. [createNote] sends exactly one request, a POST of the note to
    [/timeline_items], and resolves exactly when that request is
    answered below 400 with a body that parses and holds a non-empty id
    at [insert_timeline_items_one.id]; it then returns that id, with
    [success] set and [wasUpdated] not set. *)
Theorem createNote_one_post :
  forall (contactId noteContent : str) (n : Net),
    let request := postRequest contactId noteContent n in
    let out := apiCreateNote contactId noteContent n in
    n_requests (snd out) = n_requests n ++ [request]
    /\ forall res,
         fst out = inr res
         <-> exists data,
               answered (length (n_requests n)) request data
               /\ createdId data = Some (note_id res)
               /\ note_id res <> []
               /\ note_success res = true /\ note_wasUpdated res = false.
Proof.
  intros contactId noteContent n request out.
  pose proof (createNote_run contactId noteContent n) as H.
  cbn zeta in H. fold request in H. fold out in H.
  destruct H as (Hn & Hok & _).
  rewrite Hn. split; [reflexivity|exact Hok].
Qed.

Lemma updateNote_run (noteId contactId noteContent : str) (n : Net) :
  let put := putRequest noteId contactId noteContent n in
  let n1 := {| n_requests := n_requests n ++ [put];
               n_clock := S (n_clock n) |} in
  let out := apiUpdateNote noteId contactId noteContent n in
  (exists data, answered (length (n_requests n)) put data)
  /\ out = (inr {| note_id := noteId; note_success := true;
                   note_wasUpdated := true |}, n1)
  \/ ~ (exists data, answered (length (n_requests n)) put data)
     /\ snd out = snd (apiCreateNote contactId noteContent n1)
     /\ fst out
        = match fst (apiCreateNote contactId noteContent n1) with
          | inl e => inl e
          | inr newResult =>
              inr {| note_id := note_id newResult;
                     note_success := note_success newResult;
                     note_wasUpdated := false |}
          end.
Proof.
  intros put n1 out.
  assert (Hout :
    (exists data, answered (length (n_requests n)) put data)
    /\ out = (inr {| note_id := noteId; note_success := true;
                     note_wasUpdated := true |}, n1)
    \/ ~ (exists data, answered (length (n_requests n)) put data)
       /\ out = (match fst (apiCreateNote contactId noteContent n1) with
                 | inl e => inl e
                 | inr newResult =>
                     inr {| note_id := note_id newResult;
                            note_success := note_success newResult;
                            note_wasUpdated := false |}
                 end, snd (apiCreateNote contactId noteContent n1))).
  { subst out. unfold apiUpdateNote, now, acatch, abind, aret.
    cbn [fst snd n_requests n_clock].
    match goal with
    | |- context [makeRequest ?a ?b ?c ?d] =>
        pose proof (@makeRequest_run a b c d) as H;
        cbn zeta in H; cbn [n_requests n_clock] in H;
        fold (putRequest noteId contactId noteContent n) in H; fold put in H;
        fold n1 in H; destruct H as (Hn & Hok & _);
        destruct (makeRequest a b c d) as [[e|data] n2]; cbn [fst snd] in *
    end.
    - right. subst n2. split.
      + intros (d & Hd). apply Hok in Hd. discriminate.
      + destruct (apiCreateNote contactId noteContent n1) as [[e'|r] n3];
          reflexivity.
    - left. subst n2. split.
      + exists data. apply Hok. reflexivity.
      + reflexivity. }
  destruct Hout as [[Hput Hout]|[Hput Hout]]; [left|right]; split;
    try exact Hput; try exact Hout.
  rewrite Hout. split; reflexivity.
Qed.

(** X7. [updateNote] first sends a PUT for the stored memo.  When the
    PUT is answered below 400 with a body that parses, nothing else is
    sent and the result is the stored id with [wasUpdated] set.  In
    every other case, a rejected fetch, a status of 400 or more or a
    body that does not parse, it goes on to [createNote]: a POST follows
    the PUT, a result comes with [wasUpdated] not set and with the
    non-empty id of the new memo, and a rejection is that of the POST,
    the failure of the PUT being dropped. *)
Theorem updateNote_falls_back_to_create :
  forall (noteId contactId noteContent : str) (n : Net),
    let put := putRequest noteId contactId noteContent n in
    let n1 := {| n_requests := n_requests n ++ [put];
                 n_clock := S (n_clock n) |} in
    let post := postRequest contactId noteContent n1 in
    let out := apiUpdateNote noteId contactId noteContent n in
    ((exists data, answered (length (n_requests n)) put data)
     /\ n_requests (snd out) = n_requests n ++ [put]
     /\ fst out = inr {| note_id := noteId; note_success := true;
                         note_wasUpdated := true |})
    \/ (~ (exists data, answered (length (n_requests n)) put data)
        /\ n_requests (snd out) = n_requests n ++ [put; post]
        /\ (forall res, fst out = inr res ->
              note_wasUpdated res = false /\ note_id res <> []
              /\ exists data,
                   answered (S (length (n_requests n))) post data
                   /\ createdId data = Some (note_id res))
        /\ (forall rq rs, fst out = inl (DexApiError rq rs) -> rq = post)).
Proof.
  intros noteId contactId noteContent n put n1 post out.
  pose proof (updateNote_run noteId contactId noteContent n) as H.
  cbn zeta in H. fold put in H. fold n1 in H. fold out in H.
  destruct H as [[Hput Hout]|(Hput & Hsnd & Hfst)].
  - left. split; [exact Hput|]. rewrite Hout. split; reflexivity.
  - right. split; [exact Hput|].
    pose proof (createNote_run contactId noteContent n1) as H.
    cbn zeta in H. fold post in H. destruct H as (Hn & Hok & Herr).
    assert (Hlen : length (n_requests n1) = S (length (n_requests n))).
    { subst n1. cbn [n_requests]. rewrite length_app. cbn. lia. }
    rewrite Hlen in Hok.
    split; [|split].
    + rewrite Hsnd, Hn. cbn [n_requests n1]. rewrite <- app_assoc.
      reflexivity.
    + intros res Hres. rewrite Hfst in Hres.
      destruct (fst (apiCreateNote contactId noteContent n1)) as [e|r] eqn:Hc;
        [discriminate|].
      injection Hres as <-. cbn [note_id note_wasUpdated].
      destruct (proj1 (Hok r) eq_refl) as (d & Hd & Hid & Hne & _).
      split; [reflexivity|]. split; [exact Hne|]. exists d. auto.
    + intros rq rs He. rewrite Hfst in He.
      destruct (fst (apiCreateNote contactId noteContent n1)) as [e|r] eqn:Hc;
        [|discriminate].
      injection He as ->. apply (Herr rq rs). reflexivity.
Qed.

(** ** Pages of contacts *)

Definition pageRequest (offset : nat) : DexRequestParams :=
  {| p_url := baseUrl ++ js "/contacts?limit=" ++ decimal CONTACTS_PAGE_SIZE
              ++ js "&offset=" ++ decimal offset;
     p_method := js "GET";
     p_headers := getHeaders;
     p_body := None |}.

(** The remote holds [store] and serves it page by page: whenever it is
    asked for one of the pages the contacts fill, or for the one right
    after a last full page, it answers with the contacts of that page. *)
Definition serves (store : list DexContact) : Prop :=
  forall k page,
    page <= length store / CONTACTS_PAGE_SIZE ->
    exists data,
      answered k (pageRequest (page * CONTACTS_PAGE_SIZE)) data
      /\ contactsOf data
         = firstn CONTACTS_PAGE_SIZE
             (skipn (page * CONTACTS_PAGE_SIZE) store).

Lemma fetchContacts_run (offset : nat) (n : Net) (data : json) :
  answered (length (n_requests n)) (pageRequest offset) data ->
  fetchContacts CONTACTS_PAGE_SIZE offset n
  = (inr (contactsOf data),
     {| n_requests := n_requests n ++ [pageRequest offset];
        n_clock := n_clock n |}).
Proof.
  intros Hans. unfold fetchContacts, abind, aret.
  match goal with
  | |- context [makeRequest ?a ?b ?c ?d] =>
      pose proof (@makeRequest_run a b c d) as H;
      cbn zeta in H; fold (pageRequest offset) in H;
      destruct H as (Hn & Hok & _);
      destruct (makeRequest a b c d) as [[e|d'] n2]; cbn [fst snd] in *
  end.
  - apply Hok in Hans. discriminate.
  - apply Hok in Hans. injection Hans as ->. subst n2. reflexivity.
Qed.

Lemma page_size_pos : 0 < CONTACTS_PAGE_SIZE.
Proof. unfold CONTACTS_PAGE_SIZE. lia. Qed.

Lemma firstn_add {A} (a b : nat) (l : list A) :
  firstn (a + b) l = firstn a l ++ firstn b (skipn a l).
Proof.
  revert l. induction a as [|a IH]; intros [|x l]; cbn; try reflexivity.
  - destruct b; reflexivity.
  - rewrite IH. reflexivity.
Qed.

Lemma fetchAll_loop_pages (store : list DexContact) :
  serves store ->
  forall fuel page n,
    page <= length store / CONTACTS_PAGE_SIZE ->
    length store / CONTACTS_PAGE_SIZE - page < fuel ->
    exists n',
      fetchAll_loop fuel (page * CONTACTS_PAGE_SIZE)
        (firstn (page * CONTACTS_PAGE_SIZE) store) n
      = (inr (Some store), n')
      /\ length (n_requests n')
         = length (n_requests n)
           + S (length store / CONTACTS_PAGE_SIZE - page).
Proof.
  intros Hserves. pose proof page_size_pos as Hpos.
  induction fuel as [|fuel IH]; intros page n Hpage Hfuel; [lia|].
  cbn [fetchAll_loop].
  destruct (Hserves (length (n_requests n)) page Hpage) as (data & Hans & Hc).
  unfold abind.
  rewrite (@fetchContacts_run (page * CONTACTS_PAGE_SIZE) n data Hans).
  rewrite Hc.
  assert (Hlen : length (firstn CONTACTS_PAGE_SIZE
                           (skipn (page * CONTACTS_PAGE_SIZE) store))
                 = Nat.min CONTACTS_PAGE_SIZE
                     (length store - page * CONTACTS_PAGE_SIZE)).
  { rewrite length_firstn, length_skipn. reflexivity. }
  assert (Hacc : firstn (page * CONTACTS_PAGE_SIZE) store
                 ++ firstn CONTACTS_PAGE_SIZE
                      (skipn (page * CONTACTS_PAGE_SIZE) store)
                 = firstn (S page * CONTACTS_PAGE_SIZE) store).
  { replace (S page * CONTACTS_PAGE_SIZE)
      with (page * CONTACTS_PAGE_SIZE + CONTACTS_PAGE_SIZE) by lia.
    symmetry. apply firstn_add. }
  rewrite Hacc.
  pose proof (Nat.div_mod_eq (length store) CONTACTS_PAGE_SIZE) as Hdm.
  pose proof (Nat.mod_upper_bound (length store) CONTACTS_PAGE_SIZE
                ltac:(lia)) as Hmod.
  destruct (Nat.eqb_spec
              (length (firstn CONTACTS_PAGE_SIZE
                         (skipn (page * CONTACTS_PAGE_SIZE) store)))
              CONTACTS_PAGE_SIZE) as [Hfull|Hshort].
  - assert (Hnext : S page <= length store / CONTACTS_PAGE_SIZE).
    { rewrite Hlen in Hfull. apply Nat.div_le_lower_bound; lia. }
    replace (page * CONTACTS_PAGE_SIZE + CONTACTS_PAGE_SIZE)
      with (S page * CONTACTS_PAGE_SIZE) by lia.
    destruct (IH (S page)
                {| n_requests :=
                     n_requests n
                     ++ [pageRequest (page * CONTACTS_PAGE_SIZE)];
                   n_clock := n_clock n |} Hnext ltac:(lia))
      as (n' & Hrun & Hreq).
    exists n'. split; [exact Hrun|].
    rewrite Hreq. cbn [n_requests]. rewrite length_app. cbn [length]. lia.
  - unfold aret. eexists. split.
    + rewrite firstn_all2; [reflexivity|]. rewrite Hlen in Hshort. lia.
    + cbn [n_requests].
      assert (Hlast : page = length store / CONTACTS_PAGE_SIZE).
      { rewrite Hlen in Hshort.
        assert (length store < S page * CONTACTS_PAGE_SIZE) by lia.
        assert (length store / CONTACTS_PAGE_SIZE < S page)
          by (apply Nat.Div0.div_lt_upper_bound; lia).
        lia. }
      rewrite length_app. cbn [length]. lia.
Qed.

(** X8. Against a remote that serves its contacts page by page,
    [fetchAllContacts] returns all of them, in order, after one request
    per page of 100 the contacts fill, plus one: the loop only stops on
    a page that is not full, so when the number of contacts is a
    multiple of 100 a last request fetches an empty page. *)
Theorem fetchAllContacts_pages :
  forall (store : list DexContact) (fuel : nat) (n : Net),
    serves store ->
    length store / CONTACTS_PAGE_SIZE < fuel ->
    let out := fetchAllContacts fuel n in
    fst out = inr (Some store)
    /\ length (n_requests (snd out))
       = length (n_requests n) + S (length store / CONTACTS_PAGE_SIZE).
Proof.
  intros store fuel n Hserves Hfuel out. subst out. unfold fetchAllContacts.
  destruct (@fetchAll_loop_pages store Hserves fuel 0 n
              ltac:(lia) ltac:(lia)) as (n' & Hrun & Hreq).
  cbn [Nat.mul firstn] in Hrun. rewrite Hrun. cbn [fst snd].
  split; [reflexivity|]. rewrite Hreq. lia.
Qed.

(** ** The client under [syncContactMemo] *)

(** The message of the error object that reaches the caller. *)
Variable describe : apiError -> str.

(** The remote memo store as [syncContactMemo] sees it when the client
    has done [n] so far. *)
Definition clientAt (n : Net) : DexApiClient :=
  let settle (out : (apiError + NoteResult) * Net) : error + NoteResult :=
    match fst out with
    | inl e => inl (RemoteError (describe e))
    | inr r => inr r
    end in
  {| createNote := fun contactId content =>
       settle (apiCreateNote contactId content n);
     updateNote := fun noteId contactId content =>
       settle (apiUpdateNote noteId contactId content n) |}.

Lemma or_undefined_some (o : option str) (v : str) :
  or_undefined o = Some v -> truthy (Some v) = true.
Proof.
  unfold or_undefined. destruct (truthy o) eqn:Ht; [|discriminate].
  intros ->. exact Ht.
Qed.

(** X9. A memo that was synced before and is gone from the remote: the
    start line holds the mention of the contact with a stored remote
    memo id, the PUT for that id is not answered well, the POST that
    follows is answered with a new id, which is not empty and holds no
    dollar sign.  Then the run returns the new id, the comment of the
    mention is rewritten in place with the new id and the hash of the
    block, and the notice, if any, says that a memo was created. *)
Theorem sync_recreates_lost_memo :
  forall (n : Net) (render : str -> str) (host : str -> option RegExp)
         (contact : ProcessedContact)
         (lineNumber : nat) (silent : bool) (w : World) (m : mention)
         (pre post storedId newId : str) (data : json),
    let context := {| apiClient := Some (clientAt n); renderMemo := render;
                      hostRegExp := host |} in
    let cb := getContentBlock (w_editor w) lineNumber in
    let memoContent := render (cb_content cb) in
    let put := putRequest storedId (contact_id contact) memoContent n in
    let n1 := {| n_requests := n_requests n ++ [put];
                 n_clock := S (n_clock n) |} in
    let create := postRequest (contact_id contact) memoContent n1 in
    lineNumber < lineCount (w_editor w) ->
    getLine (w_editor w) lineNumber = pre ++ mentionText m ++ post ->
    mention_ok m -> contact_id contact = m_id m ->
    forallb (none_of (js "[")) pre = true ->
    forallb (none_of (js "[")) post = true ->
    cb_memoId cb = Some storedId ->
    startsWith storedId (js "memo_") = false ->
    skipUnchanged (w_editor w) cb = None ->
    ~ (exists d, answered (length (n_requests n)) put d) ->
    answered (S (length (n_requests n))) create data ->
    createdId data = Some newId -> newId <> [] ->
    dollar_free newId = true ->
    let out := syncContactMemo context contact lineNumber silent w in
    fst out = inr newId
    /\ getLine (w_editor (snd out)) lineNumber
       = pre ++ linkText (m_link m) (m_id m)
         ++ dexComment (m_id m) newId
              (simpleHash (cleanContentForHashing (cb_content cb)))
         ++ post
    /\ filter isNotice (newEvents w out)
       = if silent then [] else [NoticeCreated (contact_name contact)].
Proof.
  intros n render host contact lineNumber silent w m pre post storedId newId
    data context cb memoContent put n1 create Hln Hline Hok Hcid Hpre Hpost
    Hmemo Hreal Hskip Hput Hpost_ Hid Hne Hdollar out.
  set (res := {| note_id := newId; note_success := true;
                 note_wasUpdated := false |}).
  assert (Htruthy : truthy (cb_memoId cb) = true).
  { rewrite Hmemo. pose proof Hmemo as H. unfold cb, getContentBlock in H.
    cbn [cb_memoId] in H. exact (or_undefined_some _ H). }
  assert (Hcall : remoteOutcome (clientAt n) memoContent contact cb
                  = inr res).
  { unfold remoteOutcome. rewrite Htruthy, Hmemo. cbn [cap_text andb].
    rewrite Hreal. cbn [negb andb clientAt updateNote].
    pose proof (updateNote_run storedId (contact_id contact) memoContent n)
      as H.
    cbn zeta in H. fold put in H. fold n1 in H.
    destruct H as [[Hans _]|(_ & _ & Hfst)]; [contradiction|].
    rewrite Hfst.
    pose proof (createNote_run (contact_id contact) memoContent n1) as H.
    cbn zeta in H. fold create in H. destruct H as (_ & Hcreate & _).
    assert (Hlen : length (n_requests n1) = S (length (n_requests n))).
    { subst n1. cbn [n_requests]. rewrite length_app. cbn. lia. }
    rewrite Hlen in Hcreate.
    assert (Hres : fst (apiCreateNote (contact_id contact) memoContent n1)
                   = inr res).
    { apply Hcreate. exists data. subst res. cbn. auto. }
    rewrite Hres. reflexivity. }
  assert (Hupd : updateStartLine context (contact_id contact) (note_id res)
                   (simpleHash (cleanContentForHashing (cb_content cb)))
                   (getLine (w_editor w) lineNumber)
                 = inr (pre ++ linkText (m_link m) (m_id m)
                        ++ dexComment (m_id m) newId
                             (simpleHash
                                (cleanContentForHashing (cb_content cb)))
                        ++ post)).
  { rewrite Hline, Hcid. cbn [note_id res].
    apply updateStartLine_mention;
      [exact Hok|apply quiet_plain, Hpre|apply quiet_plain, Hpost
      |exact Hdollar|apply simpleHash_dollar_free]. }
  destruct (@sync_resolved_run (clientAt n) render host contact lineNumber
              silent w res _ Hskip Hcall Hupd) as (Hfst & Hdoc & _).
  fold context in Hfst, Hdoc. fold out in Hfst, Hdoc.
  split; [exact Hfst|]. split.
  - rewrite Hdoc, getLine_setLine, Nat.eqb_refl.
    unfold lineCount in Hln. apply Nat.ltb_lt in Hln. rewrite Hln.
    reflexivity.
  - subst out context. unfold remoteOutcome in Hcall.
    rewrite Htruthy, Hmemo in Hcall. cbn [cap_text andb] in Hcall.
    rewrite Hreal in Hcall. cbn [negb andb] in Hcall.
    run_sync. fold cb. rewrite Hskip. rewrite Htruthy, Hmemo.
    cbn [cap_text andb]. rewrite Hreal. cbn [negb andb orb].
    fold memoContent. rewrite Hcall.
    cbn [fst snd w_events w_editor].
    unfold cleanContentForHashing in Hupd. rewrite Hupd. subst res.
    cbn [fst snd w_events w_editor note_id note_wasUpdated negb andb orb].
    destruct (str_eqb _ _), silent; cbn [fst snd w_events w_editor];
      rewrite ?skipn_length_app, ?skipn_length_app2; reflexivity.
Qed.

End ApiClient.

(** A remote on which every stored memo is gone: a PUT is answered 404,
    any other request 200; every body parses, holds one contact and the
    id [new9]. *)
Definition toyRespond : nat -> DexRequestParams -> str + DexResponse :=
  fun _ request =>
    if str_eqb (p_method request) (js "PUT")
    then inr {| r_statusCode := 404; r_body := js "not found" |}
    else inr {| r_statusCode := 200; r_body := js "{}" |}.

Definition toyClock : nat -> str := fun _ => js "2024-05-01T10:00:00.000Z".

Definition ada : DexContact :=
  {| dc_id := js "a1"; dc_first_name := Some (js "Ada");
     dc_last_name := Some (js "Lovelace");
     dc_job_title := Some (js "Analyst at Analytical Engines");
     dc_company := None; dc_image_url := None |}.

Definition toyCreatedId : str -> option str := fun _ => Some (js "new9").

Definition emptyNet : Net := {| n_requests := []; n_clock := 0 |}.

(** A remote that holds two hundred contacts and serves them page by
    page: it resolves every request with the URL it was asked for, and
    the contacts read from that are those of the page the URL names. *)
Definition numbered (i : nat) : DexContact :=
  {| dc_id := decimal i; dc_first_name := Some (js "Contact");
     dc_last_name := Some (decimal i); dc_job_title := None;
     dc_company := None; dc_image_url := None |}.

Definition twoHundred : list DexContact := map numbered (seq 0 200).

Definition pagedRespond : nat -> DexRequestParams -> str + DexResponse :=
  fun _ request => inr {| r_statusCode := 200; r_body := p_url request |}.

Definition pagedContacts (store : list DexContact) : str -> list DexContact :=
  fun url =>
    match find (fun page =>
                  str_eqb url
                    (p_url (pageRequest (js "key")
                              (page * CONTACTS_PAGE_SIZE))))
            (seq 0 (S (length store / CONTACTS_PAGE_SIZE))) with
    | Some page =>
        firstn CONTACTS_PAGE_SIZE (skipn (page * CONTACTS_PAGE_SIZE) store)
    | None => []
    end.

Lemma fetchAllContacts_pages_witness :
  fst (fetchAllContacts (js "key") pagedRespond (@Some str)
         (pagedContacts twoHundred) 3 emptyNet)
  = inr (Some twoHundred)
  /\ length (n_requests
               (snd (fetchAllContacts (js "key") pagedRespond (@Some str)
                       (pagedContacts twoHundred) 3 emptyNet)))
     = 3.
Proof.
  apply (@fetchAllContacts_pages (js "key") pagedRespond str (@Some str)
           (pagedContacts twoHundred) twoHundred 3 emptyNet).
  - intros k page Hpage. change (page <= 2) in Hpage.
    assert (Hp : page = 0 \/ page = 1 \/ page = 2) by lia.
    destruct Hp as [ -> | [ -> | -> ] ];
      (eexists; split;
       [eexists; split; [reflexivity|]; split; [cbn; lia|reflexivity]
       |vm_compute; reflexivity]).
  - change (2 < 3). lia.
Defined.

Definition janeSynced : mention :=
  Mention (DexUrl (js "Jane")) (js "c1") [] (js ",memo-id=new1,hash=w8fdv5").

Lemma sync_recreates_lost_memo_witness :
  fst (syncContactMemo
         {| apiClient :=
              Some (clientAt (js "key") toyRespond toyClock (@Some str)
                      toyCreatedId (fun _ => js "failed") emptyNet);
            renderMemo := fun content => content;
            hostRegExp := fun _ => None |}
         jane 0 false (worldOf syncedDoc))
  = inr (js "new9")
  /\ getLine
       (w_editor
          (snd (syncContactMemo
                  {| apiClient :=
                       Some (clientAt (js "key") toyRespond toyClock
                               (@Some str) toyCreatedId
                               (fun _ => js "failed") emptyNet);
                     renderMemo := fun content => content;
                     hostRegExp := fun _ => None |}
                  jane 0 false (worldOf syncedDoc)))) 0
     = js "[Jane](https://getdex.com/appv3/contacts/details/c1)%%dex:contact-id=c1,memo-id=new9,hash=w8fdv5%% hello"
  /\ filter isNotice
       (newEvents (worldOf syncedDoc)
          (syncContactMemo
             {| apiClient :=
                  Some (clientAt (js "key") toyRespond toyClock (@Some str)
                          toyCreatedId (fun _ => js "failed") emptyNet);
                renderMemo := fun content => content;
                hostRegExp := fun _ => None |}
             jane 0 false (worldOf syncedDoc)))
     = [NoticeCreated (js "Jane")].
Proof.
  apply (@sync_recreates_lost_memo (js "key") toyRespond toyClock str
           (@Some str) toyCreatedId (fun _ => js "failed") emptyNet
           (fun content => content) (fun _ => None) jane 0 false
           (worldOf syncedDoc)
           janeSynced [] (js " hello") (js "new1") (js "new9") (js "{}")).
  - cbn. lia.
  - reflexivity.
  - repeat split; try reflexivity; try discriminate.
    right. eexists. reflexivity.
  - reflexivity.
  - reflexivity.
  - reflexivity.
  - vm_compute. reflexivity.
  - reflexivity.
  - vm_compute. reflexivity.
  - intros (d & r & Hr & Hs & _). vm_compute in Hr. injection Hr as <-.
    cbn in Hs. lia.
  - exists {| r_statusCode := 200; r_body := js "{}" |}.
    split; [vm_compute; reflexivity|]. split; [cbn; lia|reflexivity].
  - reflexivity.
  - discriminate.
  - reflexivity.
Defined.

(* ================================================================== *)
(** * More of JavaScript strings *)
(* ================================================================== *)

(** [String.prototype.includes]. *)
Fixpoint includes (s p : str) : bool :=
  startsWith s p
  || match s with
     | [] => false
     | _ :: s' => includes s' p
     end.

(** [String.prototype.split] with a separator string.  [skip] counts
    the characters of a separator just found that are still to be passed
    over, [cur] holds the piece being read, reversed. *)
Fixpoint split_go (sep : str) (skip : nat) (cur : str) (s : str)
  : list str :=
  match s with
  | [] => [rev cur]
  | x :: s' =>
      match skip with
      | S k => split_go sep k cur s'
      | O =>
          if startsWith s sep
          then rev cur :: split_go sep (length sep - 1) [] s'
          else split_go sep 0 (x :: cur) s'
      end
  end.

Definition split (sep : str) (s : str) : list str :=
  match sep with
  | [] => map (fun x => [x]) s
  | _ :: _ => split_go sep 0 [] s
  end.

(** [a || b] on strings that may be [undefined] or [null]. *)
Definition or_else (a : option str) (b : str) : str :=
  if truthy a then cap_text (fun _ => a) 0 else b.

(** The full record of [ProcessedContact] in [src/core/types.ts];
    [syncContactMemo] reads only [id] and [name]. *)
Record ContactRecord : Type := {
  c_id : str;
  c_name : str;
  c_firstName : str;
  c_lastName : str;
  c_company : option str;
  c_imageUrl : option str;
  c_dexUrl : str
}.

Definition asProcessed (c : ContactRecord) : ProcessedContact :=
  {| contact_id := c_id c; contact_name := c_name c |}.

(** The callback of [processContacts]. *)
Definition processContact (contact : DexContact) : ContactRecord :=
  let firstName := or_else (dc_first_name contact) [] in
  let lastName := or_else (dc_last_name contact) [] in
  let name :=
    or_else (Some (trim (firstName ++ js " " ++ lastName)))
      (js "Unknown Contact") in
  let company :=
    if truthy (dc_company contact)
    then cap_text (fun _ => dc_company contact) 0
    else if truthy (dc_job_title contact)
            && includes (cap_text (fun _ => dc_job_title contact) 0)
                 (js " at ")
    then
      let parts := split (js " at ")
                     (cap_text (fun _ => dc_job_title contact) 0) in
      if (1 <? length parts)%nat then last parts [] else []
    else [] in
  {| c_id := dc_id contact;
     c_name := name;
     c_firstName := firstName;
     c_lastName := lastName;
     c_company := or_undefined (Some company);
     c_imageUrl := or_undefined (dc_image_url contact);
     c_dexUrl := js "https://getdex.com/appv3/contacts/details/"
                 ++ dc_id contact |}.

Definition processContacts (dexContacts : list DexContact)
  : list ContactRecord :=
  map processContact dexContacts.

(** ** Facts about [trim] and [split] *)

Lemma trimStart_head (s : str) :
  match trimStart s with
  | [] => True
  | x :: _ => is_ws x = false
  end.
Proof.
  induction s as [|y s IH]; cbn [trimStart]; [exact I|].
  destruct (is_ws y) eqn:Hy; [exact IH|exact Hy].
Qed.

Lemma trimStart_idem (s : str) : trimStart (trimStart s) = trimStart s.
Proof.
  pose proof (trimStart_head s) as H.
  destruct (trimStart s) as [|x v]; [reflexivity|].
  cbn [trimStart]. rewrite H. reflexivity.
Qed.

Lemma trimEnd_idem (s : str) : trimEnd (trimEnd s) = trimEnd s.
Proof.
  unfold trimEnd. rewrite rev_involutive, trimStart_idem. reflexivity.
Qed.

Lemma trim_idem (s : str) : trim (trim s) = trim s.
Proof.
  unfold trim at 2 3. pose proof (trimStart_head s) as H.
  destruct (trimStart s) as [|x v]; [reflexivity|].
  pose proof (@trimEnd_app [] v x H) as E1. cbn [app] in E1. rewrite E1.
  pose proof (@trim_app [] (trimEnd v) x H) as E2.
  cbn [trimStart app] in E2. rewrite E2.
  rewrite trimEnd_idem. reflexivity.
Qed.

(** A text in which the separator does not occur is one piece. *)
Lemma split_go_none (sep : str) :
  forall s cur, includes s sep = false ->
    split_go sep 0 cur s = [rev cur ++ s].
Proof.
  induction s as [|x s IH]; intros cur H; cbn [split_go].
  - rewrite app_nil_r. reflexivity.
  - cbn [includes] in H. apply orb_false_elim in H. destruct H as [H1 H2].
    rewrite H1, (IH (x :: cur) H2). cbn [rev]. rewrite <- app_assoc.
    reflexivity.
Qed.

Lemma split_go_skip (sep : str) :
  forall u s cur,
    split_go sep (length u) cur (u ++ s) = split_go sep 0 cur s.
Proof.
  induction u as [|x u IH]; intros s cur; [reflexivity|].
  cbn [length app split_go]. apply IH.
Qed.

Lemma startsWith_app (l s : str) : startsWith (l ++ s) l = true.
Proof.
  induction l as [|b l IH]; [destruct s; reflexivity|].
  cbn [app startsWith]. rewrite N.eqb_refl. exact IH.
Qed.

Lemma includes_here (p s : str) : includes (p ++ s) p = true.
Proof.
  pose proof (startsWith_app p s) as H.
  destruct (p ++ s); cbn [includes]; rewrite H; reflexivity.
Qed.

(** The first occurrence of the separator cuts off the first piece. *)
Lemma split_go_first (a : char) (sep : str) :
  forall u s cur,
    (forall u1 x u2, u = u1 ++ x :: u2 ->
       startsWith (x :: u2 ++ (a :: sep) ++ s) (a :: sep) = false) ->
    split_go (a :: sep) 0 cur (u ++ (a :: sep) ++ s)
    = (rev cur ++ u) :: split_go (a :: sep) 0 [] s.
Proof.
  induction u as [|y u IH]; intros s cur Hu.
  - cbn [app]. cbn [split_go].
    pose proof (startsWith_app (a :: sep) s) as Hs. cbn [app] in Hs.
    rewrite Hs. rewrite app_nil_r.
    replace (length (a :: sep) - 1) with (length sep) by (cbn [length]; lia).
    rewrite split_go_skip. reflexivity.
  - cbn [app split_go].
    pose proof (Hu [] y u eq_refl) as H0. cbn [app] in H0. rewrite H0.
    pose proof (IH s (y :: cur)) as IH'. cbn [app] in IH'. rewrite IH'.
    + cbn [rev]. rewrite <- app_assoc. reflexivity.
    + intros u1 x u2 E. apply (Hu (y :: u1) x u2). rewrite E. reflexivity.
Qed.

Lemma includes_suffix (s p : str) :
  includes s p = false ->
  forall u1 u2, s = u1 ++ u2 -> startsWith u2 p = false.
Proof.
  intros H u1. revert s H. induction u1 as [|x u1 IH]; intros s H u2 ->.
  - cbn [app] in H. destruct u2; cbn [includes] in H;
      apply orb_false_elim in H; apply H.
  - cbn [app includes] in H. apply orb_false_elim in H.
    apply (IH _ (proj2 H) u2 eq_refl).
Qed.

(** ** [processContacts] *)

(** The text of a field that may be missing, the empty string when it
    is. *)
Definition textOf (field : option str) : str :=
  match field with
  | Some v => v
  | None => []
  end.

(** X10. What [processContacts] makes of a contact.  The first and the
    last name are those of the record, empty when missing.  The name is
    the trimmed "first last" when that is not empty, and
    [Unknown Contact] when it is; so it is never empty and carries no
    white space at its ends.  A company, when the record has one, is
    never the empty string; and the Dex URL is the contact page of the
    id of the record. *)
Theorem processContact_fields :
  forall contact : DexContact,
    let p := processContact contact in
    let full := trim (textOf (dc_first_name contact) ++ js " "
                      ++ textOf (dc_last_name contact)) in
    c_firstName p = textOf (dc_first_name contact)
    /\ c_lastName p = textOf (dc_last_name contact)
    /\ c_name p = match full with
                  | [] => js "Unknown Contact"
                  | _ :: _ => full
                  end
    /\ c_name p <> []
    /\ trim (c_name p) = c_name p
    /\ c_company p <> Some []
    /\ c_id p = dc_id contact
    /\ c_dexUrl p
       = js "https://getdex.com/appv3/contacts/details/" ++ dc_id contact.
Proof.
  intros contact p full. subst p. unfold processContact.
  cbn [c_name c_firstName c_lastName c_company c_dexUrl c_id].
  assert (Htext : forall field, or_else field [] = textOf field).
  { intros [[|x v]|]; reflexivity. }
  rewrite !Htext. fold full.
  assert (Hname : or_else (Some full) (js "Unknown Contact")
                  = match full with
                    | [] => js "Unknown Contact"
                    | _ :: _ => full
                    end).
  { destruct full; reflexivity. }
  rewrite Hname.
  split; [reflexivity|]. split; [reflexivity|]. split; [reflexivity|].
  split; [|split; [|split; [|split]]].
  - destruct full; discriminate.
  - destruct full as [|x v] eqn:E; [vm_compute; reflexivity|].
    rewrite <- E. subst full. apply trim_idem.
  - unfold or_undefined. destruct (truthy (Some _)) eqn:Ht; [|discriminate].
    intros E. rewrite E in Ht. discriminate.
  - reflexivity.
  - reflexivity.
Qed.

(** X11. The company of a contact that has none of its own but a job
    title "role at organisation": it is the organisation, when the role
    holds no [ at] and the organisation no [ at ]. *)
Theorem company_from_job_title :
  forall (contact : DexContact) (role org : str),
    truthy (dc_company contact) = false ->
    dc_job_title contact = Some (role ++ js " at " ++ org) ->
    includes role (js " at") = false ->
    includes org (js " at ") = false ->
    c_company (processContact contact) = or_undefined (Some org).
Proof.
  intros contact role org Hc Hj Hrole Horg.
  unfold processContact. cbn [c_company]. rewrite Hc, Hj.
  assert (Htruthy : truthy (Some (role ++ js " at " ++ org)) = true).
  { destruct role; reflexivity. }
  rewrite Htruthy. cbn [cap_text andb].
  assert (Hsplit : split (js " at ") (role ++ js " at " ++ org) = [role; org]).
  { unfold split. change (js " at ") with (32%N :: js "at ").
    rewrite split_go_first.
    - rewrite split_go_none by exact Horg. reflexivity.
    - intros u1 x u2 E.
      pose proof (@includes_suffix role (js " at") Hrole u1 (x :: u2) E) as H.
      destruct u2 as [|y [|z u2]]; cbn [app startsWith js] in *;
        cbn -[N.eqb] in H |- *.
      + destruct (N.eqb_spec 32 x); [|reflexivity]. reflexivity.
      + destruct (N.eqb_spec 32 x); [|reflexivity].
        destruct (N.eqb_spec 97 y); [|reflexivity]. reflexivity.
      + destruct (N.eqb 32 x); [|reflexivity].
        destruct (N.eqb 97 y); [|reflexivity].
        destruct (N.eqb 116 z); [|reflexivity].
        destruct u2; cbn in H; discriminate. }
  assert (Hinc : includes (role ++ js " at " ++ org) (js " at ") = true).
  { clear. induction role as [|x role IH].
    - exact (includes_here (js " at ") org).
    - cbn [app includes]. rewrite IH. apply orb_true_r. }
  rewrite Hinc, Hsplit. reflexivity.
Qed.

Lemma company_from_job_title_witness :
  c_company (processContact ada)
  = or_undefined (Some (js "Analytical Engines")).
Proof.
  apply (@company_from_job_title ada (js "Analyst")
           (js "Analytical Engines"));
    reflexivity.
Defined.

(* ================================================================== *)
(** * A rewritten start line, read again *)
(* ================================================================== *)


(* ================================================================== *)
(** * [performAutoSync] of [main.ts] *)
(* ================================================================== *)

(** The pattern "/%%dex:[^,]*,[^,]*,hash=([^%]+)%%/". *)
Definition AUTO_SYNC_HASH : regex :=
  Lit (js "%%dex:") ## Star (Chr (none_of (js ",")))
  ## Lit (js ",") ## Star (Chr (none_of (js ",")))
  ## Lit (js ",hash=") ## Grp 1 (Plus (Chr (none_of (js "%"))))
  ## Lit (js "%%").

(** The pattern "/%%dex:contact-id=([^,%)]+)/". *)
Definition AUTO_SYNC_CONTACT_ID : regex :=
  Lit (js "%%dex:contact-id=") ## Grp 1 (Plus (Chr field_char)).

(** Lines 1097-1114: whether the block that starts at [line] is to be
    synced. *)
Definition shouldSync (line : str) (contentBlock : ContentBlock) : bool :=
  negb (cb_hasExistingMemo contentBlock)
  || (let contentForHash :=
        trim (removeAll MEMO_ID_CLEANUP_PATTERN (cb_content contentBlock)) in
      let currentHash := simpleHash contentForHash in
      let hashMatch := exec AUTO_SYNC_HASH line in
      let storedHash :=
        match hashMatch with
        | Some f => groups f 1%nat
        | None => None
        end in
      match storedHash with
      | Some h => negb (str_eqb currentHash h)
      | None => true
      end).

(** [contacts.find(c => c.id === contactId)]. *)
Fixpoint findContact (contacts : list ProcessedContact) (contactId : str)
  : option ProcessedContact :=
  match contacts with
  | [] => None
  | c :: rest =>
      if str_eqb (contact_id c) contactId then Some c
      else findContact rest contactId
  end.

(** [try { await m } catch (error) { ... }] with a handler that does not
    throw: the outcome is handed to what follows. *)
Definition attempt {A} (m : M A) : M (error + A) :=
  fun w => (inr (fst (m w)), snd (m w)).

(** The [for] loop of [performAutoSync], with the two counters it
    logs. *)
Fixpoint autoSync_loop (context : PluginContext)
    (contacts : list ProcessedContact) (fuel i : nat)
    (syncedThisRound failedThisRound : nat) : M (nat * nat) :=
  match fuel with
  | O => ret (syncedThisRound, failedThisRound)
  | S fuel' =>
      editor <- readEditor ;;
      if negb (i <? lineCount editor)%nat
      then ret (syncedThisRound, failedThisRound)
      else
        let line := getLine editor i in
        let hasDexComment := test MEMO_ID_PATTERN line in
        let hasDexUrlLink := test HAS_DEX_URL_LINK line in
        let hasVaultLink := test HAS_VAULT_LINK line in
        if hasDexComment && (hasDexUrlLink || hasVaultLink) then
          let contentBlock := getContentBlock editor i in
          counters <-
            (if shouldSync line contentBlock then
               let contactId :=
                 match exec AUTO_SYNC_CONTACT_ID line with
                 | Some f => Some (trim (cap_text (groups f) 1))
                 | None => None
                 end in
               if truthy contactId then
                 match findContact contacts (cap_text (fun _ => contactId) 0)
                 with
                 | Some contact =>
                     outcome <- attempt (syncContactMemo context contact i
                                           true) ;;
                     match outcome with
                     | inr _ => ret (S syncedThisRound, failedThisRound)
                     | inl _ => ret (syncedThisRound, S failedThisRound)
                     end
                 | None => ret (syncedThisRound, failedThisRound)
                 end
               else ret (syncedThisRound, failedThisRound)
             else ret (syncedThisRound, failedThisRound)) ;;
          autoSync_loop context contacts fuel' (S (cb_endLine contentBlock))
            (fst counters) (snd counters)
        else
          autoSync_loop context contacts fuel' (S i) syncedThisRound
            failedThisRound
  end.

(** [performAutoSync] on an active markdown view. *)
Definition performAutoSync (context : PluginContext)
    (contacts : list ProcessedContact) : M (nat * nat) :=
  editor <- readEditor ;;
  let unsyncedCount := snd (countMemos editor) - fst (countMemos editor) in
  if Nat.eqb unsyncedCount 0 then ret (0, 0)
  else autoSync_loop context contacts (lineCount editor) 0 0 0.

(** ** Which blocks auto-sync takes up *)

Lemma field_ok_no_comma (v : str) :
  field_ok (Some v) -> forallb (none_of (js ",")) v = true.
Proof.
  intros [_ Hv]. eapply forallb_impl; [|exact Hv]. intros x.
  unfold field_char. apply none_of_weaken. cbn. intros ? ?; cbn in *; tauto.
Qed.

Lemma str_eqb_sym (a b : str) : str_eqb a b = str_eqb b a.
Proof.
  unfold str_eqb.
  destruct (list_eq_dec N.eq_dec a b), (list_eq_dec N.eq_dec b a);
    congruence.
Qed.

Lemma percent_first_auto (x : char) :
  none_of (js "%") x = true -> first AUTO_SYNC_HASH x = false.
Proof.
  intros Hx. cbn. rewrite (@none_of_eqc 37%N x (js "%")); auto.
  cbn; auto.
Qed.

(** The hash pattern of auto-sync on a comment with its three fields. *)
Lemma exec_AUTO_SYNC_HASH (pre post contactId mid hash : str) :
  forallb (none_of (js "%")) pre = true ->
  field_ok (Some contactId) -> field_ok (Some mid) ->
  field_ok (Some hash) ->
  exists c,
    exec AUTO_SYNC_HASH
      (pre ++ commentText (Some contactId) (Some mid) (Some hash) ++ post)
    = Some (Found pre post c)
    /\ c 1 = Some hash.
Proof.
  intros Hpre Hc Hm Hh.
  assert (Hmatch :
    rmatch AUTO_SYNC_HASH
      (commentText (Some contactId) (Some mid) (Some hash) ++ post)
      no_caps accept
    = Some (post, set_cap 1 hash no_caps)).
  { unfold AUTO_SYNC_HASH, commentText, fieldText. rewrite <- !app_assoc.
    rewrite rmatch_Seq, rmatch_Lit.
    change (js ",memo-id=") with (js "," ++ js "memo-id=").
    rewrite <- !app_assoc.
    rewrite (app_assoc (js "contact-id=") contactId).
    rewrite rmatch_star_next;
      [| |reflexivity|reflexivity|].
    - rewrite rmatch_Seq, rmatch_Lit.
      rewrite (app_assoc (js "memo-id=") mid).
      rewrite rmatch_star_next;
        [| |reflexivity|reflexivity|].
      + rewrite rmatch_Seq, rmatch_Lit, rmatch_Seq, rmatch_Grp.
        destruct Hh as [Hne Hhash]. destruct hash as [|x l]; [congruence|].
        apply rmatch_plus_some; [|cbn; reflexivity|].
        * eapply forallb_impl; [|exact Hhash]. intros y.
          unfold field_char. apply none_of_weaken.
          cbn. intros ? ?; cbn in *; tauto.
        * rewrite firstn_prefix. rewrite rmatch_Lit. reflexivity.
      + rewrite forallb_app. rewrite (field_ok_no_comma Hm). reflexivity.
      + intros y Hy. cbn. rewrite (@none_of_eqc 44%N y (js ",")); auto.
        cbn; auto.
    - rewrite forallb_app. rewrite (field_ok_no_comma Hc). reflexivity.
    - intros y Hy. cbn. rewrite (@none_of_eqc 44%N y (js ",")); auto.
      cbn; auto. }
  exists (set_cap 1 hash no_caps). split; [|reflexivity].
  rewrite exec_skip.
  - rewrite (exec_here _ _ Hmatch). cbn. rewrite app_nil_r. reflexivity.
  - apply no_match_in_first; [reflexivity|].
    eapply forallb_impl; [|exact Hpre].
    intros x Hx. rewrite (percent_first_auto _ Hx). reflexivity.
Qed.



(** X12. On a start line whose first comment holds the three fields,
    auto-sync takes the block up exactly when the status bar does not
    count it as synced: both compare the stored hash with the hash of
    the stripped block. *)
Theorem auto_sync_agrees_with_counter :
  forall (editor : Editor) (i : nat) (pre post contactId mid hash : str),
    getLine editor i
    = pre ++ commentText (Some contactId) (Some mid) (Some hash) ++ post ->
    forallb (none_of (js "%")) pre = true ->
    field_ok (Some contactId) -> field_ok (Some mid) ->
    field_ok (Some hash) ->
    let contentBlock := getContentBlock editor i in
    shouldSync (getLine editor i) contentBlock
    = negb (countsAsSynced editor i contentBlock)
    /\ countsAsSynced editor i contentBlock
       = str_eqb hash
           (simpleHash (cleanContentForHashing (cb_content contentBlock))).
Proof.
  intros editor i pre post contactId mid hash Hline Hpre Hc Hm Hh cb.
  unfold cb.
  destruct (exec_commentText pre post (Some contactId) (Some mid) (Some hash)
              Hpre Hc Hm Hh) as (c & Hexec & _ & H2 & H3).
  destruct (exec_AUTO_SYNC_HASH pre post Hpre Hc Hm Hh) as (c' & Hexec' & H1').
  assert (Hmemo : cb_hasExistingMemo (getContentBlock editor i) = true).
  { unfold getContentBlock. cbn [cb_hasExistingMemo].
    destruct (@detect_memo_fields (getLine editor) (lineCount editor) i)
      as [-> _].
    rewrite Hline, Hexec. cbn [groups]. rewrite H2.
    destruct Hm as [Hne _]. destruct mid; [congruence|reflexivity]. }
  unfold shouldSync, countsAsSynced.
  rewrite Hmemo, Hline, Hexec, Hexec'. cbn [groups negb orb].
  unfold cap_text. rewrite H1', H3. unfold cleanContentForHashing.
  destruct Hh as [Hne _]. destruct hash as [|x l]; [congruence|].
  cbn [isEmpty orb]. rewrite str_eqb_sym. split; reflexivity.
Qed.

Lemma auto_sync_agrees_with_counter_witness :
  shouldSync (getLine syncedDoc 0) (getContentBlock syncedDoc 0)
  = negb (countsAsSynced syncedDoc 0 (getContentBlock syncedDoc 0))
  /\ countsAsSynced syncedDoc 0 (getContentBlock syncedDoc 0)
     = str_eqb (js "w8fdv5")
         (simpleHash
            (cleanContentForHashing
               (cb_content (getContentBlock syncedDoc 0)))).
Proof.
  apply (@auto_sync_agrees_with_counter syncedDoc 0
           (js "[Jane](https://getdex.com/appv3/contacts/details/c1)")
           (js " hello") (js "c1") (js "new1") (js "w8fdv5")).
  - reflexivity.
  - reflexivity.
  - split; [discriminate|reflexivity].
  - split; [discriminate|reflexivity].
  - split; [discriminate|reflexivity].
Defined.



(** ** A round of auto-sync *)

(** What any run of [syncContactMemo] leaves behind: the lines other
    than the start line, the number of lines, and at most one remote
    call; a silent run adds nothing else. *)
Lemma sync_run_shape (context : PluginContext) (contact : ProcessedContact)
    (lineNumber : nat) (silent : bool) (w : World) :
  let out := syncContactMemo context contact lineNumber silent w in
  lineCount (w_editor (snd out)) = lineCount (w_editor w)
  /\ (forall n, n <> lineNumber ->
        getLine (w_editor (snd out)) n = getLine (w_editor w) n)
  /\ exists evs,
       w_events (snd out) = w_events w ++ evs
       /\ (silent = true ->
           forallb isRemoteCall evs = true /\ length evs <= 1).
Proof.
  intros out. subst out.
  assert (Hset : forall text,
            lineCount (setLine (w_editor w) lineNumber text)
            = lineCount (w_editor w)
            /\ forall n, n <> lineNumber ->
                 getLine (setLine (w_editor w) lineNumber text) n
                 = getLine (w_editor w) n).
  { intros text. split; [apply length_setLine|].
    intros n Hn. rewrite getLine_setLine.
    destruct (Nat.eqb_spec n lineNumber); [contradiction|reflexivity]. }
  run_sync.
  destruct (apiClient context) as [api|]; cbn [fst snd w_events w_editor].
  2:{ split; [reflexivity|]. split; [reflexivity|].
      exists []. rewrite app_nil_r. split; [reflexivity|].
      intros _. split; [reflexivity|cbn; lia]. }
  destruct (skipUnchanged (w_editor w) (getContentBlock (w_editor w) lineNumber));
    cbn [fst snd w_events w_editor].
  1:{ split; [reflexivity|]. split; [reflexivity|].
      exists []. rewrite app_nil_r. split; [reflexivity|].
      intros _. split; [reflexivity|cbn; lia]. }
  set (cb := getContentBlock (w_editor w) lineNumber).
  destruct (truthy (cb_memoId cb) &&
            negb (truthy (cb_memoId cb) &&
                  startsWith (cap_text (fun _ => cb_memoId cb) 0) (js "memo_")));
    [destruct (updateNote api _ _ _) as [err|res]
    |destruct (createNote api _ _) as [err|res]];
    cbn [fst snd w_events w_editor];
    try (split; [reflexivity|]; split; [reflexivity|];
         eexists; split; [reflexivity|];
         intros _; split; [reflexivity|cbn; lia]);
    (destruct (updateStartLine _ _ _ _ _) as [rejected|updatedLine];
     cbn [fst snd w_events w_editor];
     [split; [reflexivity|]; split; [reflexivity|];
      eexists; split; [reflexivity|];
      intros _; split; [reflexivity|cbn; lia]|]);
    destruct (str_eqb _ _), silent; cbn [fst snd w_events w_editor];
    try destruct (_ || _); cbn [fst snd w_events w_editor];
    (split; [first [reflexivity|apply Hset]|];
     split; [first [reflexivity|apply Hset]|];
     eexists; split;
     [first [reflexivity|rewrite <- app_assoc; reflexivity]|];
     intros Hs; first [discriminate|split; [reflexivity|cbn; lia]]).
Qed.

(** A block is read from its start line on. *)
Lemma getContentBlock_from (e1 e2 : Editor) (i : nat) :
  lineCount e1 = lineCount e2 ->
  (forall n, i <= n -> getLine e1 n = getLine e2 n) ->
  getContentBlock e1 i = getContentBlock e2 i.
Proof.
  intros Hlen Hfrom. unfold getContentBlock, detectContentBlock.
  rewrite Hlen, (Hfrom i (Nat.le_refl i)).
  rewrite (@walk_ext_from (getLine e1) (getLine e2) (lineCount e2) _ _ _
             (S i) i _) by (intros n Hn; apply Hfrom; lia).
  reflexivity.
Qed.

Lemma autoSync_loop_shape (context : PluginContext)
    (contacts : list ProcessedContact) (e0 : Editor) :
  forall fuel i s f w sc tc,
    lineCount (w_editor w) = lineCount e0 ->
    (forall n, i <= n -> getLine (w_editor w) n = getLine e0 n) ->
    exists s' f' evs w',
      autoSync_loop context contacts fuel i s f w = (inr (s', f'), w')
      /\ lineCount (w_editor w') = lineCount e0
      /\ w_events w' = w_events w ++ evs
      /\ forallb isRemoteCall evs = true
      /\ s + f <= s' + f'
      /\ length evs <= (s' + f') - (s + f)
      /\ (s' + f') - (s + f) <= snd (countMemos_loop e0 fuel i sc tc) - tc.
Proof.
  induction fuel as [|fuel IH]; intros i s f w sc tc Hlen Hfrom.
  - cbn [autoSync_loop]. exists s, f, [], w. unfold ret.
    rewrite app_nil_r. repeat split; try reflexivity; try assumption;
      cbn; lia.
  - cbn [autoSync_loop countMemos_loop]. unfold bind at 1, readEditor.
    rewrite Hlen.
    destruct (Nat.ltb_spec i (lineCount e0)) as [Hlt|Hge]; cbn [negb].
    2:{ exists s, f, [], w. unfold ret. rewrite app_nil_r.
        repeat split; try reflexivity; try assumption; cbn; lia. }
    cbn zeta. rewrite (Hfrom i (Nat.le_refl i)).
    destruct (test MEMO_ID_PATTERN (getLine e0 i)
              && (test HAS_DEX_URL_LINK (getLine e0 i)
                  || test HAS_VAULT_LINK (getLine e0 i))).
    2:{ destruct (IH (S i) s f w sc tc Hlen) as (s' & f' & evs & w' & H);
          [intros n Hn; apply Hfrom; lia|].
        exists s', f', evs, w'. exact H. }
    rewrite (@getContentBlock_from (w_editor w) e0 i Hlen Hfrom).
    set (cb := getContentBlock e0 i).
    pose proof (getContentBlock_endLine e0 i) as Hend. fold cb in Hend.
    set (sc' := if countsAsSynced e0 i cb then S sc else sc).
    pose proof (@countMemos_loop_bounds e0 fuel (S (cb_endLine cb)) sc'
                  (S tc)) as Hb.
    cbn zeta in Hb.
    (* the steps that attempt nothing *)
    assert (Hidle :
      exists s' f' evs w',
        (counters <- ret (s, f) ;;
         autoSync_loop context contacts fuel (S (cb_endLine cb))
           (fst counters) (snd counters)) w = (inr (s', f'), w')
        /\ lineCount (w_editor w') = lineCount e0
        /\ w_events w' = w_events w ++ evs
        /\ forallb isRemoteCall evs = true
        /\ s + f <= s' + f'
        /\ length evs <= (s' + f') - (s + f)
        /\ (s' + f') - (s + f)
           <= snd (countMemos_loop e0 fuel (S (cb_endLine cb)) sc' (S tc))
              - tc).
    { unfold bind, ret. cbn [fst snd].
      destruct (IH (S (cb_endLine cb)) s f w sc' (S tc) Hlen)
        as (s' & f' & evs & w' & H1 & H2 & H3 & H4 & H5 & H6 & H7);
        [intros n Hn; apply Hfrom; lia|].
      exists s', f', evs, w'. repeat split; try assumption. lia. }
    destruct (shouldSync (getLine e0 i) cb); [|exact Hidle].
    destruct (truthy _); [|exact Hidle].
    destruct (findContact contacts _) as [contact|]; [|exact Hidle].
    clear Hidle.
    pose proof (@sync_run_shape context contact i true w) as Hrun.
    cbn zeta in Hrun.
    destruct Hrun as (Hlen1 & Hlines1 & evs1 & Hev1 & Hsilent).
    destruct (Hsilent eq_refl) as [Hrc1 Hone]. clear Hsilent.
    unfold bind at 1. unfold bind at 1. unfold attempt. cbn [fst snd].
    set (out1 := syncContactMemo context contact i true w) in *.
    assert (Hlen' : lineCount (w_editor (snd out1)) = lineCount e0)
      by (rewrite Hlen1; exact Hlen).
    assert (Hfrom' : forall n, S (cb_endLine cb) <= n ->
                       getLine (w_editor (snd out1)) n = getLine e0 n).
    { intros n Hn. rewrite Hlines1 by lia. apply Hfrom. lia. }
    destruct (fst out1) as [err|memo]; unfold ret; cbn [fst snd].
    + destruct (IH (S (cb_endLine cb)) s (S f) (snd out1) sc' (S tc)
                  Hlen' Hfrom')
        as (s' & f' & evs & w' & H1 & H2 & H3 & H4 & H5 & H6 & H7).
      exists s', f', (evs1 ++ evs), w'.
      split; [exact H1|]. split; [exact H2|].
      split; [rewrite H3, Hev1, app_assoc; reflexivity|].
      split; [rewrite forallb_app, Hrc1, H4; reflexivity|].
      rewrite length_app. repeat split; lia.
    + destruct (IH (S (cb_endLine cb)) (S s) f (snd out1) sc' (S tc)
                  Hlen' Hfrom')
        as (s' & f' & evs & w' & H1 & H2 & H3 & H4 & H5 & H6 & H7).
      exists s', f', (evs1 ++ evs), w'.
      split; [exact H1|]. split; [exact H2|].
      split; [rewrite H3, Hev1, app_assoc; reflexivity|].
      split; [rewrite forallb_app, Hrc1, H4; reflexivity|].
      rewrite length_app. repeat split; lia.
Qed.

(** X14. A round of auto-sync never throws, whatever the remote does:
    a failed sync is counted and the round goes on.  It shows no notice,
    keeps the number of lines of the document, attempts at most one sync
    for each memo the status bar tracks and makes at most one remote
    call for each attempt; and when the status bar counts every tracked
    memo as synced it does nothing at all. *)
Theorem auto_sync_round :
  forall (context : PluginContext) (contacts : list ProcessedContact)
         (w : World),
    let out := performAutoSync context contacts w in
    exists syncedThisRound failedThisRound evs,
      fst out = inr (syncedThisRound, failedThisRound)
      /\ lineCount (w_editor (snd out)) = lineCount (w_editor w)
      /\ w_events (snd out) = w_events w ++ evs
      /\ forallb isRemoteCall evs = true
      /\ length evs <= syncedThisRound + failedThisRound
      /\ syncedThisRound + failedThisRound <= snd (countMemos (w_editor w))
      /\ (fst (countMemos (w_editor w)) = snd (countMemos (w_editor w)) ->
          snd out = w).
Proof.
  intros context contacts w out.
  assert (E : out
              = if Nat.eqb (snd (countMemos (w_editor w))
                            - fst (countMemos (w_editor w))) 0
                then (inr (0, 0), w)
                else autoSync_loop context contacts (lineCount (w_editor w))
                       0 0 0 w).
  { subst out. unfold performAutoSync, bind, readEditor, ret.
    destruct (Nat.eqb _ 0); [reflexivity|].
    destruct (autoSync_loop _ _ _ _ _ _ w) as [[e|r] w']; reflexivity. }
  rewrite E. clear E out.
  destruct (Nat.eqb_spec (snd (countMemos (w_editor w))
                          - fst (countMemos (w_editor w))) 0) as [Hz|Hnz].
  - exists 0, 0, []. cbn [fst snd]. rewrite app_nil_r.
    repeat split; try reflexivity; cbn [length]; lia.
  - destruct (@autoSync_loop_shape context contacts (w_editor w)
                (lineCount (w_editor w)) 0 0 0 w 0 0 eq_refl
                ltac:(intros; reflexivity))
      as (s' & f' & evs & w' & H1 & H2 & H3 & H4 & H5 & H6 & H7).
    rewrite H1. cbn [fst snd]. exists s', f', evs.
    split; [reflexivity|]. split; [exact H2|]. split; [exact H3|].
    split; [exact H4|]. split; [lia|]. split.
    + unfold countMemos. lia.
    + intros E. exfalso. lia.
Qed.

(* ================================================================== *)
(** * [src/utils/contact-selection-manager.ts] *)
(* ================================================================== *)

Inductive LinkMode : Type := DexUrlMode | VaultPageMode.

Inductive VaultPathMode : Type := VaultMode | PathMode.

(** The settings [onContactSelected] reads. *)
Record LinkSettings : Type := {
  linkMode : LinkMode;
  vaultPath : VaultPathMode;
  customPath : str;
  includeAtSymbol : bool;
  includeAtInLink : bool;
  stripLastName : bool
}.

(** The link and its comment, as [onContactSelected] builds them. *)
Definition selectedLinkText (settings : LinkSettings)
    (contact : ContactRecord) : str :=
  let displayName :=
    if stripLastName settings then c_firstName contact else c_name contact in
  match linkMode settings with
  | DexUrlMode =>
      let linkDisplayText :=
        if includeAtInLink settings then js "@" ++ displayName
        else displayName in
      js "[" ++ linkDisplayText ++ js "](" ++ c_dexUrl contact
      ++ js ")%%dex:contact-id=" ++ c_id contact ++ js "%%"
  | VaultPageMode =>
      let pageName :=
        if includeAtSymbol settings then js "@" ++ c_name contact
        else c_name contact in
      let fullPath :=
        match vaultPath settings with
        | VaultMode => pageName
        | PathMode => customPath settings ++ js "/" ++ pageName
        end in
      let linkDisplayText :=
        if includeAtInLink settings then js "@" ++ displayName
        else displayName in
      js "[[" ++ fullPath ++ js "|" ++ linkDisplayText
      ++ js "]]%%dex:contact-id=" ++ c_id contact ++ js "%%"
  end.

(** [Editor.replaceRange] within one line, for positions on the line. *)
Definition replaceRange (line text : str) (from to : nat) : str :=
  firstn from line ++ text ++ skipn to line.

(** [onContactSelected] on the active editor: the new document and the
    column the cursor is moved to. *)
Definition onContactSelected (settings : LinkSettings)
    (contact : ContactRecord) (cursorLine replaceFrom replaceTo : nat)
    (editor : Editor) : Editor * nat :=
  let linkWithSpace := selectedLinkText settings contact ++ js " " in
  (setLine editor cursorLine
     (replaceRange (getLine editor cursorLine) linkWithSpace replaceFrom
        replaceTo),
   replaceFrom + length linkWithSpace).


Lemma plain_app (u v : str) : plain (u ++ v) = plain u && plain v.
Proof. unfold plain. apply forallb_app. Qed.



Lemma replaceRange_typed (before typed after text : str) :
  replaceRange (before ++ typed ++ after) text (length before)
    (length before + length typed)
  = before ++ text ++ after.
Proof.
  unfold replaceRange. rewrite firstn_app, firstn_all, Nat.sub_diag.
  cbn [firstn]. rewrite app_nil_r.
  replace (skipn (length before + length typed) (before ++ typed ++ after))
    with after; [reflexivity|].
  rewrite <- length_app, (app_assoc before typed after), skipn_length_app.
  reflexivity.
Qed.



(** A note in which the name of the contact was just completed. *)
Definition meetingDoc : Editor :=
  [js "Met Ada today"; js "  about the engine"].


(* ================================================================== *)
(** * [src/core/contact-manager.ts] and the list it shares *)
(* ================================================================== *)

(** The arrays of contacts live in a store and are held by reference:
    [ContactManager.contacts], [ContactManager.contactCache] and the
    [contacts] field of the suggest modal may name the same array. *)
Definition Heap := list (list ContactRecord).

Definition deref (h : Heap) (r : nat) : list ContactRecord := nth r h [].

(** A new array: [[...a]], or the result of [map]. *)
Definition alloc (a : list ContactRecord) (h : Heap) : nat * Heap :=
  (length h, h ++ [a]).

Fixpoint store (h : Heap) (r : nat) (a : list ContactRecord) : Heap :=
  match h, r with
  | [], _ => []
  | _ :: h', O => a :: h'
  | x :: h', S r' => x :: store h' r' a
  end.

(** [Array.prototype.push] on the array a reference names. *)
Definition push (r : nat) (x : ContactRecord) (h : Heap) : Heap :=
  store h r (deref h r ++ [x]).

(** [Map.prototype.set] and [get] on a map with string keys, in
    insertion order. *)
Fixpoint map_set (k : str) (v : DexContact) (m : list (str * DexContact))
  : list (str * DexContact) :=
  match m with
  | [] => [(k, v)]
  | (k', v') :: m' =>
      if str_eqb k' k then (k, v) :: m' else (k', v') :: map_set k v m'
  end.

Fixpoint map_get (k : str) (m : list (str * DexContact)) : option DexContact :=
  match m with
  | [] => None
  | (k', v') :: m' => if str_eqb k' k then Some v' else map_get k m'
  end.

(** The fields of the contact manager, and the [contacts] field of the
    suggest modal it was given by [setContactSuggest]. *)
Record ManagerState : Type := {
  cm_arrays : Heap;
  cm_contacts : nat;
  cm_contactCache : nat;
  cm_fullContactCache : list (str * DexContact);
  cm_contactCacheTimestamp : Z;
  cm_lastBackgroundRefresh : Z;
  cm_contactSuggest : bool;
  suggest_contacts : nat
}.

(** The manager and the modal as [onload] of [main.ts] creates them:
    three empty arrays, the modal registered with the manager. *)
Definition freshManager : ManagerState :=
  {| cm_arrays := [[]; []; []];
     cm_contacts := 0; cm_contactCache := 1;
     cm_fullContactCache := [];
     cm_contactCacheTimestamp := 0; cm_lastBackgroundRefresh := 0;
     cm_contactSuggest := true; suggest_contacts := 2 |}.

Definition getContacts (st : ManagerState) : list ContactRecord :=
  deref (cm_arrays st) (cm_contacts st).

Definition getFullContact (contactId : str) (st : ManagerState)
  : option DexContact :=
  map_get contactId (cm_fullContactCache st).

(** [fullContactCache.clear()] followed by the loop of [set]. *)
Definition fullCacheOf (dexContacts : list DexContact)
  : list (str * DexContact) :=
  fold_left (fun m d => map_set (dc_id d) d m) dexContacts [].

(** [doLoadContacts] from the point where [fetchAllContacts] has
    resolved with [dexContacts]; [now] was read before the request. *)
Definition loadResolved (dexContacts : list DexContact) (now : Z)
    (st : ManagerState) : ManagerState :=
  let '(contacts, h1) := alloc (processContacts dexContacts) (cm_arrays st) in
  let '(contactCache, h2) := alloc (deref h1 contacts) h1 in
  {| cm_arrays := h2;
     cm_contacts := contacts;
     cm_contactCache := contactCache;
     cm_fullContactCache := fullCacheOf dexContacts;
     cm_contactCacheTimestamp := now;
     cm_lastBackgroundRefresh := cm_lastBackgroundRefresh st;
     cm_contactSuggest := cm_contactSuggest st;
     suggest_contacts :=
       if cm_contactSuggest st then contacts else suggest_contacts st |}.

(** [refreshContactsInBackground] from the point where
    [fetchAllContacts] has resolved with [dexContacts]; [now] is read
    after the request.  One array, [processedContacts], is assigned to
    both fields. *)
Definition refreshResolved (dexContacts : list DexContact) (now : Z)
    (st : ManagerState) : ManagerState :=
  let '(processedContacts, h1) :=
    alloc (processContacts dexContacts) (cm_arrays st) in
  {| cm_arrays := h1;
     cm_contacts := processedContacts;
     cm_contactCache := processedContacts;
     cm_fullContactCache := fullCacheOf dexContacts;
     cm_contactCacheTimestamp := now;
     cm_lastBackgroundRefresh := cm_lastBackgroundRefresh st;
     cm_contactSuggest := cm_contactSuggest st;
     suggest_contacts :=
       if cm_contactSuggest st then processedContacts
       else suggest_contacts st |}.

(** [addContactToCache]. *)
Definition addContactToCache (contact : ContactRecord)
    (fullContact : option DexContact) (st : ManagerState) : ManagerState :=
  let h1 := push (cm_contacts st) contact (cm_arrays st) in
  let h2 := push (cm_contactCache st) contact h1 in
  {| cm_arrays := h2;
     cm_contacts := cm_contacts st;
     cm_contactCache := cm_contactCache st;
     cm_fullContactCache :=
       match fullContact with
       | Some full => map_set (c_id contact) full (cm_fullContactCache st)
       | None => cm_fullContactCache st
       end;
     cm_contactCacheTimestamp := cm_contactCacheTimestamp st;
     cm_lastBackgroundRefresh := cm_lastBackgroundRefresh st;
     cm_contactSuggest := cm_contactSuggest st;
     suggest_contacts :=
       if cm_contactSuggest st then cm_contacts st
       else suggest_contacts st |}.

(** The callback [selectSuggestion] of [src/ui/contact-suggest.ts] hands
    to the creation modal, up to the selection of the new contact, with
    the [onContactCreated] callback [main.ts] installs: the modal pushes
    the contact onto its own list, adds it to the manager when the full
    record came along, and then notifies [main.ts], which adds it to the
    manager. *)
Definition contactCreated (processedContact : ContactRecord)
    (fullContact : option DexContact) (st : ManagerState) : ManagerState :=
  let st1 :=
    {| cm_arrays := push (suggest_contacts st) processedContact (cm_arrays st);
       cm_contacts := cm_contacts st;
       cm_contactCache := cm_contactCache st;
       cm_fullContactCache := cm_fullContactCache st;
       cm_contactCacheTimestamp := cm_contactCacheTimestamp st;
       cm_lastBackgroundRefresh := cm_lastBackgroundRefresh st;
       cm_contactSuggest := cm_contactSuggest st;
       suggest_contacts := suggest_contacts st |} in
  let st2 :=
    match fullContact with
    | Some full => addContactToCache processedContact (Some full) st1
    | None => st1
    end in
  addContactToCache processedContact None st2.

Lemma length_store (h : Heap) (r : nat) (a : list ContactRecord) :
  length (store h r a) = length h.
Proof.
  revert r. induction h as [|x h IH]; intros [|r]; cbn; try reflexivity.
  rewrite IH. reflexivity.
Qed.

Lemma deref_store (h : Heap) (r r' : nat) (a : list ContactRecord) :
  deref (store h r a) r'
  = if Nat.eqb r' r && Nat.ltb r (length h) then a else deref h r'.
Proof.
  unfold deref. revert r r'.
  induction h as [|x h IH]; intros [|r] [|r']; cbn [store nth length];
    try reflexivity.
  - destruct (Nat.eqb _ _); reflexivity.
  - rewrite IH. cbn [Nat.eqb]. 
    replace (Nat.ltb (S r) (S (length h))) with (Nat.ltb r (length h))
      by reflexivity.
    reflexivity.
Qed.

Lemma deref_push (h : Heap) (r r' : nat) (x : ContactRecord) :
  r < length h ->
  deref (push r x h) r'
  = if Nat.eqb r' r then deref h r ++ [x] else deref h r'.
Proof.
  intros Hr. unfold push. rewrite deref_store.
  apply Nat.ltb_lt in Hr. rewrite Hr, andb_true_r. reflexivity.
Qed.

Lemma length_push (h : Heap) (r : nat) (x : ContactRecord) :
  length (push r x h) = length h.
Proof. apply length_store. Qed.

Lemma deref_alloc (h : Heap) (a : list ContactRecord) (r : nat) :
  deref (h ++ [a]) r
  = if Nat.eqb r (length h) then a else deref h r.
Proof.
  unfold deref. destruct (Nat.eqb r (length h)) eqn:E.
  - apply Nat.eqb_eq in E. subst r. rewrite app_nth2, Nat.sub_diag by lia.
    reflexivity.
  - apply Nat.eqb_neq in E. destruct (Nat.lt_ge_cases r (length h)).
    + apply app_nth1. exact H.
    + rewrite !nth_overflow; [reflexivity|lia|rewrite length_app; cbn; lia].
Qed.

Lemma map_get_set (k : str) (v : DexContact) (m : list (str * DexContact)) :
  map_get k (map_set k v m) = Some v.
Proof.
  induction m as [|[k' v'] m IH]; cbn [map_set map_get].
  - rewrite str_eqb_refl. reflexivity.
  - destruct (str_eqb k' k) eqn:E; cbn [map_get].
    + rewrite str_eqb_refl. reflexivity.
    + rewrite E. exact IH.
Qed.

(** X16. A contact created from the suggestion list is listed more than
    once.  The modal pushes it onto its own list, which is the array
    [getContacts] returns, and [addContactToCache] then pushes it onto
    [contacts] and onto [contactCache], once for the full record and
    once for the notification.  After a load from the remote the two
    fields name different arrays and the contact is listed three times
    (twice when no full record came along); after a background refresh
    they name the same array and it is listed five times (three). *)
Theorem created_contact_is_listed_repeatedly :
  forall (dexContacts : list DexContact) (now : Z) (st : ManagerState)
         (contact : ContactRecord) (fullContact : option DexContact),
    cm_contactSuggest st = true ->
    let adds := match fullContact with Some _ => 2 | None => 1 end in
    let loaded :=
      contactCreated contact fullContact (loadResolved dexContacts now st) in
    let refreshed :=
      contactCreated contact fullContact
        (refreshResolved dexContacts now st) in
    getContacts loaded
    = processContacts dexContacts ++ repeat contact (1 + adds)
    /\ deref (cm_arrays loaded) (cm_contactCache loaded)
       = processContacts dexContacts ++ repeat contact adds
    /\ getContacts refreshed
       = processContacts dexContacts ++ repeat contact (1 + adds + adds)
    /\ deref (cm_arrays loaded) (suggest_contacts loaded)
       = getContacts loaded
    /\ deref (cm_arrays refreshed) (suggest_contacts refreshed)
       = getContacts refreshed
    /\ (forall full, fullContact = Some full ->
          getFullContact (c_id contact) loaded = Some full
          /\ getFullContact (c_id contact) refreshed = Some full).
Proof.
  intros dexContacts now st contact fullContact Hs adds loaded refreshed.
  set (P := processContacts dexContacts).
  set (h := cm_arrays st).
  assert (Hneq : Nat.eqb (length h) (S (length h)) = false)
    by (apply Nat.eqb_neq; lia).
  assert (Hneq' : Nat.eqb (S (length h)) (length h) = false)
    by (apply Nat.eqb_neq; lia).
  assert (Happ : forall a b : list ContactRecord,
             length (h ++ [a]) = S (length h)).
  { intros a _. rewrite length_app. cbn. lia. }
  subst loaded refreshed adds.
  unfold contactCreated, addContactToCache, loadResolved, refreshResolved,
    getContacts, getFullContact, alloc.
  fold h. fold P. rewrite Hs.
  destruct fullContact as [full|];
    cbn [cm_arrays cm_contacts cm_contactCache cm_fullContactCache
         cm_contactSuggest suggest_contacts];
    rewrite ?(Happ P P);
    repeat (rewrite deref_push
              by (rewrite ?length_push, ?length_app; cbn [length]; lia));
    rewrite ?Nat.eqb_refl, ?Hneq, ?Hneq';
    repeat (rewrite deref_push
              by (rewrite ?length_push, ?length_app; cbn [length]; lia));
    rewrite ?Nat.eqb_refl, ?Hneq, ?Hneq';
    rewrite ?deref_alloc, ?(Happ P P), ?Nat.eqb_refl, ?Hneq, ?Hneq';
    rewrite ?deref_alloc, ?Nat.eqb_refl;
    cbn [repeat Nat.add]; rewrite <- ?app_assoc; cbn [app];
    repeat (split; [reflexivity|]);
    intros full' Hfull; [|discriminate].
  injection Hfull as <-. split; apply map_get_set.
Qed.

Definition grace : DexContact :=
  {| dc_id := js "g7"; dc_first_name := Some (js "Grace");
     dc_last_name := Some (js "Hopper"); dc_job_title := None;
     dc_company := Some (js "Navy"); dc_image_url := None |}.

Lemma created_contact_is_listed_repeatedly_witness :
  getContacts
    (contactCreated (processContact grace) (Some grace)
       (loadResolved [ada] 5 freshManager))
  = [processContact ada; processContact grace; processContact grace;
     processContact grace]
  /\ getContacts
       (contactCreated (processContact grace) (Some grace)
          (refreshResolved [ada] 5 freshManager))
     = [processContact ada; processContact grace; processContact grace;
        processContact grace; processContact grace; processContact grace].
Proof.
  destruct (@created_contact_is_listed_repeatedly [ada] 5 freshManager
              (processContact grace) (Some grace) eq_refl)
    as (Hloaded & _ & Hrefreshed & _).
  split; [exact Hloaded|exact Hrefreshed].
Defined.

(* ================================================================== *)
(** * [createSyncButtonDecorations] of the CodeMirror extension *)
(* ================================================================== *)

(** [DEX_URL_PATTERN] of [src/constants.ts], flag g, its tokens spaced
    out; the second group is the whole URL:
    "\[ ( [^\]]* ) \] \( ( https:\/\/getdex\.com\/appv3\/contacts\/details\/ [^)]+ ) \)" *)
Definition DEX_URL_PATTERN : regex :=
  Lit (js "[") ## Grp 1 (Star (Chr (none_of (js "]"))))
  ## Lit (js "](")
  ## Grp 2 (Lit (js "https://getdex.com/appv3/contacts/details/")
            ## Plus (Chr (none_of (js ")"))))
  ## Lit (js ")").

(** "/\[\[([^\]|]+)(?:\|([^\]]+))?\]\]/g" of [src/constants.ts]. *)
Definition VAULT_LINK_PATTERN : regex :=
  Lit (js "[[") ## Grp 1 (Plus (Chr (none_of (js "]|"))))
  ## Opt (Lit (js "|") ## Grp 2 (Plus (Chr (none_of (js "]")))))
  ## Lit (js "]]").

(** The class "\w". *)
Definition is_word (c : char) : bool :=
  (is_digit c || ((97 <=? c) && (c <=? 122)) || ((65 <=? c) && (c <=? 90))
   || (c =? 95))%N.

(** [s.replace(/^@/, '')]: an at sign at index 0 is dropped. *)
Definition dropLeadingAt (s : str) : str :=
  match s with
  | 64%N :: s' => s'
  | _ => s
  end.

Inductive ButtonState : Type := Idle | Syncing | SyncedState | ErrorState.

Record ContactMentionInfo : Type := {
  mi_line : nat;
  mi_contacts : list ContactRecord;
  mi_syncState : ButtonState;
  mi_hasExistingMemo : bool;
  mi_syncStatus : SyncStatus;
  mi_contentHash : str
}.

(** A widget decoration: its position in the document and what the
    widget was built from. *)
Record WidgetRange : Type := {
  d_pos : nat;
  d_widget : ContactMentionInfo
}.

(** [doc.line(n).to] for a line the document has: the offset of the end
    of line [n], lines counted from 1, a line break counting for one. *)
Definition lineTo (doc : list str) (n : nat) : nat :=
  length (join newline (firstn n doc)).

(** The contact built from the first link of the line. *)
Definition linkedContact (contactIdFromComment lineText : str)
  : list ContactRecord :=
  let fromName (fullName dexUrl : str) : list ContactRecord :=
    if test (Chr is_word) fullName then
      let nameParts := split (js " ") fullName in
      [{| c_id := contactIdFromComment;
          c_name := fullName;
          c_firstName := hd [] nameParts;
          c_lastName := join (js " ") (tl nameParts);
          c_company := Some [];
          c_imageUrl := None;
          c_dexUrl := dexUrl |}]
    else [] in
  let contacts :=
    match exec DEX_URL_PATTERN lineText with
    | Some m =>
        fromName (dropLeadingAt (cap_text (groups m) 1))
          (cap_text (groups m) 2)
    | None => []
    end in
  let contacts :=
    match contacts with
    | [] =>
        match exec VAULT_LINK_PATTERN lineText with
        | Some m =>
            let displayText :=
              if truthy (groups m 2) then cap_text (groups m) 2
              else cap_text (groups m) 1 in
            fromName (dropLeadingAt displayText)
              (js "https://getdex.com/appv3/contacts/details/"
               ++ contactIdFromComment)
        | None => []
        end
    | _ :: _ => contacts
    end in
  filter (fun contact =>
            negb (isEmpty (c_id contact))
            && negb (isEmpty (trim (c_id contact)))
            && negb (isEmpty (c_dexUrl contact)))
    contacts.

(** The contact id of the first comment of the line, trimmed, or
    [null]. *)
Definition contactIdFromComment (lineText : str) : option str :=
  match exec MEMO_ID_PATTERN lineText with
  | Some m =>
      if truthy (groups m 1) then Some (trim (cap_text (groups m) 1))
      else None
  | None => None
  end.

(** The lines [lineNum] to [endLine], added to [processedLines]. *)
Definition markProcessed (lineNum endLine : nat) (processedLines : list nat)
  : list nat :=
  processedLines ++ seq lineNum (S endLine - lineNum).

Definition has (n : nat) (l : list nat) : bool := existsb (Nat.eqb n) l.

(** The loop over the lines; [fuel] is the number of lines still to
    visit. *)
Fixpoint decorations_loop (doc : list str) (syncStates : nat -> option ButtonState)
    (cursorLine : nat) (fuel lineNum : nat)
    (processedLines decorationPositions : list nat)
    (decorations : list WidgetRange) : list WidgetRange :=
  match fuel with
  | O => decorations
  | S fuel' =>
      let next := decorations_loop doc syncStates cursorLine fuel' (S lineNum) in
      if has lineNum processedLines
      then next processedLines decorationPositions decorations
      else
        let lineText := nth (lineNum - 1) doc [] in
        if negb (truthy (contactIdFromComment lineText))
        then next processedLines decorationPositions decorations
        else
          let validContacts :=
            linkedContact
              (cap_text (fun _ => contactIdFromComment lineText) 0)
              lineText in
          if Nat.ltb 0 (length validContacts) then
            let contentBlock := findContentBlockEnd doc lineNum in
            let syncState :=
              match syncStates lineNum with
              | Some state => state
              | None => Idle
              end in
            let cursorInContentBlock :=
              Nat.leb lineNum cursorLine
              && Nat.leb cursorLine (be_endLine contentBlock) in
            let processedLines' :=
              markProcessed lineNum (be_endLine contentBlock) processedLines in
            if cursorInContentBlock
            then next processedLines' decorationPositions decorations
            else
              let mentionInfo :=
                {| mi_line := lineNum;
                   mi_contacts := validContacts;
                   mi_syncState := syncState;
                   mi_hasExistingMemo := be_hasExistingMemo contentBlock;
                   mi_syncStatus := be_syncStatus contentBlock;
                   mi_contentHash := be_contentHash contentBlock |} in
              let decorationPos := lineTo doc (be_endLine contentBlock) in
              if negb (has decorationPos decorationPositions)
              then next processedLines' (decorationPositions ++ [decorationPos])
                     (decorations
                      ++ [{| d_pos := decorationPos; d_widget := mentionInfo |}])
              else next processedLines' decorationPositions decorations
          else next processedLines decorationPositions decorations
  end.

Definition createSyncButtonDecorations (doc : list str)
    (syncStates : nat -> option ButtonState) (cursorLine : nat)
  : list WidgetRange :=
  decorations_loop doc syncStates cursorLine (length doc) 1 [] [] [].

(** The last line, counted from 1, of the block a widget stands for. *)
Definition blockEndOf (doc : list str) (d : WidgetRange) : nat :=
  be_endLine (findContentBlockEnd doc (mi_line (d_widget d))).

(** What holds of every widget range the loop adds. *)
Definition widget_ok (doc : list str) (cursorLine : nat) (d : WidgetRange)
  : Prop :=
  let info := d_widget d in
  let contentBlock := findContentBlockEnd doc (mi_line info) in
  1 <= mi_line info
  /\ mi_line info <= be_endLine contentBlock
  /\ be_endLine contentBlock <= length doc
  /\ d_pos d = lineTo doc (be_endLine contentBlock)
  /\ ~ (mi_line info <= cursorLine <= be_endLine contentBlock)
  /\ mi_contacts info <> []
  /\ mi_syncStatus info = be_syncStatus contentBlock
  /\ mi_hasExistingMemo info = be_hasExistingMemo contentBlock.

Lemma findContentBlockEnd_bounds (doc : list str) (n : nat) :
  1 <= n <= length doc ->
  n <= be_endLine (findContentBlockEnd doc n)
  /\ be_endLine (findContentBlockEnd doc n) <= length doc.
Proof.
  intros Hn. unfold findContentBlockEnd. cbn [be_endLine].
  pose proof (detect_endLine_bounds
                (fun lineNum => nth (lineNum + 1 - 1) doc [])
                (length doc) (n - 1)) as [H1 H2].
  lia.
Qed.

Lemma lineTo_step (doc : list str) :
  forall a, 1 <= a < length doc ->
    lineTo doc (S a) = lineTo doc a + 1 + length (nth a doc []).
Proof.
  unfold lineTo. induction doc as [|x doc IH]; intros a Ha; [cbn in Ha; lia|].
  destruct a as [|a]; [lia|]. cbn [length] in Ha.
  destruct doc as [|y doc]; [cbn in Ha; lia|].
  destruct a as [|a].
  - cbn [firstn join nth]. rewrite !length_app. cbn [length newline]. lia.
  - specialize (IH (S a) ltac:(cbn [length] in *; lia)).
    change (firstn (S (S (S a))) (x :: y :: doc))
      with (x :: firstn (S (S a)) (y :: doc)).
    change (firstn (S (S a)) (x :: y :: doc))
      with (x :: firstn (S a) (y :: doc)).
    change (nth (S (S a)) (x :: y :: doc) []) with (nth (S a) (y :: doc) []).
    assert (Hj : forall l : list str, l <> [] ->
              length (join newline (x :: l))
              = length x + 1 + length (join newline l)).
    { intros [|z l] Hl; [congruence|]. cbn [join].
      rewrite !length_app. cbn [length newline]. lia. }
    rewrite !Hj by (cbn [firstn]; discriminate).
    rewrite IH. lia.
Qed.

Lemma lineTo_lt (doc : list str) :
  forall a b, 1 <= a -> a < b -> b <= length doc ->
    lineTo doc a < lineTo doc b.
Proof.
  intros a b Ha Hab. induction Hab as [|b Hab IH]; intros Hb.
  - rewrite lineTo_step by lia. lia.
  - specialize (IH ltac:(lia)). rewrite (@lineTo_step doc b) by lia. lia.
Qed.

Lemma has_true (n : nat) (l : list nat) : has n l = true <-> In n l.
Proof.
  unfold has. rewrite existsb_exists. split.
  - intros (x & Hx & E). apply Nat.eqb_eq in E. subst. exact Hx.
  - intros H. exists n. split; [exact H|apply Nat.eqb_refl].
Qed.

(** Whether the loop, on reaching line [lineNum] unprocessed, takes it
    as the start of a block: the first comment of the line holds a
    contact id and the first link gives a contact. *)
Definition opensBlock (doc : list str) (lineNum : nat) : bool :=
  let lineText := nth (lineNum - 1) doc [] in
  truthy (contactIdFromComment lineText)
  && Nat.ltb 0
       (length
          (linkedContact (cap_text (fun _ => contactIdFromComment lineText) 0)
             lineText)).

(** Line [i] lies in the block of a button, or in a block that holds
    the cursor line. *)
Definition covered (doc : list str) (cursorLine : nat)
    (decorations : list WidgetRange) (i : nat) : Prop :=
  (exists d, In d decorations
             /\ mi_line (d_widget d) <= i <= blockEndOf doc d)
  \/ (exists start,
        1 <= start <= i
        /\ opensBlock doc start = true
        /\ i <= be_endLine (findContentBlockEnd doc start)
        /\ start <= cursorLine <= be_endLine (findContentBlockEnd doc start)).

(** The invariant of the loop, on entering the round of [lineNum]. *)
Definition loop_inv (doc : list str) (cursorLine lineNum : nat)
    (processedLines decorationPositions : list nat)
    (decorations : list WidgetRange) : Prop :=
  Forall (fun d =>
            widget_ok doc cursorLine d
            /\ mi_line (d_widget d) < lineNum
            /\ forall i, mi_line (d_widget d) <= i <= blockEndOf doc d ->
                 In i processedLines) decorations
  /\ StronglySorted
       (fun a b => blockEndOf doc a < mi_line (d_widget b)) decorations
  /\ (forall p, In p decorationPositions ->
        exists d, In d decorations /\ d_pos d = p)
  /\ (forall i, 1 <= i < lineNum -> opensBlock doc i = true ->
        In i processedLines)
  /\ (forall i, In i processedLines -> covered doc cursorLine decorations i).

Lemma StronglySorted_snoc {A} (R : A -> A -> Prop) (l : list A) (x : A) :
  StronglySorted R l -> Forall (fun a => R a x) l ->
  StronglySorted R (l ++ [x]).
Proof.
  induction 1 as [|a l Hs IH Ha]; intros Hx; cbn [app].
  - constructor; constructor.
  - inversion Hx; subst. constructor.
    + apply IH. assumption.
    + apply Forall_app. split; [exact Ha|]. constructor; [assumption|constructor].
Qed.

Lemma covered_mono (doc : list str) (cursorLine : nat)
    (decorations more : list WidgetRange) (i : nat) :
  covered doc cursorLine decorations i ->
  covered doc cursorLine (decorations ++ more) i.
Proof.
  intros [(d & Hd & Hi)|H]; [left|right; exact H].
  exists d. split; [apply in_or_app; left; exact Hd|exact Hi].
Qed.

Lemma loop_inv_next (doc : list str) (cursorLine lineNum : nat)
    (processedLines extra decorationPositions : list nat)
    (decorations : list WidgetRange) :
  loop_inv doc cursorLine lineNum processedLines decorationPositions
    decorations ->
  (opensBlock doc lineNum = true -> In lineNum (processedLines ++ extra)) ->
  (forall i, In i extra -> covered doc cursorLine decorations i) ->
  loop_inv doc cursorLine (S lineNum) (processedLines ++ extra)
    decorationPositions decorations.
Proof.
  intros (Hall & Hsorted & Hpos & Hseen & Hcov) Hthis Hextra.
  split; [|split; [exact Hsorted|split; [exact Hpos|split]]].
  - eapply Forall_impl; [|exact Hall]. cbn beta.
    intros d (Hok & Hlt & Hin). split; [exact Hok|]. split; [lia|].
    intros i Hi. apply in_or_app. left. apply Hin, Hi.
  - intros i Hi Hopens. destruct (Nat.eq_dec i lineNum) as [->|Hne].
    + apply Hthis, Hopens.
    + apply in_or_app. left. apply Hseen; [lia|exact Hopens].
  - intros i Hi. apply in_app_or in Hi. destruct Hi as [Hi|Hi].
    + apply Hcov, Hi.
    + apply Hextra, Hi.
Qed.

Lemma decorations_loop_inv (doc : list str)
    (syncStates : nat -> option ButtonState) (cursorLine : nat) :
  forall fuel lineNum processedLines decorationPositions decorations,
    1 <= lineNum -> lineNum + fuel = S (length doc) ->
    loop_inv doc cursorLine lineNum processedLines decorationPositions
      decorations ->
    exists processedLines' decorationPositions',
      loop_inv doc cursorLine (S (length doc)) processedLines'
        decorationPositions'
        (decorations_loop doc syncStates cursorLine fuel lineNum
           processedLines decorationPositions decorations).
Proof.
  induction fuel as [|fuel IH];
    intros lineNum processedLines decorationPositions decorations Hone Hfuel
      Hinv.
  - cbn [decorations_loop]. exists processedLines, decorationPositions.
    replace (S (length doc)) with lineNum by lia. exact Hinv.
  - cbn [decorations_loop].
    assert (Hstep : forall extra,
              (opensBlock doc lineNum = true ->
               In lineNum (processedLines ++ extra)) ->
              (forall i, In i extra -> covered doc cursorLine decorations i) ->
              exists processedLines' decorationPositions',
                loop_inv doc cursorLine (S (length doc)) processedLines'
                  decorationPositions'
                  (decorations_loop doc syncStates cursorLine fuel
                     (S lineNum) (processedLines ++ extra)
                     decorationPositions decorations)).
    { intros extra Hthis Hextra. apply IH; [lia|lia|].
      apply loop_inv_next; assumption. }
    assert (Hskip : (opensBlock doc lineNum = true -> In lineNum processedLines) ->
              exists processedLines' decorationPositions',
                loop_inv doc cursorLine (S (length doc)) processedLines'
                  decorationPositions'
                  (decorations_loop doc syncStates cursorLine fuel
                     (S lineNum) processedLines
                     decorationPositions decorations)).
    { intros Hthis. specialize (Hstep []). rewrite app_nil_r in Hstep.
      apply Hstep; [exact Hthis|intros i []]. }
    unfold opensBlock in Hstep, Hskip.
    destruct (has lineNum processedLines) eqn:Hproc.
    { apply Hskip. intros _. apply has_true, Hproc. }
    destruct (truthy (contactIdFromComment (nth (lineNum - 1) doc [])))
      eqn:Hid; cbn [negb].
    2: { apply Hskip. cbn [andb]. discriminate. }
    destruct (Nat.ltb 0 (length _)) eqn:Hvalid.
    2: { apply Hskip. cbn [andb]. discriminate. }
    assert (Hopens : opensBlock doc lineNum = true).
    { unfold opensBlock. rewrite Hid, Hvalid. reflexivity. }
    clear Hskip.
    set (validContacts := linkedContact _ _) in *.
    set (contentBlock := findContentBlockEnd doc lineNum) in *.
    destruct (findContentBlockEnd_bounds doc (n := lineNum) ltac:(lia))
      as [Hlo Hhi].
    fold contentBlock in Hlo, Hhi.
    assert (Hmarked : In lineNum
                        (markProcessed lineNum (be_endLine contentBlock)
                           processedLines)).
    { unfold markProcessed. apply in_or_app. right. apply in_seq. lia. }
    destruct (Nat.leb lineNum cursorLine
              && Nat.leb cursorLine (be_endLine contentBlock)) eqn:Hcursor.
    { apply Hstep; [intros _; exact Hmarked|].
      intros i Hi. apply in_seq in Hi. right. exists lineNum.
      apply andb_true_iff in Hcursor. destruct Hcursor as [H1 H2].
      apply Nat.leb_le in H1, H2. fold contentBlock.
      repeat split; try lia. exact Hopens. }
    clear Hstep.
    destruct Hinv as (Hall & Hsorted & Hpos & Hseen & Hcov).
    (* every earlier block ends before this line *)
    assert (Hbefore : Forall (fun a => blockEndOf doc a < lineNum) decorations).
    { eapply Forall_impl; [|exact Hall]. cbn beta.
      intros d (Hok & Hlt & Hin).
      destruct (Nat.lt_ge_cases (blockEndOf doc d) lineNum) as [H|H];
        [exact H|].
      exfalso. specialize (Hin lineNum ltac:(lia)).
      apply has_true in Hin. congruence. }
    set (mentionInfo := Build_ContactMentionInfo _ _ _ _ _ _).
    set (decorationPos := lineTo doc (be_endLine contentBlock)).
    set (new := {| d_pos := decorationPos; d_widget := mentionInfo |}).
    assert (Hnew : widget_ok doc cursorLine new).
    { unfold widget_ok. cbn [d_widget d_pos new mentionInfo mi_line
        mi_contacts mi_syncStatus mi_hasExistingMemo].
      fold contentBlock. repeat split; try lia; try reflexivity.
      - intros [H1 H2]. apply Nat.leb_le in H1, H2.
        rewrite H1, H2 in Hcursor. discriminate.
      - intros E. rewrite E in Hvalid. discriminate. }
    assert (Hfresh : has decorationPos decorationPositions = false).
    { destruct (has decorationPos decorationPositions) eqn:E;
        [|reflexivity].
      exfalso. apply has_true in E. destruct (Hpos _ E) as (d & Hd & Hp).
      rewrite Forall_forall in Hall, Hbefore.
      destruct (Hall d Hd) as (Hok & _ & _). specialize (Hbefore d Hd).
      destruct Hok as (H1 & H2 & H3 & H4 & _).
      unfold blockEndOf in Hbefore.
      pose proof (@lineTo_lt doc
                    (be_endLine (findContentBlockEnd doc (mi_line (d_widget d))))
                    (be_endLine contentBlock) ltac:(lia) ltac:(lia) Hhi).
      unfold decorationPos in Hp. lia. }
    rewrite Hfresh. cbn [negb].
    apply IH; [lia|lia|]. split; [|split; [|split; [|split]]].
    + apply Forall_app. split.
      * eapply Forall_impl; [|exact Hall]. cbn beta.
        intros d (Hok & Hlt & Hin). split; [exact Hok|]. split; [lia|].
        intros i Hi. apply in_or_app. left. apply Hin, Hi.
      * constructor; [|constructor]. split; [exact Hnew|].
        split; [cbn; lia|].
        intros i Hi. apply in_or_app. right. unfold markProcessed.
        apply in_seq. unfold blockEndOf in Hi.
        cbn [d_widget new mentionInfo mi_line] in Hi.
        fold contentBlock in Hi. lia.
    + apply StronglySorted_snoc; [exact Hsorted|].
      eapply Forall_impl; [|exact Hbefore]. cbn beta. intros d Hd.
      cbn [d_widget new mentionInfo mi_line]. exact Hd.
    + intros p Hp. apply in_app_or in Hp. destruct Hp as [Hp|[<-|[]]].
      * destruct (Hpos p Hp) as (d & Hd & E). exists d.
        split; [apply in_or_app; left; exact Hd|exact E].
      * exists new. split; [apply in_or_app; right; left; reflexivity|].
        reflexivity.
    + intros i Hi Hopen. destruct (Nat.eq_dec i lineNum) as [->|Hne].
      * exact Hmarked.
      * unfold markProcessed. apply in_or_app. left.
        apply Hseen; [lia|exact Hopen].
    + intros i Hi. unfold markProcessed in Hi. apply in_app_or in Hi.
      destruct Hi as [Hi|Hi].
      * apply covered_mono, Hcov, Hi.
      * apply in_seq in Hi. left. exists new.
        split; [apply in_or_app; right; left; reflexivity|].
        unfold blockEndOf. cbn [d_widget new mentionInfo mi_line].
        fold contentBlock. lia.
Qed.

(** X17. The sync buttons come in document order and one per block.
    The widget ranges [createSyncButtonDecorations] hands to
    [Decoration.set] are strictly increasing in position, so no position
    is decorated twice and the check for duplicates never drops a
    button.  Each stands at the end of the last line of the block its
    start line opens, a line of the document; the blocks do not overlap;
    none holds the cursor line; and each carries the sync status the
    classifier gives its block. *)
Theorem sync_buttons_in_document_order :
  forall (doc : list str) (syncStates : nat -> option ButtonState)
         (cursorLine : nat),
    let decorations := createSyncButtonDecorations doc syncStates cursorLine in
    StronglySorted (fun a b => d_pos a < d_pos b) decorations
    /\ StronglySorted
         (fun a b =>
            be_endLine (findContentBlockEnd doc (mi_line (d_widget a)))
            < mi_line (d_widget b)) decorations
    /\ Forall (fun d =>
                 let info := d_widget d in
                 let contentBlock := findContentBlockEnd doc (mi_line info) in
                 1 <= mi_line info
                 /\ mi_line info <= be_endLine contentBlock
                 /\ be_endLine contentBlock <= length doc
                 /\ d_pos d = lineTo doc (be_endLine contentBlock)
                 /\ ~ (mi_line info <= cursorLine <= be_endLine contentBlock)
                 /\ mi_contacts info <> []
                 /\ mi_syncStatus info = be_syncStatus contentBlock
                 /\ mi_hasExistingMemo info = be_hasExistingMemo contentBlock)
         decorations.
Proof.
  intros doc syncStates cursorLine decorations.
  destruct (@decorations_loop_inv doc syncStates cursorLine (length doc) 1
              [] [] [] (Nat.le_refl 1) eq_refl) as (pl & dp & Hinv).
  { split; [constructor|]. split; [constructor|]. split; [intros p []|].
    split; [intros i Hi; lia|intros i []]. }
  fold (createSyncButtonDecorations doc syncStates cursorLine) in Hinv.
  fold decorations in Hinv. destruct Hinv as (Hall & Hsorted & _).
  assert (Hok : Forall (widget_ok doc cursorLine) decorations).
  { eapply Forall_impl; [|exact Hall]. cbn beta. intros d H. apply H. }
  split; [|split; [exact Hsorted|exact Hok]].
  clear Hall. induction Hsorted as [|a l Hs IH Ha]; [constructor|].
  inversion Hok; subst. constructor; [apply IH; assumption|].
  rewrite Forall_forall in *. intros b Hb.
  specialize (Ha b Hb). unfold blockEndOf in Ha.
  destruct (H1) as (A1 & A2 & A3 & A4 & _).
  destruct (H2 b Hb) as (B1 & B2 & B3 & B4 & _).
  rewrite A4, B4. apply lineTo_lt; lia.
Qed.

(** X18. No block is left without a button by accident.  Every line of
    the document whose first comment holds a contact id and whose first
    link gives a contact lies in the block of a button, or in a block
    that holds the cursor line, where the button is held back. *)
Theorem every_block_start_is_covered :
  forall (doc : list str) (syncStates : nat -> option ButtonState)
         (cursorLine lineNum : nat),
    1 <= lineNum <= length doc ->
    opensBlock doc lineNum = true ->
    let decorations := createSyncButtonDecorations doc syncStates cursorLine in
    (exists d,
       In d decorations
       /\ mi_line (d_widget d) <= lineNum
          <= be_endLine (findContentBlockEnd doc (mi_line (d_widget d))))
    \/ (exists start,
          1 <= start <= lineNum
          /\ opensBlock doc start = true
          /\ lineNum <= be_endLine (findContentBlockEnd doc start)
          /\ start <= cursorLine
             <= be_endLine (findContentBlockEnd doc start)).
Proof.
  intros doc syncStates cursorLine lineNum Hn Hopens decorations.
  destruct (@decorations_loop_inv doc syncStates cursorLine (length doc) 1
              [] [] [] (Nat.le_refl 1) eq_refl) as (pl & dp & Hinv).
  { split; [constructor|]. split; [constructor|]. split; [intros p []|].
    split; [intros i Hi; lia|intros i []]. }
  fold (createSyncButtonDecorations doc syncStates cursorLine) in Hinv.
  fold decorations in Hinv. destruct Hinv as (_ & _ & _ & Hseen & Hcov).
  apply (Hcov lineNum). apply Hseen; [lia|exact Hopens].
Qed.

Lemma every_block_start_is_covered_witness :
  (exists d,
     In d (createSyncButtonDecorations freshDoc (fun _ => None) 9)
     /\ mi_line (d_widget d) <= 1
        <= be_endLine (findContentBlockEnd freshDoc (mi_line (d_widget d))))
  \/ (exists start,
        1 <= start <= 1
        /\ opensBlock freshDoc start = true
        /\ 1 <= be_endLine (findContentBlockEnd freshDoc start)
        /\ start <= 9 <= be_endLine (findContentBlockEnd freshDoc start)).
Proof.
  apply (@every_block_start_is_covered freshDoc (fun _ => None) 9 1).
  - cbn. lia.
  - vm_compute. reflexivity.
Defined.

(* ================================================================== *)
(** * [ContentProcessor.findContactsInLine] and the sync commands *)
(* ================================================================== *)

Definition one_of (l : list char) : char -> bool :=
  fun x => existsb (N.eqb x) l.

(** The first pattern of [findContactsInLine], flag g, its tokens spaced
    out; the link text must hold an at sign:
    "\[ ( [^\]]* @ [^\]]* ) \] \( https:\/\/getdex\.com\/appv3\/contacts\/details\/ ( [^)]+ ) \)" *)
Definition FIND_DEX_URL_LINK : regex :=
  Lit (js "[")
  ## Grp 1 (Star (Chr (none_of (js "]"))) ## Lit (js "@")
            ## Star (Chr (none_of (js "]"))))
  ## Lit (js "](https://getdex.com/appv3/contacts/details/")
  ## Grp 2 (Plus (Chr (none_of (js ")")))) ## Lit (js ")").

(** The second pattern, flag g, its tokens spaced out:
    "\[\[ ( [^\]|]* @ [^\]|]* ) [|\]] ( [^\]]* ) \]\]" *)
Definition FIND_VAULT_LINK : regex :=
  Lit (js "[[")
  ## Grp 1 (Star (Chr (none_of (js "]|"))) ## Lit (js "@")
            ## Star (Chr (none_of (js "]|"))))
  ## Chr (one_of (js "|]"))
  ## Grp 2 (Star (Chr (none_of (js "]"))))
  ## Lit (js "]]").

(** [String.prototype.matchAll] with a pattern with flag [g]: the
    captures of every match, scanning on from the end of the previous
    match; after an empty match the scan advances by one code unit. *)
Fixpoint matchAll_fuel (fuel : nat) (r : regex) (s : str) : list caps :=
  match fuel with
  | O => []
  | S fuel' =>
      match exec r s with
      | None => []
      | Some f =>
          groups f
          :: (if Nat.ltb (length (before f) + length (after f)) (length s)
              then matchAll_fuel fuel' r (after f)
              else match after f with
                   | [] => []
                   | _ :: rest => matchAll_fuel fuel' r rest
                   end)
      end
  end.

Definition matchAll (r : regex) (s : str) : list caps :=
  matchAll_fuel (S (length s)) r s.

(** [Array.prototype.findIndex]. *)
Fixpoint findIndex {A} (p : A -> bool) (l : list A) : option nat :=
  match l with
  | [] => None
  | x :: l' =>
      if p x then Some 0
      else match findIndex p l' with
           | Some i => Some (S i)
           | None => None
           end
  end.

(** [s.replace('@', '')]: the first at sign is removed. *)
Fixpoint removeFirstAt (s : str) : str :=
  match s with
  | [] => []
  | x :: s' => if (x =? 64)%N then s' else x :: removeFirstAt s'
  end.

(** [if (contact && !mentionedContacts.includes(contact)) push].  The
    contacts found are kept by their index in the list: [find] returns
    the first object that passes a test on its fields, so two finds
    return the same object exactly when they return the same index. *)
Definition pushFound (found : option nat) (mentionedContacts : list nat)
  : list nat :=
  match found with
  | Some i =>
      if has i mentionedContacts then mentionedContacts
      else mentionedContacts ++ [i]
  | None => mentionedContacts
  end.

Section FindContacts.

(** [String.prototype.toLowerCase]. *)
Variable toLowerCase : str -> str.

(** [findContactsInLine] over the list [getContacts] returns. *)
Definition findContactsInLine (contacts : list ContactRecord)
    (lineContent : str) : list ContactRecord :=
  let mentionedContacts :=
    fold_left
      (fun mentioned (m : caps) =>
         let contactId := cap_text m 2 in
         pushFound
           (findIndex (fun c => str_eqb (c_id c) contactId) contacts)
           mentioned)
      (matchAll FIND_DEX_URL_LINK lineContent) [] in
  let mentionedContacts :=
    fold_left
      (fun mentioned (m : caps) =>
         let name := if truthy (m 2) then cap_text m 2 else cap_text m 1 in
         let cleanName := trim (removeFirstAt name) in
         pushFound
           (findIndex
              (fun c =>
                 includes (toLowerCase (c_name c)) (toLowerCase cleanName)
                 || includes (toLowerCase (c_firstName c))
                      (toLowerCase cleanName))
              contacts)
           mentioned)
      (matchAll FIND_VAULT_LINK lineContent) mentionedContacts in
  flat_map (fun i => match nth_error contacts i with
                     | Some c => [c]
                     | None => []
                     end) mentionedContacts.

End FindContacts.

(** ** Backtracking into a greedy star *)

(** One round of a greedy [p*] in front of [rest]: the longer match is
    tried first. *)
Lemma rmatch_star_chr_step (p : char -> bool) (rest : regex) (x : char)
    (t : str) (c : caps) (k : cont) :
  rmatch (Star (Chr p) ## rest) (x :: t) c k
  = if p x
    then match rmatch (Star (Chr p) ## rest) t c k with
         | Some st => Some st
         | None => rmatch rest (x :: t) c k
         end
    else rmatch rest (x :: t) c k.
Proof.
  rewrite !rmatch_Seq, !rmatch_Star. cbn [length star_loop].
  rewrite rmatch_Chr_cons. destruct (p x); [|reflexivity].
  replace (Nat.ltb (length t) (S (length t))) with true
    by (symmetry; apply Nat.ltb_lt; lia).
  reflexivity.
Qed.

(** A greedy [p*] whose continuation fails in front of every character
    of the class takes the whole run. *)
Lemma rmatch_star_then (p : char -> bool) (u s : str) (c : caps) (k : cont) :
  forallb p u = true -> stops p s ->
  (forall y t c', p y = true -> k (y :: t) c' = None) ->
  rmatch (Star (Chr p)) (u ++ s) c k = k s c.
Proof.
  intros Hu Hs Hk. destruct (k s c) as [st|] eqn:E.
  - apply rmatch_star_some; assumption.
  - apply rmatch_star_none; [exact Hu|exact Hs|].
    intros l1 [|y l2] ->; [exact E|].
    rewrite forallb_app in Hu. apply andb_true_iff in Hu.
    destruct Hu as [_ Hu]. cbn [forallb] in Hu.
    apply andb_true_iff in Hu. cbn [app]. apply Hk, Hu.
Qed.

Lemma rmatch_Lit_one (a y : char) (s : str) (c : caps) (k : cont) :
  rmatch (Lit [a]) (y :: s) c k = if eqc a y then k s c else None.
Proof.
  cbn [Lit]. rewrite rmatch_Seq, rmatch_Chr_cons.
  destruct (eqc a y); [apply rmatch_Eps|reflexivity].
Qed.

(** "[p]* @ [p]*" over a run of the class that ends where the class
    stops: it matches the whole run when the run holds an at sign, and
    nothing otherwise. *)
Lemma rmatch_around_at (p : char -> bool) (u : str) :
  forall (s : str) (c : caps) (k : cont),
    p 64%N = true -> forallb p u = true -> stops p s ->
    (forall y t c', p y = true -> k (y :: t) c' = None) ->
    rmatch (Star (Chr p) ## Lit (js "@") ## Star (Chr p)) (u ++ s) c k
    = if existsb (eqc 64%N) u then k s c else None.
Proof.
  induction u as [|x u IH]; intros s c k Hat Hu Hs Hk.
  - cbn [app existsb]. destruct s as [|y s].
    + rewrite rmatch_Seq, rmatch_Star. cbn [length star_loop].
      reflexivity.
    + cbn [stops] in Hs. rewrite rmatch_star_chr_step, Hs.
      rewrite rmatch_Seq. change (js "@") with [64%N].
      rewrite rmatch_Lit_one. unfold eqc. destruct (N.eqb 64%N y) eqn:E; [|reflexivity].
      apply N.eqb_eq in E. subst y. congruence.
  - cbn [forallb] in Hu. apply andb_true_iff in Hu. destruct Hu as [Hx Hu].
    cbn [app existsb]. rewrite rmatch_star_chr_step, Hx.
    rewrite (IH s c k Hat Hu Hs Hk).
    rewrite rmatch_Seq. change (js "@") with [64%N].
    rewrite rmatch_Lit_one, (@rmatch_star_then p u s c k Hu Hs Hk).
    destruct (existsb (eqc 64%N) u), (eqc 64%N x), (k s c); reflexivity.
Qed.

(** A pattern that must start with an opening bracket finds nothing in
    a text without one. *)
Lemma exec_no_bracket (r : regex) (u : str) :
  nullable r = false ->
  (forall x, none_of (js "[") x = true -> first r x = false) ->
  forallb (none_of (js "[")) u = true ->
  exec r u = None.
Proof.
  intros Hn Hf Hu.
  rewrite <- (app_nil_r u), exec_skip, (exec_nil_none _ Hn); [reflexivity|].
  apply no_match_in_first; [exact Hn|].
  eapply forallb_impl; [|exact Hu]. intros x Hx. cbn beta.
  rewrite (Hf x Hx). reflexivity.
Qed.

Lemma no_bracket_not_91 (x : char) :
  none_of (js "[") x = true -> N.eqb 91%N x = false.
Proof.
  intros H. rewrite N.eqb_sym. unfold none_of in H. cbn in H.
  destruct (N.eqb x 91%N); [discriminate|reflexivity].
Qed.

Lemma first_FIND_DEX_URL_LINK (x : char) :
  none_of (js "[") x = true -> first FIND_DEX_URL_LINK x = false.
Proof.
  intros H. cbn. unfold eqc. rewrite (no_bracket_not_91 _ H). reflexivity.
Qed.

Lemma first_FIND_VAULT_LINK (x : char) :
  none_of (js "[") x = true -> first FIND_VAULT_LINK x = false.
Proof.
  intros H. cbn. unfold eqc. rewrite (no_bracket_not_91 _ H). reflexivity.
Qed.

(** The first pattern at a Dex link: it matches when the link text holds
    an at sign, capturing the text and the id, and fails otherwise. *)
Lemma rmatch_FIND_DEX_URL_LINK (display contactId post : str) :
  forallb (none_of (js "]")) display = true ->
  contactId <> [] -> forallb (none_of (js ")")) contactId = true ->
  rmatch FIND_DEX_URL_LINK (dexLinkText display contactId ++ post) no_caps
    accept
  = if existsb (eqc 64%N) display
    then Some (post, set_cap 2 contactId (set_cap 1 display no_caps))
    else None.
Proof.
  intros Hd Hne Hid. unfold FIND_DEX_URL_LINK, dexLinkText.
  rewrite <- !app_assoc. rewrite rmatch_Seq, rmatch_Lit.
  rewrite rmatch_Seq, rmatch_Grp.
  set (tail := detailsUrl ++ contactId ++ js ")" ++ post).
  rewrite rmatch_around_at.
  - destruct (existsb (eqc 64%N) display); [|reflexivity].
    rewrite firstn_prefix. unfold tail, detailsUrl.
    rewrite rmatch_Seq, rmatch_Lit, rmatch_Seq, rmatch_Grp.
    destruct contactId as [|x l]; [congruence|].
    rewrite (@rmatch_plus_some (none_of (js ")")) x l (js ")" ++ post) _ _
               (post, set_cap 2 (x :: l) (set_cap 1 display no_caps)));
      [reflexivity|exact Hid|reflexivity|].
    rewrite rmatch_Lit. unfold accept.
    replace (length ((x :: l) ++ js ")" ++ post) - length (js ")" ++ post))
      with (length (x :: l)) by (rewrite !length_app; lia).
    rewrite firstn_app, firstn_all, Nat.sub_diag. cbn [firstn].
    rewrite app_nil_r. reflexivity.
  - reflexivity.
  - exact Hd.
  - reflexivity.
  - intros y t c' Hy. rewrite rmatch_Seq.
    apply rmatch_Lit_miss.
    change (js "](https://getdex.com/appv3/contacts/details/")
      with (93%N :: js "(https://getdex.com/appv3/contacts/details/").
    cbn [startsWith]. unfold none_of in Hy. cbn in Hy.
    rewrite N.eqb_sym. destruct (N.eqb y 93); [discriminate|reflexivity].
Qed.

Lemma findIndex_find {A} (p : A -> bool) (l : list A) :
  match findIndex p l with
  | Some i => nth_error l i = find p l /\ find p l <> None
  | None => find p l = None
  end.
Proof.
  induction l as [|x l IH]; cbn [findIndex find]; [reflexivity|].
  destruct (p x); [split; [reflexivity|discriminate]|].
  destruct (findIndex p l); exact IH.
Qed.

(** The text of a Dex link, its opening bracket apart, holds no opening
    bracket. *)
Lemma dexLink_tail_no_bracket (display contactId post : str) :
  plain display = true -> plain_id contactId ->
  forallb (none_of (js "[")) post = true ->
  forallb (none_of (js "["))
    (display ++ detailsUrl ++ contactId ++ js ")" ++ post) = true.
Proof.
  intros Hd [_ Hid] Hpost. rewrite !forallb_app, Hpost.
  rewrite (@plain_none_of (js "[") display)
    by (first [exact Hd|cbn; intros ? ?; cbn in *; tauto]).
  rewrite (@id_none_of (js "[") contactId)
    by (first [exact Hid|cbn; intros ? ?; cbn in *; tauto]).
  reflexivity.
Qed.

(** What the two global patterns find on a line whose only opening
    bracket is that of one Dex link. *)
Lemma matchAll_one_dex_link (pre display contactId post : str) :
  plain display = true -> plain_id contactId ->
  forallb (none_of (js "[")) pre = true ->
  forallb (none_of (js "[")) post = true ->
  matchAll FIND_DEX_URL_LINK (pre ++ dexLinkText display contactId ++ post)
  = (if existsb (eqc 64%N) display
     then [set_cap 2 contactId (set_cap 1 display no_caps)] else [])
  /\ matchAll FIND_VAULT_LINK (pre ++ dexLinkText display contactId ++ post)
     = [].
Proof.
  intros Hd Hid Hpre Hpost.
  pose proof (@dexLink_tail_no_bracket display contactId post Hd Hid Hpost)
    as Htail.
  assert (Hd' : forallb (none_of (js "]")) display = true).
  { apply plain_none_of; [cbn; intros ? ?; cbn in *; tauto|exact Hd]. }
  assert (Hid' : forallb (none_of (js ")")) contactId = true).
  { apply id_none_of; [cbn; intros ? ?; cbn in *; tauto|apply Hid]. }
  assert (Hskip : forall r,
            nullable r = false ->
            (forall x, none_of (js "[") x = true -> first r x = false) ->
            exec r (pre ++ dexLinkText display contactId ++ post)
            = shift pre (exec r (dexLinkText display contactId ++ post))).
  { intros r Hn Hf. apply exec_skip, no_match_in_first; [exact Hn|].
    eapply forallb_impl; [|exact Hpre]. intros x Hx. cbn beta.
    rewrite (Hf x Hx). reflexivity. }
  assert (Hrest : forall r,
            nullable r = false ->
            (forall x, none_of (js "[") x = true -> first r x = false) ->
            rmatch r (dexLinkText display contactId ++ post) no_caps accept
            = None ->
            exec r (pre ++ dexLinkText display contactId ++ post) = None).
  { intros r Hn Hf Hmiss. rewrite (Hskip r Hn Hf).
    unfold dexLinkText in *. rewrite <- !app_assoc in *.
    cbn [js app] in *. 
    change (js "[" ++ display ++ detailsUrl ++ contactId ++ js ")" ++ post)
      with (91%N :: display ++ detailsUrl ++ contactId ++ js ")" ++ post)
      in *.
    rewrite (@exec_cons_miss r _ _ Hmiss).
    rewrite (@exec_no_bracket r _ Hn Hf Htail). reflexivity. }
  split.
  - unfold matchAll.
    pose proof (@rmatch_FIND_DEX_URL_LINK display contactId post Hd'
                  (proj1 Hid) Hid') as Hm.
    destruct (existsb (eqc 64%N) display).
    + cbn [matchAll_fuel].
      rewrite (Hskip FIND_DEX_URL_LINK eq_refl first_FIND_DEX_URL_LINK).
      rewrite (@exec_here _ _ _ _ Hm). cbn [shift before after groups].
      rewrite app_nil_r.
      replace (Nat.ltb (length pre + length post)
                 (length (pre ++ dexLinkText display contactId ++ post)))
        with true.
      2: { symmetry. apply Nat.ltb_lt. unfold dexLinkText.
           rewrite !length_app. cbn [length js]. lia. }
      destruct (length (pre ++ dexLinkText display contactId ++ post))
        as [|n] eqn:El.
      { exfalso. unfold dexLinkText in El. rewrite !length_app in El.
        cbn [length js] in El. lia. }
      cbn [matchAll_fuel].
      rewrite (@exec_no_bracket FIND_DEX_URL_LINK post eq_refl
                 first_FIND_DEX_URL_LINK Hpost).
      reflexivity.
    + cbn [matchAll_fuel].
      rewrite (Hrest FIND_DEX_URL_LINK eq_refl first_FIND_DEX_URL_LINK Hm).
      reflexivity.
  - unfold matchAll. cbn [matchAll_fuel].
    rewrite (Hrest FIND_VAULT_LINK eq_refl first_FIND_VAULT_LINK);
      [reflexivity|].
    unfold FIND_VAULT_LINK. apply rmatch_Lit_miss.
    unfold dexLinkText. rewrite <- !app_assoc.
    change (js "[[") with [91%N; 91%N].
    change (js "[" ++ display ++ detailsUrl ++ contactId ++ js ")" ++ post)
      with (91%N :: display ++ detailsUrl ++ contactId ++ js ")" ++ post).
    cbn [startsWith]. rewrite N.eqb_refl.
    destruct (display ++ detailsUrl ++ contactId ++ js ")" ++ post)
      as [|y t]; [reflexivity|].
    cbn [forallb] in Htail. apply andb_true_iff in Htail.
    cbn [startsWith andb].
    rewrite (@no_bracket_not_91 y (proj1 Htail)). reflexivity.
Qed.

(** What [findContactsInLine] returns on a line whose only opening
    bracket is that of one Dex link. *)
Lemma findContactsInLine_one_dex_link :
  forall (toLowerCase : str -> str) (contacts : list ContactRecord)
         (pre display contactId post : str),
    plain display = true -> plain_id contactId ->
    forallb (none_of (js "[")) pre = true ->
    forallb (none_of (js "[")) post = true ->
    findContactsInLine toLowerCase contacts
      (pre ++ dexLinkText display contactId ++ post)
    = if existsb (N.eqb 64) display
      then match find (fun c => str_eqb (c_id c) contactId) contacts with
           | Some contact => [contact]
           | None => []
           end
      else [].
Proof.
  intros toLowerCase contacts pre display contactId post Hd Hid Hpre Hpost.
  destruct (@matchAll_one_dex_link pre display contactId post Hd Hid Hpre
              Hpost) as [Hdex Hvault].
  unfold findContactsInLine. rewrite Hdex, Hvault. cbn [fold_left].
  change (existsb (eqc 64%N) display) with (existsb (N.eqb 64) display).
  destruct (existsb (N.eqb 64) display); [|reflexivity].
  cbn [fold_left]. unfold cap_text, set_cap. cbn [Nat.eqb].
  pose proof (findIndex_find (fun c => str_eqb (c_id c) contactId) contacts)
    as Hfind.
  destruct (findIndex _ contacts) as [i|]; cbn [pushFound has existsb].
  - destruct Hfind as [Hnth Hsome]. cbn [app flat_map]. rewrite Hnth.
    destruct (find _ contacts); [reflexivity|congruence].
  - rewrite Hfind. reflexivity.
Qed.

(** X19. The commands that sync by line only see a Dex link whose text
    holds an at sign.  On a line whose only opening bracket is that of
    one Dex link, [findContactsInLine] returns the first contact of the
    list with the id of the link when the link text holds an at sign,
    and nothing when it does not, whether the contact is known or not. *)
Theorem find_contacts_needs_at_sign :
  forall (toLowerCase : str -> str) (contacts : list ContactRecord)
         (pre display contactId post : str),
    plain display = true -> plain_id contactId ->
    forallb (none_of (js "[")) pre = true ->
    forallb (none_of (js "[")) post = true ->
    findContactsInLine toLowerCase contacts
      (pre ++ dexLinkText display contactId ++ post)
    = if existsb (N.eqb 64) display
      then match find (fun c => str_eqb (c_id c) contactId) contacts with
           | Some contact => [contact]
           | None => []
           end
      else [].
Proof.
  intros toLowerCase contacts pre display contactId post Hd Hid Hpre Hpost.
  destruct (@matchAll_one_dex_link pre display contactId post Hd Hid Hpre
              Hpost) as [Hdex Hvault].
  unfold findContactsInLine. rewrite Hdex, Hvault. cbn [fold_left].
  change (existsb (eqc 64%N) display) with (existsb (N.eqb 64) display).
  destruct (existsb (N.eqb 64) display); [|reflexivity].
  cbn [fold_left]. unfold cap_text, set_cap. cbn [Nat.eqb].
  pose proof (findIndex_find (fun c => str_eqb (c_id c) contactId) contacts)
    as Hfind.
  destruct (findIndex _ contacts) as [i|]; cbn [pushFound has existsb].
  - destruct Hfind as [Hnth Hsome]. cbn [app flat_map]. rewrite Hnth.
    destruct (find _ contacts); [reflexivity|congruence].
  - rewrite Hfind. reflexivity.
Qed.

(** ** The commands [syncCurrentLine] and [syncAllMemos] of [main.ts] *)

(** The notices the two commands show themselves; those of
    [syncContactMemo] are events of the world. *)
Inductive CommandNotice : Type :=
| NoContactsLoaded
| NoContactsOnLine
| FailedToSyncMemo (name : str) (e : error)
| SyncedWithContacts (syncCount mentioned : nat)
| SyncingAllMemos
| SyncedAllMemos (totalSynced uniqueContacts totalErrors : nat)
| NoMentionsInDocument.

(** [Set.prototype.add] on a set of strings. *)
Definition set_add (x : str) (s : list str) : list str :=
  if existsb (str_eqb x) s then s else s ++ [x].

Section Commands.

Variable toLowerCase : str -> str.
Variable context : PluginContext.

(** The contacts [getContacts] returns. *)
Variable contacts : list ContactRecord.

(** The loop of [syncCurrentLine] over several mentioned contacts. *)
Fixpoint syncEach (mentionedContacts : list ContactRecord) (line : nat)
    (syncCount : nat) : M nat :=
  match mentionedContacts with
  | [] => ret syncCount
  | contact :: more =>
      outcome <- attempt (syncContactMemo context (asProcessed contact) line
                            false) ;;
      match outcome with
      | inr _ => syncEach more line (S syncCount)
      | inl _ => syncEach more line syncCount
      end
  end.

(** [syncCurrentLine] with the cursor on line [cursorLine]; the result
    is the list of notices the command shows. *)
Definition syncCurrentLine (cursorLine : nat) : M (list CommandNotice) :=
  if Nat.eqb (length contacts) 0 then ret [NoContactsLoaded]
  else
    editor <- readEditor ;;
    let lineContent := getLine editor cursorLine in
    let mentionedContacts :=
      findContactsInLine toLowerCase contacts lineContent in
    match mentionedContacts with
    | [] => ret [NoContactsOnLine]
    | [contact] =>
        outcome <- attempt (syncContactMemo context (asProcessed contact)
                              cursorLine false) ;;
        match outcome with
        | inr _ => ret []
        | inl e => ret [FailedToSyncMemo (c_name contact) e]
        end
    | _ =>
        syncCount <- syncEach mentionedContacts cursorLine 0 ;;
        ret [SyncedWithContacts syncCount (length mentionedContacts)]
    end.

(** The loop of [syncAllMemos] from line [lineNum] on; [fuel] is the
    number of lines still to visit, [lineCount] was read before the
    loop. *)
Fixpoint syncAll_loop (fuel lineNum : nat) (totalSynced totalErrors : nat)
    (contactsSynced : list str) : M (nat * nat * list str) :=
  match fuel with
  | O => ret (totalSynced, totalErrors, contactsSynced)
  | S fuel' =>
      editor <- readEditor ;;
      let lineContent := getLine editor lineNum in
      let mentionedContacts :=
        findContactsInLine toLowerCase contacts lineContent in
      match mentionedContacts with
      | firstContact :: _ =>
          outcome <- attempt (syncContactMemo context
                                (asProcessed firstContact) lineNum false) ;;
          match outcome with
          | inr _ =>
              syncAll_loop fuel' (S lineNum) (S totalSynced) totalErrors
                (set_add (c_id firstContact) contactsSynced)
          | inl _ =>
              syncAll_loop fuel' (S lineNum) totalSynced (S totalErrors)
                contactsSynced
          end
      | [] =>
          syncAll_loop fuel' (S lineNum) totalSynced totalErrors
            contactsSynced
      end
  end.

(** [syncAllMemos]; the result is the list of notices the command
    shows. *)
Definition syncAllMemos : M (list CommandNotice) :=
  if Nat.eqb (length contacts) 0 then ret [NoContactsLoaded]
  else
    editor <- readEditor ;;
    let lineCount := lineCount editor in
    totals <- syncAll_loop lineCount 0 0 0 [] ;;
    let '(totalSynced, totalErrors, contactsSynced) := totals in
    if Nat.ltb 0 totalSynced
    then ret [SyncingAllMemos;
              SyncedAllMemos totalSynced (length contactsSynced) totalErrors]
    else ret [SyncingAllMemos; NoMentionsInDocument].

End Commands.

(** What any run of [syncContactMemo] adds to the world: at most one
    remote call, and never a line; without a client it throws at
    once. *)
Lemma sync_run_events (context : PluginContext) (contact : ProcessedContact)
    (lineNumber : nat) (silent : bool) (w : World) :
  let out := syncContactMemo context contact lineNumber silent w in
  lineCount (w_editor (snd out)) = lineCount (w_editor w)
  /\ (exists evs,
        w_events (snd out) = w_events w ++ evs
        /\ length (remoteCalls evs) <= 1)
  /\ (apiClient context = None -> out = (inl ApiClientNotInitialized, w)).
Proof.
  intros out. subst out.
  assert (Hset : forall text,
            lineCount (setLine (w_editor w) lineNumber text)
            = lineCount (w_editor w)).
  { intros text. apply length_setLine. }
  run_sync.
  destruct (apiClient context) as [api|]; cbn [fst snd w_events w_editor].
  2:{ split; [reflexivity|]. split; [|reflexivity].
      exists []. rewrite app_nil_r. split; [reflexivity|cbn; lia]. }
  split; [|split; [|discriminate]];
    destruct (skipUnchanged (w_editor w)
                (getContentBlock (w_editor w) lineNumber));
    cbn [fst snd w_events w_editor];
    try reflexivity;
    try (exists []; rewrite app_nil_r; split; [reflexivity|cbn; lia]);
    set (cb := getContentBlock (w_editor w) lineNumber);
    (destruct (truthy (cb_memoId cb) &&
               negb (truthy (cb_memoId cb) &&
                     startsWith (cap_text (fun _ => cb_memoId cb) 0)
                       (js "memo_")));
     [destruct (updateNote api _ _ _) as [err|res]
     |destruct (createNote api _ _) as [err|res]];
     cbn [fst snd w_events w_editor];
     try reflexivity;
     try (eexists; split; [reflexivity|cbn; lia]);
     (destruct (updateStartLine _ _ _ _ _) as [rejected|updatedLine];
      cbn [fst snd w_events w_editor];
      [first [reflexivity|eexists; split; [reflexivity|cbn; lia]]|]);
     destruct (str_eqb _ _), silent; cbn [fst snd w_events w_editor];
     try destruct (_ || _); cbn [fst snd w_events w_editor];
     first
       [ reflexivity
       | apply Hset
       | eexists; split;
         [first [reflexivity|rewrite <- app_assoc; reflexivity]|cbn; lia] ]).
Qed.

Lemma length_set_add (x : str) (s : list str) :
  1 <= length (set_add x s) /\ length (set_add x s) <= S (length s)
  /\ length s <= length (set_add x s).
Proof.
  unfold set_add. destruct (existsb (str_eqb x) s) eqn:E.
  - destruct s; [discriminate|]. cbn [length]. lia.
  - rewrite length_app. cbn [length]. lia.
Qed.

Lemma remoteCalls_app (a b : list event) :
  remoteCalls (a ++ b) = remoteCalls a ++ remoteCalls b.
Proof. apply filter_app. Qed.

Lemma syncAll_loop_shape (toLowerCase : str -> str) (context : PluginContext)
    (contacts : list ContactRecord) :
  forall fuel lineNum totalSynced totalErrors contactsSynced w,
    length contactsSynced <= totalSynced ->
    (1 <= totalSynced -> 1 <= length contactsSynced) ->
    exists totalSynced' totalErrors' contactsSynced' evs w',
      syncAll_loop toLowerCase context contacts fuel lineNum totalSynced
        totalErrors contactsSynced w
      = (inr (totalSynced', totalErrors', contactsSynced'), w')
      /\ lineCount (w_editor w') = lineCount (w_editor w)
      /\ w_events w' = w_events w ++ evs
      /\ totalSynced <= totalSynced' /\ totalErrors <= totalErrors'
      /\ (totalSynced' - totalSynced) + (totalErrors' - totalErrors) <= fuel
      /\ length (remoteCalls evs)
         <= (totalSynced' - totalSynced) + (totalErrors' - totalErrors)
      /\ length contactsSynced' <= totalSynced'
      /\ (1 <= totalSynced' -> 1 <= length contactsSynced')
      /\ (apiClient context = None -> totalSynced' = totalSynced /\ w' = w).
Proof.
  induction fuel as [|fuel IH];
    intros lineNum totalSynced totalErrors contactsSynced w Hids Hone.
  - cbn [syncAll_loop]. unfold ret.
    exists totalSynced, totalErrors, contactsSynced, [], w.
    rewrite app_nil_r. repeat split; try reflexivity; try assumption;
      cbn; lia.
  - cbn [syncAll_loop]. unfold bind at 1, readEditor.
    destruct (findContactsInLine toLowerCase contacts
                (getLine (w_editor w) lineNum)) as [|firstContact more].
    + destruct (IH (S lineNum) totalSynced totalErrors contactsSynced w
                  Hids Hone)
        as (s' & e' & ids' & evs & w' & Hrun & Hlen & Hev & H1 & H2 & H3
            & H4 & H5 & H6 & H7).
      exists s', e', ids', evs, w'. rewrite Hrun.
      repeat split; try assumption; try lia; apply H7; assumption.
    + pose proof (@sync_run_events context (asProcessed firstContact)
                    lineNum false w) as (Hl1 & (evs1 & Hev1 & Hc1) & Hnone).
      unfold bind, attempt.
      destruct (syncContactMemo context (asProcessed firstContact) lineNum
                  false w) as [[err|memo] w1] eqn:Hsync;
        cbn [fst snd] in *.
      * destruct (IH (S lineNum) totalSynced (S totalErrors) contactsSynced
                    w1 Hids Hone)
          as (s' & e' & ids' & evs & w' & Hrun & Hlen & Hev & H1 & H2 & H3
              & H4 & H5 & H6 & H7).
        exists s', e', ids', (evs1 ++ evs), w'. rewrite Hrun.
        split; [reflexivity|]. split; [congruence|].
        split; [rewrite Hev, Hev1, app_assoc; reflexivity|].
        rewrite remoteCalls_app, length_app.
        repeat split; try assumption; try lia.
        -- apply H7; assumption.
        -- destruct (H7 H) as [_ ->]. specialize (Hnone H).
           injection Hnone as _ <-. reflexivity.
      * pose proof (length_set_add (c_id firstContact) contactsSynced)
          as (Ha & Hb & Hc).
        destruct (IH (S lineNum) (S totalSynced) totalErrors
                    (set_add (c_id firstContact) contactsSynced) w1
                    ltac:(lia) ltac:(lia))
          as (s' & e' & ids' & evs & w' & Hrun & Hlen & Hev & H1 & H2 & H3
              & H4 & H5 & H6 & H7).
        exists s', e', ids', (evs1 ++ evs), w'. rewrite Hrun.
        split; [reflexivity|]. split; [congruence|].
        split; [rewrite Hev, Hev1, app_assoc; reflexivity|].
        rewrite remoteCalls_app, length_app.
        repeat split; try assumption; try lia;
          specialize (Hnone H); discriminate.
Qed.

(** X20. A run of "sync all memos" never throws.  It keeps the number
    of lines, attempts at most one sync for each line and makes at most
    one remote call for each attempt; the number of contacts in the
    summary is at least one and at most the number of synced memos.
    When no sync succeeds the summary says that no contact mention was
    found, whatever the number of failures: without a client every
    attempt fails, nothing is changed, and that is the summary. *)
Theorem sync_all_memos_round :
  forall (toLowerCase : str -> str) (context : PluginContext)
         (contacts : list ContactRecord) (w : World),
    let out := syncAllMemos toLowerCase context contacts w in
    exists notices evs,
      fst out = inr notices
      /\ lineCount (w_editor (snd out)) = lineCount (w_editor w)
      /\ w_events (snd out) = w_events w ++ evs
      /\ (contacts = [] -> notices = [NoContactsLoaded] /\ snd out = w)
      /\ (contacts <> [] ->
          exists totalSynced uniqueContacts totalErrors,
            totalSynced + totalErrors <= lineCount (w_editor w)
            /\ length (remoteCalls evs) <= totalSynced + totalErrors
            /\ uniqueContacts <= totalSynced
            /\ (1 <= totalSynced -> 1 <= uniqueContacts)
            /\ notices
               = [SyncingAllMemos;
                  if Nat.ltb 0 totalSynced
                  then SyncedAllMemos totalSynced uniqueContacts totalErrors
                  else NoMentionsInDocument]
            /\ (apiClient context = None ->
                totalSynced = 0 /\ snd out = w)).
Proof.
  intros toLowerCase context contacts w out. subst out.
  unfold syncAllMemos. destruct contacts as [|c0 contacts].
  - cbn [length Nat.eqb]. unfold ret. exists [NoContactsLoaded], [].
    rewrite app_nil_r. cbn [fst snd].
    repeat split; try reflexivity. intros H; congruence.
  - cbn [length Nat.eqb]. unfold bind at 1, readEditor.
    destruct (@syncAll_loop_shape toLowerCase context (c0 :: contacts)
                (lineCount (w_editor w)) 0 0 0 [] w (Nat.le_refl _)
                ltac:(lia))
      as (s' & e' & ids' & evs & w' & Hrun & Hlen & Hev & H1 & H2 & H3
          & H4 & H5 & H6 & H7).
    unfold bind. rewrite Hrun.
    exists [SyncingAllMemos;
            if Nat.ltb 0 s' then SyncedAllMemos s' (length ids') e'
            else NoMentionsInDocument], evs.
    split; [destruct (Nat.ltb 0 s'); reflexivity|].
    split; [destruct (Nat.ltb 0 s'); exact Hlen|].
    split; [destruct (Nat.ltb 0 s'); exact Hev|].
    split; [intros H; discriminate|].
    intros _. exists s', (length ids'), e'.
    repeat split; try lia; try assumption.
    + destruct (H7 H) as [-> _]. reflexivity.
    + destruct (H7 H) as [_ ->]. destruct (Nat.ltb 0 s'); reflexivity.
Qed.

Lemma find_contacts_needs_at_sign_witness :
  findContactsInLine (fun s => s) [processContact ada]
    (js "Met " ++ dexLinkText (js "@Ada") (js "a1") ++ js " today")
  = [processContact ada]
  /\ findContactsInLine (fun s => s) [processContact ada]
       (js "Met " ++ dexLinkText (js "Ada") (js "a1") ++ js " today")
     = [].
Proof.
  split.
  - apply (@find_contacts_needs_at_sign (fun s => s) [processContact ada]
             (js "Met ") (js "@Ada") (js "a1") (js " today"));
      [reflexivity|split; [discriminate|reflexivity]|reflexivity|reflexivity].
  - apply (@find_contacts_needs_at_sign (fun s => s) [processContact ada]
             (js "Met ") (js "Ada") (js "a1") (js " today"));
      [reflexivity|split; [discriminate|reflexivity]|reflexivity|reflexivity].
Defined.

(** X21. The command "sync current line" after a contact was selected,
    with Dex links.  When the settings put an at sign into the link
    text, the command runs [syncContactMemo], not silent, for the first
    known contact with the id of the link, and shows a notice of its own
    only when that run throws; when no contact has the id it reports
    that the line holds no contact.  When the settings leave the at sign
    out, and the name holds none, the command does not see the link: it
    reports that the line holds no contact and changes nothing, although
    the contact is known. *)
Theorem sync_current_line_after_selection :
  forall (toLowerCase : str -> str) (context : PluginContext)
         (contacts : list ContactRecord) (settings : LinkSettings)
         (contact : ContactRecord) (editor : Editor) (cursorLine : nat)
         (before typed after : str) (events : list event),
    linkMode settings = DexUrlMode ->
    c_dexUrl contact
    = js "https://getdex.com/appv3/contacts/details/" ++ c_id contact ->
    plain_id (c_id contact) ->
    plain (c_name contact) = true -> plain (c_firstName contact) = true ->
    forallb (none_of (js "@")) (c_name contact) = true ->
    forallb (none_of (js "@")) (c_firstName contact) = true ->
    cursorLine < lineCount editor ->
    getLine editor cursorLine = before ++ typed ++ after ->
    forallb (none_of (js "[")) before = true ->
    forallb (none_of (js "[")) after = true ->
    contacts <> [] ->
    let selected :=
      onContactSelected settings contact cursorLine (length before)
        (length before + length typed) editor in
    let w := {| w_editor := fst selected; w_events := events |} in
    let run := syncCurrentLine toLowerCase context contacts cursorLine w in
    if includeAtInLink settings then
      match find (fun c => str_eqb (c_id c) (c_id contact)) contacts with
      | Some known =>
          let sync :=
            syncContactMemo context (asProcessed known) cursorLine false w in
          snd run = snd sync
          /\ fst run
             = inr match fst sync with
                   | inr _ => []
                   | inl e => [FailedToSyncMemo (c_name known) e]
                   end
      | None => run = (inr [NoContactsOnLine], w)
      end
    else run = (inr [NoContactsOnLine], w).
Proof.
  intros toLowerCase context contacts settings contact editor cursorLine
    before typed after events Hmode Hurl Hid Hname Hfirst Hnat Hfat Hln Hline
    Hbefore Hafter Hcontacts selected w run.
  set (displayName := if stripLastName settings then c_firstName contact
                      else c_name contact).
  set (display := if includeAtInLink settings then js "@" ++ displayName
                  else displayName).
  assert (Hdn : plain displayName = true
                /\ forallb (none_of (js "@")) displayName = true).
  { subst displayName. destruct (stripLastName settings); split; assumption. }
  assert (Hdisplay : plain display = true).
  { subst display. destruct (includeAtInLink settings);
      [rewrite plain_app, (proj1 Hdn); reflexivity|apply Hdn]. }
  assert (Hat : existsb (N.eqb 64) display = includeAtInLink settings).
  { subst display. destruct (includeAtInLink settings); [reflexivity|].
    destruct Hdn as [_ Hd]. clear - Hd.
    induction displayName as [|x l IH]; [reflexivity|].
    cbn [forallb existsb] in *. apply andb_true_iff in Hd.
    destruct Hd as [Hx Hl]. rewrite (IH Hl), orb_false_r.
    unfold none_of in Hx. cbn in Hx. rewrite N.eqb_sym.
    destruct (N.eqb x 64); [discriminate|reflexivity]. }
  set (post := js "%%dex:contact-id=" ++ c_id contact ++ js "%% " ++ after).
  assert (Hpost : forallb (none_of (js "[")) post = true).
  { subst post. rewrite !forallb_app, Hafter.
    rewrite (@id_none_of (js "[") (c_id contact))
      by (first [apply Hid|cbn; intros ? ?; cbn in *; tauto]).
    reflexivity. }
  assert (Hdoc : getLine (w_editor w) cursorLine
                 = before ++ dexLinkText display (c_id contact) ++ post).
  { subst w selected. unfold onContactSelected. cbn [fst w_editor].
    rewrite getLine_setLine, Nat.eqb_refl.
    apply Nat.ltb_lt in Hln. unfold lineCount in Hln. rewrite Hln.
    rewrite Hline, replaceRange_typed. f_equal.
    unfold selectedLinkText. rewrite Hmode. fold displayName. fold display.
    unfold post, dexLinkText, detailsUrl. rewrite Hurl, <- !app_assoc.
    reflexivity. }
  pose proof (@findContactsInLine_one_dex_link toLowerCase contacts before
                display (c_id contact) post Hdisplay Hid Hbefore Hpost)
    as Hfind.
  rewrite <- Hdoc, Hat in Hfind.
  subst run. unfold syncCurrentLine.
  destruct contacts as [|c0 contacts']; [congruence|].
  cbn [length Nat.eqb]. unfold bind, readEditor, attempt, ret.
  cbn beta iota zeta. rewrite Hfind.
  destruct (includeAtInLink settings); [|reflexivity].
  destruct (find _ (c0 :: contacts')) as [known|]; [|reflexivity].
  cbn zeta.
  destruct (syncContactMemo context (asProcessed known) cursorLine false w)
    as [[e|memo] w1]; cbn [fst snd]; split; reflexivity.
Qed.

Lemma sync_current_line_after_selection_witness :
  syncCurrentLine (fun s => s) (contextWith okApi) [processContact ada] 0
    (worldOf
       (fst (onContactSelected
               {| linkMode := DexUrlMode; vaultPath := VaultMode;
                  customPath := []; includeAtSymbol := true;
                  includeAtInLink := false; stripLastName := false |}
               (processContact ada) 0 4 7 meetingDoc)))
  = (inr [NoContactsOnLine],
     worldOf
       (fst (onContactSelected
               {| linkMode := DexUrlMode; vaultPath := VaultMode;
                  customPath := []; includeAtSymbol := true;
                  includeAtInLink := false; stripLastName := false |}
               (processContact ada) 0 4 7 meetingDoc))).
Proof.
  apply (@sync_current_line_after_selection (fun s => s) (contextWith okApi)
           [processContact ada]
           {| linkMode := DexUrlMode; vaultPath := VaultMode;
              customPath := []; includeAtSymbol := true;
              includeAtInLink := false; stripLastName := false |}
           (processContact ada) meetingDoc 0 (js "Met ") (js "Ada")
           (js " today") []).
  - reflexivity.
  - reflexivity.
  - split; [discriminate|reflexivity].
  - reflexivity.
  - reflexivity.
  - reflexivity.
  - reflexivity.
  - cbn. lia.
  - reflexivity.
  - reflexivity.
  - reflexivity.
  - discriminate.
Defined.

(* ================================================================== *)
(** * [src/utils/markdown-converter.ts]: lists *)
(* ================================================================== *)

(** The class "." without flag [s]: any code unit but a line
    terminator. *)
Definition is_dot (c : char) : bool :=
  negb ((c =? 10) || (c =? 13) || (c =? 8232) || (c =? 8233))%N.

(** The bullet pattern, its tokens spaced out, to be run with
    [match_whole]:  "^ ( \s* ) ( [-*+] ) \s+ ( .+ ) $" *)
Definition BULLET_ITEM : regex :=
  Grp 1 (Star (Chr is_ws)) ## Grp 2 (Chr (one_of (js "-*+")))
  ## Plus (Chr is_ws) ## Grp 3 (Plus (Chr is_dot)).

(** The numbered pattern, its tokens spaced out, to be run with
    [match_whole]:  "^ ( \s* ) ( \d+ \. ) \s+ ( .+ ) $" *)
Definition NUMBERED_ITEM : regex :=
  Grp 1 (Star (Chr is_ws)) ## Grp 2 (Plus (Chr is_digit) ## Lit (js "."))
  ## Plus (Chr is_ws) ## Grp 3 (Plus (Chr is_dot)).

(** [s.match(r)] for a pattern between [^] and [$] (no flag [m], no
    flag [g]): the match starts at index 0 and must end at the end of
    the string. *)
Definition match_whole (r : regex) (s : str) : option caps :=
  match rmatch r s no_caps
          (fun s' c => match s' with [] => Some (s', c) | _ :: _ => None end)
  with
  | Some (_, c) => Some c
  | None => None
  end.

(** [calculateIndentLevel]. *)
Definition calculateIndentLevel (indentString : str) : nat :=
  let tabCount := length (filter (N.eqb 9) indentString) in
  let spaceCount := length (filter (N.eqb 32) indentString) in
  let totalIndentLevel := tabCount + spaceCount / 2 in
  Nat.min totalIndentLevel 8.

Inductive ListType : Type := UL | OL.

(** What [processListsToHtml] pushes onto [processedLines]. *)
Inductive piece : Type :=
| OpenTag (type : ListType)
| CloseTag (type : ListType)
| ListItem (indentLevel : nat) (content : str)
| NonList (lines : list str).

Definition tagName (type : ListType) : str :=
  match type with UL => js "ul" | OL => js "ol" end.

(** The string pushed in each case. *)
Definition render (p : piece) : str :=
  match p with
  | OpenTag type => js "<" ++ tagName type ++ js ">"
  | CloseTag type => js "</" ++ tagName type ++ js ">"
  | ListItem indentLevel content =>
      if Nat.ltb 0 indentLevel
      then js "<li class=" ++ quote ++ js "ql-indent-" ++ decimal indentLevel
           ++ quote ++ js ">" ++ content ++ js "</li>"
      else js "<li>" ++ content ++ js "</li>"
  | NonList lines => join (js "<br />") lines
  end.

(** The variables of the loop. *)
Record ListState : Type := {
  processedLines : list piece;
  currentList : option ListType;
  nonListBuffer : list str
}.

Definition flushNonListBuffer (st : ListState) : ListState :=
  match nonListBuffer st with
  | [] => st
  | _ :: _ =>
      {| processedLines := processedLines st ++ [NonList (nonListBuffer st)];
         currentList := currentList st;
         nonListBuffer := [] |}
  end.

(** One round of the loop. *)
Definition listStep (st : ListState) (line : str) : ListState :=
  match match_whole BULLET_ITEM line with
  | Some bulletMatch =>
      let indent := cap_text bulletMatch 1 in
      let content := cap_text bulletMatch 3 in
      let indentLevel := calculateIndentLevel indent in
      let st := flushNonListBuffer st in
      let opened :=
        match currentList st with
        | Some UL => processedLines st
        | Some OL => processedLines st ++ [CloseTag OL] ++ [OpenTag UL]
        | None => processedLines st ++ [OpenTag UL]
        end in
      {| processedLines := opened ++ [ListItem indentLevel content];
         currentList := Some UL;
         nonListBuffer := nonListBuffer st |}
  | None =>
      match match_whole NUMBERED_ITEM line with
      | Some numberedMatch =>
          let indent := cap_text numberedMatch 1 in
          let content := cap_text numberedMatch 3 in
          let indentLevel := calculateIndentLevel indent in
          let st := flushNonListBuffer st in
          let opened :=
            match currentList st with
            | Some OL => processedLines st
            | Some UL => processedLines st ++ [CloseTag UL] ++ [OpenTag OL]
            | None => processedLines st ++ [OpenTag OL]
            end in
          {| processedLines := opened ++ [ListItem indentLevel content];
             currentList := Some OL;
             nonListBuffer := nonListBuffer st |}
      | None =>
          {| processedLines :=
               match currentList st with
               | Some type => processedLines st ++ [CloseTag type]
               | None => processedLines st
               end;
             currentList := None;
             nonListBuffer := nonListBuffer st ++ [line] |}
      end
  end.

(** The pieces pushed for a text, in order. *)
Definition listPieces (text : str) : list piece :=
  let lines := split newline text in
  let st :=
    fold_left listStep lines
      {| processedLines := []; currentList := None; nonListBuffer := [] |} in
  let st :=
    match currentList st with
    | Some type =>
        {| processedLines := processedLines st ++ [CloseTag type];
           currentList := currentList st;
           nonListBuffer := nonListBuffer st |}
    | None => st
    end in
  processedLines (flushNonListBuffer st).

Definition processListsToHtml (text : str) : str :=
  join newline (map render (listPieces text)).

(** ** The structure of the output *)

(** A run of lines that are not list items, or a list with its items,
    each with its indent level. *)
Inductive block : Type :=
| TextBlock (lines : list str)
| ListBlock (type : ListType) (items : list (nat * str)).

Definition piecesOf (b : block) : list piece :=
  match b with
  | TextBlock lines => [NonList lines]
  | ListBlock type items =>
      OpenTag type :: map (fun item => ListItem (fst item) (snd item)) items
      ++ [CloseTag type]
  end.

(** What a line of the input is taken for. *)
Inductive entry : Type :=
| ItemEntry (type : ListType) (indentLevel : nat) (content : str)
| TextEntry (line : str).

Definition classifyLine (line : str) : entry :=
  match match_whole BULLET_ITEM line with
  | Some m => ItemEntry UL (calculateIndentLevel (cap_text m 1)) (cap_text m 3)
  | None =>
      match match_whole NUMBERED_ITEM line with
      | Some m =>
          ItemEntry OL (calculateIndentLevel (cap_text m 1)) (cap_text m 3)
      | None => TextEntry line
      end
  end.

Definition entriesOf (b : block) : list entry :=
  match b with
  | TextBlock lines => map TextEntry lines
  | ListBlock type items =>
      map (fun item => ItemEntry type (fst item) (snd item)) items
  end.

Definition block_ok (b : block) : Prop :=
  match b with
  | TextBlock lines => lines <> []
  | ListBlock _ items => items <> [] /\ Forall (fun item => fst item <= 8) items
  end.

(** Text, or a list of one of the two types. *)
Definition kindOf (b : block) : option ListType :=
  match b with
  | TextBlock _ => None
  | ListBlock type _ => Some type
  end.

(** No two neighbours are of the same kind: they would have been one
    block. *)
Fixpoint separated (bs : list block) : Prop :=
  match bs with
  | a :: (b :: _) as rest => kindOf a <> kindOf b /\ separated rest
  | _ => True
  end.

(** The last block, if any, is not of kind [k]. *)
Definition endsApart (bs : list block) (k : option ListType) : Prop :=
  forall pre a, bs = pre ++ [a] -> kindOf a <> k.

Lemma separated_snoc (bs : list block) (b : block) :
  separated bs -> endsApart bs (kindOf b) -> separated (bs ++ [b]).
Proof.
  induction bs as [|a bs IH]; intros Hs Hlast; [exact I|].
  destruct bs as [|a' bs].
  - cbn. split; [|exact I]. apply (Hlast [] a eq_refl).
  - destruct Hs as [Ha Hs]. change ((a :: a' :: bs) ++ [b])
      with (a :: (a' :: bs) ++ [b]).
    cbn [separated app]. split; [exact Ha|].
    apply IH; [exact Hs|]. intros pre x Hx. apply (Hlast (a :: pre) x).
    rewrite Hx. reflexivity.
Qed.

Lemma endsApart_snoc (bs : list block) (b : block) (k : option ListType) :
  kindOf b <> k -> endsApart (bs ++ [b]) k.
Proof.
  intros Hk pre a H. apply app_inj_tail in H. destruct H as [_ <-]. exact Hk.
Qed.

Lemma calculateIndentLevel_le (indentString : str) :
  calculateIndentLevel indentString <= 8.
Proof. unfold calculateIndentLevel. apply Nat.le_min_r. Qed.

Lemma flat_map_snoc {A B} (f : A -> list B) (l : list A) (x : A) :
  flat_map f (l ++ [x]) = flat_map f l ++ f x.
Proof. rewrite flat_map_app. cbn. rewrite app_nil_r. reflexivity. Qed.

(** The invariant of the loop of [processListsToHtml] after the lines
    [done]: the blocks that are complete, and the list that is open. *)
Definition list_inv (st : ListState) (done : list str) : Prop :=
  exists blocks,
    Forall block_ok blocks /\ separated blocks
    /\ match currentList st with
       | None =>
           processedLines st = flat_map piecesOf blocks
           /\ endsApart blocks None
           /\ (nonListBuffer st = [] -> blocks = [])
           /\ flat_map entriesOf blocks ++ map TextEntry (nonListBuffer st)
              = map classifyLine done
       | Some type =>
           nonListBuffer st = []
           /\ exists items,
                items <> [] /\ Forall (fun item => fst item <= 8) items
                /\ processedLines st
                   = flat_map piecesOf blocks
                     ++ OpenTag type
                        :: map (fun item => ListItem (fst item) (snd item))
                             items
                /\ endsApart blocks (Some type)
                /\ flat_map entriesOf blocks
                   ++ map (fun item => ItemEntry type (fst item) (snd item))
                        items
                   = map classifyLine done
       end.

Definition sameType (s t : ListType) : bool :=
  match s, t with UL, UL | OL, OL => true | _, _ => false end.

(** A list item arrives: the two list branches of the loop, which
    differ in the type only. *)
Definition itemStep (type : ListType) (indentLevel : nat) (content : str)
    (st : ListState) : ListState :=
  let st1 := flushNonListBuffer st in
  let opened :=
    match currentList st1 with
    | Some t =>
        if sameType t type then processedLines st1
        else processedLines st1 ++ [CloseTag t] ++ [OpenTag type]
    | None => processedLines st1 ++ [OpenTag type]
    end in
  {| processedLines := opened ++ [ListItem indentLevel content];
     currentList := Some type;
     nonListBuffer := nonListBuffer st1 |}.

Lemma listStep_classify (st : ListState) (line : str) :
  listStep st line
  = match classifyLine line with
    | ItemEntry type indentLevel content =>
        itemStep type indentLevel content st
    | TextEntry _ =>
        {| processedLines :=
             match currentList st with
             | Some type => processedLines st ++ [CloseTag type]
             | None => processedLines st
             end;
           currentList := None;
           nonListBuffer := nonListBuffer st ++ [line] |}
    end.
Proof.
  unfold listStep, classifyLine, itemStep.
  destruct (match_whole BULLET_ITEM line) as [m|].
  - destruct (currentList (flushNonListBuffer st)) as [[|]|]; reflexivity.
  - destruct (match_whole NUMBERED_ITEM line) as [m|]; [|reflexivity].
    destruct (currentList (flushNonListBuffer st)) as [[|]|]; reflexivity.
Qed.

Lemma classify_level (line : str) (type : ListType) (indentLevel : nat)
    (content : str) :
  classifyLine line = ItemEntry type indentLevel content -> indentLevel <= 8.
Proof.
  unfold classifyLine.
  destruct (match_whole BULLET_ITEM line);
    [|destruct (match_whole NUMBERED_ITEM line)];
    intros H; inversion H; apply calculateIndentLevel_le.
Qed.

Ltac reassoc :=
  repeat first [rewrite <- app_assoc | rewrite <- app_comm_cons];
  cbn [app]; reflexivity.

Lemma list_inv_step (st : ListState) (done : list str) (line : str) :
  list_inv st done -> list_inv (listStep st line) (done ++ [line]).
Proof.
  intros (blocks & Hok & Hsep & Hst). rewrite listStep_classify.
  unfold list_inv. rewrite map_app. cbn [map].
  destruct (classifyLine line) as [type indentLevel content|l] eqn:Hclass.
  - pose proof (classify_level _ Hclass) as Hlevel.
    unfold itemStep, flushNonListBuffer.
    destruct (currentList st) as [t|] eqn:Hcur.
    + (* inside a list *)
      destruct Hst as (Hbuf & items & Hne & Hlv & Hproc & Hlast & Hent).
      rewrite Hbuf. rewrite Hcur.
      destruct (sameType t type) eqn:Hsame.
      * assert (t = type) by (destruct t, type; cbn in Hsame; congruence).
        subst t.
        exists blocks. split; [exact Hok|]. split; [exact Hsep|].
        cbn [currentList nonListBuffer processedLines].
        split; [exact Hbuf|].
        exists (items ++ [(indentLevel, content)]).
        split; [destruct items; discriminate|].
        split; [apply Forall_app; split;
                [exact Hlv|constructor; [exact Hlevel|constructor]]|].
        split; [rewrite Hproc, map_app; cbn [map fst snd]; reassoc|].
        split; [exact Hlast|].
        rewrite <- Hent, map_app. cbn [map fst snd]. reassoc.
      * assert (Hdiff : t <> type)
          by (destruct t, type; cbn in Hsame; congruence).
        exists (blocks ++ [ListBlock t items]).
        split; [apply Forall_app; split;
                [exact Hok|constructor; [split; assumption|constructor]]|].
        split; [apply separated_snoc; assumption|].
        cbn [currentList nonListBuffer processedLines].
        split; [exact Hbuf|].
        exists [(indentLevel, content)].
        split; [discriminate|].
        split; [constructor; [exact Hlevel|constructor]|].
        split.
        { rewrite Hproc, flat_map_snoc. cbn [piecesOf map fst snd].
          reassoc. }
        split; [apply endsApart_snoc; cbn; congruence|].
        rewrite <- Hent, flat_map_snoc. cbn [entriesOf map fst snd]. reassoc.
    + (* outside a list *)
      destruct Hst as (Hproc & Hlast & Hempty & Hent).
      destruct (nonListBuffer st) as [|l0 buffer] eqn:Hbuf.
      * rewrite Hcur. exists blocks.
        split; [exact Hok|]. split; [exact Hsep|].
        cbn [currentList nonListBuffer processedLines].
        split; [exact Hbuf|].
        exists [(indentLevel, content)].
        split; [discriminate|].
        split; [constructor; [exact Hlevel|constructor]|].
        split; [rewrite Hproc; cbn [map fst snd]; reassoc|].
        split.
        { rewrite (Hempty eq_refl). intros [|x pre] a H; discriminate. }
        rewrite <- Hent. cbn [map fst snd]. reassoc.
      * cbn [currentList nonListBuffer processedLines].
        exists (blocks ++ [TextBlock (l0 :: buffer)]).
        split; [apply Forall_app; split;
                [exact Hok|constructor; [discriminate|constructor]]|].
        split; [apply separated_snoc; assumption|].
        split; [reflexivity|].
        exists [(indentLevel, content)].
        split; [discriminate|].
        split; [constructor; [exact Hlevel|constructor]|].
        split.
        { rewrite Hproc, flat_map_snoc. cbn [piecesOf]. reassoc. }
        split; [apply endsApart_snoc; cbn; congruence|].
        rewrite <- Hent, flat_map_snoc. cbn [entriesOf map fst snd]. reassoc.
  - (* a line of text *)
    assert (Hl : l = line).
    { unfold classifyLine in Hclass.
      destruct (match_whole BULLET_ITEM line);
        [|destruct (match_whole NUMBERED_ITEM line)]; congruence. }
    subst l.
    destruct (currentList st) as [t|] eqn:Hcur.
    + destruct Hst as (Hbuf & items & Hne & Hlv & Hproc & Hlast & Hent).
      exists (blocks ++ [ListBlock t items]).
      split; [apply Forall_app; split;
              [exact Hok|constructor; [split; assumption|constructor]]|].
      split; [apply separated_snoc; assumption|].
      cbn [currentList nonListBuffer processedLines].
      split.
      { rewrite Hproc, flat_map_snoc. cbn [piecesOf]. reassoc. }
      split; [apply endsApart_snoc; cbn; congruence|].
      split; [rewrite Hbuf; discriminate|].
      rewrite <- Hent, flat_map_snoc, Hbuf. cbn [entriesOf map]. reassoc.
    + destruct Hst as (Hproc & Hlast & Hempty & Hent).
      exists blocks. split; [exact Hok|]. split; [exact Hsep|].
      cbn [currentList nonListBuffer processedLines].
      split; [exact Hproc|]. split; [exact Hlast|].
      split; [destruct (nonListBuffer st); discriminate|].
      rewrite <- Hent, map_app. cbn [map]. reassoc.
Qed.

Lemma list_inv_fold (lines : list str) :
  forall st done,
    list_inv st done -> list_inv (fold_left listStep lines st) (done ++ lines).
Proof.
  induction lines as [|line lines IH]; intros st done Hinv.
  - rewrite app_nil_r. exact Hinv.
  - cbn [fold_left].
    replace (done ++ line :: lines) with ((done ++ [line]) ++ lines)
      by (rewrite <- app_assoc; reflexivity).
    apply IH, list_inv_step, Hinv.
Qed.

(** X22. The list markup is well nested and loses no line.  The pieces
    [processListsToHtml] joins are those of a sequence of blocks, each
    a run of text lines joined by line-break tags or a list with its
    opening tag, its items and its closing tag of the same type; no
    block is empty, no two neighbours are of the same kind, every
    indent level is at most 8; and the blocks hold every line of the
    input once, in order, as the item or the text it was taken for. *)
Theorem lists_are_well_nested :
  forall text : str,
    exists blocks : list block,
      processListsToHtml text
      = join newline (map render (flat_map piecesOf blocks))
      /\ Forall block_ok blocks
      /\ separated blocks
      /\ flat_map entriesOf blocks = map classifyLine (split newline text).
Proof.
  intros text. unfold processListsToHtml, listPieces.
  set (start := {| processedLines := []; currentList := None;
                   nonListBuffer := [] |}).
  assert (H0 : list_inv start []).
  { exists []. split; [constructor|]. split; [exact I|].
    cbn [currentList start processedLines nonListBuffer].
    split; [reflexivity|]. split; [intros [|x pre] a H; discriminate|].
    split; reflexivity. }
  pose proof (@list_inv_fold (split newline text) start [] H0) as Hinv.
  cbn [app] in Hinv.
  set (st := fold_left listStep (split newline text) start) in *.
  destruct Hinv as (blocks & Hok & Hsep & Hst).
  destruct (currentList st) as [t|] eqn:Hcur.
  - destruct Hst as (Hbuf & items & Hne & Hlv & Hproc & Hlast & Hent).
    exists (blocks ++ [ListBlock t items]).
    unfold flushNonListBuffer. cbn [nonListBuffer processedLines].
    rewrite Hbuf. cbn [processedLines].
    split.
    { rewrite Hproc, flat_map_snoc. cbn [piecesOf]. reassoc. }
    split; [apply Forall_app; split;
            [exact Hok|constructor; [split; assumption|constructor]]|].
    split; [apply separated_snoc; assumption|].
    rewrite flat_map_snoc. cbn [entriesOf]. exact Hent.
  - destruct Hst as (Hproc & Hlast & Hempty & Hent).
    unfold flushNonListBuffer.
    destruct (nonListBuffer st) as [|l0 buffer] eqn:Hbuf.
    + exists blocks. rewrite Hproc.
      split; [reflexivity|]. split; [exact Hok|]. split; [exact Hsep|].
      cbn [map] in Hent. rewrite app_nil_r in Hent. exact Hent.
    + exists (blocks ++ [TextBlock (l0 :: buffer)]).
      cbn [processedLines]. rewrite Hproc, !flat_map_snoc.
      split; [reflexivity|].
      split; [apply Forall_app; split;
              [exact Hok|constructor; [discriminate|constructor]]|].
      split; [apply separated_snoc; assumption|].
      cbn [entriesOf]. exact Hent.
Qed.

(* ================================================================== *)
(** * [ContactLinkExtractor.parseContactName] *)
(* ================================================================== *)

Record ContactNameParts : Type := {
  np_firstName : str;
  np_lastName : str;
  np_fullName : str
}.

Definition parseContactName (linkText : str) : ContactNameParts :=
  let cleanName := trim (dropLeadingAt linkText) in
  let nameParts := split (js " ") cleanName in
  let firstName := hd [] nameParts in
  let lastName := join (js " ") (tl nameParts) in
  {| np_firstName := firstName;
     np_lastName := lastName;
     np_fullName := cleanName |}.

(** ** Splitting at a character and joining again *)

Lemma split_go_char (a : char) (cur : str) (x : char) (s : str) :
  split_go [a] 0 cur (x :: s)
  = if N.eqb a x then rev cur :: split_go [a] 0 [] s
    else split_go [a] 0 (x :: cur) s.
Proof.
  cbn [split_go startsWith length Nat.sub].
  destruct (N.eqb a x); destruct s; reflexivity.
Qed.

Lemma forallb_reverse {A} (p : A -> bool) (l : list A) :
  forallb p (rev l) = forallb p l.
Proof.
  induction l as [|x l IH]; [reflexivity|].
  cbn [rev forallb]. rewrite forallb_app, IH. cbn [forallb].
  rewrite andb_true_r. apply andb_comm.
Qed.

Lemma split_go_cons (a : char) (s : str) :
  forall cur, exists piece more,
    split_go [a] 0 cur s = piece :: more
    /\ (forallb (fun c => negb (N.eqb a c)) cur = true ->
        forallb (fun c => negb (N.eqb a c)) piece = true).
Proof.
  induction s as [|x s IH]; intros cur.
  - exists (rev cur), []. split; [reflexivity|].
    intros H. rewrite forallb_reverse. exact H.
  - rewrite split_go_char. destruct (N.eqb a x) eqn:E.
    + exists (rev cur), (split_go [a] 0 [] s). split; [reflexivity|].
      intros H. rewrite forallb_reverse. exact H.
    + destruct (IH (x :: cur)) as (piece & more & Hsplit & Hpiece).
      exists piece, more. split; [exact Hsplit|].
      intros H. apply Hpiece. cbn [forallb]. rewrite E, H. reflexivity.
Qed.

Lemma join_cons (sep piece : str) (more : list str) :
  more <> [] -> join sep (piece :: more) = piece ++ sep ++ join sep more.
Proof. destruct more; [congruence|reflexivity]. Qed.

Lemma join_split_go (a : char) (s : str) :
  forall cur, join [a] (split_go [a] 0 cur s) = rev cur ++ s.
Proof.
  induction s as [|x s IH]; intros cur.
  - cbn [split_go join]. rewrite app_nil_r. reflexivity.
  - rewrite split_go_char. destruct (N.eqb a x) eqn:E.
    + apply N.eqb_eq in E. subst x.
      destruct (split_go_cons a s []) as (piece & more & Hsplit & _).
      rewrite join_cons by (rewrite Hsplit; discriminate).
      rewrite (IH []). reflexivity.
    + rewrite (IH (x :: cur)). cbn [rev]. rewrite <- app_assoc. reflexivity.
Qed.

(** ** The ends of a trimmed string *)

Lemma trimEnd_last (s u : str) (x : char) :
  trimEnd s = u ++ [x] -> is_ws x = false.
Proof.
  unfold trimEnd. intros H. apply (f_equal (@rev char)) in H.
  rewrite rev_involutive, rev_app_distr in H. cbn [rev app] in H.
  pose proof (trimStart_head (rev s)) as Hh. rewrite H in Hh. exact Hh.
Qed.

Lemma trim_first (s v : str) (x : char) :
  trim s = x :: v -> is_ws x = false.
Proof.
  unfold trim. pose proof (trimStart_head s) as Hh.
  destruct (trimStart s) as [|y w]; [discriminate|].
  pose proof (@trimEnd_app [] w y Hh) as E. cbn [app] in E. rewrite E.
  intros H. injection H as <- _. exact Hh.
Qed.

(** X23. The parts [parseContactName] returns fit together.  The full
    name is the link text without a leading at sign, trimmed; the first
    name holds no space and is empty only when the full name is; and
    the full name is the first name when the last name is empty, and
    first name, one space, last name otherwise. *)
Theorem parsed_name_parts_fit :
  forall linkText : str,
    let parts := parseContactName linkText in
    np_fullName parts = trim (dropLeadingAt linkText)
    /\ forallb (fun c => negb (N.eqb 32 c)) (np_firstName parts) = true
    /\ (np_firstName parts = [] <-> np_fullName parts = [])
    /\ np_fullName parts
       = match np_lastName parts with
         | [] => np_firstName parts
         | _ :: _ => np_firstName parts ++ js " " ++ np_lastName parts
         end.
Proof.
  intros linkText parts. subst parts. unfold parseContactName.
  cbn [np_firstName np_lastName np_fullName].
  remember (trim (dropLeadingAt linkText)) as cleanName eqn:Hclean.
  change (js " ") with (@cons char 32%N (@nil char)).
  change (split (@cons char 32%N (@nil char)) cleanName)
    with (split_go (@cons char 32%N (@nil char)) 0 [] cleanName).
  destruct (split_go_cons 32%N cleanName []) as (piece & more & Hsplit & Hp).
  pose proof (join_split_go 32%N cleanName []) as Hjoin.
  rewrite Hsplit in Hjoin. rewrite !Hsplit. cbn [hd tl rev app] in *.
  set (sp := @cons char 32%N (@nil char)) in *.
  split; [reflexivity|]. split; [apply Hp; reflexivity|].
  assert (Hfull : cleanName
                  = match join sp more with
                    | [] => piece
                    | _ :: _ => piece ++ sp ++ join sp more
                    end).
  { destruct more as [|m1 more'].
    - cbn [join] in *. symmetry. exact Hjoin.
    - rewrite join_cons in Hjoin by discriminate.
      destruct (join sp (m1 :: more')) as [|y l] eqn:El.
      + exfalso. symmetry in Hjoin. rewrite Hclean in Hjoin.
        unfold trim in Hjoin. apply trimEnd_last in Hjoin. discriminate.
      + symmetry. exact Hjoin. }
  split; [|exact Hfull].
  split.
  - intros ->. rewrite Hfull. destruct (join sp more) as [|y l] eqn:El;
      [reflexivity|].
    exfalso. cbn [app sp] in Hfull. rewrite Hclean in Hfull.
    apply trim_first in Hfull. discriminate.
  - intros Hc. rewrite Hc in Hfull.
    destruct (join sp more); [symmetry; exact Hfull|].
    destruct piece; discriminate.
Qed.

(* ================================================================== *)
(** * [src/utils/debug-logger.ts] *)
(* ================================================================== *)

Inductive LogLevel : Type := LevelInfo | LevelError | LevelDebug | LevelApi.

Section DebugLogger.

(** The values passed as [details]. *)
Variable details : Type.

Record LogEntry : Type := {
  le_timestamp : str;
  le_level : LogLevel;
  le_message : str;
  le_details : option details
}.

(** [this.logs.slice(-n)]. *)
Definition sliceLast (n : nat) (l : list LogEntry) : list LogEntry :=
  skipn (length l - n) l.

(** [log]; [now] is the text of [new Date().toISOString()].  The copy
    written to the console in debug mode is left out. *)
Definition log (now : str) (level : LogLevel) (message : str)
    (d : option details) (logs : list LogEntry) : list LogEntry :=
  let entry := {| le_timestamp := now; le_level := level;
                  le_message := message; le_details := d |} in
  let logs := logs ++ [entry] in
  if Nat.ltb 1000 (length logs) then sliceLast 1000 logs else logs.

(** The constructor. *)
Definition newLogger (now : str) : list LogEntry :=
  log now LevelInfo (js "Dex Contacts plugin initialized") None [].

Definition clearLogs (now : str) (logs : list LogEntry) : list LogEntry :=
  log now LevelInfo (js "Debug logs cleared") None [].

(** A call on the logger after its construction. *)
Inductive LoggerCall : Type :=
| CallLog (now : str) (level : LogLevel) (message : str) (d : option details)
| CallClearLogs (now : str).

Definition loggerStep (logs : list LogEntry) (call : LoggerCall)
  : list LogEntry :=
  match call with
  | CallLog now level message d => log now level message d logs
  | CallClearLogs now => clearLogs now logs
  end.

(** Every entry written since the logger was made or last cleared, the
    entry that says so included. *)
Definition written (entries : list LogEntry) (call : LoggerCall)
  : list LogEntry :=
  match call with
  | CallLog now level message d =>
      entries ++ [{| le_timestamp := now; le_level := level;
                     le_message := message; le_details := d |}]
  | CallClearLogs now =>
      [{| le_timestamp := now; le_level := LevelInfo;
          le_message := js "Debug logs cleared"; le_details := None |}]
  end.

Lemma sliceLast_all (n : nat) (l : list LogEntry) :
  length l <= n -> sliceLast n l = l.
Proof.
  intros H. unfold sliceLast. replace (length l - n) with 0 by lia.
  reflexivity.
Qed.

Lemma sliceLast_snoc (n : nat) (l : list LogEntry) (e : LogEntry) :
  sliceLast (S n) (sliceLast (S n) l ++ [e]) = sliceLast (S n) (l ++ [e]).
Proof.
  unfold sliceLast. rewrite !length_app, length_skipn. cbn [length].
  destruct (Nat.le_gt_cases (length l) (S n)) as [Hle|Hgt].
  - replace (length l - S n) with 0 by lia. cbn [skipn].
    rewrite Nat.sub_0_r. reflexivity.
  - replace (length l - (length l - S n) + 1 - S n) with 1 by lia.
    replace (length l + 1 - S n) with (S (length l - S n)) by lia.
    rewrite skipn_app, length_skipn.
    replace (1 - (length l - (length l - S n))) with 0 by lia.
    rewrite (skipn_app (S (length l - S n)) l).
    replace (S (length l - S n) - length l) with 0 by lia.
    f_equal. rewrite skipn_skipn. f_equal.
Qed.

(** X24. The logger keeps the newest thousand entries.  After its
    construction and any calls of [log] and [clearLogs], the log holds
    the last 1000 of the entries written since it was made or last
    cleared, in the order they were written; it is never empty and
    never longer than 1000. *)
Theorem logger_keeps_newest_entries :
  forall (start : str) (calls : list LoggerCall),
    let logs := fold_left loggerStep calls (newLogger start) in
    let entries := fold_left written calls (newLogger start) in
    logs = sliceLast 1000 entries
    /\ 1 <= length logs <= 1000.
Proof.
  intros start calls.
  assert (Hgen : forall logs0 entries0,
            logs0 = sliceLast 1000 entries0 -> 1 <= length entries0 ->
            fold_left loggerStep calls logs0
            = sliceLast 1000 (fold_left written calls entries0)
            /\ 1 <= length (fold_left written calls entries0)).
  { induction calls as [|call calls IH]; intros logs0 entries0 H0 Hlen.
    - split; assumption.
    - cbn [fold_left]. apply IH.
      + destruct call as [now level message d|now];
          cbn [loggerStep written]; unfold clearLogs, log.
        * set (e := Build_LogEntry now level message d).
          rewrite H0.
          destruct (Nat.ltb_spec 1000 (length (sliceLast 1000 entries0 ++ [e])))
            as [Hlt|Hge].
          -- apply sliceLast_snoc.
          -- rewrite <- (@sliceLast_all 1000 (sliceLast 1000 entries0 ++ [e]))
               by exact Hge.
             apply sliceLast_snoc.
        * reflexivity.
      + destruct call; cbn [written]; [rewrite length_app|]; cbn [length]; lia. }
  destruct (Hgen (newLogger start) (newLogger start)) as [Hlogs Hlen];
    [reflexivity|cbn; lia|].
  cbn zeta. split; [exact Hlogs|].
  rewrite Hlogs. unfold sliceLast. rewrite length_skipn. lia.
Qed.

End DebugLogger.

(** ** Vault links in [findContactsInLine] *)

(** The vault link [onContactSelected] writes: a path, a bar, a display
    text. *)
Definition vaultLinkWithDisplay (path display : str) : str :=
  js "[[" ++ path ++ js "|" ++ display ++ js "]]".

(** The second pattern at a vault link with a display text: it matches
    when the path holds an at sign, capturing the path and the display
    text, and fails otherwise. *)
Lemma rmatch_FIND_VAULT_LINK (path display post : str) :
  forallb (none_of (js "]|")) path = true ->
  forallb (none_of (js "]")) display = true ->
  rmatch FIND_VAULT_LINK (vaultLinkWithDisplay path display ++ post) no_caps
    accept
  = if existsb (eqc 64%N) path
    then Some (post, set_cap 2 display (set_cap 1 path no_caps))
    else None.
Proof.
  intros Hp Hd. unfold FIND_VAULT_LINK, vaultLinkWithDisplay.
  rewrite <- !app_assoc. rewrite rmatch_Seq, rmatch_Lit.
  rewrite rmatch_Seq, rmatch_Grp.
  set (tail := js "|" ++ display ++ js "]]" ++ post).
  rewrite rmatch_around_at.
  - destruct (existsb (eqc 64%N) path); [|reflexivity].
    rewrite firstn_prefix. unfold tail.
    change (js "|" ++ display ++ js "]]" ++ post)
      with (124%N :: display ++ js "]]" ++ post).
    rewrite rmatch_Seq, rmatch_Chr_cons.
    change (one_of (js "|]") 124%N) with true. cbn iota.
    rewrite rmatch_Seq, rmatch_Grp.
    rewrite (@rmatch_star_some (none_of (js "]")) display (js "]]" ++ post)
               _ _ (post, set_cap 2 display (set_cap 1 path no_caps)));
      [reflexivity|exact Hd|reflexivity|].
    rewrite rmatch_Lit. unfold accept.
    rewrite firstn_prefix. reflexivity.
  - reflexivity.
  - exact Hp.
  - reflexivity.
  - intros y t c' Hy. rewrite rmatch_Seq, rmatch_Chr_cons.
    unfold none_of in Hy. unfold one_of.
    destruct (existsb (N.eqb y) (js "|]")) eqn:E; [|reflexivity].
    exfalso. cbn in E, Hy.
    destruct (N.eqb y 124), (N.eqb y 93); cbn in *; discriminate.
Qed.

(** The first pattern finds no Dex link in a vault link. *)
Lemma rmatch_FIND_DEX_URL_LINK_miss (u post : str) :
  forallb (none_of (js "]")) u = true ->
  rmatch FIND_DEX_URL_LINK (js "[" ++ u ++ js "]]" ++ post) no_caps accept
  = None.
Proof.
  intros Hu. unfold FIND_DEX_URL_LINK.
  rewrite rmatch_Seq, rmatch_Lit, rmatch_Seq, rmatch_Grp.
  assert (Hk : forall (c : caps) (t : str),
             rmatch
               (Lit (js "](https://getdex.com/appv3/contacts/details/")
                ## Grp 2 (Plus (Chr (none_of (js ")")))) ## Lit (js ")"))
               (93%N :: 93%N :: t) c accept = None).
  { intros c t. apply rmatch_Lit_miss. reflexivity. }
  rewrite rmatch_around_at.
  - destruct (existsb (eqc 64%N) u); [|reflexivity].
    change (js "]]" ++ post) with (93%N :: 93%N :: post). apply Hk.
  - reflexivity.
  - exact Hu.
  - reflexivity.
  - intros y t c' Hy. apply rmatch_Lit_miss.
    change (js "](https://getdex.com/appv3/contacts/details/")
      with (93%N :: js "(https://getdex.com/appv3/contacts/details/").
    cbn [startsWith]. unfold none_of in Hy. cbn in Hy.
    rewrite N.eqb_sym. destruct (N.eqb y 93); [discriminate|reflexivity].
Qed.

(** What the two global patterns find on a line whose only opening
    brackets are those of one vault link with a display text. *)
Lemma matchAll_one_vault_link (pre path display post : str) :
  plain path = true -> forallb (none_of (js "|")) path = true ->
  plain display = true ->
  forallb (none_of (js "[")) pre = true ->
  forallb (none_of (js "[")) post = true ->
  matchAll FIND_DEX_URL_LINK
    (pre ++ vaultLinkWithDisplay path display ++ post) = []
  /\ matchAll FIND_VAULT_LINK
       (pre ++ vaultLinkWithDisplay path display ++ post)
     = if existsb (eqc 64%N) path
       then [set_cap 2 display (set_cap 1 path no_caps)] else [].
Proof.
  intros Hp Hbar Hd Hpre Hpost.
  set (T := path ++ js "|" ++ display ++ js "]]" ++ post).
  assert (Hline : pre ++ vaultLinkWithDisplay path display ++ post
                  = pre ++ (91%N : char) :: (91%N : char) :: T).
  { unfold vaultLinkWithDisplay, T. rewrite <- !app_assoc. reflexivity. }
  assert (HT : forallb (none_of (js "[")) T = true).
  { unfold T. rewrite !forallb_app, Hpost.
    rewrite (@plain_none_of (js "[") path)
      by (first [exact Hp|cbn; intros ? ?; cbn in *; tauto]).
    rewrite (@plain_none_of (js "[") display)
      by (first [exact Hd|cbn; intros ? ?; cbn in *; tauto]).
    reflexivity. }
  assert (Hp1 : forallb (none_of (js "]")) path = true).
  { apply plain_none_of; [cbn; intros ? ?; cbn in *; tauto|exact Hp]. }
  assert (Hd1 : forallb (none_of (js "]")) display = true).
  { apply plain_none_of; [cbn; intros ? ?; cbn in *; tauto|exact Hd]. }
  assert (Hp2 : forallb (none_of (js "]|")) path = true).
  { clear - Hp1 Hbar. induction path as [|x l IH]; [reflexivity|].
    cbn [forallb] in *. apply andb_true_iff in Hp1, Hbar.
    destruct Hp1 as [H1 H1'], Hbar as [H2 H2'].
    rewrite (IH H2' H1'), andb_true_r.
    unfold none_of in *. cbn in *.
    destruct (N.eqb x 93), (N.eqb x 124); cbn in *; congruence. }
  assert (Hskip : forall r,
            nullable r = false ->
            (forall x, none_of (js "[") x = true -> first r x = false) ->
            exec r (pre ++ (91%N : char) :: (91%N : char) :: T)
            = shift pre (exec r ((91%N : char) :: (91%N : char) :: T))).
  { intros r Hn Hf. apply exec_skip, no_match_in_first; [exact Hn|].
    eapply forallb_impl; [|exact Hpre]. intros x Hx. cbn beta.
    rewrite (Hf x Hx). reflexivity. }
  assert (Hone : forall r,
            nullable r = false ->
            (forall x, none_of (js "[") x = true -> first r x = false) ->
            rmatch r ((91%N : char) :: T) no_caps accept = None ->
            exec r ((91%N : char) :: T) = None).
  { intros r Hn Hf Hmiss. rewrite (@exec_cons_miss r _ _ Hmiss).
    rewrite (@exec_no_bracket r T Hn Hf HT). reflexivity. }
  rewrite Hline. split.
  - unfold matchAll. cbn [matchAll_fuel].
    rewrite (Hskip FIND_DEX_URL_LINK eq_refl first_FIND_DEX_URL_LINK).
    assert (H2 : rmatch FIND_DEX_URL_LINK ((91%N : char) :: (91%N : char) :: T) no_caps accept
                 = None).
    { pose proof (@rmatch_FIND_DEX_URL_LINK_miss
                    ((91%N : char) :: path ++ js "|" ++ display) post) as H.
      change (js "[") with (@cons char 91%N (@nil char)) in H.
      cbn [app] in H. rewrite <- ?app_assoc in H. unfold T.
      apply H. cbn [forallb]. rewrite !forallb_app, Hp1, Hd1. reflexivity. }
    assert (H1 : rmatch FIND_DEX_URL_LINK ((91%N : char) :: T) no_caps accept = None).
    { pose proof (@rmatch_FIND_DEX_URL_LINK_miss
                    (path ++ js "|" ++ display) post) as H.
      change (js "[") with (@cons char 91%N (@nil char)) in H.
      cbn [app] in H. rewrite <- ?app_assoc in H. unfold T.
      apply H. rewrite !forallb_app, Hp1, Hd1. reflexivity. }
    rewrite (@exec_cons_miss FIND_DEX_URL_LINK _ _ H2).
    rewrite (Hone FIND_DEX_URL_LINK eq_refl first_FIND_DEX_URL_LINK H1).
    reflexivity.
  - unfold matchAll.
    pose proof (@rmatch_FIND_VAULT_LINK path display post Hp2 Hd1) as Hm.
    unfold vaultLinkWithDisplay in Hm. rewrite <- !app_assoc in Hm.
    change (js "[[" ++ path ++ js "|" ++ display ++ js "]]" ++ post)
      with ((91%N : char) :: (91%N : char) :: T) in Hm.
    assert (H1 : rmatch FIND_VAULT_LINK ((91%N : char) :: T) no_caps accept = None).
    { unfold FIND_VAULT_LINK. apply rmatch_Lit_miss.
      change (js "[[") with [91%N; 91%N]. cbn [startsWith].
      rewrite N.eqb_refl. destruct T as [|y t]; [reflexivity|].
      cbn [forallb] in HT. apply andb_true_iff in HT.
      cbn [startsWith andb].
      rewrite (@no_bracket_not_91 y (proj1 HT)). reflexivity. }
    destruct (existsb (eqc 64%N) path).
    + cbn [matchAll_fuel].
      rewrite (Hskip FIND_VAULT_LINK eq_refl first_FIND_VAULT_LINK).
      rewrite (@exec_here _ _ _ _ Hm). cbn [shift before after groups].
      rewrite app_nil_r.
      replace (Nat.ltb (length pre + length post)
                 (length (pre ++ (91%N : char) :: (91%N : char) :: T))) with true.
      2: { symmetry. apply Nat.ltb_lt. unfold T.
           rewrite !length_app. cbn [length]. rewrite !length_app.
           cbn [length js]. lia. }
      destruct (length (pre ++ (91%N : char) :: (91%N : char) :: T)) as [|n] eqn:El.
      { exfalso. rewrite length_app in El. cbn [length] in El. lia. }
      cbn [matchAll_fuel].
      rewrite (@exec_no_bracket FIND_VAULT_LINK post eq_refl
                 first_FIND_VAULT_LINK Hpost).
      reflexivity.
    + cbn [matchAll_fuel].
      rewrite (Hskip FIND_VAULT_LINK eq_refl first_FIND_VAULT_LINK).
      rewrite (@exec_cons_miss FIND_VAULT_LINK _ _ Hm).
      rewrite (Hone FIND_VAULT_LINK eq_refl first_FIND_VAULT_LINK H1).
      reflexivity.
Qed.

(** The test [findContactsInLine] finds the contact of a vault link
    with. *)
Definition nameMatches (toLowerCase : str -> str) (name : str)
    (c : ContactRecord) : bool :=
  let cleanName := trim (removeFirstAt name) in
  includes (toLowerCase (c_name c)) (toLowerCase cleanName)
  || includes (toLowerCase (c_firstName c)) (toLowerCase cleanName).

(** X25. In a vault link the contact is found by name, not by the id of
    the comment.  On a line whose only opening brackets are those of one
    vault link with a path, a bar and a display text,
    [findContactsInLine] returns nothing when the path holds no at sign;
    otherwise it returns the first contact of the list whose lower-cased
    name or first name contains the lower-cased display text (the path,
    if the display text is empty) without its first at sign and
    trimmed, whatever follows the link. *)
Theorem vault_links_resolve_by_name :
  forall (toLowerCase : str -> str) (contacts : list ContactRecord)
         (pre path display post : str),
    plain path = true -> forallb (none_of (js "|")) path = true ->
    plain display = true ->
    forallb (none_of (js "[")) pre = true ->
    forallb (none_of (js "[")) post = true ->
    findContactsInLine toLowerCase contacts
      (pre ++ vaultLinkWithDisplay path display ++ post)
    = if existsb (N.eqb 64) path
      then match find (nameMatches toLowerCase
                         (match display with
                          | [] => path
                          | _ :: _ => display
                          end))
                   contacts with
           | Some contact => [contact]
           | None => []
           end
      else [].
Proof.
  intros toLowerCase contacts pre path display post Hp Hbar Hd Hpre Hpost.
  destruct (@matchAll_one_vault_link pre path display post Hp Hbar Hd Hpre
              Hpost) as [Hdex Hvault].
  unfold findContactsInLine. rewrite Hdex, Hvault. cbn [fold_left].
  change (existsb (eqc 64%N) path) with (existsb (N.eqb 64) path).
  destruct (existsb (N.eqb 64) path); [|reflexivity].
  cbn [fold_left]. unfold cap_text, set_cap. cbn [Nat.eqb].
  set (name := match display with [] => path | _ :: _ => display end).
  replace (if truthy (Some display) then display else path) with name
    by (unfold name; destruct display; reflexivity).
  pose proof (findIndex_find (nameMatches toLowerCase name) contacts)
    as Hfind.
  unfold nameMatches in Hfind at 1. cbn zeta in Hfind.
  destruct (findIndex _ contacts) as [i|]; cbn [pushFound has existsb].
  - destruct Hfind as [Hnth Hsome]. cbn [app flat_map]. rewrite Hnth.
    destruct (find _ contacts); [reflexivity|congruence].
  - rewrite Hfind. reflexivity.
Qed.

Definition maryAnn : ContactRecord :=
  {| c_id := js "m1"; c_name := js "Mary Ann Smith";
     c_firstName := js "Mary Ann"; c_lastName := js "Smith";
     c_company := None; c_imageUrl := None;
     c_dexUrl := js "https://getdex.com/appv3/contacts/details/m1" |}.

Definition annLee : ContactRecord :=
  {| c_id := js "a2"; c_name := js "Ann Lee";
     c_firstName := js "Ann"; c_lastName := js "Lee";
     c_company := None; c_imageUrl := None;
     c_dexUrl := js "https://getdex.com/appv3/contacts/details/a2" |}.

(** The link and the comment of one contact, and another contact whose
    name holds the display text. *)
Lemma vault_links_resolve_by_name_witness :
  findContactsInLine (fun s => s) [maryAnn; annLee]
    (js "Met " ++ vaultLinkWithDisplay (js "@Ann Lee") (js "@Ann")
     ++ js "%%dex:contact-id=a2%% today")
  = [maryAnn].
Proof.
  apply (@vault_links_resolve_by_name (fun s => s) [maryAnn; annLee]
           (js "Met ") (js "@Ann Lee") (js "@Ann")
           (js "%%dex:contact-id=a2%% today"));
    reflexivity.
Defined.


(* ================================================================== *)
(** * [cleanupDexTags] of [main.ts] *)
(* ================================================================== *)

(** Where [$] holds under flag [m]: at the end of the input and in
    front of a line terminator. *)
Definition ends_line (s : str) : bool :=
  match s with
  | [] => true
  | x :: _ => is_line_terminator x
  end.

(** The assertion [$] (flag [m]) at the end of a pattern, as the
    continuation of the match. *)
Definition at_line_end : cont :=
  fun s c => if ends_line s then Some (s, c) else None.

(** [exec] for a pattern that ends with an assertion [k]. *)
Fixpoint execWith (r : regex) (k : cont) (s : str) : option found :=
  match rmatch r s no_caps k with
  | Some (rest, c) => Some (Found [] rest c)
  | None =>
      match s with
      | [] => None
      | x :: s' =>
          match execWith r k s' with
          | Some f => Some (Found (x :: before f) (after f) (groups f))
          | None => None
          end
      end
  end.

(** [s.replace(r, '')] with flag [g] for such a pattern. *)
Fixpoint removeAllWith_fuel (fuel : nat) (r : regex) (k : cont) (s : str)
  : str :=
  match fuel with
  | O => s
  | S fuel' =>
      match execWith r k s with
      | None => s
      | Some f =>
          if Nat.ltb (length (before f) + length (after f)) (length s)
          then before f ++ removeAllWith_fuel fuel' r k (after f)
          else match after f with
               | [] => before f
               | x :: rest =>
                   before f ++ x :: removeAllWith_fuel fuel' r k rest
               end
      end
  end.

(** "/\s+$/gm" without its assertion. *)
Definition TRAILING_SPACE : regex := Plus (Chr is_ws).

(** [s.replace(/\s+$/gm, '')]. *)
Definition stripTrailingSpace (s : str) : str :=
  removeAllWith_fuel (S (length s)) TRAILING_SPACE at_line_end s.

(** The lines of a text handed to [setValue]: the editor splits at
    "\r\n", "\r" and "\n".  [cur] holds the line being read,
    reversed. *)
Fixpoint splitLines_go (cur : str) (s : str) : list str :=
  match s with
  | [] => [rev cur]
  | x :: s' =>
      if (x =? 13)%N then
        match s' with
        | y :: s'' =>
            if (y =? 10)%N then rev cur :: splitLines_go [] s''
            else rev cur :: splitLines_go [] s'
        | [] => rev cur :: splitLines_go [] s'
        end
      else if (x =? 10)%N then rev cur :: splitLines_go [] s'
      else splitLines_go (x :: cur) s'
  end.

Definition setValue (text : str) : Editor := splitLines_go [] text.

(** [getValue]: the lines joined by "\n". *)
Definition getValue (editor : Editor) : str := join newline editor.

Inductive CleanupNotice : Type :=
| RemovedDexTags (removeCount : nat)
| NoDexTagsFound.

Definition cleanupDexTags (editor : Editor) : Editor * CleanupNotice :=
  let content := getValue editor in
  let removeCount := length (matchAll MEMO_ID_CLEANUP_PATTERN content) in
  let cleanedContent :=
    if Nat.ltb 0 removeCount
    then removeAll MEMO_ID_CLEANUP_PATTERN content
    else content in
  let cleanedContent := stripTrailingSpace cleanedContent in
  if Nat.ltb 0 removeCount
  then (setValue cleanedContent, RemovedDexTags removeCount)
  else (editor, NoDexTagsFound).


(** ** A greedy star explores every prefix of the run *)

Lemma rmatch_star_chr_cons (p : char -> bool) (x : char) (t : str)
    (c : caps) (k : cont) :
  rmatch (Star (Chr p)) (x :: t) c k
  = if p x
    then match rmatch (Star (Chr p)) t c k with
         | Some st => Some st
         | None => k (x :: t) c
         end
    else k (x :: t) c.
Proof.
  rewrite !rmatch_Star. cbn [length star_loop].
  rewrite rmatch_Chr_cons. destruct (p x); [|reflexivity].
  replace (Nat.ltb (length t) (S (length t))) with true
    by (symmetry; apply Nat.ltb_lt; lia).
  reflexivity.
Qed.

Lemma rmatch_star_chr_nil (p : char -> bool) (c : caps) (k : cont) :
  rmatch (Star (Chr p)) [] c k = k [] c.
Proof. rewrite rmatch_Star. reflexivity. Qed.

(** If the continuation accepts after some run of the class, the star
    succeeds. *)
Lemma rmatch_star_complete (p : char -> bool) (l : str) :
  forall (t : str) (c : caps) (k : cont),
    forallb p l = true -> k t c <> None ->
    rmatch (Star (Chr p)) (l ++ t) c k <> None.
Proof.
  induction l as [|x l IH]; intros t c k Hl Hk.
  - cbn [app]. destruct t as [|y t]; [rewrite rmatch_star_chr_nil; exact Hk|].
    rewrite rmatch_star_chr_cons. destruct (p y); [|exact Hk].
    destruct (rmatch (Star (Chr p)) t c k); [discriminate|exact Hk].
  - cbn [forallb] in Hl. apply andb_true_iff in Hl. destruct Hl as [Hx Hl].
    cbn [app]. rewrite rmatch_star_chr_cons, Hx.
    pose proof (IH t c k Hl Hk) as H.
    destruct (rmatch (Star (Chr p)) (l ++ t) c k); [discriminate|congruence].
Qed.

(** What the star took when it succeeds: a run of the class, after
    which the continuation gave the result. *)
Lemma rmatch_star_sound (p : char -> bool) (s : str) :
  forall (c : caps) (k : cont) (st : mstate),
    rmatch (Star (Chr p)) s c k = Some st ->
    exists l t, s = l ++ t /\ forallb p l = true /\ k t c = Some st.
Proof.
  induction s as [|x s IH]; intros c k st H.
  - rewrite rmatch_star_chr_nil in H. exists [], []. repeat split. exact H.
  - rewrite rmatch_star_chr_cons in H. destruct (p x) eqn:Hx.
    + destruct (rmatch (Star (Chr p)) s c k) as [st'|] eqn:Hs.
      * injection H as <-. destruct (IH c k st' Hs) as (l & t & -> & Hl & Hk).
        exists (x :: l), t. cbn [app forallb]. rewrite Hx, Hl.
        repeat split. exact Hk.
      * exists [], (x :: s). repeat split. exact H.
    + exists [], (x :: s). repeat split. exact H.
Qed.

(** ** Matches of "\s+$" *)

Lemma trailing_match_complete (x : char) (l t : str) :
  is_ws x = true -> forallb is_ws l = true -> ends_line t = true ->
  rmatch TRAILING_SPACE (x :: l ++ t) no_caps at_line_end <> None.
Proof.
  intros Hx Hl Ht. unfold TRAILING_SPACE, Plus.
  rewrite rmatch_Seq, rmatch_Chr_cons, Hx.
  apply rmatch_star_complete; [exact Hl|].
  unfold at_line_end. rewrite Ht. discriminate.
Qed.

Lemma trailing_match_sound (s rest : str) (c : caps) :
  rmatch TRAILING_SPACE s no_caps at_line_end = Some (rest, c) ->
  exists x l,
    s = x :: l ++ rest /\ is_ws x = true /\ forallb is_ws l = true
    /\ ends_line rest = true.
Proof.
  unfold TRAILING_SPACE, Plus. rewrite rmatch_Seq.
  destruct s as [|x s]; [rewrite rmatch_Chr_nil; discriminate|].
  rewrite rmatch_Chr_cons. destruct (is_ws x) eqn:Hx; [|discriminate].
  intros H. apply rmatch_star_sound in H.
  destruct H as (l & t & -> & Hl & Hk). unfold at_line_end in Hk.
  destruct (ends_line t) eqn:Ht; [|discriminate]. injection Hk as <- _.
  exists x, l. repeat split; assumption.
Qed.

(** ** The search *)

Lemma execWith_none (r : regex) (k : cont) (s : str) :
  execWith r k s = None ->
  forall u v, s = u ++ v -> rmatch r v no_caps k = None.
Proof.
  induction s as [|x s IH]; intros H u v Huv; cbn [execWith] in H.
  - destruct u; [|discriminate]. cbn [app] in Huv. subst v.
    destruct (rmatch r [] no_caps k) as [[? ?]|]; [discriminate|reflexivity].
  - destruct (rmatch r (x :: s) no_caps k) as [[? ?]|] eqn:Hm; [discriminate|].
    destruct (execWith r k s) as [f|] eqn:He; [discriminate|].
    destruct u as [|y u]; cbn [app] in Huv.
    + subst v. exact Hm.
    + injection Huv as _ ->. apply (IH eq_refl u v eq_refl).
Qed.

Lemma execWith_some (r : regex) (k : cont) (s : str) (f : found) :
  execWith r k s = Some f ->
  exists t,
    s = before f ++ t
    /\ rmatch r t no_caps k = Some (after f, groups f)
    /\ forall u x v, before f = u ++ x :: v ->
         rmatch r (x :: v ++ t) no_caps k = None.
Proof.
  revert f. induction s as [|x s IH]; intros f H; cbn [execWith] in H.
  - destruct (rmatch r [] no_caps k) as [[rest c]|] eqn:Hm; [|discriminate].
    injection H as <-. exists []. cbn [before after groups app].
    split; [reflexivity|]. split; [exact Hm|]. intros [|] ? ? ?; discriminate.
  - destruct (rmatch r (x :: s) no_caps k) as [[rest c]|] eqn:Hm.
    + injection H as <-. exists (x :: s). cbn [before after groups app].
      split; [reflexivity|]. split; [exact Hm|].
      intros [|] ? ? ?; discriminate.
    + destruct (execWith r k s) as [g|] eqn:He; [|discriminate].
      injection H as <-. destruct (IH g eq_refl) as (t & Hs & Ht & Hno).
      exists t. cbn [before after groups].
      split; [cbn [app]; rewrite <- Hs; reflexivity|].
      split; [exact Ht|].
      intros [|y u] x' v Hb; cbn [app] in Hb; injection Hb as -> Hb.
      * subst v. rewrite <- Hs. exact Hm.
      * apply (Hno u x' v Hb).
Qed.

(** ** What is left after the replacement *)

(** No white space stands in front of a line terminator or at the end
    of the text. *)
Fixpoint tidy (s : str) : bool :=
  match s with
  | [] => true
  | x :: v => negb (is_ws x && ends_line v) && tidy v
  end.

Definition nonSpace (s : str) : str := filter (fun c => negb (is_ws c)) s.

Lemma nonSpace_ws (l : str) : forallb is_ws l = true -> nonSpace l = [].
Proof.
  induction l as [|x l IH]; [reflexivity|]. cbn [forallb nonSpace filter].
  intros H. apply andb_true_iff in H. destruct H as [Hx Hl].
  rewrite Hx. cbn [negb]. apply IH, Hl.
Qed.

Lemma nonSpace_app (a b : str) : nonSpace (a ++ b) = nonSpace a ++ nonSpace b.
Proof. apply filter_app. Qed.

Lemma line_terminator_is_ws (x : char) :
  is_line_terminator x = true -> is_ws x = true.
Proof.
  unfold is_line_terminator, is_ws. intros H.
  repeat (apply orb_true_iff in H; destruct H as [H|H]);
    apply N.eqb_eq in H; subst x; reflexivity.
Qed.

(** The text in front of the first match stays tidy when the match is
    cut out, whatever tidy text follows. *)
Lemma tidy_before (b : str) :
  forall (x : char) (l rest out : str),
    (forall u y v, b = u ++ y :: v ->
       rmatch TRAILING_SPACE (y :: v ++ x :: l ++ rest) no_caps at_line_end
       = None) ->
    is_ws x = true -> forallb is_ws l = true -> ends_line rest = true ->
    tidy out = true ->
    tidy (b ++ out) = true.
Proof.
  induction b as [|y b IH]; intros x l rest out Hno Hx Hl Hrest Hout;
    [exact Hout|].
  cbn [app tidy]. rewrite (IH x l rest out); try assumption.
  2:{ intros u y' v Hb. apply (Hno (y :: u) y' v). rewrite Hb. reflexivity. }
  rewrite andb_true_r. apply negb_true_iff.
  destruct (is_ws y) eqn:Hy; [|reflexivity]. cbn [andb].
  pose proof (Hno [] y b eq_refl) as Hmiss.
  destruct b as [|z b]; cbn [app] in *.
  - exfalso. apply (@trailing_match_complete y (x :: l) rest Hy); try assumption.
    cbn [forallb]. rewrite Hx, Hl. reflexivity.
  - cbn [ends_line]. destruct (is_line_terminator z) eqn:Hz; [|reflexivity].
    exfalso.
    apply (@trailing_match_complete y [] (z :: b ++ x :: l ++ rest) Hy);
      [reflexivity|exact Hz|exact Hmiss].
Qed.

Lemma tidy_no_match (s : str) :
  (forall u v, s = u ++ v ->
     rmatch TRAILING_SPACE v no_caps at_line_end = None) ->
  tidy s = true.
Proof.
  induction s as [|x s IH]; intros Hno; [reflexivity|].
  cbn [tidy]. rewrite IH.
  2:{ intros u v Hs. apply (Hno (x :: u) v). rewrite Hs. reflexivity. }
  rewrite andb_true_r. apply negb_true_iff.
  destruct (is_ws x) eqn:Hx; [|reflexivity]. cbn [andb].
  destruct (ends_line s) eqn:Hs; [|reflexivity]. exfalso.
  apply (@trailing_match_complete x [] s Hx); [reflexivity|exact Hs|].
  apply (Hno [] (x :: s) eq_refl).
Qed.

Lemma strip_fuel_spec :
  forall fuel s, length s < fuel ->
    tidy (removeAllWith_fuel fuel TRAILING_SPACE at_line_end s) = true
    /\ nonSpace (removeAllWith_fuel fuel TRAILING_SPACE at_line_end s)
       = nonSpace s.
Proof.
  induction fuel as [|fuel IH]; intros s Hlen; [lia|].
  cbn [removeAllWith_fuel].
  destruct (execWith TRAILING_SPACE at_line_end s) as [f|] eqn:He.
  - destruct (@execWith_some _ _ _ _ He) as (t & Hs & Hm & Hno).
    destruct (@trailing_match_sound _ _ _ Hm) as (x & l & Ht & Hx & Hl & Hrest).
    assert (Hlt : length (before f) + length (after f) < length s).
    { rewrite Hs, Ht, !length_app. cbn [length]. rewrite length_app. lia. }
    apply Nat.ltb_lt in Hlt. rewrite Hlt. apply Nat.ltb_lt in Hlt.
    destruct (IH (after f) ltac:(lia)) as [Htidy Hkeep].
    split.
    + apply (@tidy_before (before f) x l (after f)); try assumption.
      intros u y v Hb. rewrite <- Ht. apply (Hno u y v Hb).
    + rewrite nonSpace_app, Hkeep.
      replace (nonSpace s) with (nonSpace (before f ++ t))
        by (rewrite <- Hs; reflexivity).
      rewrite Ht, nonSpace_app.
      change (x :: l ++ after f) with ((x :: l) ++ after f).
      rewrite nonSpace_app, (@nonSpace_ws (x :: l)); [reflexivity|].
      cbn [forallb]. rewrite Hx, Hl. reflexivity.
  - split; [|reflexivity]. apply tidy_no_match.
    apply (@execWith_none _ _ _ He).
Qed.


(** ** The lines of a tidy text *)

Definition noTrailingSpace (line : str) : bool :=
  match rev line with
  | [] => true
  | x :: _ => negb (is_ws x)
  end.

Lemma tidy_suffix (u v : str) : tidy (u ++ v) = true -> tidy v = true.
Proof.
  induction u as [|x u IH]; [exact (fun H => H)|].
  cbn [app tidy]. intros H. apply andb_true_iff in H. apply IH, H.
Qed.

Lemma tidy_last (u : str) (x : char) (t : str) :
  tidy (u ++ x :: t) = true -> ends_line t = true -> is_ws x = false.
Proof.
  intros H Ht. apply tidy_suffix in H. cbn [tidy] in H.
  apply andb_true_iff in H. destruct H as [H _].
  rewrite Ht, andb_true_r in H. apply negb_true_iff in H. exact H.
Qed.

Lemma noTrailingSpace_rev (cur t : str) :
  tidy (rev cur ++ t) = true -> ends_line t = true ->
  noTrailingSpace (rev cur) = true.
Proof.
  intros H Ht. unfold noTrailingSpace. rewrite rev_involutive.
  destruct cur as [|x cur]; [reflexivity|].
  cbn [rev] in H. rewrite <- app_assoc in H. cbn [app] in H.
  rewrite (tidy_last _ _ _ H Ht). reflexivity.
Qed.

Lemma splitLines_tidy (t : str) :
  forall cur,
    tidy (rev cur ++ t) = true ->
    exists line rest,
      splitLines_go cur t = line :: rest
      /\ (cur <> [] -> line <> [])
      /\ (ends_line t = false -> line <> [])
      /\ noTrailingSpace line = true
      /\ forallb noTrailingSpace rest = true
      /\ forallb (fun l => negb (isEmpty l)) rest = true.
Proof.
  induction t as [|x t IH]; intros cur Htidy.
  - exists (rev cur), []. cbn [splitLines_go].
    split; [reflexivity|].
    split; [intros Hc Hr; apply Hc; destruct cur; [reflexivity|];
            apply (f_equal (@length char)) in Hr; cbn [rev] in Hr;
            rewrite length_app in Hr; cbn in Hr; lia|].
    split; [discriminate|].
    split; [apply (@noTrailingSpace_rev cur [] Htidy eq_refl)|].
    split; reflexivity.
  - assert (Hsep : is_line_terminator x = true ->
              exists line rest,
                splitLines_go [] t = line :: rest
                /\ line <> []
                /\ noTrailingSpace (rev cur) = true
                /\ noTrailingSpace line = true
                /\ forallb noTrailingSpace rest = true
                /\ forallb (fun l => negb (isEmpty l)) rest = true).
    { intros Hx.
      pose proof (tidy_suffix _ _ Htidy) as Hsuf. cbn [tidy] in Hsuf.
      apply andb_true_iff in Hsuf. destruct Hsuf as [Hpair Ht].
      rewrite (line_terminator_is_ws _ Hx) in Hpair. cbn [andb] in Hpair.
      apply negb_true_iff in Hpair.
      destruct (IH [] Ht) as (line & rest & Hsplit & _ & Hne & Hl & Hr & He).
      exists line, rest. split; [exact Hsplit|]. split; [exact (Hne Hpair)|].
      split; [apply (@noTrailingSpace_rev cur (x :: t) Htidy); exact Hx|].
      repeat split; assumption. }
    cbn [splitLines_go].
    destruct (N.eqb x 13) eqn:E13.
    + apply N.eqb_eq in E13. subst x.
      destruct (Hsep eq_refl) as (line & rest & Hsplit & Hne & Hc & Hl & Hr & He).
      assert (Hnot10 : match t with
                       | y :: _ => N.eqb y 10 = false
                       | [] => True
                       end).
      { destruct t as [|y t']; [exact I|].
        pose proof (tidy_suffix _ _ Htidy) as Hsuf. cbn [tidy] in Hsuf.
        apply andb_true_iff in Hsuf. destruct Hsuf as [Hpair _].
        change (is_ws 13%N) with true in Hpair. cbn [andb ends_line] in Hpair.
        apply negb_true_iff in Hpair. unfold is_line_terminator in Hpair.
        destruct (N.eqb y 10); [discriminate|reflexivity]. }
      exists (rev cur), (line :: rest).
      split.
      { destruct t as [|y t']; [rewrite Hsplit; reflexivity|].
        rewrite Hnot10, Hsplit. reflexivity. }
      split; [intros Hcur Hr0; apply Hcur; destruct cur; [reflexivity|];
              apply (f_equal (@length char)) in Hr0; cbn [rev] in Hr0;
              rewrite length_app in Hr0; cbn in Hr0; lia|].
      split; [discriminate|]. split; [exact Hc|].
      cbn [forallb]. rewrite Hl, Hr, He.
      destruct line; [congruence|]. repeat split.
    + destruct (N.eqb x 10) eqn:E10.
      * apply N.eqb_eq in E10. subst x.
        destruct (Hsep eq_refl)
          as (line & rest & Hsplit & Hne & Hc & Hl & Hr & He).
        exists (rev cur), (line :: rest). rewrite Hsplit.
        split; [reflexivity|].
        split; [intros Hcur Hr0; apply Hcur; destruct cur; [reflexivity|];
                apply (f_equal (@length char)) in Hr0; cbn [rev] in Hr0;
                rewrite length_app in Hr0; cbn in Hr0; lia|].
        split; [discriminate|]. split; [exact Hc|].
        cbn [forallb]. rewrite Hl, Hr, He.
        destruct line; [congruence|]. repeat split.
      * destruct (IH (x :: cur)) as (line & rest & Hsplit & Hne & _ & Hrest).
        { cbn [rev]. rewrite <- app_assoc. exact Htidy. }
        exists line, rest. split; [exact Hsplit|].
        split; [intros _; apply Hne; discriminate|].
        split; [intros _; apply Hne; discriminate|]. exact Hrest.
Qed.

(** ** The characters that are kept *)

Lemma nonSpace_join (ls : list str) :
  nonSpace (join newline ls) = concat (map nonSpace ls).
Proof.
  induction ls as [|l ls IH]; [reflexivity|].
  destruct ls as [|l' ls].
  - cbn [join map concat]. rewrite app_nil_r. reflexivity.
  - change (join newline (l :: l' :: ls))
      with (l ++ newline ++ join newline (l' :: ls)).
    rewrite !nonSpace_app, IH. reflexivity.
Qed.

Lemma nonSpace_splitLines :
  forall n t cur, length t <= n ->
    concat (map nonSpace (splitLines_go cur t)) = nonSpace (rev cur ++ t).
Proof.
  assert (Hsep : forall (x : char) (cur t : str),
            is_ws x = true ->
            nonSpace (rev cur ++ x :: t) = nonSpace (rev cur) ++ nonSpace t).
  { intros x cur t Hx. rewrite nonSpace_app. unfold nonSpace at 2.
    cbn [filter]. rewrite Hx. reflexivity. }
  induction n as [|n IH]; intros t cur Hn.
  - destruct t; [|cbn in Hn; lia]. cbn. rewrite !app_nil_r. reflexivity.
  - destruct t as [|x t]; [cbn; rewrite !app_nil_r; reflexivity|].
    cbn [length] in Hn. cbn [splitLines_go].
    destruct (N.eqb x 13) eqn:E13.
    + apply N.eqb_eq in E13. subst x.
      rewrite (Hsep 13%N cur t eq_refl).
      destruct t as [|y t'].
      * cbn. rewrite !app_nil_r. reflexivity.
      * destruct (N.eqb y 10) eqn:E10.
        -- apply N.eqb_eq in E10. subst y. cbn [map concat].
           rewrite (IH t' []) by (cbn [length] in Hn; lia).
           pose proof (Hsep 10%N [] t' eq_refl) as H10.
           cbn [rev app] in H10. rewrite H10. reflexivity.
        -- cbn [map concat]. rewrite (IH (y :: t') []) by lia. reflexivity.
    + destruct (N.eqb x 10) eqn:E10.
      * apply N.eqb_eq in E10. subst x. cbn [map concat].
        rewrite (IH t []) by lia. rewrite (Hsep 10%N cur t eq_refl).
        reflexivity.
      * rewrite (IH t (x :: cur)) by lia. cbn [rev].
        rewrite <- app_assoc. reflexivity.
Qed.

(** X26. Cleaning up the Dex tags also flattens the note.  When the
    note holds no Dex comment the document is left as it is.  When it
    holds some, the command reports how many, and in the document it
    writes no line ends in white space and no line after the first is
    empty: every blank line and every trailing space of the note is
    gone with the comments.  The characters that are not white space
    are those of the note without its comments, in order. *)
Theorem cleanup_flattens_the_note :
  forall editor : Editor,
    let result := cleanupDexTags editor in
    let found := matchAll MEMO_ID_CLEANUP_PATTERN (getValue editor) in
    match snd result with
    | NoDexTagsFound => found = [] /\ fst result = editor
    | RemovedDexTags removeCount =>
        removeCount = length found /\ 1 <= removeCount
        /\ forallb noTrailingSpace (fst result) = true
        /\ forallb (fun line => negb (isEmpty line)) (tl (fst result)) = true
        /\ nonSpace (getValue (fst result))
           = nonSpace (removeAll MEMO_ID_CLEANUP_PATTERN (getValue editor))
    end.
Proof.
  intros editor result found. subst result. unfold cleanupDexTags.
  fold found. destruct (Nat.ltb_spec 0 (length found)) as [Hpos|Hzero];
    cbn [fst snd].
  - set (text := removeAll MEMO_ID_CLEANUP_PATTERN (getValue editor)).
    destruct (@strip_fuel_spec (S (length text)) text (Nat.lt_succ_diag_r _))
      as [Htidy Hkeep].
    fold (stripTrailingSpace text) in Htidy, Hkeep.
    destruct (@splitLines_tidy (stripTrailingSpace text) [] Htidy)
      as (line & rest & Hsplit & _ & _ & Hl & Hr & He).
    unfold setValue. rewrite Hsplit. cbn [forallb tl].
    split; [reflexivity|]. split; [exact Hpos|].
    split; [rewrite Hl, Hr; reflexivity|]. split; [exact He|].
    rewrite <- Hsplit. unfold getValue at 1.
    rewrite nonSpace_join, (@nonSpace_splitLines _ _ [] (Nat.le_refl _)).
    exact Hkeep.
  - split; [|reflexivity]. destruct found; [reflexivity|cbn in Hzero; lia].
Qed.
